(** * Special abilities: registry, costs, talents and activation

    A shallow embedding of the ability module (the file headed
    "Functions related to special abilities") and of the facts about it
    that are checked below.

    Conventions.
    - C++ [int] and [unsigned int] values are integers of [Z]; [/] on them is
      [Z.quot] (truncation towards zero).  Signed overflow is undefined in
      C++, so the embedding describes the code where no overflow occurs.
    - [you], [env], [crawl_state] and [Options] are globals of the program;
      the embedding threads them as one record, [game].
    - A failed [ASSERT] or a [die] ends the program; the embedding returns
      [None] there.
    - What another module answers to a query of this one (a field of
      [you], a predicate, a helper function, a prompt) is a field of the
      record [player].
    - A call that asks another module to change the game (dec_mp,
      lose_piety, ...) is a request: it is served by a parameter,
      [perform], and recorded, in order, in the log of [game].  Messages
      are recorded in the same log.
    - The random source is a parameter as well; [game] counts the draws. *)

From Stdlib Require Import ZArith List String Ascii Bool Lia.
Import ListNotations.
Open Scope Z_scope.

(** ** Ability identities *)

(** The enumeration [ability_type] is declared in a header outside this
    file.  Every identity this file names has its own constructor, in the
    order of [Ability_List]; [ABIL_UNREGISTERED raw] stands for any other
    value of the enumeration (the file casts stored integers to
    [ability_type], so such values can reach it). *)
Inductive ability_type : Type :=
  | ABIL_NON_ABILITY
  | ABIL_SPIT_POISON
  | ABIL_BLINK
  | ABIL_BREATHE_FIRE
  | ABIL_BREATHE_FROST
  | ABIL_BREATHE_POISON
  | ABIL_BREATHE_MEPHITIC
  | ABIL_BREATHE_LIGHTNING
  | ABIL_BREATHE_POWER
  | ABIL_BREATHE_STICKY_FLAME
  | ABIL_BREATHE_STEAM
  | ABIL_TRAN_BAT
  | ABIL_SPIT_ACID
  | ABIL_FLY
  | ABIL_STOP_FLYING
  | ABIL_HELLFIRE
  | ABIL_DELAYED_FIREBALL
  | ABIL_STOP_SINGING
  | ABIL_MUMMY_RESTORATION
  | ABIL_DIG
  | ABIL_SHAFT_SELF
  | ABIL_EVOKE_BLINK
  | ABIL_RECHARGING
  | ABIL_EVOKE_BERSERK
  | ABIL_EVOKE_TURN_INVISIBLE
  | ABIL_EVOKE_TURN_VISIBLE
  | ABIL_EVOKE_FLIGHT
  | ABIL_EVOKE_FOG
  | ABIL_END_TRANSFORMATION
  | ABIL_ZIN_RECITE
  | ABIL_ZIN_VITALISATION
  | ABIL_ZIN_IMPRISON
  | ABIL_ZIN_SANCTUARY
  | ABIL_ZIN_CURE_ALL_MUTATIONS
  | ABIL_ZIN_DONATE_GOLD
  | ABIL_TSO_DIVINE_SHIELD
  | ABIL_TSO_CLEANSING_FLAME
  | ABIL_TSO_SUMMON_DIVINE_WARRIOR
  | ABIL_TSO_BLESS_WEAPON
  | ABIL_KIKU_RECEIVE_CORPSES
  | ABIL_KIKU_TORMENT
  | ABIL_KIKU_GIFT_NECRONOMICON
  | ABIL_KIKU_BLESS_WEAPON
  | ABIL_YRED_INJURY_MIRROR
  | ABIL_YRED_ANIMATE_REMAINS
  | ABIL_YRED_RECALL_UNDEAD_SLAVES
  | ABIL_YRED_ANIMATE_DEAD
  | ABIL_YRED_DRAIN_LIFE
  | ABIL_YRED_ENSLAVE_SOUL
  | ABIL_OKAWARU_HEROISM
  | ABIL_OKAWARU_FINESSE
  | ABIL_MAKHLEB_MINOR_DESTRUCTION
  | ABIL_MAKHLEB_LESSER_SERVANT_OF_MAKHLEB
  | ABIL_MAKHLEB_MAJOR_DESTRUCTION
  | ABIL_MAKHLEB_GREATER_SERVANT_OF_MAKHLEB
  | ABIL_SIF_MUNA_CHANNEL_ENERGY
  | ABIL_SIF_MUNA_FORGET_SPELL
  | ABIL_TROG_BURN_SPELLBOOKS
  | ABIL_TROG_BERSERK
  | ABIL_TROG_REGEN_MR
  | ABIL_TROG_BROTHERS_IN_ARMS
  | ABIL_ELYVILON_LIFESAVING
  | ABIL_ELYVILON_LESSER_HEALING
  | ABIL_ELYVILON_HEAL_OTHER
  | ABIL_ELYVILON_PURIFICATION
  | ABIL_ELYVILON_GREATER_HEALING
  | ABIL_ELYVILON_DIVINE_VIGOUR
  | ABIL_LUGONU_ABYSS_EXIT
  | ABIL_LUGONU_BEND_SPACE
  | ABIL_LUGONU_BANISH
  | ABIL_LUGONU_CORRUPT
  | ABIL_LUGONU_ABYSS_ENTER
  | ABIL_LUGONU_BLESS_WEAPON
  | ABIL_NEMELEX_TRIPLE_DRAW
  | ABIL_NEMELEX_DEAL_FOUR
  | ABIL_NEMELEX_STACK_FIVE
  | ABIL_BEOGH_SMITING
  | ABIL_BEOGH_RECALL_ORCISH_FOLLOWERS
  | ABIL_BEOGH_GIFT_ITEM
  | ABIL_JIYVA_CALL_JELLY
  | ABIL_JIYVA_JELLY_PARALYSE
  | ABIL_JIYVA_SLIMIFY
  | ABIL_JIYVA_CURE_BAD_MUTATION
  | ABIL_FEDHAS_EVOLUTION
  | ABIL_FEDHAS_SUNLIGHT
  | ABIL_FEDHAS_PLANT_RING
  | ABIL_FEDHAS_SPAWN_SPORES
  | ABIL_FEDHAS_RAIN
  | ABIL_CHEIBRIADOS_TIME_BEND
  | ABIL_CHEIBRIADOS_DISTORTION
  | ABIL_CHEIBRIADOS_SLOUCH
  | ABIL_CHEIBRIADOS_TIME_STEP
  | ABIL_ASHENZARI_SCRYING
  | ABIL_ASHENZARI_TRANSFER_KNOWLEDGE
  | ABIL_ASHENZARI_END_TRANSFER
  | ABIL_DITHMENOS_SHADOW_STEP
  | ABIL_DITHMENOS_SHADOW_FORM
  | ABIL_RU_DRAW_OUT_POWER
  | ABIL_RU_POWER_LEAP
  | ABIL_RU_APOCALYPSE
  | ABIL_RU_SACRIFICE_PURITY
  | ABIL_RU_SACRIFICE_WORDS
  | ABIL_RU_SACRIFICE_DRINK
  | ABIL_RU_SACRIFICE_ESSENCE
  | ABIL_RU_SACRIFICE_HEALTH
  | ABIL_RU_SACRIFICE_STEALTH
  | ABIL_RU_SACRIFICE_ARTIFICE
  | ABIL_RU_SACRIFICE_LOVE
  | ABIL_RU_SACRIFICE_COURAGE
  | ABIL_RU_SACRIFICE_ARCANA
  | ABIL_RU_SACRIFICE_NIMBLENESS
  | ABIL_RU_SACRIFICE_DURABILITY
  | ABIL_RU_SACRIFICE_HAND
  | ABIL_RU_SACRIFICE_EXPERIENCE
  | ABIL_RU_SACRIFICE_SKILL
  | ABIL_RU_SACRIFICE_EYE
  | ABIL_RU_SACRIFICE_RESISTANCE
  | ABIL_RU_REJECT_SACRIFICES
  | ABIL_GOZAG_POTION_PETITION
  | ABIL_GOZAG_CALL_MERCHANT
  | ABIL_GOZAG_BRIBE_BRANCH
  | ABIL_QAZLAL_UPHEAVAL
  | ABIL_QAZLAL_ELEMENTAL_FORCE
  | ABIL_QAZLAL_DISASTER_AREA
  | ABIL_PAKELLAS_DEVICE_SURGE
  | ABIL_PAKELLAS_QUICK_CHARGE
  | ABIL_PAKELLAS_SUPERCHARGE
  | ABIL_STOP_RECALL
  | ABIL_RENOUNCE_RELIGION
  | ABIL_CONVERT_TO_BEOGH
  | ABIL_UNREGISTERED (raw : Z).

Lemma ability_eq_dec : forall a b : ability_type, {a = b} + {a <> b}.
Proof. decide equality. apply Z.eq_dec. Defined.

Definition ability_eqb (a b : ability_type) : bool :=
  if ability_eq_dec a b then true else false.

Lemma ability_eqb_eq : forall a b, ability_eqb a b = true <-> a = b.
Proof.
  intros a b; unfold ability_eqb; destruct (ability_eq_dec a b); split;
    intros; congruence.
Qed.

Lemma ability_eqb_refl : forall a, ability_eqb a a = true.
Proof. intro a; apply ability_eqb_eq; reflexivity. Qed.

Lemma ability_eqb_neq : forall a b, ability_eqb a b = false <-> a <> b.
Proof.
  intros a b; unfold ability_eqb; destruct (ability_eq_dec a b); split;
    intros; congruence.
Qed.

(** ** Ability flags ([enum class abflag], a bit field) *)

Module abflag.
Definition NONE           : Z := 0x00000000.
Definition BREATH         : Z := 0x00000001. (* ability uses DUR_BREATH_WEAPON *)
Definition DELAY          : Z := 0x00000002. (* ability has its own delay *)
Definition PAIN           : Z := 0x00000004. (* ability must hurt player *)
Definition PIETY          : Z := 0x00000008. (* ability has its own piety cost *)
Definition EXHAUSTION     : Z := 0x00000010. (* fails if you.exhausted *)
Definition INSTANT        : Z := 0x00000020. (* doesn't take time to use *)
Definition PERMANENT_HP   : Z := 0x00000040. (* costs permanent HPs *)
Definition PERMANENT_MP   : Z := 0x00000080. (* costs permanent MPs *)
Definition CONF_OK        : Z := 0x00000100. (* can use even if confused *)
Definition FRUIT          : Z := 0x00000200. (* ability requires fruit *)
Definition VARIABLE_FRUIT : Z := 0x00000400. (* requires fruit or piety *)
Definition VARIABLE_MP    : Z := 0x00000800. (* costs a variable amount of MP *)
Definition SKILL_DRAIN    : Z := 0x00080000. (* drains skill levels *)
Definition GOLD           : Z := 0x00100000. (* costs gold *)
Definition SACRIFICE      : Z := 0x00200000. (* sacrifice (Ru) *)
Definition HOSTILE        : Z := 0x00400000. (* failure summons a hostile *)
End abflag.

Definition ability_flags := Z.

(** [flags & flag], used as a condition. *)
Definition has_flag (flags flag : ability_flags) : bool :=
  negb (Z.land flags flag =? 0).

(** [testbits(flags, test)]: all bits of [test] are set in [flags]. *)
Definition testbits (flags test : ability_flags) : bool :=
  Z.land flags test =? test.

(** ** Cost model *)

Record generic_cost : Type := mk_generic_cost
  { base : Z; add : Z; rolls : Z }.

(** [generic_cost(int num)], the implicit one-argument constructor. *)
Definition generic_cost_of (num : Z) : generic_cost :=
  mk_generic_cost num (if num =? 0 then 0 else Z.quot (num + 1) 2 + 1) 1.

(** [generic_cost::fixed]. *)
Definition generic_cost_fixed (fixed : Z) : generic_cost :=
  mk_generic_cost fixed 0 1.

(** [generic_cost::range(low, high, _rolls = 1)]. *)
Definition generic_cost_range (low high _rolls : Z) : generic_cost :=
  mk_generic_cost low (high - low + 1) _rolls.

(** [generic_cost::operator bool]. *)
Definition generic_cost_bool (c : generic_cost) : bool :=
  (base c >? 0) || (add c >? 0).

Record scaling_cost : Type := mk_scaling_cost { value : Z }.

(** [scaling_cost(int permille)]. *)
Definition scaling_cost_of (permille : Z) : scaling_cost :=
  mk_scaling_cost permille.

(** [scaling_cost::fixed]. *)
Definition scaling_cost_fixed (fixed : Z) : scaling_cost :=
  scaling_cost_of (- fixed).

(** [scaling_cost::cost(int max)]. *)
Definition scaling_cost_cost (c : scaling_cost) (max : Z) : Z :=
  if value c <? 0 then - value c
  else Z.quot (value c * max + 500) 1000.

(** [scaling_cost::operator bool]. *)
Definition scaling_cost_bool (c : scaling_cost) : bool :=
  negb (value c =? 0).

(** ** The static registry *)

Record ability_def : Type := mk_def
  { ability    : ability_type;
    name       : string;
    mp_cost    : Z;             (* magic cost of ability *)
    hp_cost    : scaling_cost;  (* hit point cost of ability *)
    food_cost  : Z;             (* + rand2avg(food_cost, 2) *)
    piety_cost : generic_cost;  (* + random2((piety_cost + 1) / 2 + 1) *)
    flags      : ability_flags  (* used for additional cost notices *) }.

(** [Ability_List].  The four numerical fields are MP, HP, food and piety;
    a bare integer in the HP column is [scaling_cost(n)] and in the piety
    column [generic_cost(n)], by the implicit constructors.
    NON_ABILITY should always come first. *)
Definition Ability_List : list ability_def :=
  [
    mk_def ABIL_NON_ABILITY "No ability" 0 (scaling_cost_of 0) 0 (generic_cost_of 0) abflag.NONE ;
    mk_def ABIL_SPIT_POISON "Spit Poison" 0 (scaling_cost_of 0) 40 (generic_cost_of 0) abflag.BREATH ;
    mk_def ABIL_BLINK "Blink" 0 (scaling_cost_of 50) 50 (generic_cost_of 0) abflag.NONE ;
    mk_def ABIL_BREATHE_FIRE "Breathe Fire" 0 (scaling_cost_of 0) 125 (generic_cost_of 0) abflag.BREATH ;
    mk_def ABIL_BREATHE_FROST "Breathe Frost" 0 (scaling_cost_of 0) 125 (generic_cost_of 0) abflag.BREATH ;
    mk_def ABIL_BREATHE_POISON "Breathe Poison Gas" 0 (scaling_cost_of 0) 125 (generic_cost_of 0) abflag.BREATH ;
    mk_def ABIL_BREATHE_MEPHITIC "Breathe Noxious Fumes" 0 (scaling_cost_of 0) 125 (generic_cost_of 0) abflag.BREATH ;
    mk_def ABIL_BREATHE_LIGHTNING "Breathe Lightning" 0 (scaling_cost_of 0) 125 (generic_cost_of 0) abflag.BREATH ;
    mk_def ABIL_BREATHE_POWER "Breathe Dispelling Energy" 0 (scaling_cost_of 0) 125 (generic_cost_of 0) abflag.BREATH ;
    mk_def ABIL_BREATHE_STICKY_FLAME "Breathe Sticky Flame" 0 (scaling_cost_of 0) 125 (generic_cost_of 0) abflag.BREATH ;
    mk_def ABIL_BREATHE_STEAM "Breathe Steam" 0 (scaling_cost_of 0) 75 (generic_cost_of 0) abflag.BREATH ;
    mk_def ABIL_TRAN_BAT "Bat Form" 2 (scaling_cost_of 0) 0 (generic_cost_of 0) abflag.NONE ;
    mk_def ABIL_SPIT_ACID "Spit Acid" 0 (scaling_cost_of 0) 125 (generic_cost_of 0) abflag.BREATH ;
    mk_def ABIL_FLY "Fly" 3 (scaling_cost_of 0) 100 (generic_cost_of 0) abflag.NONE ;
    mk_def ABIL_STOP_FLYING "Stop Flying" 0 (scaling_cost_of 0) 0 (generic_cost_of 0) abflag.NONE ;
    mk_def ABIL_HELLFIRE "Hellfire" 0 (scaling_cost_of 150) 200 (generic_cost_of 0) abflag.NONE ;
    mk_def ABIL_DELAYED_FIREBALL "Release Delayed Fireball" 0 (scaling_cost_of 0) 0 (generic_cost_of 0) abflag.INSTANT ;
    mk_def ABIL_STOP_SINGING "Stop Singing" 0 (scaling_cost_of 0) 0 (generic_cost_of 0) abflag.NONE ;
    mk_def ABIL_MUMMY_RESTORATION "Self-Restoration" 1 (scaling_cost_of 0) 0 (generic_cost_of 0) abflag.PERMANENT_MP ;
    mk_def ABIL_DIG "Dig" 0 (scaling_cost_of 0) 0 (generic_cost_of 0) abflag.INSTANT ;
    mk_def ABIL_SHAFT_SELF "Shaft Self" 0 (scaling_cost_of 0) 250 (generic_cost_of 0) abflag.DELAY ;
    mk_def ABIL_EVOKE_BLINK "Evoke Blink" 1 (scaling_cost_of 0) 50 (generic_cost_of 0) abflag.NONE ;
    mk_def ABIL_RECHARGING "Device Recharging" 1 (scaling_cost_of 0) 0 (generic_cost_of 0) abflag.PERMANENT_MP ;
    mk_def ABIL_EVOKE_BERSERK "Evoke Berserk Rage" 0 (scaling_cost_of 0) 0 (generic_cost_of 0) abflag.NONE ;
    mk_def ABIL_EVOKE_TURN_INVISIBLE "Evoke Invisibility" 2 (scaling_cost_of 0) 250 (generic_cost_of 0) abflag.NONE ;
    mk_def ABIL_EVOKE_TURN_VISIBLE "Turn Visible" 0 (scaling_cost_of 0) 0 (generic_cost_of 0) abflag.NONE ;
    mk_def ABIL_EVOKE_FLIGHT "Evoke Flight" 1 (scaling_cost_of 0) 100 (generic_cost_of 0) abflag.NONE ;
    mk_def ABIL_EVOKE_FOG "Evoke Fog" 2 (scaling_cost_of 0) 250 (generic_cost_of 0) abflag.NONE ;
    mk_def ABIL_END_TRANSFORMATION "End Transformation" 0 (scaling_cost_of 0) 0 (generic_cost_of 0) abflag.NONE ;
    mk_def ABIL_ZIN_RECITE "Recite" 0 (scaling_cost_of 0) 0 (generic_cost_of 0) abflag.BREATH ;
    mk_def ABIL_ZIN_VITALISATION "Vitalisation" 2 (scaling_cost_of 0) 0 (generic_cost_of 1) abflag.NONE ;
    mk_def ABIL_ZIN_IMPRISON "Imprison" 5 (scaling_cost_of 0) 125 (generic_cost_of 4) abflag.NONE ;
    mk_def ABIL_ZIN_SANCTUARY "Sanctuary" 7 (scaling_cost_of 0) 150 (generic_cost_of 15) abflag.NONE ;
    mk_def ABIL_ZIN_CURE_ALL_MUTATIONS "Cure All Mutations" 0 (scaling_cost_of 0) 0 (generic_cost_of 0) abflag.NONE ;
    mk_def ABIL_ZIN_DONATE_GOLD "Donate Gold" 0 (scaling_cost_of 0) 0 (generic_cost_of 0) abflag.NONE ;
    mk_def ABIL_TSO_DIVINE_SHIELD "Divine Shield" 3 (scaling_cost_of 0) 50 (generic_cost_of 2) abflag.NONE ;
    mk_def ABIL_TSO_CLEANSING_FLAME "Cleansing Flame" 5 (scaling_cost_of 0) 100 (generic_cost_of 2) abflag.NONE ;
    mk_def ABIL_TSO_SUMMON_DIVINE_WARRIOR "Summon Divine Warrior" 8 (scaling_cost_of 0) 150 (generic_cost_of 5) abflag.NONE ;
    mk_def ABIL_TSO_BLESS_WEAPON "Brand Weapon With Holy Wrath" 0 (scaling_cost_of 0) 0 (generic_cost_of 0) abflag.NONE ;
    mk_def ABIL_KIKU_RECEIVE_CORPSES "Receive Corpses" 3 (scaling_cost_of 0) 50 (generic_cost_of 2) abflag.NONE ;
    mk_def ABIL_KIKU_TORMENT "Torment" 4 (scaling_cost_of 0) 0 (generic_cost_of 8) abflag.NONE ;
    mk_def ABIL_KIKU_GIFT_NECRONOMICON "Receive Necronomicon" 0 (scaling_cost_of 0) 0 (generic_cost_of 0) abflag.NONE ;
    mk_def ABIL_KIKU_BLESS_WEAPON "Brand Weapon With Pain" 0 (scaling_cost_of 0) 0 (generic_cost_of 0) abflag.PAIN ;
    mk_def ABIL_YRED_INJURY_MIRROR "Injury Mirror" 0 (scaling_cost_of 0) 0 (generic_cost_of 0) abflag.PIETY ;
    mk_def ABIL_YRED_ANIMATE_REMAINS "Animate Remains" 2 (scaling_cost_of 0) 50 (generic_cost_of 0) abflag.NONE ;
    mk_def ABIL_YRED_RECALL_UNDEAD_SLAVES "Recall Undead Slaves" 2 (scaling_cost_of 0) 50 (generic_cost_of 0) abflag.NONE ;
    mk_def ABIL_YRED_ANIMATE_DEAD "Animate Dead" 2 (scaling_cost_of 0) 50 (generic_cost_of 0) abflag.NONE ;
    mk_def ABIL_YRED_DRAIN_LIFE "Drain Life" 6 (scaling_cost_of 0) 200 (generic_cost_of 2) abflag.NONE ;
    mk_def ABIL_YRED_ENSLAVE_SOUL "Enslave Soul" 8 (scaling_cost_of 0) 150 (generic_cost_of 4) abflag.NONE ;
    mk_def ABIL_OKAWARU_HEROISM "Heroism" 2 (scaling_cost_of 0) 50 (generic_cost_of 1) abflag.NONE ;
    mk_def ABIL_OKAWARU_FINESSE "Finesse" 5 (scaling_cost_of 0) 100 (generic_cost_of 3) abflag.NONE ;
    mk_def ABIL_MAKHLEB_MINOR_DESTRUCTION "Minor Destruction" 0 (scaling_cost_fixed 1) 20 (generic_cost_of 0) abflag.NONE ;
    mk_def ABIL_MAKHLEB_LESSER_SERVANT_OF_MAKHLEB "Lesser Servant of Makhleb" 0 (scaling_cost_fixed 4) 50 (generic_cost_of 2) abflag.HOSTILE ;
    mk_def ABIL_MAKHLEB_MAJOR_DESTRUCTION "Major Destruction" 0 (scaling_cost_fixed 6) 100 (generic_cost_range 0 1 1) abflag.NONE ;
    mk_def ABIL_MAKHLEB_GREATER_SERVANT_OF_MAKHLEB "Greater Servant of Makhleb" 0 (scaling_cost_fixed 10) 100 (generic_cost_of 5) abflag.HOSTILE ;
    mk_def ABIL_SIF_MUNA_CHANNEL_ENERGY "Channel Energy" 0 (scaling_cost_of 0) 100 (generic_cost_of 0) abflag.NONE ;
    mk_def ABIL_SIF_MUNA_FORGET_SPELL "Forget Spell" 5 (scaling_cost_of 0) 0 (generic_cost_of 8) abflag.NONE ;
    mk_def ABIL_TROG_BURN_SPELLBOOKS "Burn Spellbooks" 0 (scaling_cost_of 0) 10 (generic_cost_of 0) abflag.NONE ;
    mk_def ABIL_TROG_BERSERK "Berserk" 0 (scaling_cost_of 0) 200 (generic_cost_of 0) abflag.NONE ;
    mk_def ABIL_TROG_REGEN_MR "Trog's Hand" 0 (scaling_cost_of 0) 50 (generic_cost_of 2) abflag.NONE ;
    mk_def ABIL_TROG_BROTHERS_IN_ARMS "Brothers in Arms" 0 (scaling_cost_of 0) 100 (generic_cost_range 5 6 1) abflag.NONE ;
    mk_def ABIL_ELYVILON_LIFESAVING "Divine Protection" 0 (scaling_cost_of 0) 0 (generic_cost_of 0) abflag.NONE ;
    mk_def ABIL_ELYVILON_LESSER_HEALING "Lesser Healing" 1 (scaling_cost_of 0) 100 (generic_cost_range 0 1 1) abflag.CONF_OK ;
    mk_def ABIL_ELYVILON_HEAL_OTHER "Heal Other" 2 (scaling_cost_of 0) 250 (generic_cost_of 2) abflag.NONE ;
    mk_def ABIL_ELYVILON_PURIFICATION "Purification" 3 (scaling_cost_of 0) 300 (generic_cost_of 3) abflag.CONF_OK ;
    mk_def ABIL_ELYVILON_GREATER_HEALING "Greater Healing" 2 (scaling_cost_of 0) 250 (generic_cost_of 3) abflag.CONF_OK ;
    mk_def ABIL_ELYVILON_DIVINE_VIGOUR "Divine Vigour" 0 (scaling_cost_of 0) 600 (generic_cost_of 6) abflag.CONF_OK ;
    mk_def ABIL_LUGONU_ABYSS_EXIT "Depart the Abyss" 1 (scaling_cost_of 0) 150 (generic_cost_of 10) abflag.NONE ;
    mk_def ABIL_LUGONU_BEND_SPACE "Bend Space" 1 (scaling_cost_of 0) 50 (generic_cost_of 0) abflag.PAIN ;
    mk_def ABIL_LUGONU_BANISH "Banish" 4 (scaling_cost_of 0) 200 (generic_cost_range 3 4 1) abflag.NONE ;
    mk_def ABIL_LUGONU_CORRUPT "Corrupt" 7 (scaling_cost_fixed 5) 500 (generic_cost_of 10) abflag.NONE ;
    mk_def ABIL_LUGONU_ABYSS_ENTER "Enter the Abyss" 9 (scaling_cost_of 0) 500 (generic_cost_fixed 35) abflag.PAIN ;
    mk_def ABIL_LUGONU_BLESS_WEAPON "Brand Weapon With Distortion" 0 (scaling_cost_of 0) 0 (generic_cost_of 0) abflag.NONE ;
    mk_def ABIL_NEMELEX_TRIPLE_DRAW "Triple Draw" 2 (scaling_cost_of 0) 100 (generic_cost_of 2) abflag.NONE ;
    mk_def ABIL_NEMELEX_DEAL_FOUR "Deal Four" 8 (scaling_cost_of 0) 200 (generic_cost_of 8) abflag.NONE ;
    mk_def ABIL_NEMELEX_STACK_FIVE "Stack Five" 5 (scaling_cost_of 0) 250 (generic_cost_of 10) abflag.NONE ;
    mk_def ABIL_BEOGH_SMITING "Smiting" 3 (scaling_cost_of 0) 80 (generic_cost_fixed 3) abflag.NONE ;
    mk_def ABIL_BEOGH_RECALL_ORCISH_FOLLOWERS "Recall Orcish Followers" 2 (scaling_cost_of 0) 50 (generic_cost_of 0) abflag.NONE ;
    mk_def ABIL_BEOGH_GIFT_ITEM "Give Item to Named Follower" 0 (scaling_cost_of 0) 0 (generic_cost_of 0) abflag.NONE ;
    mk_def ABIL_JIYVA_CALL_JELLY "Request Jelly" 2 (scaling_cost_of 0) 20 (generic_cost_of 1) abflag.NONE ;
    mk_def ABIL_JIYVA_JELLY_PARALYSE "Jelly Paralyse" 3 (scaling_cost_of 0) 0 (generic_cost_of 0) abflag.PIETY ;
    mk_def ABIL_JIYVA_SLIMIFY "Slimify" 4 (scaling_cost_of 0) 100 (generic_cost_of 8) abflag.NONE ;
    mk_def ABIL_JIYVA_CURE_BAD_MUTATION "Cure Bad Mutation" 8 (scaling_cost_of 0) 200 (generic_cost_of 15) abflag.NONE ;
    mk_def ABIL_FEDHAS_EVOLUTION "Evolution" 2 (scaling_cost_of 0) 0 (generic_cost_of 0) abflag.VARIABLE_FRUIT ;
    mk_def ABIL_FEDHAS_SUNLIGHT "Sunlight" 2 (scaling_cost_of 0) 50 (generic_cost_of 0) abflag.NONE ;
    mk_def ABIL_FEDHAS_PLANT_RING "Growth" 2 (scaling_cost_of 0) 0 (generic_cost_of 0) abflag.FRUIT ;
    mk_def ABIL_FEDHAS_SPAWN_SPORES "Reproduction" 4 (scaling_cost_of 0) 100 (generic_cost_of 1) abflag.NONE ;
    mk_def ABIL_FEDHAS_RAIN "Rain" 4 (scaling_cost_of 0) 150 (generic_cost_of 4) abflag.NONE ;
    mk_def ABIL_CHEIBRIADOS_TIME_BEND "Bend Time" 3 (scaling_cost_of 0) 50 (generic_cost_of 1) abflag.NONE ;
    mk_def ABIL_CHEIBRIADOS_DISTORTION "Temporal Distortion" 4 (scaling_cost_of 0) 200 (generic_cost_of 3) abflag.INSTANT ;
    mk_def ABIL_CHEIBRIADOS_SLOUCH "Slouch" 5 (scaling_cost_of 0) 100 (generic_cost_of 8) abflag.NONE ;
    mk_def ABIL_CHEIBRIADOS_TIME_STEP "Step From Time" 10 (scaling_cost_of 0) 200 (generic_cost_of 10) abflag.NONE ;
    mk_def ABIL_ASHENZARI_SCRYING "Scrying" 4 (scaling_cost_of 0) 50 (generic_cost_of 2) abflag.INSTANT ;
    mk_def ABIL_ASHENZARI_TRANSFER_KNOWLEDGE "Transfer Knowledge" 0 (scaling_cost_of 0) 0 (generic_cost_of 10) abflag.NONE ;
    mk_def ABIL_ASHENZARI_END_TRANSFER "End Transfer Knowledge" 0 (scaling_cost_of 0) 0 (generic_cost_of 0) abflag.NONE ;
    mk_def ABIL_DITHMENOS_SHADOW_STEP "Shadow Step" 4 (scaling_cost_of 0) 0 (generic_cost_of 4) abflag.NONE ;
    mk_def ABIL_DITHMENOS_SHADOW_FORM "Shadow Form" 9 (scaling_cost_of 0) 0 (generic_cost_of 10) abflag.SKILL_DRAIN ;
    mk_def ABIL_RU_DRAW_OUT_POWER "Draw Out Power" 0 (scaling_cost_of 0) 0 (generic_cost_of 0) (Z.lor (Z.lor abflag.EXHAUSTION abflag.SKILL_DRAIN) abflag.CONF_OK) ;
    mk_def ABIL_RU_POWER_LEAP "Power Leap" 5 (scaling_cost_of 0) 0 (generic_cost_of 0) abflag.EXHAUSTION ;
    mk_def ABIL_RU_APOCALYPSE "Apocalypse" 8 (scaling_cost_of 0) 0 (generic_cost_of 0) (Z.lor abflag.EXHAUSTION abflag.SKILL_DRAIN) ;
    mk_def ABIL_RU_SACRIFICE_PURITY "Sacrifice Purity" 0 (scaling_cost_of 0) 0 (generic_cost_of 0) abflag.SACRIFICE ;
    mk_def ABIL_RU_SACRIFICE_WORDS "Sacrifice Words" 0 (scaling_cost_of 0) 0 (generic_cost_of 0) abflag.SACRIFICE ;
    mk_def ABIL_RU_SACRIFICE_DRINK "Sacrifice Drink" 0 (scaling_cost_of 0) 0 (generic_cost_of 0) abflag.SACRIFICE ;
    mk_def ABIL_RU_SACRIFICE_ESSENCE "Sacrifice Essence" 0 (scaling_cost_of 0) 0 (generic_cost_of 0) abflag.SACRIFICE ;
    mk_def ABIL_RU_SACRIFICE_HEALTH "Sacrifice Health" 0 (scaling_cost_of 0) 0 (generic_cost_of 0) abflag.SACRIFICE ;
    mk_def ABIL_RU_SACRIFICE_STEALTH "Sacrifice Stealth" 0 (scaling_cost_of 0) 0 (generic_cost_of 0) abflag.SACRIFICE ;
    mk_def ABIL_RU_SACRIFICE_ARTIFICE "Sacrifice Artifice" 0 (scaling_cost_of 0) 0 (generic_cost_of 0) abflag.SACRIFICE ;
    mk_def ABIL_RU_SACRIFICE_LOVE "Sacrifice Love" 0 (scaling_cost_of 0) 0 (generic_cost_of 0) abflag.SACRIFICE ;
    mk_def ABIL_RU_SACRIFICE_COURAGE "Sacrifice Courage" 0 (scaling_cost_of 0) 0 (generic_cost_of 0) abflag.SACRIFICE ;
    mk_def ABIL_RU_SACRIFICE_ARCANA "Sacrifice Arcana" 0 (scaling_cost_of 0) 0 (generic_cost_of 0) abflag.SACRIFICE ;
    mk_def ABIL_RU_SACRIFICE_NIMBLENESS "Sacrifice Nimbleness" 0 (scaling_cost_of 0) 0 (generic_cost_of 0) abflag.SACRIFICE ;
    mk_def ABIL_RU_SACRIFICE_DURABILITY "Sacrifice Durability" 0 (scaling_cost_of 0) 0 (generic_cost_of 0) abflag.SACRIFICE ;
    mk_def ABIL_RU_SACRIFICE_HAND "Sacrifice a Hand" 0 (scaling_cost_of 0) 0 (generic_cost_of 0) abflag.SACRIFICE ;
    mk_def ABIL_RU_SACRIFICE_EXPERIENCE "Sacrifice Experience" 0 (scaling_cost_of 0) 0 (generic_cost_of 0) abflag.SACRIFICE ;
    mk_def ABIL_RU_SACRIFICE_SKILL "Sacrifice Skill" 0 (scaling_cost_of 0) 0 (generic_cost_of 0) abflag.SACRIFICE ;
    mk_def ABIL_RU_SACRIFICE_EYE "Sacrifice an Eye" 0 (scaling_cost_of 0) 0 (generic_cost_of 0) abflag.SACRIFICE ;
    mk_def ABIL_RU_SACRIFICE_RESISTANCE "Sacrifice Resistance" 0 (scaling_cost_of 0) 0 (generic_cost_of 0) abflag.SACRIFICE ;
    mk_def ABIL_RU_REJECT_SACRIFICES "Reject Sacrifices" 0 (scaling_cost_of 0) 0 (generic_cost_of 0) abflag.NONE ;
    mk_def ABIL_GOZAG_POTION_PETITION "Potion Petition" 0 (scaling_cost_of 0) 0 (generic_cost_of 0) abflag.GOLD ;
    mk_def ABIL_GOZAG_CALL_MERCHANT "Call Merchant" 0 (scaling_cost_of 0) 0 (generic_cost_of 0) abflag.GOLD ;
    mk_def ABIL_GOZAG_BRIBE_BRANCH "Bribe Branch" 0 (scaling_cost_of 0) 0 (generic_cost_of 0) abflag.GOLD ;
    mk_def ABIL_QAZLAL_UPHEAVAL "Upheaval" 4 (scaling_cost_of 0) 0 (generic_cost_of 3) abflag.NONE ;
    mk_def ABIL_QAZLAL_ELEMENTAL_FORCE "Elemental Force" 6 (scaling_cost_of 0) 0 (generic_cost_of 6) abflag.NONE ;
    mk_def ABIL_QAZLAL_DISASTER_AREA "Disaster Area" 7 (scaling_cost_of 0) 0 (generic_cost_of 10) abflag.NONE ;
    mk_def ABIL_PAKELLAS_DEVICE_SURGE "Device Surge" 0 (scaling_cost_of 0) 100 (generic_cost_fixed 1) (Z.lor abflag.VARIABLE_MP abflag.INSTANT) ;
    mk_def ABIL_PAKELLAS_QUICK_CHARGE "Quick Charge" 0 (scaling_cost_of 0) 100 (generic_cost_of 2) abflag.NONE ;
    mk_def ABIL_PAKELLAS_SUPERCHARGE "Supercharge" 0 (scaling_cost_of 0) 0 (generic_cost_of 0) abflag.NONE ;
    mk_def ABIL_STOP_RECALL "Stop Recall" 0 (scaling_cost_of 0) 0 (generic_cost_of 0) abflag.NONE ;
    mk_def ABIL_RENOUNCE_RELIGION "Renounce Religion" 0 (scaling_cost_of 0) 0 (generic_cost_of 0) abflag.NONE ;
    mk_def ABIL_CONVERT_TO_BEOGH "Convert to Beogh" 0 (scaling_cost_of 0) 0 (generic_cost_of 0) abflag.NONE
  ].

(** [get_ability_def]: the first entry whose identity is [abil], and
    [Ability_List[0]] when the loop finds none. *)
Definition get_ability_def (abil : ability_type) : ability_def :=
  match find (fun ab_def => ability_eqb (ability ab_def) abil) Ability_List with
  | Some ab_def => ab_def
  | None => nth 0 Ability_List (mk_def ABIL_NON_ABILITY "No ability" 0
                                  (scaling_cost_of 0) 0 (generic_cost_of 0)
                                  abflag.NONE)
  end.

(** [ability_mp_cost]. *)
Definition ability_mp_cost (abil : ability_type) : Z :=
  mp_cost (get_ability_def abil).

(** [ability_name]. *)
Definition ability_name (abil : ability_type) : string :=
  name (get_ability_def abil).

(** ** Enumerations of other modules

    Only the values this file names have constructors of their own; the
    last constructor of each type stands for the others. *)

Inductive species_type : Type :=
  | SP_FORMICID | SP_FELID | SP_DEEP_DWARF | SP_VAMPIRE | SP_TENGU
  | SP_DJINNI | SP_RED_DRACONIAN | SP_BASE_DRACONIAN
  | SP_OTHER (raw : Z).

Inductive transformation : Type :=
  | TRAN_NONE | TRAN_BAT | TRAN_DRAGON | TRAN_TREE
  | TRAN_OTHER (raw : Z).

Inductive mutation_type : Type :=
  | MUT_BLINK | MUT_HURL_HELLFIRE | MUT_MUMMY_RESTORATION | MUT_NO_ARTIFICE
  | MUT_SPIT_POISON | MUT_TENGU_FLIGHT | MUT_BIG_WINGS.

Inductive skill_type : Type :=
  | SK_EVOCATIONS | SK_INVOCATIONS | SK_NECROMANCY.

Inductive god_type : Type :=
  | GOD_NO_GOD | GOD_RU | GOD_YREDELEMNUL | GOD_BEOGH | GOD_PAKELLAS
  | GOD_OTHER (raw : Z).

Inductive duration_type : Type :=
  | DUR_BREATH_WEAPON | DUR_INVIS | DUR_SONG_OF_SLAYING | DUR_TRANSFORMATION
  | DUR_POISONING | DUR_CONF | DUR_SLOW | DUR_WEAK | DUR_FLIGHT.

Inductive attribute_type : Type :=
  | ATTR_DELAYED_FIREBALL | ATTR_FLIGHT_UNCANCELLABLE
  | ATTR_INVIS_UNCANCELLABLE | ATTR_PERM_FLIGHT.

Inductive artefact_prop_type : Type := ARTP_BLINK | ARTP_FOG.

Inductive canned_message_type : Type :=
  | MSG_TOO_BERSERK | MSG_TOO_CONFUSED | MSG_TOO_HUNGRY | MSG_OK
  | MSG_NO_SPELLS | MSG_CANNOT_DO_YET | MSG_NOTHING_HAPPENS.

Inductive caction_type : Type := CACT_INVOKE | CACT_ABIL.

Inductive spret_type : Type :=
  | SPRET_ABORT | SPRET_FAIL | SPRET_SUCCESS | SPRET_NONE.

Lemma species_eq_dec : forall a b : species_type, {a = b} + {a <> b}.
Proof. decide equality. apply Z.eq_dec. Defined.

Lemma transformation_eq_dec : forall a b : transformation, {a = b} + {a <> b}.
Proof. decide equality. apply Z.eq_dec. Defined.

Lemma duration_eq_dec : forall a b : duration_type, {a = b} + {a <> b}.
Proof. decide equality. Defined.

Lemma attribute_eq_dec : forall a b : attribute_type, {a = b} + {a <> b}.
Proof. decide equality. Defined.

Definition species_eqb (a b : species_type) : bool :=
  if species_eq_dec a b then true else false.

Definition form_eqb (a b : transformation) : bool :=
  if transformation_eq_dec a b then true else false.

(** A [text_pattern] of the options, by what it matches. *)
Definition text_pattern : Type := string -> bool.

(** An entry of a god's power table: the rank at which the power is granted
    and the ability that activates it. *)
Record god_power : Type := mk_god_power
  { rank : Z; abil : ability_type }.

(** ** What this module reads

    [player] gathers what the module reads from [you], [env],
    [crawl_state], [Options] and from functions of other modules: one field
    per query, named after it.  Prompts shown to the user are queries too:
    the field holds the user's answer. *)
Record player : Type := mk_player
  { (* resource pools *)
    magic_points : Z;
    hp_max : Z;
    hunger : Z;
    piety : Z;
    gold : Z;
    (* character *)
    species : species_type;
    form : transformation;
    experience_level : Z;
    player_mutation_level : mutation_type -> Z;
    skill : skill_type -> Z -> Z;              (* you.skill(sk, scale) *)
    hunger_state : Z;
    HS_STARVING : Z;
    HS_SATIATED : Z;
    attribute : attribute_type -> Z;
    transform_uncancellable : bool;
    transfer_skill_points : Z;
    spell_no : Z;
    disease : Z;
    (* status queries *)
    berserk : bool;
    confused : bool;
    petrifying : bool;
    airborne : bool;
    undead_state : bool;                       (* you.undead_state() != US_ALIVE *)
    you_foodless : bool;
    is_lifeless_undead : bool -> bool;
    racial_permanent_flight : bool;
    permanent_flight : bool;
    evokable_berserk : bool;
    evokable_invis : bool;
    evokable_flight : bool;
    wearing_flying_armour : bool;              (* wearing_ego(EQ_ALL_ARMOUR, SPARM_FLYING) *)
    scan_artefacts : artefact_prop_type -> bool;
    can_go_berserk : bool -> bool -> bool -> bool;
    can_go_berserk1 : bool -> bool;            (* the call with one argument *)
    berserk_check_wielded_weapon : bool;
    flight_allowed : bool;
    check_form_stat_safety : transformation -> bool;
    stats_at_maximum : bool;                   (* strength, intel and dex at their maxima *)
    player_rotted : bool;
    how_mutated : Z;
    all_skills_maxed : bool;
    no_tele_reason : string;
    get_real_mp : bool -> Z;
    enough_mp : Z -> bool -> bool -> bool;
    enough_hp : Z -> bool -> bool;
    form_changed_physiology : bool;
    dragon_form_is_fire_dragon : bool;         (* dragon_form_dragon_type() == MONS_FIRE_DRAGON *)
    species_is_draconian : species_type -> bool;
    draconian_breath : species_type -> ability_type;
    (* religion *)
    you_worship : god_type -> bool;
    god_name : string;                         (* god_name(you.religion) *)
    in_good_standing : god_type -> Z -> bool;
    piety_breakpoint : Z -> Z;
    piety_rank : Z;
    player_under_penance : bool;
    can_do_capstone_ability : bool;
    get_god_powers : list god_power;           (* get_god_powers(you.religion) *)
    available_sacrifices : option (list ability_type); (* you.props[AVAILABLE_SAC_KEY] *)
    can_convert_to_beogh : bool;
    recall_list_empty : bool;
    RU_SAC_XP_LEVELS : Z;
    zin_check_able_to_recite : bool -> bool;
    zin_check_recite_to_monsters : bool -> Z;
    is_level_incorruptible : bool -> bool;
    fedhas_check_evolve_flora : bool -> bool;
    fedhas_check_corpse_spores : bool -> Z;
    gozag_setup_potion_petition : bool -> bool;
    gozag_setup_call_merchant : bool -> bool;
    gozag_check_bribe_branch : bool -> bool;
    pakellas_check_quick_charge : bool -> bool;
    (* surroundings *)
    silenced_here : bool;                      (* silenced(you.pos()) *)
    is_feat_dangerous_here : bool;             (* is_feat_dangerous(grd(you.pos()), false, true) *)
    feat_dangerous_for_untransformed : bool;   (* feat_dangerous_for_form(TRAN_NONE, env.grid(you.pos())) *)
    standing_in_lava : bool;                   (* env.grid(you.pos()) == DNGN_LAVA *)
    cloud_here : bool;                         (* cloud_at(you.pos()) *)
    player_in_abyss : bool;                    (* player_in_branch(BRANCH_ABYSS) *)
    sanctuary_time : Z;                        (* env.sanctuary_time *)
    level_state_beogh : bool;                  (* env.level_state & LSTATE_BEOGH *)
    brdepth_abyss : Z;                         (* brdepth[BRANCH_ABYSS] *)
    brdepth_here : Z;                          (* brdepth[you.where_are_you] *)
    game_is_sprint : bool;
    (* letters and slots (utility library); None: the helper stops the
       program *)
    index_to_letter : Z -> option Z;
    letter_to_index : Z -> option Z;
    isaalpha : Z -> bool;
    (* options and prompts *)
    confirm_action : list text_pattern;        (* Options.confirm_action *)
    auto_ability_letters : list (text_pattern * string);
    lowercase_string : string -> string;
    yesno : string -> bool }.

(** ** Requests to other modules

    A call that changes the game outside this module, or shows a message.
    Debug output ([dprf]) is left out. *)
Inductive request : Type :=
  | mpr (msg : string)
  | canned_msg (m : canned_message_type)
  | zero_turns_taken                        (* crawl_state.zero_turns_taken() *)
  | practise_used_abil (a : ability_type)   (* practise(EX_USED_ABIL, a) *)
  | count_action (c : caction_type) (a : ability_type)
  | update_turn_count
  | dec_mp (n : Z)
  | rot_mp (n : Z)
  | dec_hp (n : Z)                          (* dec_hp(n, false) *)
  | rot_hp (n : Z)
  | make_hungry (n : Z)                     (* make_hungry(n, false, true) *)
  | lose_piety (n : Z)
  | untransform
  | zin_vitalisation
  | zin_sanctuary
  | zin_donate_gold
  | tso_divine_shield
  | start_recall_yred                       (* start_recall(RECALL_YRED) *)
  | excommunication.                        (* excommunication(true) *)

(** The requests that take from a resource pool. *)
Definition is_cost_request (r : request) : bool :=
  match r with
  | dec_mp _ | rot_mp _ | dec_hp _ | rot_hp _ | make_hungry _ | lose_piety _ =>
      true
  | _ => false
  end.

(** ** The game *)

Record game : Type := mk_game
  { you : player;
    ability_letter_table : list ability_type;  (* 52 slots *)
    duration : duration_type -> Z;
    digging : bool;
    turn_is_over : bool;
    elapsed_time : Z;
    elapsed_time_at_last_input : Z;
    log : list request;                        (* requests made so far *)
    draws : nat                                (* random draws made so far *) }.

Definition set_ability_letter_table (t : list ability_type) (g : game) : game :=
  mk_game (you g) t (duration g) (digging g) (turn_is_over g)
          (elapsed_time g) (elapsed_time_at_last_input g) (log g) (draws g).

Definition set_duration (d : duration_type -> Z) (g : game) : game :=
  mk_game (you g) (ability_letter_table g) d (digging g) (turn_is_over g)
          (elapsed_time g) (elapsed_time_at_last_input g) (log g) (draws g).

Definition set_digging (b : bool) (g : game) : game :=
  mk_game (you g) (ability_letter_table g) (duration g) b (turn_is_over g)
          (elapsed_time g) (elapsed_time_at_last_input g) (log g) (draws g).

Definition set_turn_is_over (b : bool) (g : game) : game :=
  mk_game (you g) (ability_letter_table g) (duration g) (digging g) b
          (elapsed_time g) (elapsed_time_at_last_input g) (log g) (draws g).

Definition set_elapsed_time_at_last_input (t : Z) (g : game) : game :=
  mk_game (you g) (ability_letter_table g) (duration g) (digging g)
          (turn_is_over g) (elapsed_time g) t (log g) (draws g).

Definition set_log (l : list request) (g : game) : game :=
  mk_game (you g) (ability_letter_table g) (duration g) (digging g)
          (turn_is_over g) (elapsed_time g) (elapsed_time_at_last_input g)
          l (draws g).

Definition set_draws (n : nat) (g : game) : game :=
  mk_game (you g) (ability_letter_table g) (duration g) (digging g)
          (turn_is_over g) (elapsed_time g) (elapsed_time_at_last_input g)
          (log g) n.

(** ** Computations on the game that may end the program *)

Definition M (A : Type) : Type := game -> option (A * game).

Definition ret {A : Type} (a : A) : M A := fun g => Some (a, g).

Definition bind {A B : Type} (m : M A) (k : A -> M B) : M B :=
  fun g => match m g with
           | Some (a, g') => k a g'
           | None => None
           end.

(** A failed assertion, or [die]. *)
Definition die {A : Type} : M A := fun _ => None.

Definition ASSERT (b : bool) : M unit := if b then ret tt else die.

Definition get : M game := fun g => Some (g, g).

Definition modify (f : game -> game) : M unit := fun g => Some (tt, f g).

(** A partial helper of another module, run inside [M]. *)
Definition lift {A : Type} (o : option A) : M A :=
  match o with
  | Some a => ret a
  | None => die
  end.

Declare Scope game_scope.
Delimit Scope game_scope with game.
Notation "x <- m ;; k" := (bind m (fun x => k))
  (at level 61, m at next level, right associativity) : game_scope.
Notation "m ;; k" := (bind m (fun _ => k))
  (at level 61, right associativity) : game_scope.
Open Scope game_scope.

Lemma bind_Some : forall {A B : Type} (m : M A) (k : A -> M B) g b g'',
  bind m k g = Some (b, g'') ->
  exists a g', m g = Some (a, g') /\ k a g' = Some (b, g'').
Proof.
  intros A B m k g b g'' H; unfold bind in H.
  destruct (m g) as [[a g']|] eqn:E; [|discriminate].
  exists a, g'; auto.
Qed.

(** ** Letters and slots *)

Definition char_code (c : ascii) : Z := Z.of_N (N_of_ascii c).

(** [you.ability_letter_table[slot]]. *)
Definition table_get (t : list ability_type) (slot : Z) : ability_type :=
  nth (Z.to_nat slot) t ABIL_NON_ABILITY.

Fixpoint list_set {A : Type} (l : list A) (n : nat) (a : A) : list A :=
  match l, n with
  | [], _ => []
  | _ :: rest, O => a :: rest
  | x :: rest, S n' => x :: list_set rest n' a
  end.

(** [you.ability_letter_table[slot] = a]. *)
Definition table_set (slot : Z) (a : ability_type) : M unit :=
  modify (fun g => set_ability_letter_table
                     (list_set (ability_letter_table g) (Z.to_nat slot) a) g).

(** The slots [first], [first + 1], ..., [first + n - 1]. *)
Definition slots_from (first : Z) (n : nat) : list Z :=
  map (fun i => first + Z.of_nat i) (seq 0 n).

(** ** Talents *)

Record talent : Type := mk_talent
  { which : ability_type;
    hotkey : Z;
    fail : Z;
    is_invocation : bool }.

Definition set_hotkey (k : Z) (t : talent) : talent :=
  mk_talent (which t) k (fail t) (is_invocation t).

(** ** Placeholders *)

(** [fixup_ability]. *)
Definition fixup_ability (y : player) (ability : ability_type) : ability_type :=
  match ability with
  | ABIL_YRED_ANIMATE_REMAINS =>
      (* suppress animate remains once animate dead is unlocked *)
      if in_good_standing y GOD_YREDELEMNUL 2 then ABIL_NON_ABILITY
      else ability
  | ABIL_YRED_RECALL_UNDEAD_SLAVES
  | ABIL_BEOGH_RECALL_ORCISH_FOLLOWERS =>
      if negb (recall_list_empty y) then ABIL_STOP_RECALL else ability
  | ABIL_EVOKE_BERSERK
  | ABIL_TROG_BERSERK =>
      if is_lifeless_undead y false || species_eqb (species y) SP_FORMICID
      then ABIL_NON_ABILITY
      else ability
  | ABIL_BLINK
  | ABIL_EVOKE_BLINK =>
      if species_eqb (species y) SP_FORMICID then ABIL_NON_ABILITY
      else ability
  | ABIL_LUGONU_ABYSS_EXIT
  | ABIL_LUGONU_ABYSS_ENTER =>
      if brdepth_abyss y =? -1 then ABIL_NON_ABILITY else ability
  | ABIL_TSO_BLESS_WEAPON
  | ABIL_KIKU_BLESS_WEAPON
  | ABIL_LUGONU_BLESS_WEAPON =>
      if species_eqb (species y) SP_FELID then ABIL_NON_ABILITY
      else ability
  | _ => ability
  end.

(** ** Slot assignment *)

(** [_lookup_ability_slot]: an index (0-51) if already assigned, -1 if not.
    The table may hold a placeholder, which is converted before the
    comparison. *)
Definition _lookup_ability_slot (abil : ability_type) : M Z :=
  g <- get ;;
  ret (match find (fun slot =>
                     ability_eqb
                       (fixup_ability (you g)
                          (table_get (ability_letter_table g) slot)) abil)
                  (slots_from 0 52) with
       | Some slot => slot
       | None => -1
       end).

(** A message: it goes to the log and changes nothing else. *)
Definition say (r : request) : M unit :=
  modify (fun g => set_log (log g ++ [r]) g).

(** [swap_ability_slots]. *)
Definition swap_ability_slots (index1 index2 : Z) (silent : bool) : M unit :=
  g <- get ;;
  let tmp := table_get (ability_letter_table g) index2 in
  table_set index2 (table_get (ability_letter_table g) index1) ;;
  table_set index1 tmp ;;
  if silent then ret tt
  else
    g' <- get ;;
    letter <- lift (index_to_letter (you g') index2) ;;
    say (mpr (String (ascii_of_N (Z.to_N letter))
                (" - " ++ ability_name
                            (table_get (ability_letter_table g') index2)))).

(** The inner loop of [auto_assign_ability_slot], over the characters of one
    mapping whose pattern matches the ability.  The result is the slot to
    return, if the loop returns, and the value of [overwrite] after it. *)
Fixpoint auto_assign_letters (y : player) (matches : text_pattern)
    (abil_type : ability_type) (slot : Z) (letters : string)
    (overwrite : bool) : M (option Z * bool) :=
  match letters with
  | EmptyString => ret (None, overwrite)
  | String c rest =>
      let i := char_code c in
      if i =? char_code "+" then
        auto_assign_letters y matches abil_type slot rest true
      else if i =? char_code "-" then
        auto_assign_letters y matches abil_type slot rest false
      else if isaalpha y i then
        index <- lift (letter_to_index y i) ;;
        g <- get ;;
        let existing_ability := table_get (ability_letter_table g) index in
        if ability_eqb existing_ability ABIL_NON_ABILITY
           || ability_eqb existing_ability abil_type
        then
          (* Unassigned or already assigned to this ability. *)
          table_set index abil_type ;;
          (if negb (slot =? index) then table_set slot ABIL_NON_ABILITY
           else ret tt) ;;
          ret (Some index, overwrite)
        else if overwrite then
          let str := lowercase_string y (ability_name existing_ability) in
          (* Don't overwrite an ability matched by the same rule. *)
          if matches str then
            auto_assign_letters y matches abil_type slot rest overwrite
          else
            table_set slot abil_type ;;
            swap_ability_slots slot index true ;;
            ret (Some index, overwrite)
        else
          (* occupied, continue to the next letter *)
          auto_assign_letters y matches abil_type slot rest overwrite
      else
        auto_assign_letters y matches abil_type slot rest overwrite
  end.

(** The outer loop of [auto_assign_ability_slot], over the mappings. *)
Fixpoint auto_assign_mappings (y : player)
    (mappings : list (text_pattern * string)) (abil_type : ability_type)
    (abilname : string) (slot : Z) (overwrite : bool) : M Z :=
  match mappings with
  | [] => ret slot
  | mapping :: rest =>
      if negb (fst mapping abilname) then
        auto_assign_mappings y rest abil_type abilname slot overwrite
      else
        r <- auto_assign_letters y (fst mapping) abil_type slot (snd mapping)
               overwrite ;;
        match fst r with
        | Some index => ret index
        | None => auto_assign_mappings y rest abil_type abilname slot (snd r)
        end
  end.

(** [auto_assign_ability_slot]: maybe move an ability to the slot given by
    the ability_slot option. *)
Definition auto_assign_ability_slot (slot : Z) : M Z :=
  g <- get ;;
  let abil_type := table_get (ability_letter_table g) slot in
  let abilname := lowercase_string (you g) (ability_name abil_type) in
  auto_assign_mappings (you g) (auto_ability_letters (you g)) abil_type
    abilname slot false.

(** The preferred first slot of [find_ability_slot], by ability. *)
Definition preferred_first_slot (y : player) (abil : ability_type)
    (first_slot : Z) : option Z :=
  match abil with
  | ABIL_ELYVILON_LIFESAVING => letter_to_index y (char_code "p")
  | ABIL_KIKU_GIFT_NECRONOMICON => letter_to_index y (char_code "N")
  | ABIL_ZIN_CURE_ALL_MUTATIONS
  | ABIL_TSO_BLESS_WEAPON
  | ABIL_KIKU_BLESS_WEAPON
  | ABIL_LUGONU_BLESS_WEAPON
  | ABIL_PAKELLAS_SUPERCHARGE => letter_to_index y (char_code "W")
  | ABIL_CONVERT_TO_BEOGH => letter_to_index y (char_code "Y")
  | ABIL_RU_SACRIFICE_PURITY
  | ABIL_RU_SACRIFICE_WORDS
  | ABIL_RU_SACRIFICE_DRINK
  | ABIL_RU_SACRIFICE_ESSENCE
  | ABIL_RU_SACRIFICE_HEALTH
  | ABIL_RU_SACRIFICE_STEALTH
  | ABIL_RU_SACRIFICE_ARTIFICE
  | ABIL_RU_SACRIFICE_LOVE
  | ABIL_RU_SACRIFICE_COURAGE
  | ABIL_RU_SACRIFICE_ARCANA
  | ABIL_RU_SACRIFICE_NIMBLENESS
  | ABIL_RU_SACRIFICE_DURABILITY
  | ABIL_RU_SACRIFICE_HAND
  | ABIL_RU_SACRIFICE_EXPERIENCE
  | ABIL_RU_SACRIFICE_SKILL
  | ABIL_RU_SACRIFICE_EYE
  | ABIL_RU_SACRIFICE_RESISTANCE
  | ABIL_RU_REJECT_SACRIFICES => letter_to_index y (char_code "G")
  | _ => Some first_slot
  end.

(** [find_ability_slot]: assign a new ability slot if necessary.  Returns an
    index (0-51) if successful, -1 if all letters are assigned. *)
Definition find_ability_slot (abil : ability_type) (firstletter : Z) : M Z :=
  (* If we were already assigned a slot, use it. *)
  had_slot <- _lookup_ability_slot abil ;;
  if had_slot >? -1 then ret had_slot
  else
    g <- get ;;
    first_slot <- lift (letter_to_index (you g) firstletter) ;;
    (* Reserve the first non-god ability slot (f) for Draconian breath *)
    first_slot <-
      (if species_eqb (species (you g)) SP_BASE_DRACONIAN then
         slot_f <- lift (letter_to_index (you g) (char_code "f")) ;;
         ret (if first_slot >=? slot_f then first_slot + 1 else first_slot)
       else ret first_slot) ;;
    ASSERT (first_slot <? 52) ;;
    first_slot <- lift (preferred_first_slot (you g) abil first_slot) ;;
    let free slot :=
      ability_eqb (table_get (ability_letter_table g) slot) ABIL_NON_ABILITY in
    match find free (slots_from first_slot (Z.to_nat (52 - first_slot))) with
    | Some slot =>
        table_set slot abil ;;
        auto_assign_ability_slot slot
    | None =>
        (* If we can't find anything else, try a-e. *)
        match find free (rev (slots_from 0 (Z.to_nat first_slot))) with
        | Some slot =>
            table_set slot abil ;;
            auto_assign_ability_slot slot
        | None => ret (-1) (* All letters are assigned. *)
        end
    end.

(** ** Failure rates *)

(** The [switch] of [get_talent]: the raw failure value and the invocation
    flag, by the ability passed to [get_talent]. *)
Definition get_talent_switch (y : player) (ability : ability_type) : Z * bool :=
  match ability with
  (* begin spell abilities *)
  | ABIL_DELAYED_FIREBALL
  | ABIL_MUMMY_RESTORATION
  | ABIL_STOP_SINGING => (0, false)
  (* begin species abilities - some are mutagenic, too *)
  | ABIL_SPIT_POISON =>
      (40 - 10 * player_mutation_level y MUT_SPIT_POISON - experience_level y,
       false)
  | ABIL_BREATHE_FIRE
  | ABIL_BREATHE_FROST
  | ABIL_BREATHE_POISON
  | ABIL_SPIT_ACID
  | ABIL_BREATHE_LIGHTNING
  | ABIL_BREATHE_POWER
  | ABIL_BREATHE_STICKY_FLAME
  | ABIL_BREATHE_MEPHITIC =>
      let failure := 30 - experience_level y in
      (if form_eqb (form y) TRAN_DRAGON then failure - 20 else failure, false)
  | ABIL_BREATHE_STEAM =>
      let failure := 20 - experience_level y in
      (if form_eqb (form y) TRAN_DRAGON then failure - 20 else failure, false)
  | ABIL_FLY => (42 - 3 * experience_level y, false)
  | ABIL_TRAN_BAT => (45 - 2 * experience_level y, false)
  | ABIL_RECHARGING => (45 - 2 * experience_level y, false)
  | ABIL_DIG
  | ABIL_SHAFT_SELF => (0, false)
  (* begin demonic powers *)
  | ABIL_HELLFIRE => (50 - experience_level y, false)
  | ABIL_BLINK =>
      (48 - 17 * player_mutation_level y MUT_BLINK
          - Z.quot (experience_level y) 2, false)
  (* begin transformation abilities *)
  | ABIL_END_TRANSFORMATION => (0, false)
  (* begin item abilities - some possibly mutagenic *)
  | ABIL_EVOKE_TURN_INVISIBLE => (60 - skill y SK_EVOCATIONS 2, false)
  | ABIL_EVOKE_TURN_VISIBLE
  | ABIL_STOP_FLYING => (0, false)
  | ABIL_EVOKE_FLIGHT
  | ABIL_EVOKE_BLINK => (40 - skill y SK_EVOCATIONS 2, false)
  | ABIL_EVOKE_BERSERK
  | ABIL_EVOKE_FOG => (50 - skill y SK_EVOCATIONS 2, false)
  (* begin invocations *)
  (* Abilities with no fail rate. *)
  | ABIL_ZIN_CURE_ALL_MUTATIONS
  | ABIL_ZIN_DONATE_GOLD
  | ABIL_KIKU_BLESS_WEAPON
  | ABIL_KIKU_GIFT_NECRONOMICON
  | ABIL_TSO_BLESS_WEAPON
  | ABIL_LUGONU_BLESS_WEAPON
  | ABIL_ELYVILON_LIFESAVING
  | ABIL_TROG_BURN_SPELLBOOKS
  | ABIL_ASHENZARI_TRANSFER_KNOWLEDGE
  | ABIL_ASHENZARI_END_TRANSFER
  | ABIL_ASHENZARI_SCRYING
  | ABIL_BEOGH_GIFT_ITEM
  | ABIL_JIYVA_CALL_JELLY
  | ABIL_JIYVA_CURE_BAD_MUTATION
  | ABIL_JIYVA_JELLY_PARALYSE
  | ABIL_GOZAG_POTION_PETITION
  | ABIL_GOZAG_CALL_MERCHANT
  | ABIL_GOZAG_BRIBE_BRANCH
  | ABIL_RU_DRAW_OUT_POWER
  | ABIL_RU_POWER_LEAP
  | ABIL_RU_APOCALYPSE
  | ABIL_RU_SACRIFICE_PURITY
  | ABIL_RU_SACRIFICE_WORDS
  | ABIL_RU_SACRIFICE_DRINK
  | ABIL_RU_SACRIFICE_ESSENCE
  | ABIL_RU_SACRIFICE_HEALTH
  | ABIL_RU_SACRIFICE_STEALTH
  | ABIL_RU_SACRIFICE_ARTIFICE
  | ABIL_RU_SACRIFICE_LOVE
  | ABIL_RU_SACRIFICE_COURAGE
  | ABIL_RU_SACRIFICE_ARCANA
  | ABIL_RU_SACRIFICE_NIMBLENESS
  | ABIL_RU_SACRIFICE_DURABILITY
  | ABIL_RU_SACRIFICE_HAND
  | ABIL_RU_SACRIFICE_EXPERIENCE
  | ABIL_RU_SACRIFICE_SKILL
  | ABIL_RU_SACRIFICE_EYE
  | ABIL_RU_SACRIFICE_RESISTANCE
  | ABIL_RU_REJECT_SACRIFICES
  | ABIL_PAKELLAS_SUPERCHARGE
  | ABIL_STOP_RECALL
  | ABIL_RENOUNCE_RELIGION
  | ABIL_CONVERT_TO_BEOGH => (0, true)
  (* Trog and Jiyva abilities, only based on piety. *)
  | ABIL_TROG_BERSERK => (0, true)
  | ABIL_TROG_REGEN_MR => (piety_breakpoint y 2 - piety y, true)
  | ABIL_TROG_BROTHERS_IN_ARMS => (piety_breakpoint y 5 - piety y, true)
  | ABIL_JIYVA_SLIMIFY => (90 - Z.quot (piety y) 2, true)
  (* Other invocations, based on piety and Invocations skill. *)
  | ABIL_ELYVILON_PURIFICATION =>
      (20 - Z.quot (piety y) 20 - skill y SK_INVOCATIONS 5, true)
  | ABIL_ZIN_RECITE
  | ABIL_BEOGH_RECALL_ORCISH_FOLLOWERS
  | ABIL_OKAWARU_HEROISM
  | ABIL_ELYVILON_LESSER_HEALING
  | ABIL_LUGONU_ABYSS_EXIT
  | ABIL_FEDHAS_SUNLIGHT
  | ABIL_FEDHAS_EVOLUTION
  | ABIL_DITHMENOS_SHADOW_STEP =>
      (30 - Z.quot (piety y) 20 - skill y SK_INVOCATIONS 6, true)
  | ABIL_YRED_ANIMATE_REMAINS
  | ABIL_YRED_ANIMATE_DEAD
  | ABIL_YRED_INJURY_MIRROR
  | ABIL_CHEIBRIADOS_TIME_BEND =>
      (40 - Z.quot (piety y) 20 - skill y SK_INVOCATIONS 4, true)
  | ABIL_PAKELLAS_QUICK_CHARGE =>
      (40 - Z.quot (piety y) 25 - skill y SK_EVOCATIONS 5, true)
  | ABIL_ZIN_VITALISATION
  | ABIL_TSO_DIVINE_SHIELD
  | ABIL_BEOGH_SMITING
  | ABIL_SIF_MUNA_FORGET_SPELL
  | ABIL_MAKHLEB_MINOR_DESTRUCTION
  | ABIL_MAKHLEB_LESSER_SERVANT_OF_MAKHLEB
  | ABIL_ELYVILON_GREATER_HEALING
  | ABIL_ELYVILON_HEAL_OTHER
  | ABIL_LUGONU_BEND_SPACE
  | ABIL_FEDHAS_PLANT_RING
  | ABIL_QAZLAL_UPHEAVAL =>
      (40 - Z.quot (piety y) 20 - skill y SK_INVOCATIONS 5, true)
  | ABIL_KIKU_RECEIVE_CORPSES =>
      (40 - Z.quot (piety y) 20 - skill y SK_NECROMANCY 5, true)
  | ABIL_SIF_MUNA_CHANNEL_ENERGY =>
      (40 - Z.quot (piety y) 20 - skill y SK_INVOCATIONS 2, true)
  | ABIL_YRED_RECALL_UNDEAD_SLAVES =>
      (50 - Z.quot (piety y) 20 - skill y SK_INVOCATIONS 4, true)
  | ABIL_PAKELLAS_DEVICE_SURGE =>
      (40 - Z.quot (piety y) 20 - skill y SK_EVOCATIONS 5, true)
  | ABIL_ZIN_IMPRISON
  | ABIL_LUGONU_BANISH
  | ABIL_CHEIBRIADOS_DISTORTION
  | ABIL_QAZLAL_ELEMENTAL_FORCE =>
      (60 - Z.quot (piety y) 20 - skill y SK_INVOCATIONS 5, true)
  | ABIL_KIKU_TORMENT =>
      (60 - Z.quot (piety y) 20 - skill y SK_NECROMANCY 5, true)
  | ABIL_MAKHLEB_MAJOR_DESTRUCTION
  | ABIL_FEDHAS_SPAWN_SPORES
  | ABIL_YRED_DRAIN_LIFE
  | ABIL_CHEIBRIADOS_SLOUCH
  | ABIL_OKAWARU_FINESSE =>
      (60 - Z.quot (piety y) 25 - skill y SK_INVOCATIONS 4, true)
  | ABIL_TSO_CLEANSING_FLAME
  | ABIL_LUGONU_CORRUPT
  | ABIL_FEDHAS_RAIN
  | ABIL_QAZLAL_DISASTER_AREA =>
      (70 - Z.quot (piety y) 25 - skill y SK_INVOCATIONS 4, true)
  | ABIL_ZIN_SANCTUARY
  | ABIL_TSO_SUMMON_DIVINE_WARRIOR
  | ABIL_YRED_ENSLAVE_SOUL
  | ABIL_ELYVILON_DIVINE_VIGOUR
  | ABIL_LUGONU_ABYSS_ENTER
  | ABIL_CHEIBRIADOS_TIME_STEP
  | ABIL_DITHMENOS_SHADOW_FORM =>
      (80 - Z.quot (piety y) 25 - skill y SK_INVOCATIONS 4, true)
  | ABIL_MAKHLEB_GREATER_SERVANT_OF_MAKHLEB =>
      (90 - Z.quot (piety y) 5 - skill y SK_INVOCATIONS 2, true)
  | ABIL_NEMELEX_STACK_FIVE =>
      (80 - Z.quot (piety y) 25 - skill y SK_EVOCATIONS 4, true)
  | ABIL_NEMELEX_DEAL_FOUR =>
      (70 - Z.quot (piety y * 2) 45 - Z.quot (skill y SK_EVOCATIONS 9) 2, true)
  | ABIL_NEMELEX_TRIPLE_DRAW =>
      (60 - Z.quot (piety y) 20 - skill y SK_EVOCATIONS 5, true)
  (* end invocations *)
  | _ => (-1, false)
  end.

(** [get_talent].  [find_ability_slot] is called with its default first
    letter, [f], because a-e is for invocations.  The parameter [ability'] is the
    source's [ability]. *)
Definition get_talent (ability' : ability_type) (check_confused : bool)
  : M talent :=
  ASSERT (negb (ability_eqb ability' ABIL_NON_ABILITY)) ;;
  g <- get ;;
  (* Placeholder handling, part 1 *)
  let result := mk_talent (fixup_ability (you g) ability') 0 0 false in
  let abil := get_ability_def (which result) in
  if check_confused && confused (you g)
     && negb (testbits (flags abil) abflag.CONF_OK)
  then ret (mk_talent ABIL_NON_ABILITY (hotkey result) (fail result)
              (is_invocation result))
  else
    (* Look through the table to see if there's a preference, else find
       a new empty slot for this ability. *)
    index <- find_ability_slot (ability abil) (char_code "f") ;;
    hk <- (if index >=? 0 then lift (index_to_letter (you g) index)
           else ret 0) ;;
    let failure := fst (get_talent_switch (you g) ability') in
    let invoc := snd (get_talent_switch (you g) ability') in
    let failure := if failure <? 0 then 0 else failure in
    let failure := if failure >? 100 then 100 else failure in
    ret (mk_talent (which result) hk failure invoc).

(** [_add_talent]. *)
Definition _add_talent (vec : list talent) (ability' : ability_type)
    (check_confused : bool) : M (list talent) :=
  t <- get_talent ability' check_confused ;;
  if negb (ability_eqb (which t) ABIL_NON_ABILITY) then ret (vec ++ [t])
  else ret vec.

(** ** Offered talents *)

(** The loop of [get_god_abilities] over the powers of the player's god. *)
Fixpoint god_power_abilities (y : player) (powers : list god_power)
    (ignore_piety ignore_penance : bool) (abilities : list ability_type)
  : M (list ability_type) :=
  match powers with
  | [] => ret abilities
  | power :: rest =>
      (* not an activated power *)
      if ability_eqb (abil power) ABIL_NON_ABILITY then
        god_power_abilities y rest ignore_piety ignore_penance abilities
      else
        let abil' := fixup_ability y (abil power) in
        ASSERT (negb (ability_eqb abil' ABIL_NON_ABILITY)) ;;
        if ((rank power <=? 0)
            || ((rank power =? 7) && can_do_capstone_ability y)
            || (piety_rank y >=? rank power)
            || ignore_piety)
           && (negb (player_under_penance y)
               || (rank power =? -1)
               || ignore_penance)
        then god_power_abilities y rest ignore_piety ignore_penance
               (abilities ++ [abil'])
        else god_power_abilities y rest ignore_piety ignore_penance abilities
  end.

(** [get_god_abilities]. *)
Definition get_god_abilities (ignore_silence ignore_piety ignore_penance : bool)
  : M (list ability_type) :=
  g <- get ;;
  let y := you g in
  abilities <-
    (if you_worship y GOD_RU then
       match available_sacrifices y with
       | None => die (* ASSERT(you.props.exists(AVAILABLE_SAC_KEY)) *)
       | Some [] => ret []
       | Some sacrifices => ret (sacrifices ++ [ABIL_RU_REJECT_SACRIFICES])
       end
     else ret []) ;;
  let abilities :=
    if transfer_skill_points y >? 0
    then abilities ++ [ABIL_ASHENZARI_END_TRANSFER] else abilities in
  if negb ignore_silence && silenced_here y then ret abilities
  else
    (* Remaining abilities are unusable if silenced. *)
    god_power_abilities y (get_god_powers y) ignore_piety ignore_penance
      abilities.

(** [_add_talent] for each ability of a list, in order. *)
Fixpoint _add_talents (vec : list talent) (abilities : list ability_type)
    (check_confused : bool) : M (list talent) :=
  match abilities with
  | [] => ret vec
  | a :: rest =>
      vec' <- _add_talent vec a check_confused ;;
      _add_talents vec' rest check_confused
  end.

(** [c ? [a] : []]. *)
Definition offered (c : bool) (a : ability_type) : list ability_type :=
  if c then [a] else [].

Definition nonzero (z : Z) : bool := negb (z =? 0).

(** The abilities [your_talents] passes to [_add_talent] before it asks for
    the god abilities: species, form and mutations. *)
Definition innate_abilities (g : game) (include_unusable : bool)
  : list ability_type :=
  let y := you g in
  (* Species-based abilities. *)
  offered (nonzero (player_mutation_level y MUT_MUMMY_RESTORATION))
    ABIL_MUMMY_RESTORATION
  ++ offered (species_eqb (species y) SP_DEEP_DWARF) ABIL_RECHARGING
  ++ (if species_eqb (species y) SP_FORMICID
         && (negb (form_eqb (form y) TRAN_TREE) || include_unusable)
      then ABIL_DIG
           :: offered (negb (game_is_sprint y) || (brdepth_here y >? 1))
                ABIL_SHAFT_SELF
      else [])
  (* Spit Poison, possibly upgraded to Breathe Poison. *)
  ++ (if player_mutation_level y MUT_SPIT_POISON =? 3
      then [ABIL_BREATHE_POISON]
      else offered (nonzero (player_mutation_level y MUT_SPIT_POISON))
             ABIL_SPIT_POISON)
  ++ offered (species_is_draconian y (species y)
              (* Draconians don't maintain their original breath weapons
                 if shapechanged into a non-dragon form. *)
              && (negb (form_changed_physiology y)
                  || form_eqb (form y) TRAN_DRAGON)
              && negb (ability_eqb (draconian_breath y (species y))
                         ABIL_NON_ABILITY))
       (draconian_breath y (species y))
  ++ offered (species_eqb (species y) SP_VAMPIRE
              && (experience_level y >=? 3)
              && (hunger_state y <=? HS_SATIATED y)
              && negb (form_eqb (form y) TRAN_BAT))
       ABIL_TRAN_BAT
  ++ offered ((nonzero (player_mutation_level y MUT_TENGU_FLIGHT)
               && negb (airborne y))
              || (racial_permanent_flight y
                  && negb (nonzero (attribute y ATTR_PERM_FLIGHT))
                  && negb (species_eqb (species y) SP_DJINNI)))
       ABIL_FLY
  ++ offered (nonzero (attribute y ATTR_PERM_FLIGHT)
              && racial_permanent_flight y)
       ABIL_STOP_FLYING
  (* Mutations *)
  ++ offered (nonzero (player_mutation_level y MUT_HURL_HELLFIRE))
       ABIL_HELLFIRE
  ++ offered (nonzero (duration g DUR_TRANSFORMATION)
              && negb (transform_uncancellable y))
       ABIL_END_TRANSFORMATION
  ++ offered (nonzero (player_mutation_level y MUT_BLINK)) ABIL_BLINK.

(** The abilities added right after the god abilities: the ability to
    opt out of your faith, and conversion to Beogh. *)
Definition faith_change_abilities (g : game) : list ability_type :=
  let y := you g in
  offered (negb (you_worship y GOD_NO_GOD)) ABIL_RENOUNCE_RELIGION
  ++ offered (level_state_beogh y && can_convert_to_beogh y)
       ABIL_CONVERT_TO_BEOGH.

(** The abilities added last: dragon form, spells in progress and
    evocations from items. *)
Definition evoked_abilities (g : game) : list ability_type :=
  let y := you g in
  let artifice := negb (nonzero (player_mutation_level y MUT_NO_ARTIFICE)) in
  offered (negb (species_eqb (species y) SP_RED_DRACONIAN)
           && form_eqb (form y) TRAN_DRAGON
           && dragon_form_is_fire_dragon y)
    ABIL_BREATHE_FIRE
  (* Checking for unreleased Delayed Fireball. *)
  ++ offered (nonzero (attribute y ATTR_DELAYED_FIREBALL))
       ABIL_DELAYED_FIREBALL
  ++ offered (nonzero (duration g DUR_SONG_OF_SLAYING)) ABIL_STOP_SINGING
  (* Evocations from items. *)
  ++ offered (scan_artefacts y ARTP_BLINK && artifice) ABIL_EVOKE_BLINK
  ++ offered (scan_artefacts y ARTP_FOG && artifice) ABIL_EVOKE_FOG
  ++ offered (evokable_berserk y && artifice) ABIL_EVOKE_BERSERK
  ++ (if evokable_invis y
         && negb (nonzero (attribute y ATTR_INVIS_UNCANCELLABLE))
         && artifice
      then
        (* Now you can only turn invisibility off if you have an
           activatable item. *)
        if nonzero (duration g DUR_INVIS) then [ABIL_EVOKE_TURN_VISIBLE]
        else [ABIL_EVOKE_TURN_INVISIBLE]
      else [])
  ++ (if evokable_flight y && artifice
      then
        (* Has no effect on permanently flying Tengu. *)
        if negb (permanent_flight y) || negb (racial_permanent_flight y)
        then
          (* You can still evoke perm flight if you have temporary one. *)
          offered (negb (airborne y)
                   || (negb (nonzero (attribute y ATTR_PERM_FLIGHT))
                       && wearing_flying_armour y))
            ABIL_EVOKE_FLIGHT
          (* Now you can only turn flight off if you have an
             activatable item. *)
          ++ offered (airborne y
                      && negb (nonzero (attribute y ATTR_FLIGHT_UNCANCELLABLE)))
               ABIL_STOP_FLYING
        else []
      else []).

(** The loop "Try to find a free hotkey, starting from Z" of [your_talents]:
    [for (int k = 51; k >= 0; ++k)].  Each round asks [index_to_letter(k)]
    and checks that the letter does not conflict with the hotkey of any
    talent; the result is the [k] at which the loop breaks.  The loop counts
    upwards, so it can end only by [break] or inside [index_to_letter];
    [rounds] is the number of values left to [k] before it overflows. *)
Fixpoint free_hotkey_scan (rounds : nat) (y : player) (k : Z)
    (talents : list talent) : M Z :=
  match rounds with
  | O => die
  | S rounds' =>
      kkey <- lift (index_to_letter y k) ;;
      if forallb (fun other => negb (hotkey other =? kkey)) talents
      then ret k
      else free_hotkey_scan rounds' y (k + 1) talents
  end.

(** The values of [k] from 51 to [INT_MAX]. *)
Definition hotkey_rounds : nat := Z.to_nat (2 ^ 31 - 51).

(** The loop "Find hotkeys for the non-hotkeyed talents" of [your_talents].
    [done] are the talents already visited and [todo] those still to visit;
    the loop works on the vector in place, so every check sees both. *)
Fixpoint assign_hotkeys (done todo : list talent) : M (list talent) :=
  match todo with
  | [] => ret done
  | tal :: rest =>
      index <- _lookup_ability_slot (which tal) ;;
      g <- get ;;
      if index >? -1 then
        letter <- lift (index_to_letter (you g) index) ;;
        assign_hotkeys (done ++ [set_hotkey letter tal]) rest
      else
        (* Try to find a free hotkey, starting from Z. *)
        k <- free_hotkey_scan hotkey_rounds (you g) 51 (done ++ todo) ;;
        table_set k (which tal) ;;
        assign_hotkeys (done ++ [set_hotkey k tal]) rest
  end.

(** [your_talents]: all relevant talents that the player has.  The
    conditions read nothing that [_add_talent] changes (it writes the
    letter table only), so each group of abilities is listed and then added
    in order. *)
Definition your_talents (check_confused include_unusable : bool)
  : M (list talent) :=
  g <- get ;;
  talents <- _add_talents [] (innate_abilities g include_unusable)
               check_confused ;;
  (* Religious abilities. *)
  god_abilities <- get_god_abilities include_unusable false include_unusable ;;
  talents <- _add_talents talents god_abilities check_confused ;;
  (* And finally, the ability to opt-out of your faith: *)
  talents <- _add_talents talents (faith_change_abilities g) check_confused ;;
  talents <- _add_talents talents (evoked_abilities g) check_confused ;;
  (* Find hotkeys for the non-hotkeyed talents. *)
  assign_hotkeys [] talents.

(** ** Activation *)

Section Activation.

(** The random source is another module.  [random2avg max rolls n] is what
    [random2avg(max, rolls)] returns when it is asked as the draw number [n]
    of the game, and likewise [div_rand_round]. *)
Variable random2avg : Z -> Z -> nat -> Z.
Variable div_rand_round : Z -> Z -> nat -> Z.

(** What a request does to the game is decided by the module that serves
    it. *)
Variable perform : request -> game -> game.

(** The cases of [_do_ability] that are not spelled out below: targeting,
    zapping, summoning and the god powers, which are implemented by other
    modules.  [None] is [die]. *)
Variable effect_dispatch :
  ability_def -> bool -> game -> option (spret_type * game).

(** A call into another module: it is served, and recorded in the log. *)
Definition call (r : request) : M unit :=
  fun g => Some (tt, set_log (log g ++ [r]) (perform r g)).

(** One draw from the random source. *)
Definition draw (f : nat -> Z) : M Z :=
  fun g => Some (f (draws g), set_draws (S (draws g)) g).

(** [generic_cost::cost], asked as draw number [n]. *)
Definition generic_cost_cost (c : generic_cost) (n : nat) : Z :=
  base c + (if add c >? 0 then random2avg (add c) (rolls c) n else 0).

(** [generic_cost::cost] in the game: the draw is consumed only when it is
    made. *)
Definition generic_cost_draw (c : generic_cost) : M Z :=
  if add c >? 0 then draw (generic_cost_cost c)
  else ret (base c).

(** [_scale_piety_cost]: abilities that are particularly overpowered in
    Sprint earn 2.5x their classic piety cost. *)
Definition _scale_piety_cost (abil : ability_type) (original_cost : Z) : M Z :=
  g <- get ;;
  if game_is_sprint (you g)
     && (ability_eqb abil ABIL_TROG_BROTHERS_IN_ARMS
         || ability_eqb abil ABIL_MAKHLEB_GREATER_SERVANT_OF_MAKHLEB)
  then draw (div_rand_round (original_cost * 5) 2)
  else ret original_cost.

(** [_pay_ability_costs]. *)
Definition _pay_ability_costs (abil : ability_def) : M unit :=
  (if has_flag (flags abil) abflag.INSTANT then
     modify (set_turn_is_over false) ;;
     modify (fun g => set_elapsed_time_at_last_input (elapsed_time g) g) ;;
     call update_turn_count
   else modify (set_turn_is_over true)) ;;
  r <- draw (random2avg (food_cost abil) 2) ;;
  let food_cost := food_cost abil + r in
  c <- generic_cost_draw (piety_cost abil) ;;
  piety_cost <- _scale_piety_cost (ability abil) c ;;
  g <- get ;;
  let hp_cost' := scaling_cost_cost (hp_cost abil) (hp_max (you g)) in
  (if nonzero (mp_cost abil) then
     call (dec_mp (mp_cost abil)) ;;
     (if has_flag (flags abil) abflag.PERMANENT_MP then call (rot_mp 1)
      else ret tt)
   else ret tt) ;;
  (if scaling_cost_bool (hp_cost abil) then
     call (dec_hp hp_cost') ;;
     (if has_flag (flags abil) abflag.PERMANENT_HP then call (rot_hp hp_cost')
      else ret tt)
   else ret tt) ;;
  (if nonzero food_cost then call (make_hungry food_cost) else ret tt) ;;
  (if nonzero piety_cost then call (lose_piety piety_cost) else ret tt).

(** A refusal of [_check_ability_possible]: the message, unless quiet. *)
Definition refuse_with (quiet : bool) (r : request) : M bool :=
  (if quiet then ret tt else say r) ;; ret false.

(** The [switch] at the end of [_check_ability_possible]: the prerequisites
    of single abilities. *)
Definition check_ability_switch (abil : ability_def) (quiet : bool) : M bool :=
  g <- get ;;
  let y := you g in
  match ability abil with
  | ABIL_ZIN_RECITE =>
      if negb (zin_check_able_to_recite y quiet) then ret false
      else if negb (zin_check_recite_to_monsters y quiet =? 1)
      then refuse_with quiet (mpr "There's no appreciative audience!")
      else ret true
  | ABIL_ZIN_CURE_ALL_MUTATIONS =>
      if negb (nonzero (how_mutated y))
      then refuse_with quiet (mpr "You have no mutations to be cured!")
      else ret true
  | ABIL_ZIN_SANCTUARY =>
      if nonzero (sanctuary_time y)
      then refuse_with quiet
             (mpr "There's already a sanctuary in place on this level.")
      else ret true
  | ABIL_ZIN_DONATE_GOLD =>
      if negb (nonzero (gold y))
      then refuse_with quiet (mpr "You have nothing to donate!")
      else ret true
  | ABIL_ELYVILON_PURIFICATION =>
      if negb (nonzero (disease y))
         && negb (nonzero (duration g DUR_POISONING))
         && negb (nonzero (duration g DUR_CONF))
         && negb (nonzero (duration g DUR_SLOW))
         && negb (petrifying y)
         && stats_at_maximum y
         && negb (player_rotted y)
         && negb (nonzero (duration g DUR_WEAK))
      then refuse_with quiet (mpr "Nothing ails you!")
      else ret true
  | ABIL_MUMMY_RESTORATION =>
      if stats_at_maximum y && negb (player_rotted y)
      then refuse_with quiet
             (mpr "You don't need to restore your attributes or health!")
      else ret true
  | ABIL_LUGONU_ABYSS_EXIT =>
      if negb (player_in_abyss y)
      then refuse_with quiet (mpr "You aren't in the Abyss!")
      else ret true
  | ABIL_LUGONU_CORRUPT => ret (negb (is_level_incorruptible y quiet))
  | ABIL_LUGONU_ABYSS_ENTER =>
      if player_in_abyss y
      then refuse_with quiet (mpr "You're already here!")
      else ret true
  | ABIL_SIF_MUNA_FORGET_SPELL =>
      if spell_no y =? 0
      then refuse_with quiet (canned_msg MSG_NO_SPELLS)
      else ret true
  | ABIL_ASHENZARI_TRANSFER_KNOWLEDGE =>
      if all_skills_maxed y
      then refuse_with quiet (mpr "You have nothing more to learn.")
      else ret true
  | ABIL_FEDHAS_EVOLUTION => ret (fedhas_check_evolve_flora y quiet)
  | ABIL_FEDHAS_SPAWN_SPORES =>
      let retval := fedhas_check_corpse_spores y quiet in
      if retval <=? 0 then
        refuse_with quiet
          (if retval =? 0 then mpr "No corpses are in range."
           else canned_msg MSG_OK)
      else ret true
  | ABIL_SPIT_POISON
  | ABIL_BREATHE_FIRE
  | ABIL_BREATHE_FROST
  | ABIL_BREATHE_POISON
  | ABIL_BREATHE_LIGHTNING
  | ABIL_SPIT_ACID
  | ABIL_BREATHE_POWER
  | ABIL_BREATHE_STICKY_FLAME
  | ABIL_BREATHE_STEAM
  | ABIL_BREATHE_MEPHITIC =>
      if nonzero (duration g DUR_BREATH_WEAPON)
      then refuse_with quiet (canned_msg MSG_CANNOT_DO_YET)
      else ret true
  | ABIL_BLINK
  | ABIL_EVOKE_BLINK =>
      if String.eqb (no_tele_reason y) "" then ret true
      else refuse_with quiet (mpr (no_tele_reason y))
  | ABIL_EVOKE_BERSERK
  | ABIL_TROG_BERSERK =>
      ret (can_go_berserk y true false true
           && (quiet || berserk_check_wielded_weapon y))
  | ABIL_EVOKE_FOG =>
      if cloud_here y
      then refuse_with quiet (mpr "It's too cloudy to do that here.")
      else ret true
  | ABIL_GOZAG_POTION_PETITION => ret (gozag_setup_potion_petition y quiet)
  | ABIL_GOZAG_CALL_MERCHANT => ret (gozag_setup_call_merchant y quiet)
  | ABIL_GOZAG_BRIBE_BRANCH => ret (gozag_check_bribe_branch y quiet)
  | ABIL_RU_SACRIFICE_EXPERIENCE =>
      if experience_level y <=? RU_SAC_XP_LEVELS y
      then refuse_with quiet
             (mpr "You don't have enough experience to sacrifice.")
      else ret true
  | ABIL_PAKELLAS_DEVICE_SURGE =>
      if magic_points y =? 0
      then refuse_with quiet (mpr "You have no magic power.")
      else ret true
  | ABIL_PAKELLAS_QUICK_CHARGE => ret (pakellas_check_quick_charge y quiet)
  | _ => ret true
  end.

(** [_check_ability_possible]: check prerequisites for a number of
    abilities; abort any attempt if these cannot be met, without losing the
    turn. *)
Definition _check_ability_possible (abil : ability_def)
    (hungerCheck quiet : bool) : M bool :=
  g <- get ;;
  let y := you g in
  if berserk y then refuse_with quiet (canned_msg MSG_TOO_BERSERK)
  else if confused y && negb (testbits (flags abil) abflag.CONF_OK)
  then refuse_with quiet (canned_msg MSG_TOO_CONFUSED)
  else
    silent_invocation <-
      (if silenced_here y then
         tal <- get_talent (ability abil) false ;;
         ret (is_invocation tal)
       else ret false) ;;
    if silent_invocation then
      refuse_with quiet
        (mpr ("You cannot call out to " ++ god_name y ++ " while silenced."))
    else
      (* Don't insta-starve the player. *)
      let expected_hunger := hunger y - food_cost abil * 2 in
      (* Safety margin for natural hunger, mutations etc. *)
      if hungerCheck && negb (undead_state y) && (expected_hunger <=? 50)
      then refuse_with quiet (canned_msg MSG_TOO_HUNGRY)
      (* in case of mp rot ability, check is the player have enough
         natural MP *)
      else if has_flag (flags abil) abflag.PERMANENT_MP
              && (get_real_mp y false <? mp_cost abil)
      then refuse_with quiet
             (mpr "You don't have enough innate magic capacity to sacrifice.")
      else
        let name := ability_name (ability abil) in
        if existsb (fun action => action name) (confirm_action y)
           && negb (yesno y ("Really use " ++ name ++ "?"))
        then say (canned_msg MSG_OK) ;; ret false
        else check_ability_switch abil quiet.

(** [check_ability_possible]. *)
Definition check_ability_possible (ability' : ability_type)
    (hungerCheck quiet : bool) : M bool :=
  _check_ability_possible (get_ability_def ability') hungerCheck quiet.

(** [fail_check()]: "If [fail] is true, the ability is doomed to fail, and
    SPRET_FAIL will be returned if the ability is not SPRET_ABORTed." *)
Definition fail_check (fail : bool) (rest : M spret_type) : M spret_type :=
  if fail then ret SPRET_FAIL else rest.

(** [_do_ability]: use an ability.  Returns whether it succeeded
    (SPRET_SUCCESS), failed (SPRET_FAIL), or was canceled (SPRET_ABORT).
    The cases spelled out are those made of [fail_check], prompts, messages,
    assignments and requests; the others are [effect_dispatch]. *)
Definition _do_ability (abil : ability_def) (fail : bool) : M spret_type :=
  g <- get ;;
  let y := you g in
  match ability abil with
  | ABIL_DIG =>
      fail_check fail
        (if negb (digging g) then
           modify (set_digging true) ;;
           say (mpr "You extend your mandibles.") ;;
           ret SPRET_SUCCESS
         else
           say (mpr "You are already prepared to dig.") ;;
           ret SPRET_ABORT)
  | ABIL_EVOKE_TURN_VISIBLE =>
      fail_check fail
        (ASSERT (negb (nonzero (attribute y ATTR_INVIS_UNCANCELLABLE))) ;;
         say (mpr "You feel less transparent.") ;;
         modify (fun g => set_duration
                            (fun d => if duration_eq_dec d DUR_INVIS then 1
                                      else duration g d) g) ;;
         ret SPRET_SUCCESS)
  | ABIL_STOP_SINGING =>
      fail_check fail
        (modify (fun g => set_duration
                            (fun d => if duration_eq_dec d DUR_SONG_OF_SLAYING
                                      then 0 else duration g d) g) ;;
         say (mpr "You stop singing.") ;;
         ret SPRET_SUCCESS)
  | ABIL_END_TRANSFORMATION =>
      fail_check fail (call untransform ;; ret SPRET_SUCCESS)
  (* INVOCATIONS: *)
  | ABIL_ZIN_VITALISATION =>
      fail_check fail (call zin_vitalisation ;; ret SPRET_SUCCESS)
  | ABIL_ZIN_SANCTUARY =>
      fail_check fail (call zin_sanctuary ;; ret SPRET_SUCCESS)
  | ABIL_ZIN_DONATE_GOLD =>
      fail_check fail (call zin_donate_gold ;; ret SPRET_SUCCESS)
  | ABIL_TSO_DIVINE_SHIELD =>
      fail_check fail (call tso_divine_shield ;; ret SPRET_SUCCESS)
  | ABIL_YRED_RECALL_UNDEAD_SLAVES =>
      fail_check fail (call start_recall_yred ;; ret SPRET_SUCCESS)
  | ABIL_RENOUNCE_RELIGION =>
      fail_check fail
        (if yesno y
              "Really renounce your faith, foregoing its fabulous benefits?"
            && yesno y "Are you sure you won't change your mind later?"
         then call excommunication ;; ret SPRET_SUCCESS
         else say (canned_msg MSG_OK) ;; ret SPRET_ABORT)
  | ABIL_NON_ABILITY =>
      fail_check fail
        (say (mpr "Sorry, you can't do that.") ;; ret SPRET_SUCCESS)
  | _ => effect_dispatch abil fail
  end.

(** [crawl_state.zero_turns_taken(); return false;] *)
Definition no_turn : M bool := call zero_turns_taken ;; ret false.

(** "Some abilities don't need a hunger check." *)
Definition needs_hunger_check (a : ability_type) : bool :=
  match a with
  | ABIL_RENOUNCE_RELIGION
  | ABIL_CONVERT_TO_BEOGH
  | ABIL_STOP_FLYING
  | ABIL_EVOKE_TURN_VISIBLE
  | ABIL_END_TRANSFORMATION
  | ABIL_DELAYED_FIREBALL
  | ABIL_STOP_SINGING
  | ABIL_MUMMY_RESTORATION
  | ABIL_TRAN_BAT
  | ABIL_ASHENZARI_END_TRANSFER => false
  | _ => true
  end.

(** "Doing these would outright kill the player": the first checks of
    [activate_talent] after the berserk check.  [true] when the talent is
    refused; the message has then been shown. *)
Definition fatal_to_activate (tal : talent) : M bool :=
  g <- get ;;
  let y := you g in
  match which tal with
  | ABIL_STOP_FLYING =>
      if is_feat_dangerous_here y then
        say (mpr "Stopping flight right now would be fatal!") ;; ret true
      else ret false
  | ABIL_TRAN_BAT => ret (negb (check_form_stat_safety y TRAN_BAT))
  | ABIL_END_TRANSFORMATION =>
      if feat_dangerous_for_untransformed y then
        say (mpr ("Turning back right now would cause you to "
                  ++ (if standing_in_lava y then "burn" else "drown")
                  ++ "!")) ;;
        ret true
      else ret (negb (check_form_stat_safety y TRAN_NONE))
  | _ => ret false
  end.

(** [activate_talent] up to the roll: [true] when every check passed, and
    [false] when one refused the talent ([zero_turns_taken] has then been
    called, as before every early [return false] of the source). *)
Definition activate_talent_checks (tal : talent) : M bool :=
  g <- get ;;
  let y := you g in
  let is_ a := ability_eqb (which tal) a in
  if berserk y then say (canned_msg MSG_TOO_BERSERK) ;; no_turn
  else
    fatal <- fatal_to_activate tal ;;
    if fatal then no_turn
    else if (is_ ABIL_EVOKE_BERSERK || is_ ABIL_TROG_BERSERK)
            && negb (can_go_berserk1 y true)
    then no_turn
    else if (is_ ABIL_EVOKE_FLIGHT || is_ ABIL_TRAN_BAT || is_ ABIL_FLY)
            && negb (flight_allowed y)
    then no_turn
    else
      let hungerCheck := needs_hunger_check (which tal) in
      if hungerCheck && negb (undead_state y) && negb (you_foodless y)
         && (hunger_state y <=? HS_STARVING y)
      then say (canned_msg MSG_TOO_HUNGRY) ;; no_turn
      else
        let abil := get_ability_def (which tal) in
        (* Check that we can afford to pay the costs. *)
        if (mp_cost abil >? 0) && negb (enough_mp y (mp_cost abil) false true)
        then no_turn
        else
          let hpcost := scaling_cost_cost (hp_cost abil) (hp_max y) in
          if (hpcost >? 0) && negb (enough_hp y hpcost false) then no_turn
          else
            possible <- _check_ability_possible abil hungerCheck false ;;
            if negb possible then no_turn else ret true.

(** The [switch (ability_result)] that ends [activate_talent]. *)
Definition activate_talent_result (tal : talent) (abil : ability_def)
    (fail : bool) (ability_result : spret_type) : M bool :=
  match ability_result with
  | SPRET_SUCCESS =>
      ASSERT (negb fail || testbits (flags abil) abflag.HOSTILE) ;;
      call (practise_used_abil (ability abil)) ;;
      _pay_ability_costs abil ;;
      call (count_action (if is_invocation tal then CACT_INVOKE else CACT_ABIL)
              (ability abil)) ;;
      ret true
  | SPRET_FAIL =>
      say (mpr "You fail to use your ability.") ;;
      modify (set_turn_is_over true) ;;
      ret false
  | SPRET_ABORT => no_turn
  | SPRET_NONE => die (* die("Weird ability return type") *)
  end.

(** The roll of [activate_talent] and the call of [_do_ability]: the result
    of the attempt, with the ability's definition and the value of
    [fail]. *)
Definition activate_talent_attempt (tal : talent)
  : M (ability_def * bool * spret_type) :=
  let abil := get_ability_def (which tal) in
  roll <- draw (random2avg 100 3) ;;
  let fail' := roll <? fail tal in
  ability_result <- _do_ability abil fail' ;;
  ret (abil, fail', ability_result).

(** [activate_talent]. *)
Definition activate_talent (tal : talent) : M bool :=
  passed <- activate_talent_checks tal ;;
  if negb passed then ret false
  else
    r <- activate_talent_attempt tal ;;
    activate_talent_result tal (fst (fst r)) (snd (fst r)) (snd r).

End Activation.

(** * Abilities by name *)

(** [ability_by_name]: the first entry of [Ability_List], the sentinel
    apart, whose name matches the key; the sentinel if there is none.  The
    comparison is of the lower-cased strings. *)
Definition ability_by_name (y : player) (key : string) : ability_type :=
  match find (fun abil =>
                negb (ability_eqb (ability abil) ABIL_NON_ABILITY)
                && String.eqb
                     (lowercase_string y (ability_name (ability abil)))
                     (lowercase_string y key))
             Ability_List with
  | Some abil => ability abil
  | None => ABIL_NON_ABILITY
  end.

(** [string_matches_ability_name]. *)
Definition string_matches_ability_name (y : player) (key : string) : bool :=
  negb (ability_eqb (ability_by_name y key) ABIL_NON_ABILITY).

(** [_calc_breath_ability_range]; [None] is [die("Bad breath type!")]. *)
Definition _calc_breath_ability_range (ability' : ability_type) : option Z :=
  match ability' with
  | ABIL_BREATHE_FIRE => Some 6
  | ABIL_BREATHE_FROST => Some 6
  | ABIL_BREATHE_MEPHITIC => Some 7
  | ABIL_BREATHE_LIGHTNING => Some 8
  | ABIL_SPIT_ACID => Some 8
  | ABIL_BREATHE_POWER => Some 8
  | ABIL_BREATHE_STICKY_FLAME => Some 1
  | ABIL_BREATHE_STEAM => Some 7
  | ABIL_BREATHE_POISON => Some 7
  | _ => None
  end.

(** * The templates of the random-number header

    [random2] and [one_chance_in] are declared in the header and defined
    elsewhere: [random2 max n] is what [random2(max)] returns when it is
    asked as the draw number [n] of the game, and likewise
    [one_chance_in].  A container is the list of its elements, and an
    iterator into it is a position, counted from 0; the position after the
    last element is the end.  Reading a C++ array or an iterator outside
    its range is undefined; the embedding stops there. *)

Section RandomTemplates.

Variable random2 : Z -> nat -> Z.
Variable one_chance_in : Z -> nat -> bool.

(** One draw of a truth value. *)
Definition draw_bool (f : nat -> bool) : M bool :=
  fun g => Some (f (draws g), set_draws (S (draws g)) g).

(** [elts[i]]. *)
Definition element_at {T : Type} (elts : list T) (i : Z) : M T :=
  lift (if i <? 0 then None else nth_error elts (Z.to_nat i)).

(** [random_choose]: chooses one of the objects passed in at random. *)
Definition random_choose {T : Type} (first : T) (rest : list T) : M T :=
  let elts := first :: rest in
  i <- draw (random2 (1 + Z.of_nat (List.length rest))) ;;
  element_at elts i.

(** The loop of [random_if] from the position [curr] on: [count] matches
    were seen so far and [chosen] is the position chosen among them.  The
    draw is made only for an element that satisfies [pred]. *)
Fixpoint random_if_loop {T : Type} (pred : T -> bool) (l : list T)
    (curr : nat) (count : Z) (chosen : nat) : M (Z * nat) :=
  match l with
  | [] => ret (count, chosen)
  | x :: rest =>
      if pred x then
        b <- draw_bool (one_chance_in (count + 1)) ;;
        random_if_loop pred rest (S curr) (count + 1)
          (if b then curr else chosen)
      else random_if_loop pred rest (S curr) count chosen
  end.

(** [random_if(curr, end, pred)]; if no matches, return end. *)
Definition random_if {T : Type} (pred : T -> bool) (l : list T) : M nat :=
  r <- random_if_loop pred l 0 0 (List.length l) ;;
  ret (snd r).

(** [random_if(curr, pred)]: the version for bool-castable iterators.
    [chosen] starts as the first position, and the past-the-end iterator is
    returned when [count] is 0. *)
Definition random_if_castable {T : Type} (pred : T -> bool) (l : list T)
  : M nat :=
  r <- random_if_loop pred l 0 0 0%nat ;;
  ret (if fst r =? 0 then List.length l else snd r).

(** [random_iterator_impl] for a random-access container. *)
Definition random_iterator_random_access {T : Type} (container : list T)
  : M Z :=
  draw (random2 (Z.of_nat (List.length container))).

(** [random_iterator_impl] for any other container. *)
Definition random_iterator_input {T : Type} (container : list T) : M nat :=
  random_if (fun _ => true) container.

(** The category of the iterators of a container, as
    [iterator_traits<...>::iterator_category] gives it: random access, or
    another one, all of which derive from [input_iterator_tag]. *)
Inductive iterator_category : Type :=
  | random_access_iterator_tag
  | input_iterator_tag.

(** [random_iterator]: the position chosen, by the category of the
    iterators of the container. *)
Definition random_iterator {T : Type} (category : iterator_category)
    (container : list T) : M Z :=
  match category with
  | random_access_iterator_tag => random_iterator_random_access container
  | input_iterator_tag =>
      pos <- random_iterator_input container ;; ret (Z.of_nat pos)
  end.

(** [random_element]. *)
Definition random_element {T : Type} (category : iterator_category)
    (container : list T) : M T :=
  ASSERT (negb (Nat.eqb (List.length container) 0)) ;;
  i <- random_iterator category container ;;
  element_at container i.

(** The loop of [choose_random_weighted]. *)
Fixpoint choose_random_weighted_loop (weights : list Z)
    (totalweight count result : Z) : M Z :=
  match weights with
  | [] => ret result
  | w :: rest =>
      let totalweight := totalweight + w in
      r <- draw (random2 totalweight) ;;
      choose_random_weighted_loop rest totalweight (count + 1)
        (if r <? w then count else result)
  end.

(** [choose_random_weighted(beg, end)] over the weights from [beg] to
    [end]: the index chosen.  The bookkeeping of the debug build is left
    out. *)
Definition choose_random_weighted (weights : list Z) : M Z :=
  ASSERT (negb (Nat.eqb (List.length weights) 0)) ;;
  choose_random_weighted_loop weights 0 0 0.

(** The loop of [random_choose_weighted] over the variable arguments: pairs
    of a weight and a choice, read until a weight is 0.  [args] are the
    pairs passed before the closing 0.  The result is the choice and the
    value of [nargs] after the loop. *)
Fixpoint random_choose_weighted_loop {T : Type} (args : list (Z * T))
    (chosen : T) (cweight : Z) (nargs : Z) : M (T * Z) :=
  if nargs >? 0 then
    match args with
    | [] => ret (chosen, nargs - 1)
    | (nweight, choice) :: rest =>
        if nweight =? 0 then ret (chosen, nargs - 1)
        else
          r <- draw (random2 (cweight + nweight)) ;;
          random_choose_weighted_loop rest
            (if r <? nweight then choice else chosen)
            (cweight + nweight) (nargs - 1)
    end
  else ret (chosen, nargs - 1).

(** [random_choose_weighted(weight, first, ...)]. *)
Definition random_choose_weighted {T : Type} (weight : Z) (first : T)
    (args : list (Z * T)) : M T :=
  r <- random_choose_weighted_loop args first weight 100 ;;
  ASSERT (snd r >? 0) ;;
  ret (fst r).

End RandomTemplates.

(** * Spell utilities

    A shallow embedding of the file headed "data handlers for
    player-available spell list".  It follows the conventions of the
    ability module; what differs is named here.
    - What the headers of other modules declare, and this file uses
      without defining it, is a field of the record [headers]: the
      numbering of the enumeration [spell_type], the spell table of
      spl-data.h, the flag masks, the size of the spell memory.
    - A C++ array is the list of its elements.  Reading or writing it
      outside its range is undefined in C++ (the containers of the program
      assert the range); the embedding stops there, as for a failed
      [ASSERT]. *)
Module SplUtil.

(** ** Enumerations

    Every value this file names has its own constructor; the last
    constructor of each type stands for the other values. *)

Inductive spell_type : Type :=
  | SPELL_NO_SPELL
  | SPELL_FIRE_STORM | SPELL_HELLFIRE_BURST | SPELL_DELAYED_FIREBALL
  | SPELL_FIREBALL | SPELL_SANDBLAST | SPELL_GLACIATE | SPELL_MEPHITIC_CLOUD
  | SPELL_VIOLENT_UNRAVELLING | SPELL_LRD | SPELL_CONJURE_BALL_LIGHTNING
  | SPELL_BEASTLY_APPENDAGE | SPELL_BLADE_HANDS | SPELL_DRAGON_FORM
  | SPELL_HYDRA_FORM | SPELL_ICE_FORM | SPELL_SPIDER_FORM | SPELL_STATUE_FORM
  | SPELL_NECROMUTATION | SPELL_OZOCUBUS_ARMOUR | SPELL_LEDAS_LIQUEFACTION
  | SPELL_STONESKIN | SPELL_CONDENSATION_SHIELD | SPELL_BLINK
  | SPELL_CONTROLLED_BLINK | SPELL_SWIFTNESS | SPELL_INVISIBILITY
  | SPELL_DARKNESS | SPELL_REPEL_MISSILES | SPELL_REGENERATION
  | SPELL_PORTAL_PROJECTILE | SPELL_WARP_BRAND | SPELL_EXCRUCIATING_WOUNDS
  | SPELL_SPECTRAL_WEAPON | SPELL_BORGNJORS_REVIVIFICATION
  | SPELL_DEATHS_DOOR | SPELL_CURE_POISON | SPELL_SUBLIMATION_OF_BLOOD
  | SPELL_TORNADO | SPELL_MALIGN_GATEWAY | SPELL_SUMMON_FOREST
  | SPELL_ANIMATE_DEAD | SPELL_ANIMATE_SKELETON | SPELL_TWISTED_RESURRECTION
  | SPELL_CONTROL_UNDEAD | SPELL_DEATH_CHANNEL | SPELL_SIMULACRUM
  | SPELL_SUMMON_SMALL_MAMMAL | SPELL_SUMMON_HORRIBLE_THINGS | SPELL_HAUNT
  | SPELL_SUMMON_ICE_BEAST | SPELL_CALL_IMP | SPELL_SUMMON_GREATER_DEMON
  | SPELL_SHADOW_CREATURES | SPELL_CALL_CANINE_FAMILIAR | SPELL_SUMMON_DRAGON
  | SPELL_SUMMON_BUTTERFLIES | SPELL_MONSTROUS_MENAGERIE | SPELL_SUMMON_HYDRA
  | SPELL_SUMMON_MINOR_DEMON | SPELL_SUMMON_LIGHTNING_SPIRE
  | SPELL_SUMMON_GUARDIAN_GOLEM | SPELL_DRAGON_CALL | SPELL_SUMMON_MANA_VIPER
  | SPELL_APPORTATION | SPELL_CONJURE_FLAME | SPELL_PASSWALL
  | SPELL_GOLUBRIAS_PASSAGE | SPELL_FULMINANT_PRISM | SPELL_CHAIN_LIGHTNING
  | SPELL_OZOCUBUS_REFRIGERATION | SPELL_OLGREBS_TOXIC_RADIANCE
  | SPELL_FREEZING_CLOUD | SPELL_POISONOUS_CLOUD | SPELL_HOLY_BREATH
  | SPELL_RANDOM_BOLT
  | NUM_SPELLS
  | SPELL_OTHER (raw : Z).

Lemma spell_eq_dec : forall a b : spell_type, {a = b} + {a <> b}.
Proof. decide equality. apply Z.eq_dec. Defined.

Definition spell_eqb (a b : spell_type) : bool :=
  if spell_eq_dec a b then true else false.

Inductive spschool_flag_type : Type :=
  | SPTYP_NONE
  | SPTYP_CONJURATION | SPTYP_HEXES | SPTYP_CHARMS | SPTYP_FIRE | SPTYP_ICE
  | SPTYP_TRANSMUTATION | SPTYP_NECROMANCY | SPTYP_SUMMONING
  | SPTYP_DIVINATION | SPTYP_TRANSLOCATION | SPTYP_POISON | SPTYP_EARTH
  | SPTYP_AIR | SPTYP_RANDOM
  | SPTYP_OTHER (raw : Z).

Lemma spschool_eq_dec : forall a b : spschool_flag_type, {a = b} + {a <> b}.
Proof. decide equality. apply Z.eq_dec. Defined.

(** A value of [spschools_type] is a set of schools: [schools & school]
    asks whether [school] is in it, [disc1 | disc2] is the union. *)
Definition spschools_type : Type := spschool_flag_type -> bool.

Inductive skill_type : Type :=
  | SK_CONJURATIONS | SK_HEXES | SK_CHARMS | SK_FIRE_MAGIC | SK_ICE_MAGIC
  | SK_TRANSMUTATIONS | SK_NECROMANCY | SK_SUMMONINGS | SK_TRANSLOCATIONS
  | SK_POISON_MAGIC | SK_EARTH_MAGIC | SK_AIR_MAGIC
  | SK_EVOCATIONS | SK_SPELLCASTING | SK_NONE
  | SK_OTHER (raw : Z).

Inductive mutation_type : Type :=
  | MUT_NO_CONJURATION_MAGIC | MUT_NO_HEXES_MAGIC | MUT_NO_CHARM_MAGIC
  | MUT_NO_FIRE_MAGIC | MUT_NO_ICE_MAGIC | MUT_NO_TRANSMUTATION_MAGIC
  | MUT_NO_NECROMANCY_MAGIC | MUT_NO_SUMMONING_MAGIC
  | MUT_NO_TRANSLOCATION_MAGIC | MUT_NO_POISON_MAGIC | MUT_NO_EARTH_MAGIC
  | MUT_NO_AIR_MAGIC
  | NUM_MUTATIONS
  | MUT_OTHER (raw : Z).

Lemma mutation_eq_dec : forall a b : mutation_type, {a = b} + {a <> b}.
Proof. decide equality. apply Z.eq_dec. Defined.

Definition mutation_eqb (a b : mutation_type) : bool :=
  if mutation_eq_dec a b then true else false.

(** ** Schools and skills *)

(** [spell_type2skill]. *)
Definition spell_type2skill (spelltype : spschool_flag_type) : skill_type :=
  match spelltype with
  | SPTYP_CONJURATION => SK_CONJURATIONS
  | SPTYP_HEXES => SK_HEXES
  | SPTYP_CHARMS => SK_CHARMS
  | SPTYP_FIRE => SK_FIRE_MAGIC
  | SPTYP_ICE => SK_ICE_MAGIC
  | SPTYP_TRANSMUTATION => SK_TRANSMUTATIONS
  | SPTYP_NECROMANCY => SK_NECROMANCY
  | SPTYP_SUMMONING => SK_SUMMONINGS
  | SPTYP_TRANSLOCATION => SK_TRANSLOCATIONS
  | SPTYP_POISON => SK_POISON_MAGIC
  | SPTYP_EARTH => SK_EARTH_MAGIC
  | SPTYP_AIR => SK_AIR_MAGIC
  | _ => SK_NONE
  end.

(** [skill2spell_type]. *)
Definition skill2spell_type (spell_skill : skill_type) : spschool_flag_type :=
  match spell_skill with
  | SK_CONJURATIONS => SPTYP_CONJURATION
  | SK_HEXES => SPTYP_HEXES
  | SK_CHARMS => SPTYP_CHARMS
  | SK_FIRE_MAGIC => SPTYP_FIRE
  | SK_ICE_MAGIC => SPTYP_ICE
  | SK_TRANSMUTATIONS => SPTYP_TRANSMUTATION
  | SK_NECROMANCY => SPTYP_NECROMANCY
  | SK_SUMMONINGS => SPTYP_SUMMONING
  | SK_TRANSLOCATIONS => SPTYP_TRANSLOCATION
  | SK_POISON_MAGIC => SPTYP_POISON
  | SK_EARTH_MAGIC => SPTYP_EARTH
  | SK_AIR_MAGIC => SPTYP_AIR
  | _ => SPTYP_NONE
  end.

(** [disciplines_conflict]. *)
Definition disciplines_conflict (disc1 disc2 : spschools_type) : bool :=
  let combined school := disc1 school || disc2 school in
  (combined SPTYP_EARTH && combined SPTYP_AIR)
  || (combined SPTYP_FIRE && combined SPTYP_ICE).

(** [arcana_sacrifice_map]: a map of schools to the corresponding
    sacrifice 'mutations'. *)
Definition arcana_sacrifice_map : list mutation_type :=
  [ MUT_NO_CONJURATION_MAGIC;
    MUT_NO_HEXES_MAGIC;
    MUT_NO_CHARM_MAGIC;
    MUT_NO_FIRE_MAGIC;
    MUT_NO_ICE_MAGIC;
    MUT_NO_TRANSMUTATION_MAGIC;
    MUT_NO_NECROMANCY_MAGIC;
    MUT_NO_SUMMONING_MAGIC;
    NUM_MUTATIONS; (* SPTYP_DIVINATION *)
    MUT_NO_TRANSLOCATION_MAGIC;
    MUT_NO_POISON_MAGIC;
    MUT_NO_EARTH_MAGIC;
    MUT_NO_AIR_MAGIC ].

(** [COMPILE_CHECK(ARRAYSZ(arcana_sacrifice_map) == SPTYP_LAST_EXPONENT + 1)]
    fixes the value. *)
Definition SPTYP_LAST_EXPONENT : Z := 12.

(** ** Counting bits *)

(** The loop [for (n = 1; n; n <<= 1)] of [count_bits] on 64-bit unsigned
    integers: [n] wraps to 0 after 64 rounds.  [rounds] bounds the number
    of rounds. *)
Fixpoint count_bits_loop (rounds : nat) (n bits c : Z) : Z :=
  match rounds with
  | O => c
  | S rounds' =>
      if n =? 0 then c
      else count_bits_loop rounds' (Z.shiftl n 1 mod 2 ^ 64) bits
             (if negb (Z.land n bits =? 0) then c + 1 else c)
  end.

(** [count_bits]. *)
Definition count_bits (bits : Z) : Z := count_bits_loop 65 1 bits 0.

(** ** What the module reads *)

Record spell_desc : Type := mk_spell_desc
  { id : spell_type;
    title : option string;          (* None: a null pointer *)
    disciplines : spschools_type;
    flags : Z;                      (* bitfield *)
    level : Z;
    power_cap : Z;
    min_range : Z;
    max_range : Z;
    noise : Z;
    effect_noise : Z;
    target_prompt : option string }.

(** What headers outside this file declare. *)
Record headers : Type := mk_headers
  { spell_id : spell_type -> Z;       (* the numbering of [spell_type] *)
    spell_of_int : Z -> spell_type;   (* static_cast<spell_type>(int) *)
    spelldata : list spell_desc;      (* spl-data.h *)
    MAX_KNOWN_SPELLS : Z;
    SPFLAG_TARGETING_MASK : Z;
    SPFLAG_MONSTER : Z;
    SPFLAG_HELPFUL : Z;
    SPFLAG_NEUTRAL : Z;
    SPFLAG_AREA : Z;
    exponent : Z -> spschool_flag_type (* spschools_type::exponent *) }.

(** What the module asks of [you], [Options] and other modules. *)
Record player : Type := mk_player
  { num_turns : Z;
    auto_spell_letters : list (text_pattern * string);
    isaalpha : Z -> bool;
    letter_to_index : Z -> option Z;
    index_to_letter : Z -> option Z;
    lowercase_string : string -> string;
    is_player_spell : spell_type -> bool;
    player_energy : bool;
    skill : skill_type -> Z -> Z;
    intel : Z;
    has_spell : spell_type -> bool;
    current_vision : Z;
    wielding_rocks : bool;
    vehumet_supports_spell : spell_type -> bool;
    vehumet_in_good_standing : bool;   (* in_good_standing(GOD_VEHUMET, 3) *)
    spell_zap_power_cap : spell_type -> Z;
    explosion_noise : Z -> Z;
    player_mutation_level : mutation_type -> Z }.

(** Calls into other modules that change nothing this file reads, and
    messages. *)
Inductive request : Type :=
  | mprf (msg : string)
  | take_note_learn_spell (spell : spell_type) (* Note(NOTE_LEARN_SPELL, spell) *)
  | spell_skills_start_train (spell : spell_type)
  | spell_skills_stop_train (spell : spell_type).

Record game : Type := mk_game
  { you : player;
    spells : list spell_type;           (* you.spells *)
    spell_letter_table : list Z;        (* you.spell_letter_table, 52 slots *)
    spell_no : Z;
    last_cast_spell : spell_type;
    spell_list : list Z;                (* the file's static spell_list *)
    log : list request }.

Definition set_spells (l : list spell_type) (g : game) : game :=
  mk_game (you g) l (spell_letter_table g) (spell_no g) (last_cast_spell g)
          (spell_list g) (log g).

Definition set_spell_letter_table (l : list Z) (g : game) : game :=
  mk_game (you g) (spells g) l (spell_no g) (last_cast_spell g)
          (spell_list g) (log g).

Definition set_spell_no (n : Z) (g : game) : game :=
  mk_game (you g) (spells g) (spell_letter_table g) n (last_cast_spell g)
          (spell_list g) (log g).

Definition set_last_cast_spell (s : spell_type) (g : game) : game :=
  mk_game (you g) (spells g) (spell_letter_table g) (spell_no g) s
          (spell_list g) (log g).

Definition set_spell_list (l : list Z) (g : game) : game :=
  mk_game (you g) (spells g) (spell_letter_table g) (spell_no g)
          (last_cast_spell g) l (log g).

Definition set_log (l : list request) (g : game) : game :=
  mk_game (you g) (spells g) (spell_letter_table g) (spell_no g)
          (last_cast_spell g) (spell_list g) l.

(** ** Computations that may end the program *)

Definition M (A : Type) : Type := game -> option (A * game).

Definition ret {A : Type} (a : A) : M A := fun g => Some (a, g).

Definition bind {A B : Type} (m : M A) (k : A -> M B) : M B :=
  fun g => match m g with
           | Some (a, g') => k a g'
           | None => None
           end.

Definition die {A : Type} : M A := fun _ => None.

Definition ASSERT (b : bool) : M unit := if b then ret tt else die.

Definition get : M game := fun g => Some (g, g).

Definition modify (f : game -> game) : M unit := fun g => Some (tt, f g).

Definition lift {A : Type} (o : option A) : M A :=
  match o with
  | Some a => ret a
  | None => die
  end.

Declare Scope spl_scope.
Delimit Scope spl_scope with spl.
Notation "x <- m ;; k" := (bind m (fun x => k))
  (at level 61, m at next level, right associativity) : spl_scope.
Notation "m ;; k" := (bind m (fun _ => k))
  (at level 61, right associativity) : spl_scope.
Open Scope spl_scope.

(** A message or a call that is recorded. *)
Definition say (r : request) : M unit :=
  modify (fun g => set_log (log g ++ [r]) g).

(** [a[i]] and [a[i] = x]. *)
Definition array_get {A : Type} (a : list A) (i : Z) : option A :=
  if i <? 0 then None else nth_error a (Z.to_nat i).

Definition array_set {A : Type} (a : list A) (i : Z) (x : A)
  : option (list A) :=
  if (0 <=? i) && (i <? Z.of_nat (List.length a))
  then Some (list_set a (Z.to_nat i) x)
  else None.

Definition nonzero (z : Z) : bool := negb (z =? 0).

Section Spells.

Variable h : headers.

(** ** The spell table *)

(** The second loop of [init_spell_descs], from the entry number [i] on. *)
Fixpoint init_spell_descs_loop (entries : list spell_desc) (i : Z) : M unit :=
  match entries with
  | [] => ret tt
  | data :: rest =>
      ASSERT ((spell_id h (id data) >=? spell_id h SPELL_NO_SPELL)
              && (spell_id h (id data) <? spell_id h NUM_SPELLS)) ;;
      ASSERT (match title data with
              | Some (String _ _) => true
              | _ => false
              end) ;;
      ASSERT ((level data >=? 1) && (level data <=? 9)) ;;
      ASSERT (min_range data <=? max_range data) ;;
      ASSERT (negb (nonzero (Z.land (flags data) (SPFLAG_TARGETING_MASK h)))
              || ((min_range data >=? 0) && (max_range data >? 0))) ;;
      g <- get ;;
      ASSERT (negb (nonzero (Z.land (flags data) (SPFLAG_MONSTER h))
                    && is_player_spell (you g) (id data))) ;;
      l <- lift (array_set (spell_list g) (spell_id h (id data)) i) ;;
      modify (set_spell_list l) ;;
      init_spell_descs_loop rest (i + 1)
  end.

(** [init_spell_descs]: refresh the internal spell list. *)
Definition init_spell_descs : M unit :=
  modify (set_spell_list (repeat (-1) (Z.to_nat (spell_id h NUM_SPELLS)))) ;;
  init_spell_descs_loop (spelldata h) 0.

(** [_seekspell]. *)
Definition _seekspell (spell : spell_type) : M spell_desc :=
  ASSERT ((0 <=? spell_id h spell) && (spell_id h spell <? spell_id h NUM_SPELLS)) ;;
  g <- get ;;
  index <- lift (array_get (spell_list g) (spell_id h spell)) ;;
  ASSERT (negb (index =? -1)) ;;
  lift (array_get (spelldata h) index).

(** [is_valid_spell]. *)
Definition is_valid_spell (spell : spell_type) : M bool :=
  if (spell_id h spell >? spell_id h SPELL_NO_SPELL)
     && (spell_id h spell <? spell_id h NUM_SPELLS)
  then
    g <- get ;;
    index <- lift (array_get (spell_list g) (spell_id h spell)) ;;
    ret (negb (index =? -1))
  else ret false.

(** [spell_title]. *)
Definition spell_title (spell : spell_type) : M (option string) :=
  data <- _seekspell spell ;; ret (title data).

(** [spell_mana] and [spell_difficulty]. *)
Definition spell_mana (which_spell : spell_type) : M Z :=
  data <- _seekspell which_spell ;; ret (level data).

Definition spell_difficulty (which_spell : spell_type) : M Z :=
  data <- _seekspell which_spell ;; ret (level data).

(** [get_spell_flags]. *)
Definition get_spell_flags (which_spell : spell_type) : M Z :=
  data <- _seekspell which_spell ;; ret (flags data).

(** [get_spell_disciplines] and [spell_typematch]. *)
Definition get_spell_disciplines (spell : spell_type) : M spschools_type :=
  data <- _seekspell spell ;; ret (disciplines data).

Definition spell_typematch (which_spell : spell_type)
    (which_disc : spschool_flag_type) : M bool :=
  disc <- get_spell_disciplines which_spell ;; ret (disc which_disc).

(** [spell_harms_target] and [spell_harms_area]. *)
Definition spell_harms_target (spell : spell_type) : M bool :=
  data <- _seekspell spell ;;
  if nonzero (Z.land (flags data)
                (Z.lor (SPFLAG_HELPFUL h) (SPFLAG_NEUTRAL h)))
  then ret false
  else if nonzero (Z.land (flags data) (SPFLAG_TARGETING_MASK h))
  then ret true
  else ret false.

Definition spell_harms_area (spell : spell_type) : M bool :=
  data <- _seekspell spell ;;
  if nonzero (Z.land (flags data)
                (Z.lor (SPFLAG_HELPFUL h) (SPFLAG_NEUTRAL h)))
  then ret false
  else if nonzero (Z.land (flags data) (SPFLAG_AREA h))
  then ret true
  else ret false.

(** ** The spell memory *)

(** [get_spell_slot_by_letter]. *)
Definition get_spell_slot_by_letter (letter : Z) : M Z :=
  g <- get ;;
  ASSERT (isaalpha (you g) letter) ;;
  index <- lift (letter_to_index (you g) letter) ;;
  lift (array_get (spell_letter_table g) index).

(** The search of [find(begin(you.spells), end(you.spells), spell)], from
    the position [i] on. *)
Fixpoint find_spell (l : list spell_type) (spell : spell_type) (i : Z) : Z :=
  match l with
  | [] => -1
  | s :: rest => if spell_eqb s spell then i else find_spell rest spell (i + 1)
  end.

(** [_get_spell_slot]. *)
Definition _get_spell_slot (spell : spell_type) : M Z :=
  g <- get ;; ret (find_spell (spells g) spell 0).

(** [get_spell_letter]. *)
Definition get_spell_letter (spell : spell_type) : M Z :=
  slot <- _get_spell_slot spell ;;
  g <- get ;;
  lift (index_to_letter (you g) slot).

(** [get_spell_by_letter]. *)
Definition get_spell_by_letter (letter : Z) : M spell_type :=
  g <- get ;;
  ASSERT (isaalpha (you g) letter) ;;
  slot <- get_spell_slot_by_letter letter ;;
  if slot =? -1 then ret SPELL_NO_SPELL
  else lift (array_get (spells g) slot).

(** "First we find a slot in our head": the loop of [add_spell_to_memory]
    over the [n] slots from [i] on; the value of [i] after it. *)
Fixpoint free_spell_slot (n : nat) (i : Z) : M Z :=
  match n with
  | O => ret i
  | S n' =>
      g <- get ;;
      s <- lift (array_get (spells g) i) ;;
      if spell_eqb s SPELL_NO_SPELL then ret i
      else free_spell_slot n' (i + 1)
  end.

(** The loop over the [n] letters from [j] on that looks for a letter
    without a spell; the value of [j] after it. *)
Fixpoint free_spell_letter (n : nat) (j : Z) : M Z :=
  match n with
  | O => ret j
  | S n' =>
      g <- get ;;
      s <- lift (array_get (spell_letter_table g) j) ;;
      if s =? -1 then ret j
      else free_spell_letter n' (j + 1)
  end.

(** The loop of [add_spell_to_memory] over the characters of one entry of
    [Options.auto_spell_letters]: the value of [j] after it (-1 if no
    letter was chosen) and the value of [overwrite]. *)
Fixpoint auto_spell_letter_chars (matches : text_pattern) (chars : string)
    (overwrite : bool) : M (Z * bool) :=
  match chars with
  | EmptyString => ret (-1, overwrite)
  | String ch rest =>
      let c := char_code ch in
      if c =? char_code "+" then auto_spell_letter_chars matches rest true
      else if c =? char_code "-" then
        auto_spell_letter_chars matches rest false
      else
        g <- get ;;
        if isaalpha (you g) c then
          slot <- lift (letter_to_index (you g) c) ;;
          existing <- lift (array_get (spell_letter_table g) slot) ;;
          if existing =? -1 then ret (slot, overwrite)
          else if overwrite then
            etitle <- spell_title (spell_of_int h existing) ;;
            etitle <- lift etitle ;;
            let ename := lowercase_string (you g) etitle in
            (* Don't overwrite a spell matched by the same rule. *)
            if negb (matches ename) then ret (slot, overwrite)
            else auto_spell_letter_chars matches rest overwrite
          else
            (* Otherwise continue on to the next letter in this rule. *)
            auto_spell_letter_chars matches rest overwrite
        else auto_spell_letter_chars matches rest overwrite
  end.

(** The loop over the entries of [Options.auto_spell_letters]. *)
Fixpoint auto_spell_letter_entries (entries : list (text_pattern * string))
    (sname : string) (overwrite : bool) : M Z :=
  match entries with
  | [] => ret (-1)
  | entry :: rest =>
      if negb (fst entry sname) then
        auto_spell_letter_entries rest sname overwrite
      else
        r <- auto_spell_letter_chars (fst entry) (snd entry) overwrite ;;
        if negb (fst r =? -1) then ret (fst r)
        else auto_spell_letter_entries rest sname (snd r)
  end.

(** [add_spell_to_memory]. *)
Definition add_spell_to_memory (spell : spell_type) : M bool :=
  sname <- spell_title spell ;;
  sname <- lift sname ;;
  g <- get ;;
  let sname := lowercase_string (you g) sname in
  (* first we find a slot in our head: *)
  i <- free_spell_slot (Z.to_nat (MAX_KNOWN_SPELLS h)) 0 ;;
  l <- lift (array_set (spells g) i spell) ;;
  modify (set_spells l) ;;
  (* now we find an available label:
     first check to see whether we've chosen an automatic label: *)
  j <- auto_spell_letter_entries (auto_spell_letters (you g)) sname false ;;
  (* If we didn't find a label above, choose the first available one. *)
  j <- (if j =? -1 then free_spell_letter 52 0 else ret j) ;;
  (if nonzero (num_turns (you g)) then
     letter <- lift (index_to_letter (you g) j) ;;
     say (mprf ("Spell assigned to '"
                ++ String (ascii_of_N (Z.to_N letter)) "'."))
   else ret tt) ;;
  (* Swapping with an existing spell. *)
  g1 <- get ;;
  existing <- lift (array_get (spell_letter_table g1) j) ;;
  (if negb (existing =? -1) then
     (* Find a spot for the spell being moved. Assumes there will be one. *)
     free <- free_spell_letter 52 0 ;;
     if free <? 52 then
       l <- lift (array_set (spell_letter_table g1) free existing) ;;
       modify (set_spell_letter_table l)
     else ret tt
   else ret tt) ;;
  g2 <- get ;;
  l <- lift (array_set (spell_letter_table g2) j i) ;;
  modify (set_spell_letter_table l) ;;
  modify (fun g => set_spell_no (spell_no g + 1) g) ;;
  say (take_note_learn_spell spell) ;;
  say (spell_skills_start_train spell) ;;
  ret true.

(** The loop of [del_spell_from_memory_by_slot] over the [n] letters from
    [j] on. *)
Fixpoint forget_letters (n : nat) (j : Z) (slot : Z) : M unit :=
  match n with
  | O => ret tt
  | S n' =>
      g <- get ;;
      s <- lift (array_get (spell_letter_table g) j) ;;
      (if s =? slot then
         l <- lift (array_set (spell_letter_table g) j (-1)) ;;
         modify (set_spell_letter_table l)
       else ret tt) ;;
      forget_letters n' (j + 1) slot
  end.

(** [del_spell_from_memory_by_slot]. *)
Definition del_spell_from_memory_by_slot (slot : Z) : M bool :=
  ASSERT ((0 <=? slot) && (slot <? MAX_KNOWN_SPELLS h)) ;;
  g <- get ;;
  s <- lift (array_get (spells g) slot) ;;
  (if spell_eqb (last_cast_spell g) s
   then modify (set_last_cast_spell SPELL_NO_SPELL)
   else ret tt) ;;
  say (spell_skills_stop_train s) ;;
  stitle <- spell_title s ;;
  stitle <- lift stitle ;;
  say (mprf ("Your memory of " ++ stitle ++ " unravels.")) ;;
  l <- lift (array_set (spells g) slot SPELL_NO_SPELL) ;;
  modify (set_spells l) ;;
  forget_letters 52 0 slot ;;
  modify (fun g => set_spell_no (spell_no g - 1) g) ;;
  ret true.

(** [del_spell_from_memory]. *)
Definition del_spell_from_memory (spell : spell_type) : M bool :=
  i <- _get_spell_slot spell ;;
  if i =? -1 then ret false
  else del_spell_from_memory_by_slot i.

(** ** Costs and ranges *)

(** [spell_hunger]. *)
Definition spell_hunger (which_spell : spell_type) (rod : bool) : M Z :=
  g <- get ;;
  if player_energy (you g) then ret 0
  else
    level <- spell_difficulty which_spell ;;
    let basehunger := [ 50; 100; 150; 250; 400; 550; 700; 850; 1000 ] in
    let hunger :=
      if (level <? 10) && (level >? 0)
      then nth (Z.to_nat (level - 1)) basehunger 0
      else Z.quot (nth 0 basehunger 0 * level * level) 4 in
    let hunger :=
      if rod then
        Z.max (hunger - skill (you g) SK_EVOCATIONS 10) (level * 5)
      else hunger - skill (you g) SK_SPELLCASTING (intel (you g)) in
    ret (if hunger <? 0 then 0 else hunger).

(** [spell_is_direct_explosion]. *)
Definition spell_is_direct_explosion (spell : spell_type) : bool :=
  spell_eqb spell SPELL_FIRE_STORM || spell_eqb spell SPELL_HELLFIRE_BURST.

(** [spell_levels_required]. *)
Definition spell_levels_required (which_spell : spell_type) : M Z :=
  g <- get ;;
  levels <- spell_difficulty which_spell ;;
  if spell_eqb which_spell SPELL_DELAYED_FIREBALL
     && has_spell (you g) SPELL_FIREBALL
  then
    fireball <- spell_difficulty SPELL_FIREBALL ;;
    ret (levels - fireball)
  else if spell_eqb which_spell SPELL_FIREBALL
          && has_spell (you g) SPELL_DELAYED_FIREBALL
  then ret 0
  else ret levels.

(** [_spell_range_varies]. *)
Definition _spell_range_varies (spell : spell_type) : M bool :=
  data <- _seekspell spell ;;
  data' <- _seekspell spell ;;
  ret (min_range data <? max_range data').

(** [spell_power_cap]. *)
Definition spell_power_cap (spell : spell_type) : M Z :=
  data <- _seekspell spell ;;
  g <- get ;;
  let scap := power_cap data in
  let zcap := spell_zap_power_cap (you g) spell in
  if scap =? 0 then ret zcap
  else if zcap =? 0 then ret scap
  else if scap <=? zcap then ret scap
  else
    (* Two separate power caps; pre-zapping spell power goes into range. *)
    varies <- _spell_range_varies spell ;;
    if varies then ret scap else ret zcap.

(** [spell_range].  Division by zero is undefined; the embedding stops
    there. *)
Definition spell_range (spell : spell_type) (pow : Z) (player_spell : bool)
  : M Z :=
  data <- _seekspell spell ;;
  data' <- _seekspell spell ;;
  let minrange := min_range data in
  let maxrange := max_range data' in
  ASSERT (maxrange >=? minrange) ;;
  (* spells with no range have maxrange == minrange == -1 *)
  if maxrange <? 0 then ret maxrange
  else
    g <- get ;;
    let y := you g in
    (* Sandblast is a special case. *)
    let rocks := spell_eqb spell SPELL_SANDBLAST && wielding_rocks y in
    let minrange := if rocks then minrange + 1 else minrange in
    let maxrange := if rocks then maxrange + 1 else maxrange in
    let vehumet :=
      player_spell
      && vehumet_supports_spell y spell
      && vehumet_in_good_standing y
      && (maxrange >? 1)
      && negb (spell_eqb spell SPELL_GLACIATE) in
    let maxrange := if vehumet then maxrange + 1 else maxrange in
    let minrange := if vehumet then minrange + 1 else minrange in
    if minrange =? maxrange then ret (Z.min minrange (current_vision y))
    else
      powercap <- spell_power_cap spell ;;
      if powercap <=? pow then ret (Z.min maxrange (current_vision y))
      else
        ASSERT (negb (powercap =? 0)) ;;
        (* Round appropriately. *)
        ret (Z.min (current_vision y)
               (Z.quot (pow * (maxrange - minrange) + Z.quot powercap 2)
                  powercap
                + minrange)).

(** [spell_noise]. *)
Definition spell_noise (spell : spell_type) : M Z :=
  data <- _seekspell spell ;; ret (noise data).

(** [spell_effect_noise]. *)
Definition spell_effect_noise (spell : spell_type) : M Z :=
  let expl_size :=
    match spell with
    | SPELL_MEPHITIC_CLOUD
    | SPELL_FIREBALL
    | SPELL_VIOLENT_UNRAVELLING => 1
    | SPELL_LRD => 2
    (* worst case scenario for these *)
    | SPELL_FIRE_STORM
    | SPELL_CONJURE_BALL_LIGHTNING => 3
    | _ => 0
    end in
  if nonzero expl_size then
    g <- get ;; ret (explosion_noise (you g) expl_size)
  else
    data <- _seekspell spell ;; ret (effect_noise data).

(** [spell_is_form]: does the given spell map to a player
    transformation? *)
Definition spell_is_form (spell : spell_type) : bool :=
  match spell with
  | SPELL_BEASTLY_APPENDAGE
  | SPELL_BLADE_HANDS
  | SPELL_DRAGON_FORM
  | SPELL_HYDRA_FORM
  | SPELL_ICE_FORM
  | SPELL_SPIDER_FORM
  | SPELL_STATUE_FORM
  | SPELL_NECROMUTATION => true
  | _ => false
  end.

(** ** Schools that are locked out *)

(** [arcana_sacrifice_map[i]]. *)
Definition arcana_sacrifice (i : Z) : option mutation_type :=
  array_get arcana_sacrifice_map i.

(** The loop of [cannot_use_schools] over the [n] exponents from [i] on;
    [None] is a read outside [arcana_sacrifice_map]. *)
Fixpoint cannot_use_schools_loop (y : player) (n : nat) (i : Z)
    (schools : spschools_type) : option bool :=
  match n with
  | O => Some false
  | S n' =>
      (* skip schools not in the provided set *)
      let school := exponent h i in
      if negb (schools school) then
        cannot_use_schools_loop y n' (i + 1) schools
      else
        (* check if the player has this school locked out *)
        match arcana_sacrifice i with
        | None => None
        | Some lockout_mut =>
            if negb (mutation_eqb lockout_mut NUM_MUTATIONS)
               && nonzero (player_mutation_level y lockout_mut)
            then Some true
            else cannot_use_schools_loop y n' (i + 1) schools
        end
  end.

(** [cannot_use_schools]: are some subset of the given schools unusable by
    the player? *)
Definition cannot_use_schools (y : player) (schools : spschools_type)
  : option bool :=
  cannot_use_schools_loop y (Z.to_nat (SPTYP_LAST_EXPONENT + 1)) 0 schools.

(** The loop of [arcane_mutation_to_skill] over the [n] exponents from
    [exp] on. *)
Fixpoint arcane_mutation_to_skill_loop (n : nat) (exp : Z)
    (mutation : mutation_type) : option skill_type :=
  match n with
  | O => Some SK_NONE
  | S n' =>
      match arcana_sacrifice exp with
      | None => None
      | Some m =>
          if mutation_eqb m mutation
          then Some (spell_type2skill (exponent h exp))
          else arcane_mutation_to_skill_loop n' (exp + 1) mutation
      end
  end.

(** [arcane_mutation_to_skill]: the skill of the school that corresponds
    to the given Ru mutation; SK_NONE if no school corresponds. *)
Definition arcane_mutation_to_skill (mutation : mutation_type)
  : option skill_type :=
  arcane_mutation_to_skill_loop (Z.to_nat (SPTYP_LAST_EXPONENT + 1)) 0
    mutation.

End Spells.

(** ** Function applicators

    The dungeon is a state of its own here: [W] is the type of its states,
    [monster_at] asks for the monster on a square, and a function that is
    applied returns a number and the next state. *)

Section Applicators.

Variable W : Type.
Variable coord_def : Type.
Variable monster : Type.
Variable monster_eq_dec : forall a b : monster, {a = b} + {a <> b}.
Variable monster_at : coord_def -> W -> option monster.

(** The loop of [apply_monsters_around_square] over the squares of the
    radius iterator: the sum of the values returned, the monsters affected
    so far (the latest first) and the dungeon. *)
Fixpoint apply_monsters_loop (mf : monster -> W -> Z * W)
    (squares : list coord_def) (rv : Z) (affected : list monster) (w : W)
  : Z * list monster * W :=
  match squares with
  | [] => (rv, affected, w)
  | ri :: rest =>
      match monster_at ri w with
      | Some mon =>
          if in_dec monster_eq_dec mon affected
          then apply_monsters_loop mf rest rv affected w
          else
            let r := mf mon w in
            apply_monsters_loop mf rest (rv + fst r) (mon :: affected) (snd r)
      | None => apply_monsters_loop mf rest rv affected w
      end
  end.

(** [apply_monsters_around_square]: like [apply_area_around_square], but
    for monsters in those squares, and takes care not to affect monsters
    twice that change position.  [squares] are the squares that
    [radius_iterator ri(where, radius, C_SQUARE, true)] visits. *)
Definition apply_monsters_around_square (mf : monster -> W -> Z * W)
    (squares : list coord_def) (w : W) : Z * list monster * W :=
  apply_monsters_loop mf squares 0 [] w.

End Applicators.

End SplUtil.

(** * Facts about the registry *)

(** An identity is registered when some entry of [Ability_List] carries it. *)
Definition registered (abil : ability_type) : bool :=
  existsb (fun ab_def => ability_eqb (ability ab_def) abil) Ability_List.

Fixpoint distinct_identities (l : list ability_type) : bool :=
  match l with
  | [] => true
  | a :: rest =>
      negb (existsb (ability_eqb a) rest) && distinct_identities rest
  end.

Lemma distinct_identities_NoDup : forall l,
  distinct_identities l = true -> NoDup l.
Proof.
  induction l as [|a rest IH]; intro H; [constructor|].
  simpl in H. apply andb_prop in H as [Hhead Hrest].
  constructor; [|auto].
  intro Hin.
  assert (existsb (ability_eqb a) rest = true) as E.
  { apply existsb_exists. exists a. split; [assumption|apply ability_eqb_refl]. }
  rewrite E in Hhead. discriminate.
Qed.

(** Exactly one definition per identity. *)
Lemma Ability_List_NoDup : NoDup (map ability Ability_List).
Proof. apply distinct_identities_NoDup. vm_compute. reflexivity. Qed.

Lemma NoDup_map_inj : forall (A B : Type) (f : A -> B) (l : list A) (x y : A),
  NoDup (map f l) -> In x l -> In y l -> f x = f y -> x = y.
Proof.
  intros A B f l x y. induction l as [|a rest IH]; intros Hnd Hx Hy Hf.
  - destruct Hx.
  - simpl in Hnd. inversion Hnd as [|? ? Hnotin Hnd']; subst.
    destruct Hx as [Hx|Hx], Hy as [Hy|Hy]; subst.
    + reflexivity.
    + exfalso. apply Hnotin. rewrite Hf. now apply in_map.
    + exfalso. apply Hnotin. rewrite <- Hf. now apply in_map.
    + now apply IH.
Qed.

Lemma registered_find : forall abil,
  registered abil = true <->
  exists ab_def,
    find (fun d => ability_eqb (ability d) abil) Ability_List = Some ab_def.
Proof.
  intro abil. unfold registered. split.
  - intro H. apply existsb_exists in H as [d [Hin Hd]].
    destruct (find (fun d => ability_eqb (ability d) abil) Ability_List)
      as [d'|] eqn:E.
    + now exists d'.
    + pose proof (find_none _ _ E d Hin) as Hnone. simpl in Hnone.
      congruence.
  - intros [d E]. apply find_some in E as [Hin Hd].
    apply existsb_exists. now exists d.
Qed.

(** C8.  Registry lookup is total.  For a registered identity
    [get_ability_def] returns the entry of [Ability_List] that carries it
    (there is exactly one); for every other identity it returns the first
    entry of the table, which is the sentinel "No ability". *)
Theorem get_ability_def_lookup : forall abil : ability_type,
  if registered abil
  then In (get_ability_def abil) Ability_List
       /\ ability (get_ability_def abil) = abil
       /\ (forall ab_def, In ab_def Ability_List -> ability ab_def = abil ->
             ab_def = get_ability_def abil)
  else nth_error Ability_List 0 = Some (get_ability_def abil)
       /\ ability (get_ability_def abil) = ABIL_NON_ABILITY
       /\ name (get_ability_def abil) = "No ability"%string.
Proof.
  intro abil. destruct (registered abil) eqn:R.
  - apply registered_find in R as [d E].
    unfold get_ability_def. rewrite E.
    apply find_some in E as [Hin Hd]. apply ability_eqb_eq in Hd.
    repeat split; try assumption.
    intros d' Hin' Hd'.
    apply (NoDup_map_inj _ _ ability Ability_List d' d Ability_List_NoDup);
      congruence.
  - assert (find (fun d => ability_eqb (ability d) abil) Ability_List = None)
      as E.
    { destruct (find _ Ability_List) as [d|] eqn:E; [|reflexivity].
      assert (registered abil = true) as R'
        by (apply registered_find; now exists d).
      congruence. }
    unfold get_ability_def. rewrite E. repeat split.
Qed.

(** Both kinds of identity exist: the sentinel and the named abilities are
    registered, the other values of the enumeration are not. *)
Lemma registered_examples :
  registered ABIL_NON_ABILITY = true
  /\ registered ABIL_BLINK = true
  /\ forall raw, registered (ABIL_UNREGISTERED raw) = false.
Proof.
  split; [vm_compute; reflexivity|].
  split; [vm_compute; reflexivity|].
  intro raw. unfold registered.
  destruct (existsb _ Ability_List) eqn:E; [|reflexivity].
  apply existsb_exists in E as [d [Hin Hd]]. apply ability_eqb_eq in Hd.
  revert Hin Hd. unfold Ability_List.
  repeat (intros [<-|Hin]; [discriminate|revert Hin]).
  intros [].
Qed.

(** * Facts about the cost model *)

(** The scaling cost as the comment on [Ability_List] describes it: "hp cost
    is in per-mil of maxhp (i.e. 20 = 2% of hp, rounded up)"; a negative
    magnitude is a fixed cost. *)
Definition scaling_cost_rounded_up (c : scaling_cost) (max : Z) : Z :=
  if value c <? 0 then - value c
  else (value c * max + 999) / 1000.

Lemma scaling_cost_cost_negative : forall c max,
  value c < 0 -> scaling_cost_cost c max = - value c.
Proof.
  intros c max H. unfold scaling_cost_cost.
  destruct (value c <? 0) eqn:E; [reflexivity|].
  apply Z.ltb_ge in E. lia.
Qed.

Lemma scaling_cost_cost_fixed : forall f max,
  0 <= f -> scaling_cost_cost (scaling_cost_fixed f) max = f.
Proof.
  intros f max H. unfold scaling_cost_cost, scaling_cost_fixed, scaling_cost_of.
  simpl. destruct (- f <? 0) eqn:E.
  - lia.
  - apply Z.ltb_ge in E. assert (f = 0) as -> by lia. reflexivity.
Qed.

(** For a per-mille magnitude the code rounds to the nearest integer, halves
    upwards. *)
Lemma scaling_cost_cost_permille : forall c max,
  0 <= value c -> 0 <= max ->
  scaling_cost_cost c max = (value c * max + 500) / 1000.
Proof.
  intros c max Hv Hm. unfold scaling_cost_cost.
  destruct (value c <? 0) eqn:E; [apply Z.ltb_lt in E; lia|].
  apply Z.quot_div_nonneg; nia.
Qed.

(** Where rounding to nearest and rounding up agree. *)
Lemma scaling_cost_cost_rounded_up_iff : forall c max,
  0 <= value c -> 0 <= max ->
  (scaling_cost_cost c max = scaling_cost_rounded_up c max
   <-> (value c * max) mod 1000 = 0 \/ 500 <= (value c * max) mod 1000).
Proof.
  intros c max Hv Hm.
  rewrite scaling_cost_cost_permille by assumption.
  unfold scaling_cost_rounded_up.
  destruct (value c <? 0) eqn:E; [apply Z.ltb_lt in E; lia|].
  remember (value c * max) as x eqn:Hx.
  pose proof (Z.div_mod x 1000 ltac:(lia)) as Hdm.
  pose proof (Z.mod_pos_bound x 1000 ltac:(lia)) as Hb.
  remember (x / 1000) as q. remember (x mod 1000) as r.
  assert ((x + 500) / 1000 = q + (r + 500) / 1000) as ->.
  { replace (x + 500) with (q * 1000 + (r + 500)) by lia.
    rewrite Z.div_add_l by lia. reflexivity. }
  assert ((x + 999) / 1000 = q + (r + 999) / 1000) as ->.
  { replace (x + 999) with (q * 1000 + (r + 999)) by lia.
    rewrite Z.div_add_l by lia. reflexivity. }
  assert ((r + 500) / 1000 = if r <? 500 then 0 else 1) as ->.
  { destruct (r <? 500) eqn:Er.
    - apply Z.ltb_lt in Er. apply Z.div_small. lia.
    - apply Z.ltb_ge in Er. symmetry. apply Z.div_unique with (r := r - 500); lia. }
  assert ((r + 999) / 1000 = if r =? 0 then 0 else 1) as ->.
  { destruct (r =? 0) eqn:Er.
    - apply Z.eqb_eq in Er. subst r. rewrite Er. reflexivity.
    - apply Z.eqb_neq in Er. symmetry. apply Z.div_unique with (r := r - 1); lia. }
  destruct (Z.ltb_spec r 500); destruct (Z.eqb_spec r 0); lia.
Qed.

(** C3.  The evaluated hit-point cost is not the rounded-up per-mille share
    that the table's comment promises: Blink costs 50 per mille, and at 25
    maximum hit points [scaling_cost::cost] returns 1, while 1.25 rounded up
    is 2. *)
Theorem scaling_cost_cost_not_rounded_up :
  hp_cost (get_ability_def ABIL_BLINK) = scaling_cost_of 50
  /\ scaling_cost_cost (hp_cost (get_ability_def ABIL_BLINK)) 25 = 1
  /\ scaling_cost_rounded_up (hp_cost (get_ability_def ABIL_BLINK)) 25 = 2.
Proof.
  assert (hp_cost (get_ability_def ABIL_BLINK) = scaling_cost_of 50) as E
    by (vm_compute; reflexivity).
  rewrite E. repeat split.
Qed.

Section CostFacts.

Variable random2avg : Z -> Z -> nat -> Z.

(** What the module relies on: [random2avg(max, rolls)] is an average of
    rolls below [max]. *)
Hypothesis random2avg_range : forall max rolls n,
  0 < max -> 1 <= rolls -> 0 <= random2avg max rolls n < max.

Lemma generic_cost_cost_no_add : forall c n,
  add c <= 0 -> generic_cost_cost random2avg c n = base c.
Proof.
  intros c n H. unfold generic_cost_cost.
  destruct (add c >? 0) eqn:E; [|lia].
  apply Z.gtb_lt in E. lia.
Qed.

Lemma generic_cost_cost_bounds : forall c n,
  0 < add c -> 1 <= rolls c ->
  base c <= generic_cost_cost random2avg c n < base c + add c.
Proof.
  intros c n Ha Hr. unfold generic_cost_cost.
  destruct (add c >? 0) eqn:E.
  - pose proof (random2avg_range (add c) (rolls c) n Ha Hr). lia.
  - rewrite Z.gtb_ltb in E. apply Z.ltb_ge in E. lia.
Qed.

(** C9.  A discrete cost without additive term always evaluates to its base,
    and a cost built by [range(lo, hi)] with [lo <= hi] always evaluates
    within [lo, hi], whichever draw the evaluation is. *)
Theorem generic_cost_cost_fixed_and_range : forall (c : generic_cost)
    (lo hi : Z) (n : nat),
  (add c = 0 -> generic_cost_cost random2avg c n = base c)
  /\ (lo <= hi ->
      lo <= generic_cost_cost random2avg (generic_cost_range lo hi 1) n <= hi).
Proof.
  intros c lo hi n. split.
  - intro H. apply generic_cost_cost_no_add. lia.
  - intro H.
    pose proof (generic_cost_cost_bounds (generic_cost_range lo hi 1) n) as B.
    simpl in B. lia.
Qed.





End CostFacts.

(** A random source that keeps the contract of [random2avg], to show that
    the contract can be met. *)
Definition sample_random2avg (max rolls : Z) (n : nat) : Z :=
  if max <=? 1 then 0 else Z.of_nat n mod max.

Lemma sample_random2avg_range : forall max rolls n,
  0 < max -> 1 <= rolls -> 0 <= sample_random2avg max rolls n < max.
Proof.
  intros max rolls n H _. unfold sample_random2avg.
  destruct (max <=? 1) eqn:E; [lia|].
  apply Z.mod_pos_bound. assumption.
Qed.

Lemma generic_cost_cost_fixed_and_range_witness :
  generic_cost_cost sample_random2avg (generic_cost_fixed 35) 4 = 35
  /\ 5 <= generic_cost_cost sample_random2avg (generic_cost_range 5 6 1) 4 <= 6.
Proof.
  destruct (generic_cost_cost_fixed_and_range sample_random2avg
              sample_random2avg_range (generic_cost_fixed 35) 5 6 4)
    as [Hfixed Hrange].
  split.
  - apply Hfixed. reflexivity.
  - apply Hrange. discriminate.
Defined.


(** * Facts about placeholders *)

(** What [fixup_ability] may return: the identity itself, the sentinel, or
    "Stop Recall". *)
Lemma fixup_ability_image : forall y a,
  fixup_ability y a = a
  \/ fixup_ability y a = ABIL_NON_ABILITY
  \/ fixup_ability y a = ABIL_STOP_RECALL.
Proof.
  intros y a. destruct a; try (left; reflexivity); cbn [fixup_ability];
    match goal with
    | |- context [if ?c then _ else _] => destruct c; auto
    end.
Qed.

Lemma fixup_ability_sentinel : forall y,
  fixup_ability y ABIL_NON_ABILITY = ABIL_NON_ABILITY.
Proof. reflexivity. Qed.

Lemma fixup_ability_stop_recall : forall y,
  fixup_ability y ABIL_STOP_RECALL = ABIL_STOP_RECALL.
Proof. reflexivity. Qed.

(** C5.  In every state of the player the placeholder mapping is idempotent:
    an identity it has resolved, the sentinel included, is returned
    unchanged. *)
Theorem fixup_ability_idempotent : forall (y : player) (a : ability_type),
  fixup_ability y (fixup_ability y a) = fixup_ability y a.
Proof.
  intros y a.
  destruct (fixup_ability_image y a) as [E|[E|E]]; rewrite E.
  - exact E.
  - apply fixup_ability_sentinel.
  - apply fixup_ability_stop_recall.
Qed.

(** * Facts about slot assignment *)

(** [only_table g g']: [g'] is [g] except for the letter table. *)
Definition only_table (g g' : game) : Prop :=
  g' = set_ability_letter_table (ability_letter_table g') g.

Lemma only_table_refl : forall g, only_table g g.
Proof. intros []; reflexivity. Qed.

Lemma only_table_trans : forall g1 g2 g3,
  only_table g1 g2 -> only_table g2 g3 -> only_table g1 g3.
Proof.
  unfold only_table. intros g1 g2 g3 H12 H23.
  rewrite H23 at 1. rewrite H12 at 1. destruct g1; reflexivity.
Qed.

Lemma only_table_set : forall t g, only_table g (set_ability_letter_table t g).
Proof. intros t []; reflexivity. Qed.

Lemma only_table_you : forall g g', only_table g g' -> you g' = you g.
Proof. unfold only_table. intros g g' ->. reflexivity. Qed.

Lemma only_table_duration : forall g g',
  only_table g g' -> duration g' = duration g.
Proof. unfold only_table. intros g g' ->. reflexivity. Qed.

Lemma only_table_log : forall g g', only_table g g' -> log g' = log g.
Proof. unfold only_table. intros g g' ->. reflexivity. Qed.

(** A computation that, whenever it returns, has touched the letter table
    only. *)
Definition table_only {A : Type} (m : M A) : Prop :=
  forall g a g', m g = Some (a, g') -> only_table g g'.

Lemma table_only_ret : forall (A : Type) (a : A), table_only (ret a).
Proof. intros A a g a' g' H. injection H as _ <-. apply only_table_refl. Qed.

Lemma table_only_get : table_only get.
Proof. intros g a g' H. injection H as _ <-. apply only_table_refl. Qed.

Lemma table_only_lift : forall (A : Type) (o : option A), table_only (lift o).
Proof. intros A [a|]; [apply table_only_ret|discriminate]. Qed.

Lemma table_only_ASSERT : forall b, table_only (ASSERT b).
Proof. intros [|]; [apply table_only_ret|discriminate]. Qed.

Lemma table_only_table_set : forall slot a, table_only (table_set slot a).
Proof. intros slot a g u g' H. injection H as _ <-. apply only_table_set. Qed.

Lemma table_only_bind : forall (A B : Type) (m : M A) (k : A -> M B),
  table_only m -> (forall a, table_only (k a)) -> table_only (bind m k).
Proof.
  intros A B m k Hm Hk g b g' H.
  apply bind_Some in H as (a & g1 & H1 & H2).
  eapply only_table_trans; [eapply Hm|eapply Hk]; eassumption.
Qed.

Ltac table_only_step :=
  first
    [ apply table_only_ret
    | apply table_only_get
    | apply table_only_lift
    | apply table_only_ASSERT
    | apply table_only_table_set
    | apply table_only_bind; [|intro]
    | match goal with
      | |- table_only (if ?c then _ else _) => destruct c
      | |- table_only (match ?x with _ => _ end) => destruct x
      end ].

Lemma table_only_lookup_ability_slot : forall abil,
  table_only (_lookup_ability_slot abil).
Proof. intro abil. unfold _lookup_ability_slot. repeat table_only_step. Qed.

Lemma table_only_swap_ability_slots : forall i j,
  table_only (swap_ability_slots i j true).
Proof. intros i j. unfold swap_ability_slots. repeat table_only_step. Qed.

Lemma table_only_auto_assign_letters : forall y matches abil_type slot letters
    overwrite,
  table_only (auto_assign_letters y matches abil_type slot letters overwrite).
Proof.
  intros y matches abil_type slot letters.
  induction letters as [|c rest IH]; intro overwrite;
    cbn [auto_assign_letters];
    repeat first [ apply IH
                 | apply table_only_swap_ability_slots
                 | table_only_step ].
Qed.

Lemma table_only_auto_assign_mappings : forall y mappings abil_type abilname
    slot overwrite,
  table_only (auto_assign_mappings y mappings abil_type abilname slot overwrite).
Proof.
  intros y mappings abil_type abilname slot.
  induction mappings as [|mapping rest IH]; intro overwrite;
    cbn [auto_assign_mappings];
    repeat first [ apply IH
                 | apply table_only_auto_assign_letters
                 | table_only_step ].
Qed.

Lemma table_only_auto_assign_ability_slot : forall slot,
  table_only (auto_assign_ability_slot slot).
Proof.
  intro slot. unfold auto_assign_ability_slot.
  repeat first [apply table_only_auto_assign_mappings | table_only_step].
Qed.

Lemma table_only_find_ability_slot : forall abil firstletter,
  table_only (find_ability_slot abil firstletter).
Proof.
  intros abil firstletter. unfold find_ability_slot.
  repeat first [ apply table_only_lookup_ability_slot
               | apply table_only_auto_assign_ability_slot
               | table_only_step ].
Qed.

(** * Facts about talents *)

(** [get_talent] gives up on an ability that cannot be used while
    confused. *)
Definition too_confused (y : player) (check_confused : bool)
    (a : ability_type) : bool :=
  check_confused && confused y
  && negb (testbits (flags (get_ability_def (fixup_ability y a)))
             abflag.CONF_OK).

Lemma get_talent_sentinel : forall check_confused g,
  get_talent ABIL_NON_ABILITY check_confused g = None.
Proof. reflexivity. Qed.

(** The talent that [get_talent] returns. *)
Lemma get_talent_inv : forall a check_confused g t g',
  get_talent a check_confused g = Some (t, g') ->
  only_table g g'
  /\ a <> ABIL_NON_ABILITY
  /\ 0 <= fail t <= 100
  /\ if too_confused (you g) check_confused a
     then which t = ABIL_NON_ABILITY /\ is_invocation t = false
     else which t = fixup_ability (you g) a
          /\ is_invocation t = snd (get_talent_switch (you g) a).
Proof.
  intros a cc g t g' H.
  destruct (ability_eq_dec a ABIL_NON_ABILITY) as [->|Ha].
  { rewrite get_talent_sentinel in H. discriminate. }
  unfold get_talent in H.
  apply bind_Some in H as ([] & g0 & Hassert & H).
  assert (g0 = g) as ->.
  { unfold ASSERT in Hassert. destruct (negb _); [|discriminate].
    now injection Hassert as <-. }
  apply bind_Some in H as (g1 & g2 & Hget & H). injection Hget as <- <-.
  cbn [which hotkey fail is_invocation] in H. unfold too_confused.
  destruct (cc && confused (you g)
            && negb (testbits (flags (get_ability_def
                                        (fixup_ability (you g) a)))
                       abflag.CONF_OK)).
  - injection H as <- <-. cbn.
    repeat split; [apply only_table_refl|assumption|discriminate..].
  - apply bind_Some in H as (index & g3 & Hfind & H).
    apply table_only_find_ability_slot in Hfind.
    apply bind_Some in H as (hk & g4 & Hhk & H).
    assert (only_table g3 g4) as Hletter.
    { destruct (index >=? 0);
        [eapply table_only_lift|eapply table_only_ret]; exact Hhk. }
    injection H as <- <-. cbn [which fail is_invocation].
    split; [eapply only_table_trans; eassumption|].
    split; [assumption|].
    split; [|split; reflexivity].
    destruct (fst (get_talent_switch (you g) a) <? 0) eqn:E1.
    + cbn. lia.
    + destruct (fst (get_talent_switch (you g) a) >? 100) eqn:E2; lia.
Qed.

(** C4.  Whatever the ability and the state, the failure percentage of the
    talent that [get_talent] returns is within [0, 100]: the value of the
    formula is clamped, and the talent that is returned early for a confused
    player keeps the initial 0. *)
Theorem get_talent_fail_clamped : forall (a : ability_type)
    (check_confused : bool) (g g' : game) (t : talent),
  get_talent a check_confused g = Some (t, g') ->
  0 <= fail t <= 100.
Proof.
  intros a cc g g' t H.
  apply get_talent_inv in H as (_ & _ & Hfail & _). exact Hfail.
Qed.

(** * Sample characters

    The letters of the samples are a-z followed by A-Z over the slots 0-51,
    as the comments of the module have them ([a]-[e] are the first five
    slots, the scan "starting from Z" starts at 51); outside these the
    helpers stop the program. *)
Definition sample_index_to_letter (the_index : Z) : option Z :=
  if (0 <=? the_index) && (the_index <? 52)
  then Some (the_index + (if the_index <? 26 then char_code "a"
                          else char_code "A" - 26))
  else None.

Definition sample_letter_to_index (the_letter : Z) : option Z :=
  if (char_code "a" <=? the_letter) && (the_letter <=? char_code "z")
  then Some (the_letter - char_code "a")
  else if (char_code "A" <=? the_letter) && (the_letter <=? char_code "Z")
  then Some (the_letter - char_code "A" + 26)
  else None.

Definition sample_isaalpha (c : Z) : bool :=
  ((char_code "a" <=? c) && (c <=? char_code "z"))
  || ((char_code "A" <=? c) && (c <=? char_code "Z")).

(** ** The characters

    A healthy, well-fed character of a species without abilities of its
    own, at experience level 1, standing on safe ground; what varies is its
    mutations, its god and its piety. *)
Definition sample_player (mutations : mutation_type -> Z)
    (worships : god_type -> bool) (powers : list god_power) (piety' rank' : Z)
  : player :=
  {| magic_points := 10;
     hp_max := 50;
     hunger := 5000;
     piety := piety';
     gold := 100;
     species := SP_OTHER 0;
     form := TRAN_NONE;
     experience_level := 1;
     player_mutation_level := mutations;
     skill := fun _ _ => 0;
     hunger_state := 4;
     HS_STARVING := 0;
     HS_SATIATED := 4;
     attribute := fun _ => 0;
     transform_uncancellable := false;
     transfer_skill_points := 0;
     spell_no := 0;
     disease := 0;
     berserk := false;
     confused := false;
     petrifying := false;
     airborne := false;
     undead_state := false;
     you_foodless := false;
     is_lifeless_undead := fun _ => false;
     racial_permanent_flight := false;
     permanent_flight := false;
     evokable_berserk := false;
     evokable_invis := false;
     evokable_flight := false;
     wearing_flying_armour := false;
     scan_artefacts := fun _ => false;
     can_go_berserk := fun _ _ _ => true;
     can_go_berserk1 := fun _ => true;
     berserk_check_wielded_weapon := true;
     flight_allowed := true;
     check_form_stat_safety := fun _ => true;
     stats_at_maximum := true;
     player_rotted := false;
     how_mutated := 0;
     all_skills_maxed := false;
     no_tele_reason := "";
     get_real_mp := fun _ => 10;
     enough_mp := fun cost _ _ => cost <=? 10;
     enough_hp := fun cost _ => cost <? 50;
     form_changed_physiology := false;
     dragon_form_is_fire_dragon := false;
     species_is_draconian := fun _ => false;
     draconian_breath := fun _ => ABIL_NON_ABILITY;
     you_worship := worships;
     god_name := "your god";
     in_good_standing := fun _ _ => false;
     piety_breakpoint := fun i => nth (Z.to_nat i) [ 30; 50; 75; 100; 120; 160 ] 255;
     piety_rank := rank';
     player_under_penance := false;
     can_do_capstone_ability := false;
     get_god_powers := powers;
     available_sacrifices := None;
     can_convert_to_beogh := false;
     recall_list_empty := true;
     RU_SAC_XP_LEVELS := 2;
     zin_check_able_to_recite := fun _ => true;
     zin_check_recite_to_monsters := fun _ => 0;
     is_level_incorruptible := fun _ => false;
     fedhas_check_evolve_flora := fun _ => false;
     fedhas_check_corpse_spores := fun _ => 0;
     gozag_setup_potion_petition := fun _ => false;
     gozag_setup_call_merchant := fun _ => false;
     gozag_check_bribe_branch := fun _ => false;
     pakellas_check_quick_charge := fun _ => false;
     silenced_here := false;
     is_feat_dangerous_here := false;
     feat_dangerous_for_untransformed := false;
     standing_in_lava := false;
     cloud_here := false;
     player_in_abyss := false;
     sanctuary_time := 0;
     level_state_beogh := false;
     brdepth_abyss := 5;
     brdepth_here := 15;
     game_is_sprint := false;
     index_to_letter := sample_index_to_letter;
     letter_to_index := sample_letter_to_index;
     isaalpha := sample_isaalpha;
     confirm_action := [];
     auto_ability_letters := [];
     lowercase_string := fun s => s;
     yesno := fun _ => false |}.

(** A game at its start for the given character: nothing logged, no draw
    made so far but [draws']. *)
Definition sample_game (y : player) (table : list ability_type)
    (durations : duration_type -> Z) (draws' : nat) : game :=
  {| you := y;
     ability_letter_table := table;
     duration := durations;
     digging := false;
     turn_is_over := false;
     elapsed_time := 0;
     elapsed_time_at_last_input := 0;
     log := [];
     draws := draws' |}.

(** ** A demonspawn whose letter table is full

    The character has the mutations Hurl Hellfire and Blink and no god; all
    52 slots of its letter table are still bound to invocations of former
    gods (the 52 entries of [Ability_List] that follow the evocations). *)
Definition demonspawn : player :=
  sample_player
    (fun m => match m with
              | MUT_HURL_HELLFIRE | MUT_BLINK => 1
              | _ => 0
              end)
    (fun god => match god with GOD_NO_GOD => true | _ => false end)
    [] 0 0.

Definition stale_table : list ability_type :=
  map ability (firstn 52 (skipn 29 Ability_List)).

Definition crowded_game : game :=
  sample_game demonspawn stale_table (fun _ => 0) 0.

Lemma stale_table_full :
  List.length stale_table = 52%nat
  /\ forallb (fun a => negb (ability_eqb a ABIL_NON_ABILITY)) stale_table = true
  /\ forallb (fun a => negb (ability_eqb (fixup_ability demonspawn a)
                               ABIL_HELLFIRE)
                       && negb (ability_eqb (fixup_ability demonspawn a)
                                  ABIL_BLINK)) stale_table = true.
Proof. repeat split; vm_compute; reflexivity. Qed.

(** The formula of Brothers in Arms gives 160 for a character without
    piety; the talent carries 100. *)
Definition brothers_in_arms : talent :=
  mk_talent ABIL_TROG_BROTHERS_IN_ARMS (char_code "F") 100 true.

Lemma get_talent_fail_clamped_witness :
  fst (get_talent_switch demonspawn ABIL_TROG_BROTHERS_IN_ARMS) = 160
  /\ 0 <= fail brothers_in_arms <= 100.
Proof.
  split; [reflexivity|].
  refine (get_talent_fail_clamped ABIL_TROG_BROTHERS_IN_ARMS false
            crowded_game _ brothers_in_arms _).
  lazy. reflexivity.
Defined.

(** C7.  With a full letter table and two talents without a slot, the loop
    that looks for a free hotkey "starting from Z" gives both talents the
    same hotkey, 51: it stores the index [k] where the letter [kkey] is
    meant, so the check against the other hotkeys never sees it. *)
Theorem your_talents_hotkey_collision :
  exists g',
    your_talents false false crowded_game
    = Some ([ mk_talent ABIL_HELLFIRE 51 49 false;
              mk_talent ABIL_BLINK 51 31 false ], g')
    /\ table_get (ability_letter_table g') 51 = ABIL_BLINK
    /\ index_to_letter demonspawn 51 = Some (char_code "Z").
Proof.
  eexists. split; [lazy; reflexivity|].
  split; lazy; reflexivity.
Qed.

(** What the collision is not: where every talent has a slot in the letter
    table, the hotkeys are the letters of the slots, and talents of
    different identities get different hotkeys (as long as
    [index_to_letter] gives different letters to different slots). *)
Definition has_slot_letter (g : game) (t : talent) : Prop :=
  exists slot,
    _lookup_ability_slot (which t) g = Some (slot, g)
    /\ slot > -1
    /\ index_to_letter (you g) slot = Some (hotkey t).

Lemma lookup_ability_slot_found : forall w g slot g',
  _lookup_ability_slot w g = Some (slot, g') ->
  slot > -1 ->
  fixup_ability (you g) (table_get (ability_letter_table g) slot) = w.
Proof.
  intros w g slot g' H Hslot. unfold _lookup_ability_slot, bind, get, ret in H.
  destruct (find _ (slots_from 0 52)) as [s|] eqn:E.
  - injection H as <- _. apply find_some in E as [_ E].
    now apply ability_eqb_eq in E.
  - injection H as <- _. lia.
Qed.

Lemma has_slot_letter_distinct : forall g t1 t2,
  (forall i j l, index_to_letter (you g) i = Some l ->
                 index_to_letter (you g) j = Some l -> i = j) ->
  has_slot_letter g t1 -> has_slot_letter g t2 ->
  which t1 <> which t2 -> hotkey t1 <> hotkey t2.
Proof.
  intros g t1 t2 Hinj (s1 & L1 & P1 & I1) (s2 & L2 & P2 & I2) Hw Hk.
  rewrite Hk in I1. pose proof (Hinj _ _ _ I1 I2) as ->.
  apply lookup_ability_slot_found in L1, L2; try assumption.
  congruence.
Qed.

Lemma assign_hotkeys_slots : forall todo done g talents g',
  assign_hotkeys done todo g = Some (talents, g') ->
  (forall t, In t todo ->
     exists slot, _lookup_ability_slot (which t) g = Some (slot, g)
                  /\ slot > -1) ->
  g' = g
  /\ exists assigned,
       talents = done ++ assigned
       /\ map which assigned = map which todo
       /\ Forall (has_slot_letter g) assigned.
Proof.
  induction todo as [|tal rest IH]; intros done g talents g' H Hslots.
  - injection H as <- <-. split; [reflexivity|].
    exists []. rewrite app_nil_r. repeat split. constructor.
  - cbn [assign_hotkeys] in H.
    destruct (Hslots tal (or_introl eq_refl)) as (slot & Hlookup & Hpos).
    unfold bind at 1 in H. rewrite Hlookup in H.
    unfold bind at 1, get in H.
    replace (slot >? -1) with true in H by lia.
    apply bind_Some in H as (letter & g1 & Hletter & H).
    assert (g1 = g /\ index_to_letter (you g) slot = Some letter) as [-> Hl].
    { destruct (index_to_letter (you g) slot); [|discriminate].
      injection Hletter as <- <-. auto. }
    apply IH in H as (-> & assigned & -> & Hw & Hall);
      [|intros t Ht; apply Hslots; now right].
    split; [reflexivity|].
    exists (set_hotkey letter tal :: assigned). rewrite <- app_assoc.
    repeat split.
    + cbn. now rewrite Hw.
    + constructor; [|assumption]. exists slot. auto.
Qed.

Lemma assign_hotkeys_distinct : forall todo g talents g',
  assign_hotkeys [] todo g = Some (talents, g') ->
  (forall t, In t todo ->
     exists slot, _lookup_ability_slot (which t) g = Some (slot, g)
                  /\ slot > -1) ->
  (forall i j l, index_to_letter (you g) i = Some l ->
                 index_to_letter (you g) j = Some l -> i = j) ->
  forall t1 t2, In t1 talents -> In t2 talents ->
    which t1 <> which t2 -> hotkey t1 <> hotkey t2.
Proof.
  intros todo g talents g' H Hslots Hinj t1 t2 H1 H2.
  apply assign_hotkeys_slots in H as (_ & assigned & -> & _ & Hall);
    [|assumption].
  rewrite Forall_forall in Hall. cbn in H1, H2.
  apply (has_slot_letter_distinct g); auto.
Qed.

(** When [index_to_letter] rejects 52, as the sample does, the scan ends
    within two rounds: it breaks at 51 or stops the program at 52. *)
Lemma free_hotkey_scan_rounds : forall n y talents g,
  index_to_letter y 52 = None ->
  free_hotkey_scan (2 + n) y 51 talents g = free_hotkey_scan 2 y 51 talents g.
Proof.
  intros n y talents g H. cbn [free_hotkey_scan Nat.add].
  unfold bind. destruct (lift (index_to_letter y 51) g) as [[kkey g1]|];
    [|reflexivity].
  destruct (forallb _ talents); [reflexivity|].
  change (51 + 1) with 52. rewrite H. reflexivity.
Qed.

(** ** A singing follower of Zin

    The character follows Zin at piety 100 (rank 2), which grants Recite
    and Vitalisation, and has a Song of Slaying running; its letter table is
    empty. *)
Definition zin_follower : player :=
  sample_player (fun _ => 0)
    (fun god => match god with GOD_OTHER 1 => true | _ => false end)
    [ mk_god_power 1 ABIL_ZIN_RECITE; mk_god_power 2 ABIL_ZIN_VITALISATION ]
    100 2.

Definition empty_table : list ability_type := repeat ABIL_NON_ABILITY 52.

Definition singing (d : duration_type) : Z :=
  match d with DUR_SONG_OF_SLAYING => 20 | _ => 0 end.

Definition zin_game : game := sample_game zin_follower empty_table singing 10.

(** * The order of the offered talents *)

(** The grouping "non-faith actions first, faith actions last": no
    invocation is followed by a talent that is not one. *)
Fixpoint faith_last (talents : list talent) : bool :=
  match talents with
  | [] => true
  | t :: rest =>
      (if is_invocation t then forallb is_invocation rest else true)
      && faith_last rest
  end.

(** C6, as stated, fails: for the singing follower of Zin [your_talents]
    returns Recite, Vitalisation and Renounce Religion, which are
    invocations, and then Stop Singing, which is not. *)
Lemma your_talents_not_faith_last :
  exists talents g',
    your_talents false false zin_game = Some (talents, g')
    /\ map which talents
       = [ ABIL_ZIN_RECITE; ABIL_ZIN_VITALISATION; ABIL_RENOUNCE_RELIGION;
           ABIL_STOP_SINGING ]
    /\ map is_invocation talents = [ true; true; true; false ]
    /\ faith_last talents = false.
Proof.
  eexists. eexists. split; [lazy; reflexivity|].
  repeat split.
Qed.

(** A talent by identity and class. *)
Definition class_of (t : talent) : ability_type * bool :=
  (which t, is_invocation t).

(** What [_add_talent] adds for an ability: nothing when the ability cannot
    be used while confused or resolves to the sentinel, and otherwise the
    resolved identity with the class of the ability as given. *)
Definition talent_class (y : player) (check_confused : bool)
    (a : ability_type) : list (ability_type * bool) :=
  if too_confused y check_confused a
     || ability_eqb (fixup_ability y a) ABIL_NON_ABILITY
  then []
  else [ (fixup_ability y a, snd (get_talent_switch y a)) ].

Definition talent_classes (y : player) (check_confused : bool)
    (abilities : list ability_type) : list (ability_type * bool) :=
  flat_map (talent_class y check_confused) abilities.

Lemma add_talent_inv : forall vec a check_confused g vec' g',
  _add_talent vec a check_confused g = Some (vec', g') ->
  only_table g g'
  /\ map class_of vec'
     = map class_of vec ++ talent_class (you g) check_confused a.
Proof.
  intros vec a cc g vec' g' H. unfold _add_talent in H.
  apply bind_Some in H as (t & g1 & Ht & H).
  apply get_talent_inv in Ht as (Htable & _ & _ & Hc).
  unfold talent_class.
  destruct (too_confused (you g) cc a).
  - destruct Hc as [Hw _]. rewrite Hw in H. cbn in H.
    injection H as <- <-. split; [assumption|].
    cbn. now rewrite app_nil_r.
  - destruct Hc as [Hw Hi]. rewrite Hw in H. cbn [orb].
    destruct (ability_eqb (fixup_ability (you g) a) ABIL_NON_ABILITY);
      cbn in H; injection H as <- <-; (split; [assumption|]).
    + cbn. now rewrite app_nil_r.
    + rewrite map_app. cbn. unfold class_of. now rewrite Hw, Hi.
Qed.

Lemma add_talents_inv : forall abilities vec check_confused g vec' g',
  _add_talents vec abilities check_confused g = Some (vec', g') ->
  only_table g g'
  /\ map class_of vec'
     = map class_of vec ++ talent_classes (you g) check_confused abilities.
Proof.
  induction abilities as [|a rest IH]; intros vec cc g vec' g' H.
  - injection H as <- <-. split; [apply only_table_refl|].
    cbn. now rewrite app_nil_r.
  - cbn [_add_talents] in H. apply bind_Some in H as (vec1 & g1 & H1 & H).
    apply add_talent_inv in H1 as [Ht1 Hc1].
    apply IH in H as [Ht Hc].
    split; [eapply only_table_trans; eassumption|].
    rewrite Hc, Hc1, (only_table_you _ _ Ht1). cbn.
    now rewrite app_assoc.
Qed.

(** The god abilities depend on the character only, and asking for them
    changes nothing. *)
Lemma god_power_abilities_pure : forall y powers ignore_piety ignore_penance
    abilities g l g',
  god_power_abilities y powers ignore_piety ignore_penance abilities g
  = Some (l, g') ->
  g' = g
  /\ forall g2,
       god_power_abilities y powers ignore_piety ignore_penance abilities g2
       = Some (l, g2).
Proof.
  intros y powers ip ipn. induction powers as [|power rest IH];
    intros abilities g l g' H.
  - injection H as <- <-. auto.
  - cbn [god_power_abilities] in *.
    destruct (ability_eqb (abil power) ABIL_NON_ABILITY); [now apply IH|].
    unfold bind, ASSERT in *.
    destruct (negb (ability_eqb (fixup_ability y (abil power))
                      ABIL_NON_ABILITY)); [|discriminate].
    cbn in *.
    destruct (_ && _); now apply IH.
Qed.

Lemma get_god_abilities_pure : forall ignore_silence ignore_piety
    ignore_penance g l g',
  get_god_abilities ignore_silence ignore_piety ignore_penance g
  = Some (l, g') ->
  g' = g
  /\ forall g2, you g2 = you g ->
       get_god_abilities ignore_silence ignore_piety ignore_penance g2
       = Some (l, g2).
Proof.
  intros isil ip ipn g l g' H. unfold get_god_abilities in *.
  unfold bind, get in *. cbn in *.
  destruct (you_worship (you g) GOD_RU) eqn:Eru.
  - destruct (available_sacrifices (you g)) as [sacs|] eqn:Esac;
      [|discriminate].
    destruct sacs as [|s sacs]; cbn in H.
    + destruct (negb isil && silenced_here (you g)) eqn:Esil.
      * injection H as <- <-. split; [reflexivity|]. intros g2 ->.
        rewrite Eru, Esac. cbn. rewrite Esil. reflexivity.
      * apply god_power_abilities_pure in H as [-> H].
        split; [reflexivity|]. intros g2 ->.
        rewrite Eru, Esac. cbn. rewrite Esil. apply H.
    + destruct (negb isil && silenced_here (you g)) eqn:Esil.
      * injection H as <- <-. split; [reflexivity|]. intros g2 ->.
        rewrite Eru, Esac. cbn. rewrite Esil. reflexivity.
      * apply god_power_abilities_pure in H as [-> H].
        split; [reflexivity|]. intros g2 ->.
        rewrite Eru, Esac. cbn. rewrite Esil. apply H.
  - cbn in H.
    destruct (negb isil && silenced_here (you g)) eqn:Esil.
    + injection H as <- <-. split; [reflexivity|]. intros g2 ->.
      rewrite Eru. cbn. rewrite Esil. reflexivity.
    + apply god_power_abilities_pure in H as [-> H].
      split; [reflexivity|]. intros g2 ->.
      rewrite Eru. cbn. rewrite Esil. apply H.
Qed.

Lemma table_only_free_hotkey_scan : forall rounds y k talents,
  table_only (free_hotkey_scan rounds y k talents).
Proof.
  induction rounds as [|rounds IH]; intros y k talents;
    cbn [free_hotkey_scan]; [discriminate|].
  repeat first [apply IH | table_only_step].
Qed.

(** The hotkey loop changes hotkeys and the letter table, nothing else. *)
Lemma assign_hotkeys_inv : forall todo done g talents g',
  assign_hotkeys done todo g = Some (talents, g') ->
  only_table g g'
  /\ map class_of talents = map class_of done ++ map class_of todo.
Proof.
  induction todo as [|tal rest IH]; intros done g talents g' H.
  - injection H as <- <-. split; [apply only_table_refl|].
    cbn. now rewrite app_nil_r.
  - cbn [assign_hotkeys] in H. apply bind_Some in H as (index & g1 & H1 & H).
    apply table_only_lookup_ability_slot in H1.
    apply bind_Some in H as (g2 & g3 & Hget & H). injection Hget as <- <-.
    destruct (index >? -1).
    + apply bind_Some in H as (letter & g2 & H2 & H).
      apply table_only_lift in H2.
      apply IH in H as [Ht Hc].
      split; [exact (only_table_trans _ _ _ H1 (only_table_trans _ _ _ H2 Ht))|].
      rewrite Hc, map_app, <- app_assoc. reflexivity.
    + apply bind_Some in H as (k & g2 & H2 & H).
      apply table_only_free_hotkey_scan in H2.
      apply bind_Some in H as ([] & g3 & H3 & H).
      apply table_only_table_set in H3.
      apply IH in H as [Ht Hc].
      split;
        [exact (only_table_trans _ _ _ H1
                  (only_table_trans _ _ _ H2 (only_table_trans _ _ _ H3 Ht)))|].
      rewrite Hc, map_app, <- app_assoc. reflexivity.
Qed.

Lemma Forall_talent_classes : forall y check_confused (b : bool) abilities,
  Forall (fun a => snd (get_talent_switch y a) = b) abilities ->
  Forall (fun c => snd c = b) (talent_classes y check_confused abilities).
Proof.
  intros y cc b abilities H. induction H as [|a rest Ha _ IH]; cbn.
  - constructor.
  - apply Forall_app. split; [|exact IH].
    unfold talent_class. destruct (_ || _); repeat constructor. exact Ha.
Qed.

Lemma Forall_offered : forall (P : ability_type -> Prop) c a,
  P a -> Forall P (offered c a).
Proof. intros P c a H. destruct c; repeat constructor. exact H. Qed.

Ltac split_offers :=
  repeat (apply Forall_app; split);
  repeat match goal with
         | |- Forall _ (offered _ _) => apply Forall_offered
         | |- Forall _ (if ?c then _ else _) => destruct c
         | |- Forall _ (_ :: _) => constructor
         | |- Forall _ [] => constructor
         | |- Forall _ (_ ++ _) => apply Forall_app; split
         end.

(** The abilities of species, form and mutations are no invocations, as
    long as the breath of the draconian species is none. *)
Lemma innate_abilities_class : forall g include_unusable,
  snd (get_talent_switch (you g)
         (draconian_breath (you g) (species (you g)))) = false ->
  Forall (fun a => snd (get_talent_switch (you g) a) = false)
    (innate_abilities g include_unusable).
Proof.
  intros g iu Hbreath. unfold innate_abilities.
  split_offers; first [exact Hbreath|reflexivity].
Qed.

Lemma faith_change_abilities_class : forall g,
  Forall (fun a => snd (get_talent_switch (you g) a) = true)
    (faith_change_abilities g).
Proof. intro g. unfold faith_change_abilities. split_offers; reflexivity. Qed.

Lemma evoked_abilities_class : forall g,
  Forall (fun a => snd (get_talent_switch (you g) a) = false)
    (evoked_abilities g).
Proof. intro g. unfold evoked_abilities. split_offers; reflexivity. Qed.

(** The part of [Ability_List] under the comment "INVOCATIONS:": the
    abilities of the gods, from Recite to Convert to Beogh. *)
Definition listed_invocations : list ability_type :=
  map ability (skipn 29 Ability_List).

(** The part begins after End Transformation, the last of the 29 entries
    before the comment, and runs to the end of the table. *)
Lemma listed_invocations_part :
  map ability Ability_List
  = map ability (firstn 29 Ability_List) ++ listed_invocations
  /\ last (map ability (firstn 29 Ability_List)) ABIL_NON_ABILITY
     = ABIL_END_TRANSFORMATION
  /\ hd ABIL_NON_ABILITY listed_invocations = ABIL_ZIN_RECITE
  /\ last listed_invocations ABIL_NON_ABILITY = ABIL_CONVERT_TO_BEOGH.
Proof.
  split; [|repeat split].
  unfold listed_invocations. rewrite <- map_app.
  now rewrite firstn_skipn.
Qed.

(** [get_talent] takes every ability of that part for an invocation. *)
Lemma listed_invocations_class : forall y a,
  In a listed_invocations -> snd (get_talent_switch y a) = true.
Proof.
  intros y a H. unfold listed_invocations in H. cbn in H.
  repeat (destruct H as [<-|H]; [reflexivity|]). destruct H.
Qed.

Lemma listed_invocations_In : forall a,
  existsb (ability_eqb a) listed_invocations = true ->
  In a listed_invocations.
Proof.
  intros a H. apply existsb_exists in H as (x & Hin & Hx).
  apply ability_eqb_eq in Hx. now subst x.
Qed.

(** Resolving a placeholder does not leave that part. *)
Lemma listed_invocations_fixup : forall y a,
  In a listed_invocations ->
  fixup_ability y a <> ABIL_NON_ABILITY ->
  In (fixup_ability y a) listed_invocations.
Proof.
  intros y a Hin Hne.
  destruct (fixup_ability_image y a) as [-> | [E | ->]].
  - exact Hin.
  - contradiction.
  - apply listed_invocations_In. reflexivity.
Qed.

(** The powers that [get_god_powers] lists are abilities of the gods, and
    so are the sacrifices on offer. *)
Definition god_powers_listed (y : player) : Prop :=
  Forall (fun power => abil power = ABIL_NON_ABILITY
                       \/ In (abil power) listed_invocations)
    (get_god_powers y)
  /\ forall sacrifices,
       available_sacrifices y = Some sacrifices ->
       Forall (fun a => In a listed_invocations) sacrifices.

Lemma god_power_abilities_listed : forall y powers ignore_piety ignore_penance
    abilities g l g',
  god_power_abilities y powers ignore_piety ignore_penance abilities g
  = Some (l, g') ->
  Forall (fun power => abil power = ABIL_NON_ABILITY
                       \/ In (abil power) listed_invocations) powers ->
  Forall (fun a => In a listed_invocations) abilities ->
  Forall (fun a => In a listed_invocations) l.
Proof.
  intros y powers ip ipn. induction powers as [|power rest IH];
    intros abilities g l g' H Hpowers Habilities.
  - injection H as <- <-. exact Habilities.
  - inversion Hpowers as [|? ? Hpower Hrest]; subst.
    cbn [god_power_abilities] in H.
    destruct (ability_eqb (abil power) ABIL_NON_ABILITY) eqn:Enone;
      [now apply IH in H|].
    destruct Hpower as [E|Hin].
    { rewrite E in Enone. discriminate. }
    apply bind_Some in H as ([] & g0 & Hassert & H).
    unfold ASSERT in Hassert.
    destruct (ability_eqb (fixup_ability y (abil power)) ABIL_NON_ABILITY)
      eqn:Efix; [discriminate|].
    injection Hassert as <-.
    destruct (_ && _).
    + apply IH in H; [exact H|exact Hrest|].
      apply Forall_app. split; [exact Habilities|].
      constructor; [|constructor].
      apply listed_invocations_fixup; [exact Hin|].
      intro E. rewrite E in Efix. discriminate.
    + now apply IH in H.
Qed.

Lemma get_god_abilities_listed : forall ignore_silence ignore_piety
    ignore_penance g l g',
  get_god_abilities ignore_silence ignore_piety ignore_penance g
  = Some (l, g') ->
  god_powers_listed (you g) ->
  Forall (fun a => In a listed_invocations) l.
Proof.
  intros isil ip ipn g l g' H [Hpowers Hsacrifices].
  unfold get_god_abilities in H.
  apply bind_Some in H as (g0 & g1 & Hget & H). injection Hget as <- <-.
  apply bind_Some in H as (abilities & g1 & Hru & H).
  assert (Forall (fun a => In a listed_invocations) abilities) as Habilities.
  { destruct (you_worship (you g) GOD_RU).
    - destruct (available_sacrifices (you g)) as [sacrifices|] eqn:E;
        [|discriminate].
      specialize (Hsacrifices _ eq_refl).
      destruct sacrifices as [|s rest]; injection Hru as <- _;
        [constructor|].
      apply (Forall_app _ (s :: rest) [ABIL_RU_REJECT_SACRIFICES]).
      split; [exact Hsacrifices|].
      constructor; [|constructor].
      apply listed_invocations_In. reflexivity.
    - injection Hru as <- _. constructor. }
  assert (Forall (fun a => In a listed_invocations)
            (if transfer_skill_points (you g) >? 0
             then abilities ++ [ABIL_ASHENZARI_END_TRANSFER]
             else abilities)) as Habilities'.
  { destruct (transfer_skill_points (you g) >? 0); [|exact Habilities].
    apply Forall_app. split; [exact Habilities|].
    constructor; [|constructor].
    apply listed_invocations_In. reflexivity. }
  cbv zeta in H.
  destruct (negb isil && silenced_here (you g)).
  - injection H as <- _. exact Habilities'.
  - eapply god_power_abilities_listed; eassumption.
Qed.

(** C6, amended.  [your_talents] returns the talents in the order in which
    it looks for them: first those of species, form and mutations, none of
    them an invocation; then those of the god abilities, followed by
    Renounce Religion and Convert to Beogh, all of them invocations; and
    last those of dragon form, spells in progress and evocable items, none
    of them an invocation.  What other modules hand in is taken to be what
    it is in the game: the breath of a draconian is no ability of a god,
    and the powers of the gods and the sacrifices on offer are abilities
    of the gods. *)
Theorem your_talents_order : forall (check_confused include_unusable : bool)
    (g g' : game) (talents : list talent),
  your_talents check_confused include_unusable g = Some (talents, g') ->
  snd (get_talent_switch (you g)
         (draconian_breath (you g) (species (you g)))) = false ->
  god_powers_listed (you g) ->
  exists god_abilities,
    get_god_abilities include_unusable false include_unusable g
    = Some (god_abilities, g)
    /\ map class_of talents
       = talent_classes (you g) check_confused
           (innate_abilities g include_unusable)
         ++ talent_classes (you g) check_confused god_abilities
         ++ talent_classes (you g) check_confused (faith_change_abilities g)
         ++ talent_classes (you g) check_confused (evoked_abilities g)
    /\ Forall (fun c => snd c = false)
         (talent_classes (you g) check_confused
            (innate_abilities g include_unusable))
    /\ Forall (fun c => snd c = true)
         (talent_classes (you g) check_confused god_abilities)
    /\ Forall (fun c => snd c = true)
         (talent_classes (you g) check_confused (faith_change_abilities g))
    /\ Forall (fun c => snd c = false)
         (talent_classes (you g) check_confused (evoked_abilities g)).
Proof.
  intros cc iu g g' talents H Hbreath Hlisted. unfold your_talents in H.
  apply bind_Some in H as (g0 & g0' & Hget & H).
  injection Hget as <- <-.
  apply bind_Some in H as (t1 & g1 & H1 & H).
  apply add_talents_inv in H1 as [Ht1 Hc1].
  apply bind_Some in H as (gods & g2 & Hgods & H).
  pose proof (only_table_you _ _ Ht1) as Y1.
  assert (Forall (fun a => In a listed_invocations) gods) as Hclass.
  { eapply get_god_abilities_listed; [exact Hgods|]. now rewrite Y1. }
  apply get_god_abilities_pure in Hgods as [-> Hgods].
  apply bind_Some in H as (t2 & g3 & H2 & H).
  apply add_talents_inv in H2 as [Ht2 Hc2].
  apply bind_Some in H as (t3 & g4 & H3 & H).
  apply add_talents_inv in H3 as [Ht3 Hc3].
  apply bind_Some in H as (t4 & g5 & H4 & H).
  apply add_talents_inv in H4 as [Ht4 Hc4].
  apply assign_hotkeys_inv in H as [_ Hc].
  pose proof (only_table_you _ _ Ht2) as Y2.
  pose proof (only_table_you _ _ Ht3) as Y3.
  exists gods. split; [apply Hgods; symmetry; exact Y1|].
  split.
  - rewrite Hc, Hc4, Hc3, Hc2, Hc1. cbn [map app].
    rewrite Y3, Y2, Y1, <- !app_assoc. reflexivity.
  - split; [|split; [|split]].
    + apply Forall_talent_classes. now apply innate_abilities_class.
    + apply Forall_talent_classes.
      eapply Forall_impl; [|exact Hclass].
      intros a Ha. now apply listed_invocations_class.
    + apply Forall_talent_classes. apply faith_change_abilities_class.
    + apply Forall_talent_classes. apply evoked_abilities_class.
Qed.

Definition zin_talents : list talent :=
  [ mk_talent ABIL_ZIN_RECITE (char_code "f") 25 true;
    mk_talent ABIL_ZIN_VITALISATION (char_code "g") 35 true;
    mk_talent ABIL_RENOUNCE_RELIGION (char_code "h") 0 true;
    mk_talent ABIL_STOP_SINGING (char_code "i") 0 false ].

(** The game after the talents of the follower of Zin were listed: the four
    abilities have taken the slots f-i. *)
Definition zin_game_listed : game :=
  set_ability_letter_table
    (repeat ABIL_NON_ABILITY 5
     ++ [ ABIL_ZIN_RECITE; ABIL_ZIN_VITALISATION; ABIL_RENOUNCE_RELIGION;
          ABIL_STOP_SINGING ]
     ++ repeat ABIL_NON_ABILITY 43)
    zin_game.

Lemma your_talents_zin_game :
  your_talents false false zin_game = Some (zin_talents, zin_game_listed).
Proof. lazy. reflexivity. Qed.

Lemma zin_follower_powers_listed : god_powers_listed (you zin_game).
Proof.
  split.
  - cbn. repeat constructor; right; apply listed_invocations_In; reflexivity.
  - intros sacrifices H. discriminate H.
Qed.

Lemma your_talents_order_witness :
  exists god_abilities,
    get_god_abilities false false false zin_game
    = Some (god_abilities, zin_game)
    /\ map class_of zin_talents
       = talent_classes (you zin_game) false (innate_abilities zin_game false)
         ++ talent_classes (you zin_game) false god_abilities
         ++ talent_classes (you zin_game) false
              (faith_change_abilities zin_game)
         ++ talent_classes (you zin_game) false (evoked_abilities zin_game)
    /\ Forall (fun c => snd c = false)
         (talent_classes (you zin_game) false
            (innate_abilities zin_game false))
    /\ Forall (fun c => snd c = true)
         (talent_classes (you zin_game) false god_abilities)
    /\ Forall (fun c => snd c = true)
         (talent_classes (you zin_game) false
            (faith_change_abilities zin_game))
    /\ Forall (fun c => snd c = false)
         (talent_classes (you zin_game) false (evoked_abilities zin_game)).
Proof.
  apply (your_talents_order false false zin_game zin_game_listed zin_talents).
  - exact your_talents_zin_game.
  - reflexivity.
  - exact zin_follower_powers_listed.
Defined.

(** * Outcomes, turns and costs of an attempt *)

(** The requests of a log that take from a resource pool. *)
Definition cost_requests (l : list request) : list request :=
  filter is_cost_request l.

(** [g'] differs from [g] by nothing that touches the resource pools: what
    the module reads of the player (magic, hit points, hunger and the other
    fields of [player]) is as it was, and no request to take from a pool was
    added. *)
Definition pools_kept (g g' : game) : Prop :=
  you g' = you g /\ cost_requests (log g') = cost_requests (log g).

Lemma pools_kept_refl : forall g, pools_kept g g.
Proof. intro g. split; reflexivity. Qed.

Lemma pools_kept_trans : forall g1 g2 g3,
  pools_kept g1 g2 -> pools_kept g2 g3 -> pools_kept g1 g3.
Proof. intros g1 g2 g3 [Y1 L1] [Y2 L2]. split; congruence. Qed.

Lemma only_table_pools_kept : forall g g', only_table g g' -> pools_kept g g'.
Proof.
  intros g g' H. split.
  - now apply only_table_you.
  - now rewrite (only_table_log _ _ H).
Qed.

(** A computation that leaves the pools alone whenever it returns. *)
Definition harmless {A : Type} (m : M A) : Prop :=
  forall g a g', m g = Some (a, g') -> pools_kept g g'.

Lemma harmless_ret : forall (A : Type) (a : A), harmless (ret a).
Proof. intros A a g a' g' H. injection H as _ <-. apply pools_kept_refl. Qed.

Lemma harmless_get : harmless get.
Proof. intros g a g' H. injection H as _ <-. apply pools_kept_refl. Qed.

Lemma harmless_bind : forall (A B : Type) (m : M A) (k : A -> M B),
  harmless m -> (forall a, harmless (k a)) -> harmless (bind m k).
Proof.
  intros A B m k Hm Hk g b g' H.
  apply bind_Some in H as (a & g1 & H1 & H2).
  eapply pools_kept_trans; [eapply Hm|eapply Hk]; eassumption.
Qed.

Lemma harmless_say : forall r, is_cost_request r = false -> harmless (say r).
Proof.
  intros r Hr g a g' H. injection H as _ <-. split; [reflexivity|].
  cbn. unfold cost_requests. rewrite filter_app. cbn. rewrite Hr.
  apply app_nil_r.
Qed.

Lemma harmless_refuse_with : forall quiet r,
  is_cost_request r = false -> harmless (refuse_with quiet r).
Proof.
  intros quiet r Hr. unfold refuse_with.
  apply harmless_bind; [|intro; apply harmless_ret].
  destruct quiet; [apply harmless_ret|now apply harmless_say].
Qed.

Lemma harmless_get_talent : forall a check_confused,
  harmless (get_talent a check_confused).
Proof.
  intros a cc g t g' H. apply get_talent_inv in H as [Ht _].
  now apply only_table_pools_kept.
Qed.

Ltac harmless_step :=
  first
    [ apply harmless_ret
    | apply harmless_get
    | apply harmless_refuse_with; reflexivity
    | apply harmless_say; reflexivity
    | apply harmless_say;
      match goal with
      | |- is_cost_request (if ?c then _ else _) = false => destruct c
      end; reflexivity
    | apply harmless_get_talent
    | apply harmless_bind; [|intro]
    | match goal with
      | |- harmless (if ?c then _ else _) => destruct c
      | |- harmless (match ?x with _ => _ end) => destruct x
      end ].

Lemma harmless_check_ability_switch : forall abil quiet,
  harmless (check_ability_switch abil quiet).
Proof.
  intros abil quiet. unfold check_ability_switch.
  apply harmless_bind; [apply harmless_get|]. intro g.
  destruct (ability abil); cbv beta iota zeta; repeat harmless_step.
Qed.

Lemma harmless_check_ability_possible : forall abil hungerCheck quiet,
  harmless (_check_ability_possible abil hungerCheck quiet).
Proof.
  intros abil hc quiet. unfold _check_ability_possible.
  repeat first [apply harmless_check_ability_switch | harmless_step].
Qed.

Lemma harmless_fatal_to_activate : forall tal, harmless (fatal_to_activate tal).
Proof.
  intro tal. unfold fatal_to_activate.
  apply harmless_bind; [apply harmless_get|]. intro g.
  destruct (which tal); cbv beta iota zeta; repeat harmless_step.
Qed.

Section ActivationFacts.

Variable random2avg : Z -> Z -> nat -> Z.
Variable div_rand_round : Z -> Z -> nat -> Z.
Variable perform : request -> game -> game.
Variable effect_dispatch :
  ability_def -> bool -> game -> option (spret_type * game).

(** Taking note that no turn was spent is a matter of [crawl_state]: it
    leaves the character as it is. *)
Hypothesis zero_turns_taken_keeps_you : forall g,
  you (perform zero_turns_taken g) = you g.

(** The outcome of an attempt, in the words of the specification: Aborted
    when a check before the roll refuses the talent, and otherwise what
    [_do_ability] returns.  The game is returned as it is when the outcome
    is known. *)
Definition attempt_outcome (tal : talent) : M spret_type :=
  passed <- activate_talent_checks perform tal ;;
  if negb passed then ret SPRET_ABORT
  else
    r <- activate_talent_attempt random2avg perform effect_dispatch tal ;;
    ret (snd r).


Lemma harmless_no_turn : harmless (no_turn perform).
Proof.
  intros g b g' H. unfold no_turn, bind, call, ret in H.
  injection H as _ <-. split.
  - cbn. apply zero_turns_taken_keeps_you.
  - cbn. unfold cost_requests. rewrite filter_app. cbn. apply app_nil_r.
Qed.

(** The checks before the roll leave the pools alone. *)
Lemma harmless_activate_talent_checks : forall tal,
  harmless (activate_talent_checks perform tal).
Proof.
  intro tal. unfold activate_talent_checks.
  repeat first [ apply harmless_no_turn
               | apply harmless_fatal_to_activate
               | apply harmless_check_ability_possible
               | harmless_step ].
Qed.

(** What the final [switch] of [activate_talent] does, by outcome. *)
Lemma activate_talent_result_inv : forall tal abil fail' o g1 b g',
  activate_talent_result random2avg div_rand_round perform tal abil fail' o g1
  = Some (b, g') ->
  match o with
  | SPRET_SUCCESS =>
      b = true
      /\ exists g2 g3,
           call perform (practise_used_abil (ability abil)) g1 = Some (tt, g2)
           /\ _pay_ability_costs random2avg div_rand_round perform abil g2
              = Some (tt, g3)
           /\ call perform
                (count_action
                   (if is_invocation tal then CACT_INVOKE else CACT_ABIL)
                   (ability abil)) g3
              = Some (tt, g')
  | SPRET_FAIL =>
      b = false
      /\ g' = set_turn_is_over true
                (set_log (log g1 ++ [mpr "You fail to use your ability."]) g1)
  | SPRET_ABORT =>
      b = false
      /\ g' = set_log (log g1 ++ [zero_turns_taken])
                (perform zero_turns_taken g1)
  | SPRET_NONE => False
  end.
Proof.
  intros tal abil fail' o g1 b g' H. destruct o; cbn in H.
  - unfold no_turn, bind, call, ret in H. injection H as <- <-. auto.
  - unfold bind, say, modify, ret in H. injection H as <- <-. auto.
  - apply bind_Some in H as ([] & g0 & Hassert & H).
    assert (g0 = g1) as ->.
    { unfold ASSERT in Hassert. destruct (_ || _); [|discriminate].
      now injection Hassert as <-. }
    apply bind_Some in H as ([] & g2 & H2 & H).
    apply bind_Some in H as ([] & g3 & H3 & H).
    apply bind_Some in H as ([] & g4 & H4 & H).
    injection H as <- <-. split; [reflexivity|].
    exists g2, g3. auto.
  - discriminate.
Qed.


(** The run of an attempt, split at the point where its outcome is known. *)
Lemma activate_talent_inv : forall tal g o g1 b g',
  attempt_outcome tal g = Some (o, g1) ->
  activate_talent random2avg div_rand_round perform effect_dispatch tal g
  = Some (b, g') ->
  (activate_talent_checks perform tal g = Some (false, g1)
   /\ o = SPRET_ABORT /\ b = false /\ g' = g1)
  \/ (exists fail',
        activate_talent_result random2avg div_rand_round perform tal
          (get_ability_def (which tal)) fail' o g1
        = Some (b, g')).
Proof.
  intros tal g o g1 b g' Ho Ha.
  unfold attempt_outcome in Ho. unfold activate_talent in Ha.
  apply bind_Some in Ho as (passed & g0 & Hc & Ho).
  apply bind_Some in Ha as (passed' & g0' & Hc' & Ha).
  rewrite Hc in Hc'. injection Hc' as <- <-.
  destruct passed; cbn [negb] in Ho, Ha.
  - right.
    apply bind_Some in Ho as (r & g2 & Hr & Ho).
    apply bind_Some in Ha as (r' & g2' & Hr' & Ha).
    rewrite Hr in Hr'. injection Hr' as <- <-.
    injection Ho as <- <-.
    unfold activate_talent_attempt in Hr.
    apply bind_Some in Hr as (roll & g3 & _ & Hr).
    apply bind_Some in Hr as (res & g4 & _ & Hr).
    injection Hr as <- <-. cbn [fst snd] in Ha.
    eexists. exact Ha.
  - left. injection Ho as <- <-. injection Ha as <- <-. auto.
Qed.

(** C2, amended.  [activate_talent] returns [true] exactly when the outcome
    of the attempt is Succeeded; it returns [false] when the attempt failed,
    although the turn is then over, and when it was aborted. *)
Theorem activate_talent_true_iff_success : forall (tal : talent)
    (g g1 g' : game) (o : spret_type) (b : bool),
  attempt_outcome tal g = Some (o, g1) ->
  activate_talent random2avg div_rand_round perform effect_dispatch tal g
  = Some (b, g') ->
  (b = true <-> o = SPRET_SUCCESS)
  /\ (o = SPRET_FAIL -> b = false /\ turn_is_over g' = true).
Proof.
  intros tal g g1 g' o b Ho Ha.
  destruct (activate_talent_inv tal g o g1 b g' Ho Ha)
    as [(_ & -> & -> & _)|[fail' Hres]].
  - split; [split; discriminate|discriminate].
  - apply activate_talent_result_inv in Hres.
    destruct o.
    + destruct Hres as [-> _]. split; [split; discriminate|discriminate].
    + destruct Hres as [-> ->]. split; [split; discriminate|]. auto.
    + destruct Hres as [-> _]. split; [tauto|discriminate].
    + destruct Hres.
Qed.


























(** A talent refused by the checks before the roll costs nothing either:
    the pools are as they were when the attempt began. *)
Lemma activate_talent_refused : forall tal g g1,
  activate_talent_checks perform tal g = Some (false, g1) ->
  activate_talent random2avg div_rand_round perform effect_dispatch tal g
  = Some (false, g1)
  /\ attempt_outcome tal g = Some (SPRET_ABORT, g1)
  /\ pools_kept g g1.
Proof.
  intros tal g g1 H. unfold activate_talent, attempt_outcome, bind.
  rewrite H. cbn. repeat split.
  - exact (proj1 (harmless_activate_talent_checks tal g false g1 H)).
  - exact (proj2 (harmless_activate_talent_checks tal g false g1 H)).
Qed.

End ActivationFacts.

(** * Sample attempts

    The follower of Zin, after its talents were listed, invokes
    Vitalisation (2 MP and piety; failure 35%).  The sample random source
    answers the draw number [n] with [n] modulo the bound, requests leave
    what this module reads as it is, and the other cases of [_do_ability]
    succeed unless doomed to fail. *)
Definition sample_div_rand_round (num den : Z) (n : nat) : Z :=
  num / den.

Definition sample_perform (r : request) (g : game) : game := g.

Definition sample_effect_dispatch (abil : ability_def) (fail' : bool)
    (g : game) : option (spret_type * game) :=
  Some (if fail' then SPRET_FAIL else SPRET_SUCCESS, g).

Definition vitalisation : talent :=
  mk_talent ABIL_ZIN_VITALISATION (char_code "g") 35 true.

(** The draw number 10 rolls 10, below the failure rate: the attempt
    fails. *)
Definition zin_game_rolled_10 : game := set_draws 11 zin_game_listed.

Definition zin_game_failed : game :=
  set_turn_is_over true
    (set_log [ mpr "You fail to use your ability." ] zin_game_rolled_10).



Lemma vitalisation_offered : In vitalisation zin_talents.
Proof. right. left. reflexivity. Qed.

Lemma vitalisation_fails :
  attempt_outcome sample_random2avg sample_perform sample_effect_dispatch
    vitalisation zin_game_listed
  = Some (SPRET_FAIL, zin_game_rolled_10)
  /\ activate_talent sample_random2avg sample_div_rand_round sample_perform
       sample_effect_dispatch vitalisation zin_game_listed
     = Some (false, zin_game_failed).
Proof. split; lazy; reflexivity. Qed.


(** C2, as stated, fails: the attempt at Vitalisation that rolls 10 has the
    outcome Failed-but-attempted and spends the turn, and [activate_talent]
    returns [false]. *)
Lemma activate_talent_false_on_failure :
  In vitalisation zin_talents
  /\ attempt_outcome sample_random2avg sample_perform sample_effect_dispatch
       vitalisation zin_game_listed
     = Some (SPRET_FAIL, zin_game_rolled_10)
  /\ activate_talent sample_random2avg sample_div_rand_round sample_perform
       sample_effect_dispatch vitalisation zin_game_listed
     = Some (false, zin_game_failed)
  /\ turn_is_over zin_game_failed = true.
Proof.
  split; [exact vitalisation_offered|].
  destruct vitalisation_fails as [Ho Ha].
  repeat split; assumption.
Qed.



Lemma activate_talent_true_iff_success_witness :
  (false = true <-> SPRET_FAIL = SPRET_SUCCESS)
  /\ (SPRET_FAIL = SPRET_FAIL ->
      false = false /\ turn_is_over zin_game_failed = true).
Proof.
  exact (activate_talent_true_iff_success sample_random2avg
           sample_div_rand_round sample_perform sample_effect_dispatch
           vitalisation zin_game_listed zin_game_rolled_10 zin_game_failed
           SPRET_FAIL false
           (proj1 vitalisation_fails) (proj2 vitalisation_fails)).
Defined.






From Stdlib Require Import Permutation.

(** * Abilities by name *)

(** The entry of a registered identity is found under its identity. *)
Lemma get_ability_def_entry : forall d,
  In d Ability_List -> get_ability_def (ability d) = d.
Proof.
  intros d Hin. unfold get_ability_def.
  destruct (find _ Ability_List) as [d'|] eqn:E.
  - apply find_some in E as [Hin' Hd']. apply ability_eqb_eq in Hd'.
    apply (NoDup_map_inj _ _ ability Ability_List d' d Ability_List_NoDup);
      assumption.
  - pose proof (find_none _ _ E d Hin) as Hnone. cbn in Hnone.
    rewrite ability_eqb_refl in Hnone. discriminate.
Qed.

Fixpoint distinct_names (l : list string) : bool :=
  match l with
  | [] => true
  | a :: rest => negb (existsb (String.eqb a) rest) && distinct_names rest
  end.

Lemma distinct_names_NoDup : forall l, distinct_names l = true -> NoDup l.
Proof.
  induction l as [|a rest IH]; intro H; [constructor|].
  cbn in H. apply andb_prop in H as [Hhead Hrest].
  constructor; [|auto].
  intro Hin.
  assert (existsb (String.eqb a) rest = true) as E.
  { apply existsb_exists. exists a. split; [assumption|apply String.eqb_refl]. }
  rewrite E in Hhead. discriminate.
Qed.

(** No two entries of the table have the same name. *)
Lemma Ability_List_names_NoDup : NoDup (map name Ability_List).
Proof. apply distinct_names_NoDup. vm_compute. reflexivity. Qed.

(** The test that [ability_by_name] applies to the entries. *)
Definition name_matches (y : player) (key : string) (abil : ability_def)
  : bool :=
  negb (ability_eqb (ability abil) ABIL_NON_ABILITY)
  && String.eqb (lowercase_string y (ability_name (ability abil)))
       (lowercase_string y key).

(** X1.  Looking an ability up by its own name gives the ability back: for
    every registered ability other than the sentinel,
    [ability_by_name (ability_name a)] is [a], as long as lower-casing
    keeps the names of the table apart. *)
Theorem ability_by_name_round_trip : forall (y : player) (a : ability_type),
  registered a = true ->
  a <> ABIL_NON_ABILITY ->
  (forall d1 d2, In d1 Ability_List -> In d2 Ability_List ->
     lowercase_string y (name d1) = lowercase_string y (name d2) ->
     name d1 = name d2) ->
  ability_by_name y (ability_name a) = a
  /\ string_matches_ability_name y (ability_name a) = true.
Proof.
  intros y a Hreg Ha Hinj.
  apply registered_find in Hreg as [d Hd].
  apply find_some in Hd as [Hin Hd]. apply ability_eqb_eq in Hd. subst a.
  assert (ability_by_name y (ability_name (ability d)) = ability d) as E.
  { unfold ability_by_name.
    destruct (find _ Ability_List) as [d'|] eqn:E.
    - apply find_some in E as [Hin' Hm]. apply andb_prop in Hm as [_ Hm].
      apply String.eqb_eq in Hm. unfold ability_name in Hm.
      rewrite !get_ability_def_entry in Hm by assumption.
      f_equal.
      apply (NoDup_map_inj _ _ name Ability_List d' d
               Ability_List_names_NoDup); auto.
    - pose proof (find_none _ _ E d Hin) as Hnone. cbn in Hnone.
      rewrite String.eqb_refl, andb_true_r in Hnone.
      apply negb_false_iff, ability_eqb_eq in Hnone. contradiction. }
  split; [exact E|].
  unfold string_matches_ability_name. rewrite E.
  apply negb_true_iff, ability_eqb_neq. exact Ha.
Qed.

Lemma ability_by_name_round_trip_witness :
  ability_by_name demonspawn "Evoke Blink" = ABIL_EVOKE_BLINK
  /\ string_matches_ability_name demonspawn "Evoke Blink" = true.
Proof.
  refine (ability_by_name_round_trip demonspawn ABIL_EVOKE_BLINK _ _ _).
  - vm_compute. reflexivity.
  - discriminate.
  - intros d1 d2 _ _ H. exact H.
Defined.

(** X2.  What [ability_by_name] returns for any key: either an identity
    other than the sentinel, which is registered and whose name is the key
    up to case; or the sentinel, and then no entry of the table other than
    the sentinel's has that name. *)
Theorem ability_by_name_sound : forall (y : player) (key : string),
  (string_matches_ability_name y key = true
   /\ registered (ability_by_name y key) = true
   /\ lowercase_string y (ability_name (ability_by_name y key))
      = lowercase_string y key)
  \/ (string_matches_ability_name y key = false
      /\ ability_by_name y key = ABIL_NON_ABILITY
      /\ forallb (fun d => negb (name_matches y key d)) Ability_List = true).
Proof.
  intros y key. unfold string_matches_ability_name, ability_by_name.
  fold (name_matches y key).
  destruct (find (name_matches y key) Ability_List) as [d|] eqn:E.
  - left. apply find_some in E as [Hin Hm].
    apply andb_prop in Hm as [Hsent Hm]. apply String.eqb_eq in Hm.
    repeat split; try assumption.
    apply existsb_exists. exists d. split; [assumption|apply ability_eqb_refl].
  - right. repeat split.
    apply forallb_forall. intros d Hin.
    now rewrite (find_none _ _ E d Hin).
Qed.

(** * The letter table *)

Lemma list_set_length : forall (A : Type) (l : list A) n a,
  List.length (list_set l n a) = List.length l.
Proof.
  intros A l. induction l as [|x rest IH]; intros [|n] a; cbn; auto.
Qed.

Lemma nth_list_set_same : forall (A : Type) (l : list A) n a d,
  (n < List.length l)%nat -> nth n (list_set l n a) d = a.
Proof.
  intros A l. induction l as [|x rest IH]; intros [|n] a d H; cbn in *;
    try lia; auto.
  apply IH. lia.
Qed.

Lemma nth_list_set_other : forall (A : Type) (l : list A) n m a d,
  n <> m -> nth m (list_set l n a) d = nth m l d.
Proof.
  intros A l. induction l as [|x rest IH]; intros [|n] [|m] a d H; cbn;
    try reflexivity; try contradiction.
  apply IH. congruence.
Qed.

Lemma list_set_same : forall (A : Type) (l : list A) n d,
  list_set l n (nth n l d) = l.
Proof.
  intros A l. induction l as [|x rest IH]; intros [|n] d; cbn;
    try reflexivity.
  f_equal. apply IH.
Qed.

Lemma table_get_set_same : forall t slot a,
  0 <= slot < Z.of_nat (List.length t) ->
  table_get (list_set t (Z.to_nat slot) a) slot = a.
Proof.
  intros t slot a H. unfold table_get. apply nth_list_set_same. lia.
Qed.

Lemma table_get_set_other : forall t slot slot' a,
  0 <= slot -> 0 <= slot' -> slot <> slot' ->
  table_get (list_set t (Z.to_nat slot) a) slot' = table_get t slot'.
Proof.
  intros t slot slot' a H H' Hne. unfold table_get.
  apply nth_list_set_other. lia.
Qed.

Lemma set_table_same : forall g,
  set_ability_letter_table (ability_letter_table g) g = g.
Proof. intros []; reflexivity. Qed.

Lemma set_table_twice : forall t t' g,
  set_ability_letter_table t (set_ability_letter_table t' g)
  = set_ability_letter_table t g.
Proof. intros t t' []; reflexivity. Qed.

(** The table after the entries at [i] and [j] changed places. *)
Definition swapped (t : list ability_type) (i j : Z) : list ability_type :=
  list_set (list_set t (Z.to_nat j) (table_get t i)) (Z.to_nat i)
    (table_get t j).

Lemma swap_ability_slots_silent : forall i j g,
  swap_ability_slots i j true g
  = Some (tt, set_ability_letter_table (swapped (ability_letter_table g) i j)
                g).
Proof.
  intros i j g. unfold swap_ability_slots, bind, get, table_set, modify, ret.
  cbn. rewrite set_table_twice. reflexivity.
Qed.

Lemma swapped_get : forall t i j k,
  0 <= i < Z.of_nat (List.length t) ->
  0 <= j < Z.of_nat (List.length t) ->
  0 <= k ->
  table_get (swapped t i j) k
  = if k =? i then table_get t j
    else if k =? j then table_get t i
    else table_get t k.
Proof.
  intros t i j k Hi Hj Hk. unfold swapped.
  destruct (Z.eqb_spec k i) as [->|Hki].
  - apply table_get_set_same. rewrite list_set_length. exact Hi.
  - rewrite table_get_set_other by lia.
    destruct (Z.eqb_spec k j) as [->|Hkj].
    + now apply table_get_set_same.
    + apply table_get_set_other; lia.
Qed.

Lemma swapped_length : forall t i j,
  List.length (swapped t i j) = List.length t.
Proof. intros t i j. unfold swapped. now rewrite !list_set_length. Qed.

Lemma table_ext : forall t t' : list ability_type,
  List.length t = List.length t' ->
  (forall k, 0 <= k < Z.of_nat (List.length t) ->
     table_get t k = table_get t' k) ->
  t = t'.
Proof.
  intros t t' Hlen H.
  apply (nth_ext t t' ABIL_NON_ABILITY ABIL_NON_ABILITY Hlen).
  intros n Hn. specialize (H (Z.of_nat n)). unfold table_get in H.
  rewrite Nat2Z.id in H. apply H. lia.
Qed.

Lemma swapped_involution : forall t i j,
  0 <= i < Z.of_nat (List.length t) ->
  0 <= j < Z.of_nat (List.length t) ->
  swapped (swapped t i j) i j = t.
Proof.
  intros t i j Hi Hj. apply table_ext.
  - now rewrite !swapped_length.
  - intros k Hk. rewrite !swapped_length in Hk.
    rewrite !swapped_get by (rewrite ?swapped_length; lia).
    rewrite !Z.eqb_refl.
    destruct (Z.eqb_spec k i) as [->|Hki].
    + destruct (Z.eqb_spec j i) as [->|]; reflexivity.
    + destruct (Z.eqb_spec k j) as [->|Hkj]; [|reflexivity].
      destruct (Z.eqb_spec i j); reflexivity.
Qed.

Lemma nth_error_list_set : forall (A : Type) (l : list A) n m a,
  nth_error (list_set l n a) m
  = if Nat.eqb m n then (if Nat.ltb n (List.length l) then Some a else None)
    else nth_error l m.
Proof.
  intros A l. induction l as [|x rest IH]; intros n m a.
  - cbn. destruct (Nat.eqb m n); destruct m; reflexivity.
  - destruct n as [|n], m as [|m]; try reflexivity.
    cbn [list_set nth_error Nat.eqb List.length]. rewrite IH.
    change (Nat.ltb (S n) (S (List.length rest)))
      with (Nat.ltb n (List.length rest)).
    reflexivity.
Qed.

Lemma swapped_Permutation : forall t i j,
  0 <= i < Z.of_nat (List.length t) ->
  0 <= j < Z.of_nat (List.length t) ->
  Permutation t (swapped t i j).
Proof.
  intros t i j Hi Hj.
  apply Permutation_nth_error.
  split; [symmetry; apply swapped_length|].
  exists (fun x => if Nat.eqb x (Z.to_nat i) then Z.to_nat j
                   else if Nat.eqb x (Z.to_nat j) then Z.to_nat i
                   else x).
  split.
  - intros x x'.
    destruct (Nat.eqb_spec x (Z.to_nat i)), (Nat.eqb_spec x' (Z.to_nat i));
      destruct (Nat.eqb_spec x (Z.to_nat j)), (Nat.eqb_spec x' (Z.to_nat j));
      lia.
  - intro n. unfold swapped, table_get.
    rewrite !nth_error_list_set, list_set_length.
    assert (forall k, (k < List.length t)%nat ->
              nth_error t k = Some (nth k t ABIL_NON_ABILITY)) as Hnth.
    { intros k Hk. now apply nth_error_nth'. }
    destruct (Nat.ltb_spec (Z.to_nat i) (List.length t)); [|lia].
    destruct (Nat.ltb_spec (Z.to_nat j) (List.length t)); [|lia].
    destruct (Nat.eqb_spec n (Z.to_nat i)) as [->|Hni].
    + symmetry. now apply Hnth.
    + destruct (Nat.eqb_spec n (Z.to_nat j)) as [->|Hnj]; [|reflexivity].
      symmetry. now apply Hnth.
Qed.

(** The message of a swap that is not silent: the letter of the second slot
    and the name of the ability it holds now. *)
Definition swap_message (letter : Z) (a : ability_type) : request :=
  mpr (String (ascii_of_N (Z.to_N letter)) (" - " ++ ability_name a)).

Lemma swap_ability_slots_loud : forall i j g,
  swap_ability_slots i j false g
  = match index_to_letter (you g) j with
    | Some letter =>
        Some (tt,
              set_log
                (log g
                 ++ [ swap_message letter
                        (table_get (swapped (ability_letter_table g) i j) j) ])
                (set_ability_letter_table
                   (swapped (ability_letter_table g) i j) g))
    | None => None
    end.
Proof.
  intros i j g. unfold swap_ability_slots, bind, get, table_set, modify, ret.
  cbn. rewrite set_table_twice.
  destruct (index_to_letter (you g) j); reflexivity.
Qed.

(** What a swap adds to the log. *)
Definition swap_log (y : player) (silent : bool) (index : Z)
    (a : ability_type) : list request :=
  if silent then []
  else match index_to_letter y index with
       | Some letter => [ swap_message letter a ]
       | None => []
       end.

(** X3.  [swap_ability_slots], silent or not, on two slots of the letter
    table.  A swap that is not silent stops the program when the second
    slot has no letter.  Otherwise it exchanges the abilities of the two
    slots and keeps the others: the letter table after it is a permutation
    of the table before, each of the two slots holds what the other held,
    and nothing else changes but the log, which gets the message
    "letter - name" for the second slot unless the swap is silent.
    Swapping the same slots again restores the letter table; it restores
    the game when the swaps are silent, and otherwise leaves the two
    messages in the log. *)
Theorem swap_ability_slots_involution : forall (index1 index2 : Z)
    (silent : bool) (g : game),
  0 <= index1 < Z.of_nat (List.length (ability_letter_table g)) ->
  0 <= index2 < Z.of_nat (List.length (ability_letter_table g)) ->
  (silent = false
   /\ index_to_letter (you g) index2 = None
   /\ swap_ability_slots index1 index2 silent g = None)
  \/ (exists g1 g2,
        (silent = true \/ index_to_letter (you g) index2 <> None)
        /\ swap_ability_slots index1 index2 silent g = Some (tt, g1)
        /\ swap_ability_slots index1 index2 silent g1 = Some (tt, g2)
        /\ Permutation (ability_letter_table g) (ability_letter_table g1)
        /\ table_get (ability_letter_table g1) index1
           = table_get (ability_letter_table g) index2
        /\ table_get (ability_letter_table g1) index2
           = table_get (ability_letter_table g) index1
        /\ g1 = set_log
                  (log g
                   ++ swap_log (you g) silent index2
                        (table_get (ability_letter_table g) index1))
                  (set_ability_letter_table (ability_letter_table g1) g)
        /\ g2 = set_log
                  (log g
                   ++ swap_log (you g) silent index2
                        (table_get (ability_letter_table g) index1)
                   ++ swap_log (you g) silent index2
                        (table_get (ability_letter_table g) index2))
                  g).
Proof.
  intros i j silent g Hi Hj.
  set (t := ability_letter_table g).
  assert (table_get (swapped t i j) i = table_get t j) as Hgi.
  { rewrite swapped_get by (unfold t; lia). now rewrite Z.eqb_refl. }
  assert (table_get (swapped t i j) j = table_get t i) as Hgj.
  { rewrite swapped_get by (unfold t; lia).
    rewrite Z.eqb_refl. destruct (Z.eqb_spec j i) as [->|]; reflexivity. }
  assert (swapped (swapped t i j) i j = t) as Hback
    by (apply swapped_involution; unfold t; lia).
  assert (Permutation t (swapped t i j)) as Hperm
    by (apply swapped_Permutation; unfold t; lia).
  destruct silent.
  - right.
    exists (set_ability_letter_table (swapped t i j) g), g.
    split; [now left|].
    split; [apply swap_ability_slots_silent|].
    split.
    { rewrite swap_ability_slots_silent.
      change (ability_letter_table
                (set_ability_letter_table (swapped t i j) g))
        with (swapped t i j).
      rewrite Hback, set_table_twice. unfold t.
      now rewrite set_table_same. }
    change (ability_letter_table (set_ability_letter_table (swapped t i j) g))
      with (swapped t i j).
    split; [exact Hperm|]. split; [exact Hgi|]. split; [exact Hgj|].
    unfold swap_log. rewrite !app_nil_r.
    split; destruct g; reflexivity.
  - destruct (index_to_letter (you g) j) as [letter|] eqn:Eletter.
    + right.
      exists (set_log (log g ++ [swap_message letter (table_get t i)])
                (set_ability_letter_table (swapped t i j) g)),
             (set_log (log g ++ [swap_message letter (table_get t i)]
                       ++ [swap_message letter (table_get t j)]) g).
      split; [right; congruence|].
      split.
      { rewrite swap_ability_slots_loud, Eletter. fold t. now rewrite Hgj. }
      split.
      { rewrite swap_ability_slots_loud.
        change (you (set_log (log g ++ [swap_message letter (table_get t i)])
                       (set_ability_letter_table (swapped t i j) g)))
          with (you g).
        rewrite Eletter.
        change (ability_letter_table
                  (set_log (log g ++ [swap_message letter (table_get t i)])
                     (set_ability_letter_table (swapped t i j) g)))
          with (swapped t i j).
        rewrite Hback. unfold t. destruct g; cbn.
        now rewrite <- app_assoc. }
      change (ability_letter_table
                (set_log (log g ++ [swap_message letter (table_get t i)])
                   (set_ability_letter_table (swapped t i j) g)))
        with (swapped t i j).
      split; [exact Hperm|]. split; [exact Hgi|]. split; [exact Hgj|].
      unfold swap_log. rewrite Eletter.
      split; destruct g; reflexivity.
    + left. split; [reflexivity|]. split; [reflexivity|].
      now rewrite swap_ability_slots_loud, Eletter.
Qed.

(** The slots a and Z of the crowded table are swapped aloud: the message
    names the letter Z and the ability that slot a held. *)
Lemma swap_ability_slots_involution_witness :
  exists g1,
    swap_ability_slots 0 51 false crowded_game = Some (tt, g1)
    /\ log g1 = [ swap_message (char_code "Z") ABIL_ZIN_RECITE ]
    /\ table_get (ability_letter_table g1) 51 = ABIL_ZIN_RECITE
    /\ exists g2,
         swap_ability_slots 0 51 false g1 = Some (tt, g2)
         /\ ability_letter_table g2 = ability_letter_table crowded_game.
Proof.
  destruct (swap_ability_slots_involution 0 51 false crowded_game)
    as [(_ & Hnone & _)|(g1 & g2 & _ & H1 & H2 & _ & _ & H51 & Hg1 & Hg2)].
  - vm_compute. split; congruence.
  - vm_compute. split; congruence.
  - discriminate Hnone.
  - exists g1. split; [exact H1|].
    split; [rewrite Hg1; reflexivity|].
    split; [rewrite H51; reflexivity|].
    exists g2. split; [exact H2|]. rewrite Hg2. reflexivity.
Defined.

(** ** Searching the slots *)

Lemma slots_from_S : forall first n,
  slots_from first (S n) = first :: slots_from (first + 1) n.
Proof.
  intros first n. unfold slots_from. cbn [seq map]. f_equal; [lia|].
  rewrite <- seq_shift, map_map. apply map_ext. intro i. lia.
Qed.

Lemma in_slots_from : forall n first s,
  In s (slots_from first n) <-> first <= s < first + Z.of_nat n.
Proof.
  induction n as [|n IH]; intros first s.
  - cbn. lia.
  - rewrite slots_from_S. cbn [In]. rewrite IH. lia.
Qed.

Lemma find_slots_from_Some : forall (P : Z -> bool) n first s,
  find P (slots_from first n) = Some s ->
  first <= s < first + Z.of_nat n
  /\ P s = true
  /\ forall s', first <= s' < s -> P s' = false.
Proof.
  intros P. induction n as [|n IH]; intros first s H.
  - discriminate.
  - rewrite slots_from_S in H. cbn [find] in H.
    destruct (P first) eqn:E.
    + injection H as <-. repeat split; try lia. exact E.
    + apply IH in H as (Hr & Hs & Hless).
      repeat split; try lia; [exact Hs|].
      intros s' Hs'. destruct (Z.eq_dec s' first) as [->|]; [exact E|].
      apply Hless. lia.
Qed.

Lemma find_slots_from_None : forall (P : Z -> bool) n first,
  find P (slots_from first n) = None ->
  forall s, first <= s < first + Z.of_nat n -> P s = false.
Proof.
  intros P n first H s Hs.
  apply (find_none _ _ H). now apply in_slots_from.
Qed.

(** The test of [_lookup_ability_slot]. *)
Definition bound_to (g : game) (abil : ability_type) (slot : Z) : bool :=
  ability_eqb
    (fixup_ability (you g) (table_get (ability_letter_table g) slot)) abil.

Lemma lookup_ability_slot_spec : forall abil g,
  _lookup_ability_slot abil g
  = Some (match find (bound_to g abil) (slots_from 0 52) with
          | Some slot => slot
          | None => -1
          end, g).
Proof. reflexivity. Qed.

Lemma lookup_ability_slot_cases : forall abil g,
  exists slot,
    _lookup_ability_slot abil g = Some (slot, g)
    /\ ((slot = -1
         /\ forall s, 0 <= s < 52 -> bound_to g abil s = false)
        \/ (0 <= slot < 52
            /\ bound_to g abil slot = true
            /\ forall s, 0 <= s < slot -> bound_to g abil s = false)).
Proof.
  intros abil g. rewrite lookup_ability_slot_spec.
  destruct (find (bound_to g abil) (slots_from 0 52)) as [slot|] eqn:E.
  - exists slot. split; [reflexivity|]. right.
    apply find_slots_from_Some in E as (Hr & Hs & Hless).
    repeat split; try lia; assumption.
  - exists (-1). split; [reflexivity|]. left. split; [reflexivity|].
    intros s Hs. apply (find_slots_from_None _ _ _ E). lia.
Qed.

(** X4.  [_lookup_ability_slot] changes nothing and returns the first of
    the 52 slots whose ability, placeholders resolved, is the one asked
    for; it returns -1 exactly when there is no such slot. *)
Theorem lookup_ability_slot_first : forall (abil : ability_type) (g : game),
  exists slot,
    _lookup_ability_slot abil g = Some (slot, g)
    /\ ((slot = -1
         /\ forall s, 0 <= s < 52 ->
              fixup_ability (you g) (table_get (ability_letter_table g) s)
              <> abil)
        \/ (0 <= slot < 52
            /\ fixup_ability (you g)
                 (table_get (ability_letter_table g) slot) = abil
            /\ forall s, 0 <= s < slot ->
                 fixup_ability (you g) (table_get (ability_letter_table g) s)
                 <> abil)).
Proof.
  intros abil g.
  destruct (lookup_ability_slot_cases abil g) as (slot & H & Hc).
  exists slot. split; [exact H|].
  destruct Hc as [[-> Hnone]|(Hr & Hs & Hless)]; [left|right].
  - split; [reflexivity|]. intros s Hs.
    apply ability_eqb_neq. now apply Hnone.
  - apply ability_eqb_eq in Hs. repeat split; try lia; [exact Hs|].
    intros s Hs'. apply ability_eqb_neq. now apply Hless.
Qed.

(** ** Assigning a slot *)

(** [letter_to_index] answers with a slot of the table. *)
Definition letters_in_range (y : player) : Prop :=
  forall c i, letter_to_index y c = Some i -> 0 <= i < 52.

(** The table after the ability of the slot [slot] took the slot [index]:
    the ability that was at [index] goes to [slot], unless it is the same
    ability, in which case [slot] becomes free. *)
Definition moved (t : list ability_type) (slot index : Z)
  : list ability_type :=
  if slot =? index then t
  else
    list_set (list_set t (Z.to_nat index) (table_get t slot)) (Z.to_nat slot)
      (if ability_eqb (table_get t index) (table_get t slot)
       then ABIL_NON_ABILITY
       else table_get t index).

Lemma moved_length : forall t slot index,
  List.length (moved t slot index) = List.length t.
Proof.
  intros t slot index. unfold moved.
  destruct (slot =? index); [reflexivity|]. now rewrite !list_set_length.
Qed.

Lemma moved_get : forall t slot index k,
  0 <= slot < Z.of_nat (List.length t) ->
  0 <= index < Z.of_nat (List.length t) ->
  0 <= k ->
  table_get (moved t slot index) k
  = if k =? index then table_get t slot
    else if k =? slot then
           (if ability_eqb (table_get t index) (table_get t slot)
            then ABIL_NON_ABILITY
            else table_get t index)
    else table_get t k.
Proof.
  intros t slot index k Hs Hi Hk. unfold moved.
  destruct (Z.eqb_spec slot index) as [->|Hne].
  - destruct (Z.eqb_spec k index) as [->|]; reflexivity.
  - destruct (Z.eqb_spec k index) as [->|Hki].
    + rewrite table_get_set_other by lia. now apply table_get_set_same.
    + destruct (Z.eqb_spec k slot) as [->|Hks].
      * apply table_get_set_same. now rewrite list_set_length.
      * rewrite !table_get_set_other by lia. reflexivity.
Qed.

Lemma table_set_spec : forall slot a g,
  table_set slot a g
  = Some (tt, set_ability_letter_table
                (list_set (ability_letter_table g) (Z.to_nat slot) a) g).
Proof. reflexivity. Qed.

Lemma table_set_same : forall slot g,
  table_set slot (table_get (ability_letter_table g) slot) g = Some (tt, g).
Proof.
  intros slot g. rewrite table_set_spec. unfold table_get.
  now rewrite list_set_same, set_table_same.
Qed.

Lemma auto_assign_letters_spec : forall y matches abil_type slot letters
    overwrite g res ow' g',
  letters_in_range y ->
  List.length (ability_letter_table g) = 52%nat ->
  0 <= slot < 52 ->
  table_get (ability_letter_table g) slot = abil_type ->
  auto_assign_letters y matches abil_type slot letters overwrite g
  = Some ((res, ow'), g') ->
  match res with
  | None => g' = g
  | Some index =>
      0 <= index < 52
      /\ g' = set_ability_letter_table
                (moved (ability_letter_table g) slot index) g
  end.
Proof.
  intros y matches abil_type slot letters.
  induction letters as [|c rest IH];
    intros overwrite g res ow' g' Hletters Hlen Hslot Habil H.
  - injection H as <- _ <-. reflexivity.
  - cbn [auto_assign_letters] in H.
    destruct (char_code c =? char_code "+"); [now apply IH in H|].
    destruct (char_code c =? char_code "-"); [now apply IH in H|].
    destruct (isaalpha y (char_code c)); [|now apply IH in H].
    apply bind_Some in H as (index & g0 & Hindex & H).
    destruct (letter_to_index y (char_code c)) as [index'|] eqn:Eindex;
      [|discriminate].
    injection Hindex as <- <-.
    pose proof (Hletters _ _ Eindex) as Hrange.
    apply bind_Some in H as (g0 & g1 & Hget & H).
    injection Hget as <- <-.
    set (t := ability_letter_table g) in *.
    destruct (ability_eqb (table_get t index') ABIL_NON_ABILITY
              || ability_eqb (table_get t index') abil_type) eqn:Efree.
    + (* unassigned, or already assigned to this ability *)
      apply bind_Some in H as ([] & g1 & Hset & H).
      rewrite table_set_spec in Hset. injection Hset as <-. fold t in H.
      apply bind_Some in H as ([] & g2 & Hclear & H).
      injection H as <- _ <-. split; [exact Hrange|].
      destruct (Z.eqb_spec slot index') as [->|Hne]; cbn [negb] in Hclear.
      * injection Hclear as <-. unfold moved. rewrite Z.eqb_refl. fold t.
        rewrite <- Habil. unfold table_get. now rewrite list_set_same.
      * rewrite table_set_spec in Hclear. injection Hclear as <-.
        rewrite set_table_twice. f_equal.
        unfold moved.
        destruct (Z.eqb_spec slot index') as [|_]; [contradiction|].
        cbn [ability_letter_table set_ability_letter_table]. fold t.
        rewrite Habil. f_equal.
        apply orb_prop in Efree as [E|E].
        -- apply ability_eqb_eq in E. rewrite E.
           destruct (ability_eqb ABIL_NON_ABILITY abil_type); reflexivity.
        -- now rewrite E.
    + apply orb_false_elim in Efree as [Enon Esame].
      destruct overwrite; [|now apply IH in H].
      destruct (matches _); [now apply IH in H|].
      (* the ability at [index'] is moved out of the way *)
      apply bind_Some in H as ([] & g1 & Hset & H).
      rewrite <- Habil in Hset. unfold t in Hset.
      rewrite table_set_same in Hset.
      injection Hset as <-.
      apply bind_Some in H as ([] & g2 & Hswap & H).
      rewrite swap_ability_slots_silent in Hswap. injection Hswap as <-.
      injection H as <- _ <-. split; [exact Hrange|].
      f_equal. fold t. unfold moved, swapped.
      destruct (Z.eqb_spec slot index') as [->|_].
      * rewrite Habil, ability_eqb_refl in Esame. discriminate.
      * rewrite Habil, Esame. reflexivity.
Qed.

Lemma moved_same : forall t slot, moved t slot slot = t.
Proof. intros t slot. unfold moved. now rewrite Z.eqb_refl. Qed.

Lemma auto_assign_mappings_spec : forall y mappings abil_type abilname slot
    overwrite g index g',
  letters_in_range y ->
  List.length (ability_letter_table g) = 52%nat ->
  0 <= slot < 52 ->
  table_get (ability_letter_table g) slot = abil_type ->
  auto_assign_mappings y mappings abil_type abilname slot overwrite g
  = Some (index, g') ->
  0 <= index < 52
  /\ g' = set_ability_letter_table (moved (ability_letter_table g) slot index)
            g.
Proof.
  intros y mappings abil_type abilname slot.
  induction mappings as [|mapping rest IH];
    intros overwrite g index g' Hletters Hlen Hslot Habil H.
  - injection H as <- <-. split; [exact Hslot|].
    now rewrite moved_same, set_table_same.
  - cbn [auto_assign_mappings] in H.
    destruct (negb (fst mapping abilname)); [now apply IH in H|].
    apply bind_Some in H as ([res ow'] & g1 & Hinner & H).
    apply auto_assign_letters_spec in Hinner; try assumption.
    cbn [fst snd] in H. destruct res as [index'|].
    + injection H as <- <-. exact Hinner.
    + subst g1. now apply IH in H.
Qed.

Lemma auto_assign_ability_slot_spec : forall slot g index g',
  letters_in_range (you g) ->
  List.length (ability_letter_table g) = 52%nat ->
  0 <= slot < 52 ->
  auto_assign_ability_slot slot g = Some (index, g') ->
  0 <= index < 52
  /\ g' = set_ability_letter_table (moved (ability_letter_table g) slot index)
            g.
Proof.
  intros slot g index g' Hletters Hlen Hslot H.
  unfold auto_assign_ability_slot in H.
  apply bind_Some in H as (g0 & g1 & Hget & H). injection Hget as <- <-.
  eapply auto_assign_mappings_spec; try eassumption. reflexivity.
Qed.

Lemma preferred_first_slot_range : forall y abil first_slot slot,
  letters_in_range y ->
  0 <= first_slot < 52 ->
  preferred_first_slot y abil first_slot = Some slot ->
  0 <= slot < 52.
Proof.
  intros y abil first_slot slot Hletters Hfirst H.
  destruct abil; cbn in H;
    first [ injection H as <-; exact Hfirst
          | exact (Hletters _ _ H) ].
Qed.

(** The slot is free. *)
Definition free_slot (g : game) (slot : Z) : bool :=
  ability_eqb (table_get (ability_letter_table g) slot) ABIL_NON_ABILITY.

(** What [find_ability_slot] does, by case: the ability has a slot
    already; or it has none and takes the free slot [free], from which the
    ability_slot option may move it on; or it has none and no slot is
    free. *)
Lemma find_ability_slot_spec : forall abil firstletter g slot g',
  letters_in_range (you g) ->
  List.length (ability_letter_table g) = 52%nat ->
  find_ability_slot abil firstletter g = Some (slot, g') ->
  (_lookup_ability_slot abil g = Some (slot, g) /\ slot > -1 /\ g' = g)
  \/ (_lookup_ability_slot abil g = Some (-1, g)
      /\ exists free,
           0 <= free < 52
           /\ free_slot g free = true
           /\ 0 <= slot < 52
           /\ g' = set_ability_letter_table
                     (moved (list_set (ability_letter_table g)
                               (Z.to_nat free) abil) free slot) g)
  \/ (_lookup_ability_slot abil g = Some (-1, g)
      /\ slot = -1 /\ g' = g
      /\ forall s, 0 <= s < 52 -> free_slot g s = false).
Proof.
  intros abil firstletter g slot g' Hletters Hlen H.
  unfold find_ability_slot in H.
  apply bind_Some in H as (had_slot & g0 & Hlookup & H).
  destruct (lookup_ability_slot_cases abil g) as (s & Hs & Hc).
  rewrite Hs in Hlookup. injection Hlookup as <- <-.
  destruct (Z.gtb_spec s (-1)) as [Hhad|Hhad].
  { injection H as <- <-. left. repeat split; [exact Hs|lia]. }
  assert (s = -1) as -> by (destruct Hc as [[-> _]|[Hr _]]; lia).
  rename Hs into Hlookup.
  right.
  apply bind_Some in H as (g0 & g1 & Hget & H). injection Hget as <- <-.
  apply bind_Some in H as (first0 & g1 & Hfirst0 & H).
  destruct (letter_to_index (you g) firstletter) as [first0'|] eqn:E0;
    [|discriminate].
  injection Hfirst0 as <- <-. pose proof (Hletters _ _ E0) as R0.
  apply bind_Some in H as (first1 & g1 & Hfirst1 & H).
  assert (g1 = g /\ 0 <= first1) as [-> R1].
  { destruct (species_eqb (species (you g)) SP_BASE_DRACONIAN).
    - apply bind_Some in Hfirst1 as (slot_f & g2 & Hf & Hfirst1).
      destruct (letter_to_index (you g) (char_code "f")); [|discriminate].
      injection Hf as <- <-. injection Hfirst1 as <- <-.
      split; [reflexivity|]. destruct (first0' >=? _); lia.
    - injection Hfirst1 as <- <-. split; [reflexivity|lia]. }
  apply bind_Some in H as ([] & g1 & Hassert & H).
  destruct (Z.ltb_spec first1 52) as [R1'|]; [|discriminate].
  injection Hassert as <-.
  apply bind_Some in H as (first_slot & g1 & Hpref & H).
  destruct (preferred_first_slot (you g) abil first1) as [first_slot'|] eqn:Ep;
    [|discriminate].
  injection Hpref as <- <-.
  assert (0 <= first_slot' < 52) as Rf
    by (apply (preferred_first_slot_range (you g) abil first1 first_slot'
                 Hletters); [lia|exact Ep]).
  fold (free_slot g) in H.
  assert (forall free,
            0 <= free < 52 -> free_slot g free = true ->
            (table_set free abil ;; auto_assign_ability_slot free) g
            = Some (slot, g') ->
            exists free0,
              0 <= free0 < 52 /\ free_slot g free0 = true /\ 0 <= slot < 52
              /\ g' = set_ability_letter_table
                        (moved (list_set (ability_letter_table g)
                                  (Z.to_nat free0) abil) free0 slot) g)
    as Hassign.
  { intros free Rfree Hfree Hrun.
    apply bind_Some in Hrun as ([] & g1 & Hset & Hrun).
    rewrite table_set_spec in Hset. injection Hset as <-.
    apply auto_assign_ability_slot_spec in Hrun as [Rslot ->];
      [ | exact Hletters
        | cbn [ability_letter_table set_ability_letter_table];
          now rewrite list_set_length
        | lia ].
    exists free. repeat split; try assumption; lia. }
  destruct (find (free_slot g)
              (slots_from first_slot' (Z.to_nat (52 - first_slot'))))
    as [free|] eqn:Eup.
  { left. split; [exact Hlookup|].
    apply find_slots_from_Some in Eup as (Rfree & Hfree & _).
    apply (Hassign free); [lia|assumption|exact H]. }
  destruct (find (free_slot g) (rev (slots_from 0 (Z.to_nat first_slot'))))
    as [free|] eqn:Edown.
  { left. split; [exact Hlookup|].
    apply find_some in Edown as [Hin Hfree].
    apply in_rev, in_slots_from in Hin.
    apply (Hassign free); [lia|assumption|exact H]. }
  right. injection H as <- <-.
  repeat split; try assumption.
  intros s Hs. destruct (Z.lt_ge_cases s first_slot') as [Hlow|Hhigh].
  - apply (find_none _ _ Edown). apply -> in_rev. apply in_slots_from. lia.
  - apply (find_slots_from_None _ _ _ Eup). lia.
Qed.

Lemma In_table_get : forall (t : list ability_type) a,
  In a t <->
  exists k, 0 <= k < Z.of_nat (List.length t) /\ table_get t k = a.
Proof.
  intros t a. split.
  - intro H. apply (In_nth _ _ ABIL_NON_ABILITY) in H as (n & Hn & E).
    exists (Z.of_nat n). unfold table_get. rewrite Nat2Z.id.
    split; [lia|exact E].
  - intros (k & Hk & <-). unfold table_get. apply nth_In. lia.
Qed.

(** X5.  The slot that [find_ability_slot] returns.  The function touches
    nothing but the letter table, which keeps its 52 slots.  It returns -1
    only if no slot is free, and then it has changed nothing.  Otherwise the
    slot returned is one of the 52 and is bound to the ability: either it
    was already (placeholders resolved) and nothing has changed, or the
    ability has just been written there. *)
Theorem find_ability_slot_result : forall (abil : ability_type)
    (firstletter : Z) (g : game) (slot : Z) (g' : game),
  letters_in_range (you g) ->
  List.length (ability_letter_table g) = 52%nat ->
  find_ability_slot abil firstletter g = Some (slot, g') ->
  only_table g g'
  /\ List.length (ability_letter_table g') = 52%nat
  /\ ((slot = -1 /\ g' = g
       /\ forall s, 0 <= s < 52 ->
            table_get (ability_letter_table g) s <> ABIL_NON_ABILITY)
      \/ (0 <= slot < 52
          /\ ((g' = g
               /\ fixup_ability (you g)
                    (table_get (ability_letter_table g) slot) = abil)
              \/ table_get (ability_letter_table g') slot = abil))).
Proof.
  intros abil firstletter g slot g' Hletters Hlen H.
  split; [now apply table_only_find_ability_slot in H|].
  apply find_ability_slot_spec in H
    as [(Hlookup & Hslot & ->)
       |[(Hlookup & free & Rfree & Hfree & Rslot & ->)
        |(Hlookup & -> & -> & Hfull)]];
    try assumption.
  - split; [exact Hlen|]. right.
    destruct (lookup_ability_slot_cases abil g) as (s & Hs & Hc).
    rewrite Hs in Hlookup. injection Hlookup as ->.
    destruct Hc as [[-> _]|(Hr & Hb & _)]; [lia|].
    apply ability_eqb_eq in Hb. auto.
  - cbn [ability_letter_table set_ability_letter_table].
    split; [now rewrite moved_length, list_set_length|]. right.
    split; [exact Rslot|]. right.
    rewrite moved_get by (rewrite ?list_set_length; lia).
    rewrite Z.eqb_refl. apply table_get_set_same. lia.
  - split; [exact Hlen|]. left. repeat split.
    intros s Hs. apply ability_eqb_neq. now apply Hfull.
Qed.

(** X6.  [find_ability_slot] never drops a binding: every ability that
    stands in the letter table before the call stands in it after the call,
    perhaps in another slot. *)
Theorem find_ability_slot_keeps_bindings : forall (abil : ability_type)
    (firstletter : Z) (g : game) (slot : Z) (g' : game) (a : ability_type),
  letters_in_range (you g) ->
  List.length (ability_letter_table g) = 52%nat ->
  find_ability_slot abil firstletter g = Some (slot, g') ->
  a <> ABIL_NON_ABILITY ->
  In a (ability_letter_table g) ->
  In a (ability_letter_table g').
Proof.
  intros abil firstletter g slot g' a Hletters Hlen H Ha Hin.
  apply find_ability_slot_spec in H
    as [(Hlookup & Hslot & ->)
       |[(Hlookup & free & Rfree & Hfree & Rslot & ->)
        |(Hlookup & -> & -> & Hfull)]];
    try assumption.
  cbn [ability_letter_table set_ability_letter_table].
  set (t := ability_letter_table g) in *.
  set (t1 := list_set t (Z.to_nat free) abil).
  apply ability_eqb_eq in Hfree. fold t in Hfree.
  assert (List.length t1 = 52%nat) as Hlen1
    by (unfold t1; now rewrite list_set_length).
  apply In_table_get in Hin as (k & Rk & Hk). rewrite Hlen in Rk.
  assert (k <> free) as Hkfree by congruence.
  assert (table_get t1 k = a) as Hk1
    by (unfold t1; rewrite table_get_set_other by lia; exact Hk).
  assert (table_get t1 free = abil) as Hfree1
    by (unfold t1; apply table_get_set_same; lia).
  apply In_table_get. rewrite moved_length, Hlen1.
  destruct (Z.eq_dec k slot) as [->|Hkslot].
  - (* the slot that the ability takes *)
    destruct (ability_eqb a abil) eqn:Esame.
    + apply ability_eqb_eq in Esame. subst a.
      exists slot. split; [lia|].
      rewrite moved_get by (rewrite ?Hlen1; lia).
      rewrite Z.eqb_refl. congruence.
    + exists free. split; [lia|].
      rewrite moved_get by (rewrite ?Hlen1; lia).
      destruct (Z.eqb_spec free slot) as [|_]; [congruence|].
      rewrite Z.eqb_refl, Hk1, Hfree1, Esame. reflexivity.
  - exists k. split; [lia|].
    rewrite moved_get by (rewrite ?Hlen1; lia).
    destruct (Z.eqb_spec k slot) as [|_]; [contradiction|].
    destruct (Z.eqb_spec k free) as [|_]; [contradiction|].
    exact Hk1.
Qed.

(** X7.  Asking again gives the same slot: once [find_ability_slot] has
    returned a slot for an ability that is no placeholder, a second call
    for the ability, with whatever first letter, returns the same slot and
    changes nothing, and so does [_lookup_ability_slot]. *)
Theorem find_ability_slot_idempotent : forall (abil : ability_type)
    (firstletter firstletter' : Z) (g : game) (slot : Z) (g' : game),
  letters_in_range (you g) ->
  List.length (ability_letter_table g) = 52%nat ->
  fixup_ability (you g) abil = abil ->
  find_ability_slot abil firstletter g = Some (slot, g') ->
  slot <> -1 ->
  _lookup_ability_slot abil g' = Some (slot, g')
  /\ find_ability_slot abil firstletter' g' = Some (slot, g').
Proof.
  intros abil firstletter firstletter' g slot g' Hletters Hlen Hfix H Hslot.
  assert (_lookup_ability_slot abil g' = Some (slot, g') /\ slot > -1)
    as [Hlookup Hpos].
  { apply find_ability_slot_spec in H
      as [(Hlookup & Hpos & ->)
         |[(Hlookup & free & Rfree & Hfree & Rslot & ->)
          |(Hlookup & -> & -> & Hfull)]];
      try assumption; [auto| |contradiction].
    split; [|lia].
    set (t := ability_letter_table g) in *.
    set (t1 := list_set t (Z.to_nat free) abil).
    set (g' := set_ability_letter_table (moved t1 free slot) g).
    apply ability_eqb_eq in Hfree. fold t in Hfree.
    assert (List.length t1 = 52%nat) as Hlen1
      by (unfold t1; now rewrite list_set_length).
    assert (table_get t1 free = abil) as Hfree1
      by (unfold t1; apply table_get_set_same; lia).
    (* before the call no slot was bound to the ability *)
    destruct (lookup_ability_slot_cases abil g) as (s & Hs & Hc).
    rewrite Hs in Hlookup. injection Hlookup as ->.
    destruct Hc as [[_ Hnone]|[Hr _]]; [|lia].
    (* after the call the slot returned is, and no slot before it *)
    destruct (lookup_ability_slot_cases abil g') as (s' & Hs' & Hc').
    rewrite Hs'. do 2 f_equal.
    assert (forall k, 0 <= k < 52 ->
              bound_to g' abil k = if k =? slot then true else false)
      as Hbound.
    { intros k Rk. unfold bound_to, g'.
      cbn [you ability_letter_table set_ability_letter_table].
      rewrite moved_get by (rewrite ?Hlen1; lia).
      destruct (Z.eqb_spec k slot) as [->|Hkslot].
      - rewrite Hfree1, Hfix. apply ability_eqb_refl.
      - destruct (Z.eqb_spec k free) as [->|Hkfree].
        + destruct (ability_eqb (table_get t1 slot) (table_get t1 free))
            eqn:Esame.
          * apply ability_eqb_neq. intro E.
            assert (free <> slot) as Hne by congruence.
            apply ability_eqb_eq in Esame.
            specialize (Hnone slot Rslot). unfold bound_to in Hnone.
            fold t in Hnone.
            replace (table_get t slot) with (table_get t1 slot) in Hnone
              by (unfold t1; apply table_get_set_other; lia).
            rewrite Esame, Hfree1, Hfix, ability_eqb_refl in Hnone.
            discriminate.
          * specialize (Hnone slot Rslot). unfold bound_to in Hnone.
            fold t in Hnone.
            replace (table_get t slot) with (table_get t1 slot) in Hnone
              by (unfold t1; apply table_get_set_other; lia).
            exact Hnone.
        + specialize (Hnone k Rk). unfold bound_to in Hnone. fold t in Hnone.
          replace (table_get t k) with (table_get t1 k) in Hnone
            by (unfold t1; apply table_get_set_other; lia).
          exact Hnone. }
    destruct Hc' as [[-> Hnone']|(Rs' & Hb' & Hless')].
    - specialize (Hnone' slot Rslot). rewrite Hbound in Hnone' by lia.
      rewrite Z.eqb_refl in Hnone'. discriminate.
    - rewrite Hbound in Hb' by lia.
      destruct (Z.eqb_spec s' slot); [assumption|discriminate]. }
  split; [exact Hlookup|].
  unfold find_ability_slot, bind at 1. rewrite Hlookup.
  replace (slot >? -1) with true by lia. reflexivity.
Qed.

(** The letters of the sample characters lie in the table. *)
Lemma sample_letters_in_range : forall mutations worships powers piety' rank',
  letters_in_range (sample_player mutations worships powers piety' rank').
Proof.
  intros mutations worships powers piety' rank' c i H.
  cbn [letter_to_index sample_player] in H.
  unfold sample_letter_to_index in H.
  change (char_code "a") with 97 in H. change (char_code "z") with 122 in H.
  change (char_code "A") with 65 in H. change (char_code "Z") with 90 in H.
  destruct ((97 <=? c) && (c <=? 122)) eqn:E1.
  - injection H as <-. lia.
  - destruct ((65 <=? c) && (c <=? 90)) eqn:E2; [|discriminate].
    injection H as <-. lia.
Qed.

(** The game of the follower of Zin after Recite has taken the slot f. *)
Definition zin_game_recite : game :=
  set_ability_letter_table
    (list_set empty_table 5 ABIL_ZIN_RECITE) zin_game.

Lemma find_ability_slot_zin_game :
  find_ability_slot ABIL_ZIN_RECITE (char_code "f") zin_game
  = Some (5, zin_game_recite).
Proof. lazy. reflexivity. Qed.

Lemma find_ability_slot_result_witness :
  only_table zin_game zin_game_recite
  /\ List.length (ability_letter_table zin_game_recite) = 52%nat
  /\ ((5 = -1 /\ zin_game_recite = zin_game
       /\ forall s, 0 <= s < 52 ->
            table_get (ability_letter_table zin_game) s <> ABIL_NON_ABILITY)
      \/ (0 <= 5 < 52
          /\ ((zin_game_recite = zin_game
               /\ fixup_ability (you zin_game)
                    (table_get (ability_letter_table zin_game) 5)
                  = ABIL_ZIN_RECITE)
              \/ table_get (ability_letter_table zin_game_recite) 5
                 = ABIL_ZIN_RECITE))).
Proof.
  apply (find_ability_slot_result ABIL_ZIN_RECITE (char_code "f") zin_game 5
           zin_game_recite).
  - apply sample_letters_in_range.
  - reflexivity.
  - exact find_ability_slot_zin_game.
Defined.

(** A table with Blink in its last slot. *)
Definition blink_game : game :=
  set_ability_letter_table (list_set empty_table 51 ABIL_BLINK) zin_game.

Definition blink_game_recite : game :=
  set_ability_letter_table
    (list_set (list_set empty_table 51 ABIL_BLINK) 5 ABIL_ZIN_RECITE)
    zin_game.

Lemma find_ability_slot_keeps_bindings_witness :
  find_ability_slot ABIL_ZIN_RECITE (char_code "f") blink_game
  = Some (5, blink_game_recite)
  /\ In ABIL_BLINK (ability_letter_table blink_game_recite).
Proof.
  assert (find_ability_slot ABIL_ZIN_RECITE (char_code "f") blink_game
          = Some (5, blink_game_recite)) as H by (lazy; reflexivity).
  split; [exact H|].
  apply (find_ability_slot_keeps_bindings ABIL_ZIN_RECITE (char_code "f")
           blink_game 5 blink_game_recite ABIL_BLINK).
  - apply sample_letters_in_range.
  - reflexivity.
  - exact H.
  - discriminate.
  - vm_compute. tauto.
Defined.

Lemma find_ability_slot_idempotent_witness :
  _lookup_ability_slot ABIL_ZIN_RECITE zin_game_recite
  = Some (5, zin_game_recite)
  /\ find_ability_slot ABIL_ZIN_RECITE (char_code "a") zin_game_recite
     = Some (5, zin_game_recite).
Proof.
  apply (find_ability_slot_idempotent ABIL_ZIN_RECITE (char_code "f")
           (char_code "a") zin_game 5 zin_game_recite).
  - apply sample_letters_in_range.
  - reflexivity.
  - reflexivity.
  - exact find_ability_slot_zin_game.
  - discriminate.
Defined.

(** * The talents listed *)

(** A talent without its hotkey. *)
Definition core_of (t : talent) : ability_type * Z * bool :=
  (which t, fail t, is_invocation t).

Lemma assign_hotkeys_core : forall todo done g talents g',
  assign_hotkeys done todo g = Some (talents, g') ->
  map core_of talents = map core_of done ++ map core_of todo.
Proof.
  induction todo as [|tal rest IH]; intros done g talents g' H.
  - injection H as <- <-. cbn. now rewrite app_nil_r.
  - cbn [assign_hotkeys] in H. apply bind_Some in H as (index & g1 & H1 & H).
    apply bind_Some in H as (g2 & g3 & Hget & H). injection Hget as <- <-.
    destruct (index >? -1).
    + apply bind_Some in H as (letter & g2 & H2 & H).
      apply IH in H. rewrite H, map_app, <- app_assoc. reflexivity.
    + apply bind_Some in H as (k & g2 & H2 & H).
      apply bind_Some in H as ([] & g3 & H3 & H).
      apply IH in H. rewrite H, map_app, <- app_assoc. reflexivity.
Qed.

(** What holds of every talent that [get_talent] returns and [_add_talent]
    keeps. *)
Definition valid_talent (y : player) (check_confused : bool)
    (c : ability_type * Z * bool) : Prop :=
  fst (fst c) <> ABIL_NON_ABILITY
  /\ 0 <= snd (fst c) <= 100
  /\ (check_confused && confused y = true ->
      testbits (flags (get_ability_def (fst (fst c)))) abflag.CONF_OK = true).

Lemma add_talent_valid : forall vec a check_confused g vec' g',
  _add_talent vec a check_confused g = Some (vec', g') ->
  Forall (valid_talent (you g) check_confused) (map core_of vec) ->
  only_table g g'
  /\ Forall (valid_talent (you g) check_confused) (map core_of vec').
Proof.
  intros vec a cc g vec' g' H Hvec. unfold _add_talent in H.
  apply bind_Some in H as (t & g1 & Ht & H).
  apply get_talent_inv in Ht as (Htable & _ & Hfail & Hc).
  destruct (negb (ability_eqb (which t) ABIL_NON_ABILITY)) eqn:E;
    injection H as <- <-; (split; [exact Htable|]); [|exact Hvec].
  rewrite map_app. apply Forall_app. split; [exact Hvec|].
  repeat constructor; cbn.
  - apply ability_eqb_neq. now apply negb_true_iff.
  - lia.
  - lia.
  - intro Hconf. unfold too_confused in Hc. rewrite Hconf in Hc.
    cbn [andb] in Hc.
    destruct (testbits _ abflag.CONF_OK) eqn:Et; cbn [negb] in Hc.
    + destruct Hc as [-> _]. exact Et.
    + destruct Hc as [Hw _]. rewrite Hw, ability_eqb_refl in E. discriminate.
Qed.

Lemma add_talents_valid : forall abilities vec check_confused g vec' g',
  _add_talents vec abilities check_confused g = Some (vec', g') ->
  Forall (valid_talent (you g) check_confused) (map core_of vec) ->
  only_table g g'
  /\ Forall (valid_talent (you g) check_confused) (map core_of vec').
Proof.
  induction abilities as [|a rest IH]; intros vec cc g vec' g' H Hvec.
  - injection H as <- <-. split; [apply only_table_refl|exact Hvec].
  - cbn [_add_talents] in H. apply bind_Some in H as (vec1 & g1 & H1 & H).
    apply add_talent_valid in H1 as [Ht1 Hv1]; [|exact Hvec].
    apply IH in H as [Ht Hv];
      [|now rewrite (only_table_you _ _ Ht1)].
    split; [eapply only_table_trans; eassumption|].
    now rewrite (only_table_you _ _ Ht1) in Hv.
Qed.

(** X8.  Listing the talents touches nothing but the letter table, and
    every talent listed is usable as such: its ability is not the sentinel,
    its failure chance is a percentage, and, when abilities that do not
    work under confusion were to be left out and the player is confused,
    its ability is one that can be used even if confused. *)
Theorem your_talents_valid : forall (check_confused include_unusable : bool)
    (g g' : game) (talents : list talent),
  your_talents check_confused include_unusable g = Some (talents, g') ->
  only_table g g'
  /\ Forall (fun t =>
               which t <> ABIL_NON_ABILITY
               /\ 0 <= fail t <= 100
               /\ (check_confused && confused (you g) = true ->
                   testbits (flags (get_ability_def (which t)))
                     abflag.CONF_OK = true))
       talents.
Proof.
  intros cc iu g g' talents H. unfold your_talents in H.
  apply bind_Some in H as (g0 & g0' & Hget & H).
  injection Hget as <- <-.
  apply bind_Some in H as (t1 & g1 & H1 & H).
  apply add_talents_valid in H1 as [Ht1 Hv1]; [|constructor].
  pose proof (only_table_you _ _ Ht1) as Y1.
  apply bind_Some in H as (gods & g2 & Hgods & H).
  apply get_god_abilities_pure in Hgods as [-> _].
  apply bind_Some in H as (t2 & g3 & H2 & H).
  apply add_talents_valid in H2 as [Ht2 Hv2]; [|now rewrite Y1].
  pose proof (only_table_you _ _ Ht2) as Y2.
  apply bind_Some in H as (t3 & g4 & H3 & H).
  apply add_talents_valid in H3 as [Ht3 Hv3]; [|now rewrite Y2].
  pose proof (only_table_you _ _ Ht3) as Y3.
  apply bind_Some in H as (t4 & g5 & H4 & H).
  apply add_talents_valid in H4 as [Ht4 Hv4]; [|now rewrite Y3].
  rewrite Y3, Y2, Y1 in Hv4.
  pose proof (assign_hotkeys_core _ _ _ _ _ H) as Hcore.
  apply assign_hotkeys_inv in H as [Ht5 _].
  split.
  - exact (only_table_trans _ _ _ Ht1
             (only_table_trans _ _ _ Ht2
                (only_table_trans _ _ _ Ht3
                   (only_table_trans _ _ _ Ht4 Ht5)))).
  - cbn [map app] in Hcore. rewrite <- Hcore in Hv4.
    rewrite Forall_forall in *. intros t Hin.
    apply (Hv4 (core_of t)). now apply in_map.
Qed.

Lemma your_talents_valid_witness :
  only_table zin_game zin_game_listed
  /\ Forall (fun t =>
               which t <> ABIL_NON_ABILITY
               /\ 0 <= fail t <= 100
               /\ (false && confused (you zin_game) = true ->
                   testbits (flags (get_ability_def (which t)))
                     abflag.CONF_OK = true))
       zin_talents.
Proof.
  apply (your_talents_valid false false zin_game zin_game_listed zin_talents).
  exact your_talents_zin_game.
Defined.

(** ** Listing the talents again *)

Lemma get_ability_def_ability : forall a,
  ability (get_ability_def a) = a
  \/ ability (get_ability_def a) = ABIL_NON_ABILITY.
Proof.
  intro a. unfold get_ability_def.
  destruct (find _ Ability_List) as [d|] eqn:E.
  - left. apply find_some in E as [_ E]. now apply ability_eqb_eq in E.
  - right. reflexivity.
Qed.

(** The ability has a slot in the letter table. *)
Definition has_slot (g : game) (a : ability_type) : Prop :=
  exists slot, _lookup_ability_slot a g = Some (slot, g) /\ slot > -1.

(** While a slot is free, the sentinel has a slot. *)
Lemma free_slot_has_slot : forall g free,
  0 <= free < 52 -> free_slot g free = true ->
  _lookup_ability_slot ABIL_NON_ABILITY g <> Some (-1, g).
Proof.
  intros g free Rfree Hfree Hlookup.
  destruct (lookup_ability_slot_cases ABIL_NON_ABILITY g) as (s & Hs & Hc).
  rewrite Hs in Hlookup. injection Hlookup as ->.
  destruct Hc as [[_ Hnone]|[Hr _]]; [|lia].
  specialize (Hnone free Rfree). unfold bound_to in Hnone.
  apply ability_eqb_eq in Hfree. rewrite Hfree in Hnone.
  cbn in Hnone. discriminate.
Qed.

(** [get_talent] changes nothing when the ability of the talent has a slot
    already. *)
Lemma get_talent_stable : forall a check_confused g t g',
  letters_in_range (you g) ->
  List.length (ability_letter_table g) = 52%nat ->
  get_talent a check_confused g = Some (t, g') ->
  (which t <> ABIL_NON_ABILITY -> has_slot g (which t)) ->
  g' = g.
Proof.
  intros a cc g t g' Hletters Hlen H Hbound.
  unfold get_talent in H.
  apply bind_Some in H as ([] & g0 & Hassert & H).
  assert (g0 = g) as ->.
  { unfold ASSERT in Hassert. destruct (negb _); [|discriminate].
    now injection Hassert as <-. }
  apply bind_Some in H as (g1 & g2 & Hget & H). injection Hget as <- <-.
  cbn [which hotkey fail is_invocation] in H.
  destruct (cc && confused (you g) && _); [now injection H as _ <-|].
  apply bind_Some in H as (index & g3 & Hfind & H).
  apply bind_Some in H as (hk & g4 & Hhk & H).
  assert (g4 = g3) as ->.
  { destruct (index >=? 0); [|now injection Hhk as _ <-].
    destruct (index_to_letter (you g) index); [|discriminate].
    now injection Hhk as _ <-. }
  injection H as Ht <-. subst t. cbn [which] in Hbound.
  apply find_ability_slot_spec in Hfind
    as [(_ & _ & ->)
       |[(Hlookup & free & Rfree & Hfree & _ & _)|(_ & _ & -> & _)]];
    try assumption; try reflexivity.
  exfalso.
  destruct (get_ability_def_ability (fixup_ability (you g) a)) as [E|E];
    rewrite E in Hlookup.
  - destruct (ability_eq_dec (fixup_ability (you g) a) ABIL_NON_ABILITY)
      as [Ea|Ea].
    + rewrite Ea in Hlookup.
      exact (free_slot_has_slot g free Rfree Hfree Hlookup).
    + destruct (Hbound Ea) as (slot & Hslot & Hpos).
      rewrite Hslot in Hlookup. injection Hlookup as ->. lia.
  - exact (free_slot_has_slot g free Rfree Hfree Hlookup).
Qed.

Lemma add_talents_incl : forall abilities vec check_confused g vec' g',
  _add_talents vec abilities check_confused g = Some (vec', g') ->
  incl vec vec'.
Proof.
  induction abilities as [|a rest IH]; intros vec cc g vec' g' H.
  - injection H as <- <-. apply incl_refl.
  - cbn [_add_talents] in H. apply bind_Some in H as (vec1 & g1 & H1 & H).
    apply IH in H. unfold _add_talent in H1.
    apply bind_Some in H1 as (t & g2 & Ht & H1).
    destruct (negb _); injection H1 as <- <-; [|exact H].
    intros x Hx. apply H. apply in_or_app. now left.
Qed.

Lemma add_talents_stable : forall abilities vec check_confused g vec' g',
  letters_in_range (you g) ->
  List.length (ability_letter_table g) = 52%nat ->
  _add_talents vec abilities check_confused g = Some (vec', g') ->
  (forall t, In t vec' -> has_slot g (which t)) ->
  g' = g.
Proof.
  induction abilities as [|a rest IH];
    intros vec cc g vec' g' Hletters Hlen H Hbound.
  - now injection H as _ <-.
  - cbn [_add_talents] in H. apply bind_Some in H as (vec1 & g1 & H1 & H).
    pose proof (add_talents_incl _ _ _ _ _ _ H) as Hincl.
    unfold _add_talent in H1.
    apply bind_Some in H1 as (t & g2 & Ht & H1).
    assert (g1 = g2 /\ (which t <> ABIL_NON_ABILITY -> In t vec1))
      as (-> & Hin1).
    { destruct (negb (ability_eqb (which t) ABIL_NON_ABILITY)) eqn:E;
        injection H1 as <- <-; (split; [reflexivity|]).
      - intros _. apply in_or_app. right. now left.
      - intro Hw. apply negb_false_iff, ability_eqb_eq in E. contradiction. }
    assert (g2 = g) as ->.
    { apply (get_talent_stable a cc g t); try assumption.
      intro Hw. apply Hbound, Hincl, Hin1, Hw. }
    now apply (IH vec1 cc g vec' g').
Qed.

(** X9.  Listing the talents again changes nothing.  When every ability
    that [your_talents] lists has a slot in the letter table already, the
    game is left as it is, every talent gets the letter of the slot of its
    ability as hotkey, and talents of different abilities get different
    hotkeys (as long as [index_to_letter] gives different letters to
    different slots). *)
Theorem your_talents_stable : forall (check_confused include_unusable : bool)
    (g g' : game) (talents : list talent),
  letters_in_range (you g) ->
  List.length (ability_letter_table g) = 52%nat ->
  (forall i j l, index_to_letter (you g) i = Some l ->
                 index_to_letter (you g) j = Some l -> i = j) ->
  your_talents check_confused include_unusable g = Some (talents, g') ->
  (forall t, In t talents -> has_slot g (which t)) ->
  g' = g
  /\ Forall (has_slot_letter g) talents
  /\ (forall t1 t2, In t1 talents -> In t2 talents ->
        which t1 <> which t2 -> hotkey t1 <> hotkey t2).
Proof.
  intros cc iu g g' talents Hletters Hlen Hinj H Hbound.
  unfold your_talents in H.
  apply bind_Some in H as (g0 & g0' & Hget & H).
  injection Hget as <- <-.
  apply bind_Some in H as (t1 & g1 & H1 & H).
  apply bind_Some in H as (gods & g2 & Hgods & H).
  apply get_god_abilities_pure in Hgods as [-> _].
  apply bind_Some in H as (t2 & g3 & H2 & H).
  apply bind_Some in H as (t3 & g4 & H3 & H).
  apply bind_Some in H as (t4 & g5 & H4 & H).
  (* every talent that was added is listed *)
  assert (forall t, In t t4 -> has_slot g (which t)) as Hbound4.
  { intros t Hin.
    pose proof (assign_hotkeys_core _ _ _ _ _ H) as Hcore. cbn [map app] in Hcore.
    assert (In (core_of t) (map core_of talents)) as Hc
      by (rewrite Hcore; now apply in_map).
    apply in_map_iff in Hc as (t' & Ec & Hin').
    replace (which t) with (which t') by (injection Ec; auto).
    now apply Hbound. }
  pose proof (add_talents_incl _ _ _ _ _ _ H4) as I4.
  pose proof (add_talents_incl _ _ _ _ _ _ H3) as I3.
  pose proof (add_talents_incl _ _ _ _ _ _ H2) as I2.
  assert (g1 = g) as ->
    by (apply (add_talents_stable _ _ _ _ _ _ Hletters Hlen H1); auto).
  assert (g3 = g) as ->
    by (apply (add_talents_stable _ _ _ _ _ _ Hletters Hlen H2); auto).
  assert (g4 = g) as ->
    by (apply (add_talents_stable _ _ _ _ _ _ Hletters Hlen H3); auto).
  assert (g5 = g) as ->
    by (apply (add_talents_stable _ _ _ _ _ _ Hletters Hlen H4); auto).
  apply assign_hotkeys_slots in H as (-> & assigned & -> & _ & Hall);
    [|exact Hbound4].
  cbn [app] in *. split; [reflexivity|]. split; [exact Hall|].
  intros x1 x2 Hx1 Hx2. rewrite Forall_forall in Hall.
  apply (has_slot_letter_distinct g); auto.
Qed.

Lemma sample_index_to_letter_inj : forall i j l,
  sample_index_to_letter i = Some l -> sample_index_to_letter j = Some l ->
  i = j.
Proof.
  intros i j l. unfold sample_index_to_letter.
  change (char_code "a") with 97. change (char_code "A") with 65.
  destruct ((0 <=? i) && (i <? 52)) eqn:Ei; [|discriminate].
  destruct ((0 <=? j) && (j <? 52)) eqn:Ej; [|discriminate].
  intros Hi Hj. injection Hi as <-. injection Hj as Hj.
  destruct (Z.ltb_spec i 26), (Z.ltb_spec j 26); lia.
Qed.

Lemma your_talents_zin_game_listed :
  your_talents false false zin_game_listed
  = Some (zin_talents, zin_game_listed).
Proof. lazy. reflexivity. Qed.

Lemma your_talents_stable_witness :
  zin_game_listed = zin_game_listed
  /\ Forall (has_slot_letter zin_game_listed) zin_talents
  /\ (forall t1 t2, In t1 zin_talents -> In t2 zin_talents ->
        which t1 <> which t2 -> hotkey t1 <> hotkey t2).
Proof.
  apply (your_talents_stable false false zin_game_listed zin_game_listed
           zin_talents).
  - apply sample_letters_in_range.
  - reflexivity.
  - exact sample_index_to_letter_inj.
  - exact your_talents_zin_game_listed.
  - intros t Hin. unfold has_slot.
    repeat (destruct Hin as [<-|Hin];
            [eexists; split; [lazy; reflexivity|lia]|]).
    destruct Hin.
Defined.

(** * Checking quietly *)

(** A computation that shows no message and asks nothing of other modules:
    whenever it returns, the log is as it was. *)
Definition silent {A : Type} (m : M A) : Prop :=
  forall g a g', m g = Some (a, g') -> log g' = log g.

Lemma silent_ret : forall (A : Type) (a : A), silent (ret a).
Proof. intros A a g a' g' H. now injection H as _ <-. Qed.

Lemma silent_get : silent get.
Proof. intros g a g' H. now injection H as _ <-. Qed.

Lemma silent_bind : forall (A B : Type) (m : M A) (k : A -> M B),
  silent m -> (forall a, silent (k a)) -> silent (bind m k).
Proof.
  intros A B m k Hm Hk g b g' H.
  apply bind_Some in H as (a & g1 & H1 & H2).
  rewrite (Hk _ _ _ _ H2). eapply Hm. eassumption.
Qed.

Lemma silent_refuse_quietly : forall r, silent (refuse_with true r).
Proof. intros r g a g' H. now injection H as _ <-. Qed.

Lemma silent_get_talent : forall a check_confused,
  silent (get_talent a check_confused).
Proof.
  intros a cc g t g' H. apply get_talent_inv in H as [Ht _].
  now apply only_table_log.
Qed.

Ltac silent_step :=
  first
    [ apply silent_ret
    | apply silent_get
    | apply silent_refuse_quietly
    | apply silent_get_talent
    | apply silent_bind; [|intro]
    | match goal with
      | |- silent (if ?c then _ else _) => destruct c
      | |- silent (match ?x with _ => _ end) => destruct x
      end ].

Lemma silent_check_ability_switch : forall abil,
  silent (check_ability_switch abil true).
Proof.
  intro abil. unfold check_ability_switch.
  apply silent_bind; [apply silent_get|]. intro g.
  destruct (ability abil); cbv beta iota zeta; repeat silent_step.
Qed.

(** A computation that changes nothing when it returns. *)
Definition unchanging {A : Type} (m : M A) : Prop :=
  forall g a g', m g = Some (a, g') -> g' = g.

Lemma unchanging_ret : forall (A : Type) (a : A), unchanging (ret a).
Proof. intros A a g a' g' H. now injection H as _ <-. Qed.

Lemma unchanging_get : unchanging get.
Proof. intros g a g' H. now injection H as _ <-. Qed.

Lemma unchanging_bind : forall (A B : Type) (m : M A) (k : A -> M B),
  unchanging m -> (forall a, unchanging (k a)) -> unchanging (bind m k).
Proof.
  intros A B m k Hm Hk g b g' H.
  apply bind_Some in H as (a & g1 & H1 & H2).
  apply Hm in H1. subst g1. now apply Hk in H2.
Qed.

Lemma unchanging_refuse_quietly : forall r, unchanging (refuse_with true r).
Proof. intros r g a g' H. now injection H as _ <-. Qed.

Ltac unchanging_step :=
  first
    [ apply unchanging_ret
    | apply unchanging_get
    | apply unchanging_refuse_quietly
    | apply unchanging_bind; [|intro]
    | match goal with
      | |- unchanging (if ?c then _ else _) => destruct c
      | |- unchanging (match ?x with _ => _ end) => destruct x
      end ].

Lemma unchanging_check_ability_switch : forall abil,
  unchanging (check_ability_switch abil true).
Proof.
  intro abil. unfold check_ability_switch.
  apply unchanging_bind; [apply unchanging_get|]. intro g.
  destruct (ability abil); cbv beta iota zeta; repeat unchanging_step.
Qed.

(** X10.  A quiet check shows no message, with one exception: when the
    ability is among those to confirm ([Options.confirm_action]), the
    player is still asked, and an answer of no is acknowledged with the
    canned message MSG_OK.  Apart from that message the check changes
    nothing but the letter table, and the letter table only on a silenced
    square: there [get_talent] is asked whether the ability is an
    invocation, and it binds a slot to the ability on the way. *)
Theorem check_ability_possible_quiet : forall (ability' : ability_type)
    (hungerCheck : bool) (g : game) (b : bool) (g' : game),
  check_ability_possible ability' hungerCheck true g = Some (b, g') ->
  g' = set_log (log g')
         (set_ability_letter_table (ability_letter_table g') g)
  /\ (silenced_here (you g) = false ->
      ability_letter_table g' = ability_letter_table g)
  /\ (log g' = log g
      \/ (b = false
          /\ log g' = log g ++ [canned_msg MSG_OK]
          /\ existsb (fun action =>
                        action (ability_name
                                  (ability (get_ability_def ability'))))
               (confirm_action (you g)) = true)).
Proof.
  intros a hc g b g' H.
  unfold check_ability_possible, _check_ability_possible in H.
  set (abil := get_ability_def a) in *.
  apply bind_Some in H as (g0 & g0' & Hget & H). injection Hget as <- <-.
  assert (forall g1 : game,
            g1 = set_log (log g1)
                   (set_ability_letter_table (ability_letter_table g1) g1))
    as Hself by (intros []; reflexivity).
  destruct (berserk (you g));
    [injection H as _ <-; split; [apply Hself|]; split; auto|].
  destruct (confused (you g) && _);
    [injection H as _ <-; split; [apply Hself|]; split; auto|].
  apply bind_Some in H as (silent_invocation & g1 & Hsil & H).
  assert (only_table g g1
          /\ (silenced_here (you g) = false -> g1 = g)) as [Htable Hsame].
  { destruct (silenced_here (you g)).
    - apply bind_Some in Hsil as (tal & g2 & Htal & Hsil).
      injection Hsil as _ <-. apply get_talent_inv in Htal as [Ht _].
      split; [exact Ht|discriminate].
    - injection Hsil as _ <-. split; [apply only_table_refl|reflexivity]. }
  assert (g1 = set_log (log g1)
                 (set_ability_letter_table (ability_letter_table g1) g)
          /\ (silenced_here (you g) = false ->
              ability_letter_table g1 = ability_letter_table g)
          /\ log g1 = log g) as (Hframe & Hkeep & Hlog).
  { split; [|split].
    - transitivity (set_log (log g1) g1); [destruct g1; reflexivity|].
      f_equal. exact Htable.
    - intro Hs. now rewrite (Hsame Hs).
    - now apply only_table_log. }
  assert (g' = g1 ->
          g' = set_log (log g')
                 (set_ability_letter_table (ability_letter_table g') g)
          /\ (silenced_here (you g) = false ->
              ability_letter_table g' = ability_letter_table g)
          /\ (log g' = log g
              \/ (b = false
                  /\ log g' = log g ++ [canned_msg MSG_OK]
                  /\ existsb (fun action =>
                                action (ability_name (ability abil)))
                       (confirm_action (you g)) = true))) as Hdone.
  { intros ->. split; [exact Hframe|]. split; [exact Hkeep|]. now left. }
  destruct silent_invocation; [injection H as _ <-; now apply Hdone|].
  destruct (hc && negb (undead_state (you g)) && _);
    [injection H as _ <-; now apply Hdone|].
  destruct (has_flag (flags abil) abflag.PERMANENT_MP && _);
    [injection H as _ <-; now apply Hdone|].
  match type of H with
  | context [existsb ?f ?l] => destruct (existsb f l) eqn:Econfirm
  end; cbn [andb] in H.
  - destruct (negb (yesno (you g) _)).
    + cbv [bind say modify ret] in H. injection H as <- <-.
      split; [|split].
      * cbn [log set_log]. rewrite Hframe at 2. destruct g; reflexivity.
      * exact Hkeep.
      * right. rewrite Hlog. auto.
    + apply unchanging_check_ability_switch in H. now apply Hdone.
  - apply unchanging_check_ability_switch in H. now apply Hdone.
Qed.

(** The character on a silenced square. *)
Definition in_silence (y : player) : player :=
  {| magic_points := magic_points y;
     hp_max := hp_max y;
     hunger := hunger y;
     piety := piety y;
     gold := gold y;
     species := species y;
     form := form y;
     experience_level := experience_level y;
     player_mutation_level := player_mutation_level y;
     skill := skill y;
     hunger_state := hunger_state y;
     HS_STARVING := HS_STARVING y;
     HS_SATIATED := HS_SATIATED y;
     attribute := attribute y;
     transform_uncancellable := transform_uncancellable y;
     transfer_skill_points := transfer_skill_points y;
     spell_no := spell_no y;
     disease := disease y;
     berserk := berserk y;
     confused := confused y;
     petrifying := petrifying y;
     airborne := airborne y;
     undead_state := undead_state y;
     you_foodless := you_foodless y;
     is_lifeless_undead := is_lifeless_undead y;
     racial_permanent_flight := racial_permanent_flight y;
     permanent_flight := permanent_flight y;
     evokable_berserk := evokable_berserk y;
     evokable_invis := evokable_invis y;
     evokable_flight := evokable_flight y;
     wearing_flying_armour := wearing_flying_armour y;
     scan_artefacts := scan_artefacts y;
     can_go_berserk := can_go_berserk y;
     can_go_berserk1 := can_go_berserk1 y;
     berserk_check_wielded_weapon := berserk_check_wielded_weapon y;
     flight_allowed := flight_allowed y;
     check_form_stat_safety := check_form_stat_safety y;
     stats_at_maximum := stats_at_maximum y;
     player_rotted := player_rotted y;
     how_mutated := how_mutated y;
     all_skills_maxed := all_skills_maxed y;
     no_tele_reason := no_tele_reason y;
     get_real_mp := get_real_mp y;
     enough_mp := enough_mp y;
     enough_hp := enough_hp y;
     form_changed_physiology := form_changed_physiology y;
     dragon_form_is_fire_dragon := dragon_form_is_fire_dragon y;
     species_is_draconian := species_is_draconian y;
     draconian_breath := draconian_breath y;
     you_worship := you_worship y;
     god_name := god_name y;
     in_good_standing := in_good_standing y;
     piety_breakpoint := piety_breakpoint y;
     piety_rank := piety_rank y;
     player_under_penance := player_under_penance y;
     can_do_capstone_ability := can_do_capstone_ability y;
     get_god_powers := get_god_powers y;
     available_sacrifices := available_sacrifices y;
     can_convert_to_beogh := can_convert_to_beogh y;
     recall_list_empty := recall_list_empty y;
     RU_SAC_XP_LEVELS := RU_SAC_XP_LEVELS y;
     zin_check_able_to_recite := zin_check_able_to_recite y;
     zin_check_recite_to_monsters := zin_check_recite_to_monsters y;
     is_level_incorruptible := is_level_incorruptible y;
     fedhas_check_evolve_flora := fedhas_check_evolve_flora y;
     fedhas_check_corpse_spores := fedhas_check_corpse_spores y;
     gozag_setup_potion_petition := gozag_setup_potion_petition y;
     gozag_setup_call_merchant := gozag_setup_call_merchant y;
     gozag_check_bribe_branch := gozag_check_bribe_branch y;
     pakellas_check_quick_charge := pakellas_check_quick_charge y;
     silenced_here := true;
     is_feat_dangerous_here := is_feat_dangerous_here y;
     feat_dangerous_for_untransformed := feat_dangerous_for_untransformed y;
     standing_in_lava := standing_in_lava y;
     cloud_here := cloud_here y;
     player_in_abyss := player_in_abyss y;
     sanctuary_time := sanctuary_time y;
     level_state_beogh := level_state_beogh y;
     brdepth_abyss := brdepth_abyss y;
     brdepth_here := brdepth_here y;
     game_is_sprint := game_is_sprint y;
     index_to_letter := index_to_letter y;
     letter_to_index := letter_to_index y;
     isaalpha := isaalpha y;
     confirm_action := confirm_action y;
     auto_ability_letters := auto_ability_letters y;
     lowercase_string := lowercase_string y;
     yesno := yesno y |}.

(** The follower of Zin on a silenced square, before and after a quiet
    check of Recite. *)
Definition zin_game_silenced : game :=
  sample_game (in_silence zin_follower) empty_table singing 10.

Definition zin_game_silenced_recite : game :=
  set_ability_letter_table
    (repeat ABIL_NON_ABILITY 5 ++ [ ABIL_ZIN_RECITE ]
     ++ repeat ABIL_NON_ABILITY 46)
    zin_game_silenced.

Lemma check_ability_possible_quiet_witness :
  check_ability_possible ABIL_ZIN_RECITE true true zin_game_silenced
  = Some (false, zin_game_silenced_recite)
  /\ table_get (ability_letter_table zin_game_silenced) 5 = ABIL_NON_ABILITY
  /\ table_get (ability_letter_table zin_game_silenced_recite) 5
     = ABIL_ZIN_RECITE
  /\ zin_game_silenced_recite
     = set_log (log zin_game_silenced_recite)
         (set_ability_letter_table
            (ability_letter_table zin_game_silenced_recite)
            zin_game_silenced).
Proof.
  assert (check_ability_possible ABIL_ZIN_RECITE true true zin_game_silenced
          = Some (false, zin_game_silenced_recite)) as H
    by (lazy; reflexivity).
  split; [exact H|]. split; [reflexivity|]. split; [reflexivity|].
  exact (proj1 (check_ability_possible_quiet ABIL_ZIN_RECITE true
                  zin_game_silenced false zin_game_silenced_recite H)).
Defined.

(** * The abilities of the god *)

Lemma god_power_abilities_incl : forall y powers ignore_piety ignore_penance
    abilities abilities' g l g1 l' g2,
  incl abilities abilities' ->
  god_power_abilities y powers ignore_piety ignore_penance abilities g
  = Some (l, g1) ->
  god_power_abilities y powers true true abilities' g = Some (l', g2) ->
  incl l l'.
Proof.
  intros y powers ip ipn. induction powers as [|power rest IH];
    intros abilities abilities' g l g1 l' g2 Hincl H H'.
  - injection H as <- _. injection H' as <- _. exact Hincl.
  - cbn [god_power_abilities] in H, H'.
    destruct (ability_eqb (abil power) ABIL_NON_ABILITY);
      [exact (IH _ _ _ _ _ _ _ Hincl H H')|].
    apply bind_Some in H as ([] & g0 & Hassert & H).
    apply bind_Some in H' as ([] & g0' & Hassert' & H').
    assert (g0 = g /\ g0' = g) as [-> ->].
    { unfold ASSERT in Hassert, Hassert'. destruct (negb _); [|discriminate].
      injection Hassert as <-. injection Hassert' as <-. auto. }
    rewrite orb_true_r, andb_true_l, orb_true_r in H'.
    assert (incl abilities
              (abilities' ++ [fixup_ability y (abil power)])) as Hincl1
      by (now apply incl_appl).
    assert (incl (abilities ++ [fixup_ability y (abil power)])
              (abilities' ++ [fixup_ability y (abil power)])) as Hincl2
      by (apply incl_app; [exact Hincl1|apply incl_appr, incl_refl]).
    destruct (_ && _);
      [exact (IH _ _ _ _ _ _ _ Hincl2 H H')
      |exact (IH _ _ _ _ _ _ _ Hincl1 H H')].
Qed.

Lemma god_power_abilities_grows : forall y powers ignore_piety ignore_penance
    abilities g l g1,
  god_power_abilities y powers ignore_piety ignore_penance abilities g
  = Some (l, g1) ->
  incl abilities l.
Proof.
  intros y powers ip ipn. induction powers as [|power rest IH];
    intros abilities g l g1 H.
  - injection H as <- _. apply incl_refl.
  - cbn [god_power_abilities] in H.
    destruct (ability_eqb (abil power) ABIL_NON_ABILITY); [now apply IH in H|].
    apply bind_Some in H as ([] & g0 & _ & H).
    destruct (_ && _); apply IH in H; [|exact H].
    intros x Hx. apply H. apply in_or_app. now left.
Qed.

(** X11.  Ignoring silence, piety and penance only adds abilities: whatever
    [get_god_abilities] lists under some choice of its three flags, it
    lists as well when all three are set. *)
Theorem get_god_abilities_ignoring_adds : forall (ignore_silence ignore_piety
    ignore_penance : bool) (g g1 g2 : game) (l l' : list ability_type),
  get_god_abilities ignore_silence ignore_piety ignore_penance g
  = Some (l, g1) ->
  get_god_abilities true true true g = Some (l', g2) ->
  incl l l'.
Proof.
  intros isil ip ipn g g1 g2 l l' H H'.
  unfold get_god_abilities in H, H'.
  apply bind_Some in H as (g0 & g0' & Hget & H). injection Hget as <- <-.
  apply bind_Some in H' as (g0 & g0' & Hget & H'). injection Hget as <- <-.
  apply bind_Some in H as (abilities & g3 & Hsac & H).
  apply bind_Some in H' as (abilities' & g3' & Hsac' & H').
  rewrite Hsac in Hsac'. injection Hsac' as <- <-.
  assert (g3 = g) as ->.
  { destruct (you_worship (you g) GOD_RU); [|now injection Hsac as _ <-].
    destruct (available_sacrifices (you g)) as [[|s sacs]|];
      [now injection Hsac as _ <- ..|discriminate]. }
  cbn [negb andb] in H'.
  destruct (negb isil && silenced_here (you g)).
  - injection H as <- _.
    now apply god_power_abilities_grows in H'.
  - eapply god_power_abilities_incl; [apply incl_refl|exact H|exact H'].
Qed.

(** A follower of Zin at the first rank of piety: Recite is granted,
    Vitalisation is listed only when piety is ignored. *)
Definition zin_novice_game : game :=
  sample_game
    (sample_player (fun _ => 0)
       (fun god => match god with GOD_OTHER 1 => true | _ => false end)
       [ mk_god_power 1 ABIL_ZIN_RECITE; mk_god_power 2 ABIL_ZIN_VITALISATION ]
       40 1)
    empty_table (fun _ => 0) 0.

Lemma get_god_abilities_ignoring_adds_witness :
  incl [ ABIL_ZIN_RECITE ] [ ABIL_ZIN_RECITE; ABIL_ZIN_VITALISATION ].
Proof.
  apply (get_god_abilities_ignoring_adds false false false
           zin_novice_game zin_novice_game zin_novice_game);
    lazy; reflexivity.
Defined.

(** * The templates of the random-number header *)

Lemma draw_spec : forall (f : nat -> Z) g,
  draw f g = Some (f (draws g), set_draws (S (draws g)) g).
Proof. reflexivity. Qed.

Lemma draws_set_draws : forall n g, draws (set_draws n g) = n.
Proof. reflexivity. Qed.

Section RandomFacts.

Variable random2 : Z -> nat -> Z.
Variable one_chance_in : Z -> nat -> bool.

(** What the templates rely on: [random2(max)] is never negative and is
    below [max] when [max] is positive, and one chance in one is
    certain. *)
Hypothesis random2_nonneg : forall max n, 0 <= random2 max n.
Hypothesis random2_below : forall max n, 0 < max -> random2 max n < max.
Hypothesis one_chance_in_one : forall n, one_chance_in 1 n = true.

Lemma element_at_member : forall (T : Type) (elts : list T) i g,
  0 <= i < Z.of_nat (List.length elts) ->
  exists x, element_at elts i g = Some (x, g) /\ In x elts.
Proof.
  intros T elts i g Hi. unfold element_at.
  destruct (Z.ltb_spec i 0); [lia|].
  destruct (nth_error elts (Z.to_nat i)) as [x|] eqn:E.
  - exists x. split; [reflexivity|]. eapply nth_error_In. eassumption.
  - apply nth_error_None in E. lia.
Qed.

(** ** [random_if] *)

(** The position holds an element that satisfies the predicate. *)
Definition matches_at {T : Type} (pred : T -> bool) (l : list T) (pos : nat)
  : Prop :=
  exists x, nth_error l pos = Some x /\ pred x = true.

Lemma random_if_loop_spec : forall (T : Type) (pred : T -> bool)
    (l prefix : list T) count chosen g,
  exists count' chosen' g',
    random_if_loop one_chance_in pred l (List.length prefix) count chosen g
    = Some ((count', chosen'), g')
    /\ count' = count + Z.of_nat (List.length (filter pred l))
    /\ draws g' = (draws g + List.length (filter pred l))%nat
    /\ (chosen' = chosen \/ matches_at pred (prefix ++ l) chosen')
    /\ (count = 0 -> existsb pred l = true ->
        matches_at pred (prefix ++ l) chosen').
Proof.
  intros T pred l. induction l as [|x rest IH];
    intros prefix count chosen g.
  - exists count, chosen, g. cbn. repeat split; try lia; auto.
  - cbn [random_if_loop filter existsb].
    assert (List.length (prefix ++ [x]) = S (List.length prefix)) as Hlen
      by (rewrite length_app; cbn; lia).
    assert (prefix ++ x :: rest = (prefix ++ [x]) ++ rest) as Happ
      by (now rewrite <- app_assoc).
    destruct (pred x) eqn:Ex.
    + unfold bind at 1, draw_bool.
      set (b := one_chance_in (count + 1) (draws g)).
      destruct (IH (prefix ++ [x]) (count + 1)
                  (if b then List.length prefix else chosen)
                  (set_draws (S (draws g)) g))
        as (count' & chosen' & g' & Hrun & Hcount & Hdraws & Hchosen & _).
      rewrite Hlen in Hrun.
      exists count', chosen', g'. split; [exact Hrun|].
      assert (matches_at pred (prefix ++ x :: rest) (List.length prefix))
        as Hhere.
      { exists x. split; [|exact Ex].
        rewrite nth_error_app2 by lia. now rewrite Nat.sub_diag. }
      cbn [List.length]. rewrite draws_set_draws in Hdraws.
      split; [lia|]. split; [lia|]. rewrite Happ. split.
      * destruct Hchosen as [->|Hm]; [|now right].
        destruct b; [right; now rewrite <- Happ|now left].
      * intros -> _. unfold b in Hchosen. cbn in Hchosen.
        rewrite one_chance_in_one in Hchosen.
        destruct Hchosen as [->|Hm]; [now rewrite <- Happ|exact Hm].
    + destruct (IH (prefix ++ [x]) count chosen g)
        as (count' & chosen' & g' & Hrun & Hcount & Hdraws & Hchosen & Hfirst).
      rewrite Hlen in Hrun.
      exists count', chosen', g'. split; [exact Hrun|].
      split; [exact Hcount|]. split; [exact Hdraws|]. rewrite Happ.
      split; [exact Hchosen|]. cbn [orb]. exact Hfirst.
Qed.

(** ** [random_choose] and [random_element] *)

Lemma filter_all : forall (T : Type) (l : list T),
  filter (fun _ => true) l = l.
Proof.
  intros T l. induction l as [|x rest IH]; cbn; [reflexivity|].
  now rewrite IH.
Qed.

(** X12.  [random_choose] returns one of the objects it is given, for one
    draw.  [random_element] returns one of the elements of a container
    that is not empty: for one draw when the iterators of the container
    are random access, and for one draw for each element otherwise, when
    it goes through the container with [random_if]; it stops the program
    on an empty container. *)
Theorem random_choose_member : forall (T : Type) (first : T) (rest : list T)
    (category : iterator_category) (g : game),
  (exists x g',
     random_choose random2 first rest g = Some (x, g')
     /\ In x (first :: rest)
     /\ draws g' = S (draws g))
  /\ (exists x g',
        random_element random2 one_chance_in category (first :: rest) g
        = Some (x, g')
        /\ In x (first :: rest)
        /\ draws g'
           = (draws g
              + match category with
                | random_access_iterator_tag => 1
                | input_iterator_tag => List.length (first :: rest)
                end)%nat)
  /\ random_element random2 one_chance_in category (@nil T) g = None.
Proof.
  intros T first rest category g.
  assert (0 < Z.of_nat (List.length (first :: rest))) as Hlen
    by (cbn [List.length]; lia).
  split; [|split].
  - unfold random_choose, bind. rewrite draw_spec.
    destruct (element_at_member T (first :: rest)
                (random2 (1 + Z.of_nat (List.length rest)) (draws g))
                (set_draws (S (draws g)) g)) as (x & Hx & Hin).
    { cbn [List.length]. split; [apply random2_nonneg|].
      rewrite Nat2Z.inj_succ.
      replace (Z.succ (Z.of_nat (List.length rest)))
        with (1 + Z.of_nat (List.length rest)) by lia.
      apply random2_below. lia. }
    rewrite Hx. exists x. eexists. split; [reflexivity|].
    split; [exact Hin|]. apply draws_set_draws.
  - unfold random_element, bind at 1, ASSERT.
    cbn [List.length Nat.eqb negb]. unfold ret at 1.
    destruct category; unfold random_iterator.
    + unfold random_iterator_random_access, bind. rewrite draw_spec.
      destruct (element_at_member T (first :: rest)
                  (random2 (Z.of_nat (S (List.length rest))) (draws g))
                  (set_draws (S (draws g)) g)) as (x & Hx & Hin).
      { split; [apply random2_nonneg|]. now apply random2_below. }
      exists x. eexists. split; [exact Hx|].
      split; [exact Hin|]. rewrite draws_set_draws. lia.
    + destruct (random_if_loop_spec T (fun _ => true) (first :: rest) [] 0
                  (List.length (first :: rest)) g)
        as (count' & chosen' & g' & Hrun & _ & Hdraws & _ & Hfirst).
      destruct (Hfirst eq_refl eq_refl) as (x & Hx & _).
      cbn [app List.length] in Hrun, Hx.
      unfold random_iterator_input, random_if, bind.
      cbn [List.length]. rewrite Hrun. cbn [snd ret].
      unfold element_at.
      destruct (Z.ltb_spec (Z.of_nat chosen') 0); [lia|].
      rewrite Nat2Z.id, Hx. exists x, g'. split; [reflexivity|].
      split; [eapply nth_error_In; eassumption|].
      rewrite Hdraws, filter_all. reflexivity.
  - destruct category; reflexivity.
Qed.

(** X13.  [random_if] returns the position of an element that satisfies
    the predicate whenever the container has one, and the end of the
    container if it has none; the version for bool-castable iterators
    returns the same position.  One draw is made for each element that
    satisfies the predicate, none for the others. *)
Theorem random_if_finds : forall (T : Type) (pred : T -> bool) (l : list T)
    (g : game),
  exists pos g',
    random_if one_chance_in pred l g = Some (pos, g')
    /\ random_if_castable one_chance_in pred l g = Some (pos, g')
    /\ draws g' = (draws g + List.length (filter pred l))%nat
    /\ (if existsb pred l
        then exists x, nth_error l pos = Some x /\ pred x = true
        else pos = List.length l).
Proof.
  intros T pred l g.
  destruct (random_if_loop_spec T pred l [] 0 (List.length l) g)
    as (count1 & chosen1 & g1 & Hrun1 & Hcount1 & Hdraws1 & Hchosen1 & Hfirst1).
  destruct (random_if_loop_spec T pred l [] 0 0%nat g)
    as (count2 & chosen2 & g2 & Hrun2 & Hcount2 & Hdraws2 & Hchosen2 & Hfirst2).
  cbn [List.length app] in *.
  (* the two runs differ in the initial choice only *)
  assert (forall l' curr count c1 c2 ga r1 gb r2 gc,
            random_if_loop one_chance_in pred l' curr count c1 ga
            = Some (r1, gb) ->
            random_if_loop one_chance_in pred l' curr count c2 ga
            = Some (r2, gc) ->
            gb = gc /\ fst r1 = fst r2
            /\ (snd r1 = snd r2 \/ (snd r1 = c1 /\ snd r2 = c2)))
    as Hsame.
  { induction l' as [|x rest IH]; intros curr count c1 c2 ga r1 gb r2 gc H1 H2.
    - injection H1 as <- <-. injection H2 as <- <-. cbn. auto.
    - cbn [random_if_loop] in H1, H2. destruct (pred x).
      + unfold bind at 1, draw_bool in H1. unfold bind at 1, draw_bool in H2.
        destruct (one_chance_in (count + 1) (draws ga)).
        * rewrite H1 in H2. injection H2 as <- <-. auto.
        * exact (IH _ _ _ _ _ _ _ _ _ H1 H2).
      + exact (IH _ _ _ _ _ _ _ _ _ H1 H2). }
  destruct (Hsame _ _ _ _ _ _ _ _ _ _ Hrun1 Hrun2) as (Eg & Ecount & Echosen).
  cbn [fst snd] in *. subst g2 count2.
  unfold random_if, random_if_castable, bind. rewrite Hrun1, Hrun2.
  cbn [fst snd ret]. clear Hrun1 Hrun2 Hsame.
  set (n := List.length (filter pred l)) in *.
  replace count1 with (Z.of_nat n) in * by lia.
  change (0 + Z.of_nat n) with (Z.of_nat n) in *.
  destruct (existsb pred l) eqn:Ex.
  - specialize (Hfirst1 eq_refl eq_refl). specialize (Hfirst2 eq_refl eq_refl).
    assert (List.length (filter pred l) <> 0%nat) as Hn.
    { apply existsb_exists in Ex as (x & Hin & Hx).
      assert (In x (filter pred l)) as Hf by (apply filter_In; auto).
      destruct (filter pred l); [destruct Hf|discriminate]. }
    destruct (Z.eqb_spec (Z.of_nat n) 0) as [E|_]; [lia|].
    exists chosen1, g1. split; [reflexivity|].
    assert (chosen1 = chosen2) as <-.
    { destruct Echosen as [E|[E1 E2]]; [exact E|].
      destruct Hfirst1 as (x & Hx & _). rewrite E1 in Hx.
      assert (nth_error l (List.length l) = None) as Hnone
        by (apply nth_error_None; lia).
      congruence. }
    split; [reflexivity|]. split; [exact Hdraws1|exact Hfirst1].
  - assert (List.length (filter pred l) = 0%nat) as Hn.
    { destruct (filter pred l) as [|x rest] eqn:Ef; [reflexivity|].
      assert (In x (filter pred l)) as Hf by (rewrite Ef; now left).
      apply filter_In in Hf as [Hin Hx].
      assert (existsb pred l = true) as E
        by (apply existsb_exists; eauto).
      congruence. }
    unfold n in *. rewrite Hn in *. cbn [Z.of_nat Z.eqb].
    assert (chosen1 = List.length l) as ->.
    { destruct Hchosen1 as [E|(x & Hx & Hp)]; [exact E|].
      assert (In x l) as Hin by (eapply nth_error_In; eassumption).
      assert (existsb pred l = true) as E
        by (apply existsb_exists; eauto).
      congruence. }
    exists (List.length l), g1.
    split; [reflexivity|]. split; [reflexivity|]. split; [exact Hdraws1|].
    reflexivity.
Qed.

(** ** [choose_random_weighted] *)

Fixpoint total (weights : list Z) : Z :=
  match weights with
  | [] => 0
  | w :: rest => w + total rest
  end.

Lemma total_nonneg : forall weights,
  Forall (fun w => 0 <= w) weights -> 0 <= total weights.
Proof.
  intros weights H. induction H as [|w rest Hw _ IH]; cbn; lia.
Qed.

Lemma total_app : forall l l', total (l ++ l') = total l + total l'.
Proof.
  intros l l'. induction l as [|w rest IH]; cbn; [reflexivity|].
  rewrite IH. lia.
Qed.

Lemma choose_random_weighted_loop_spec : forall weights prefix result g,
  Forall (fun w => 0 <= w) prefix ->
  Forall (fun w => 0 <= w) weights ->
  (0 < total prefix ->
   0 <= result < Z.of_nat (List.length prefix)
   /\ 0 < nth (Z.to_nat result) prefix 0) ->
  (total prefix = 0 -> result = 0) ->
  exists result' g',
    choose_random_weighted_loop random2 weights (total prefix)
      (Z.of_nat (List.length prefix)) result g
    = Some (result', g')
    /\ draws g' = (draws g + List.length weights)%nat
    /\ (0 < total (prefix ++ weights) ->
        0 <= result' < Z.of_nat (List.length (prefix ++ weights))
        /\ 0 < nth (Z.to_nat result') (prefix ++ weights) 0)
    /\ (total (prefix ++ weights) = 0 -> result' = 0).
Proof.
  induction weights as [|w rest IH];
    intros prefix result g Hprefix Hweights Hpos Hzero.
  - exists result, g. rewrite app_nil_r. cbn [choose_random_weighted_loop].
    split; [reflexivity|]. split; [cbn; lia|]. split; assumption.
  - inversion Hweights as [|? ? Hw Hrest]; subst.
    cbn [choose_random_weighted_loop]. unfold bind at 1. rewrite draw_spec.
    assert (total (prefix ++ [w]) = total prefix + w) as Htotal
      by (rewrite total_app; cbn; lia).
    assert (Z.of_nat (List.length (prefix ++ [w]))
            = Z.of_nat (List.length prefix) + 1) as Hlen
      by (rewrite length_app; cbn; lia).
    assert (prefix ++ w :: rest = (prefix ++ [w]) ++ rest) as Happ
      by (now rewrite <- app_assoc).
    pose proof (total_nonneg prefix Hprefix) as Hnn.
    set (r := random2 (total prefix + w) (draws g)).
    destruct (IH (prefix ++ [w])
                (if r <? w then Z.of_nat (List.length prefix) else result)
                (set_draws (S (draws g)) g))
      as (result' & g' & Hrun & Hdraws & Hpos' & Hzero').
    + apply Forall_app. split; [exact Hprefix|]. now constructor.
    + exact Hrest.
    + rewrite Htotal, Hlen. intro Hsum.
      destruct (Z.ltb_spec r w) as [Hr|Hr].
      * split; [lia|]. rewrite Nat2Z.id.
        rewrite app_nth2 by lia. rewrite Nat.sub_diag. cbn.
        pose proof (random2_nonneg (total prefix + w) (draws g)). fold r in H.
        lia.
      * assert (0 < total prefix) as Hp.
        { destruct (Z.eq_dec (total prefix) 0) as [E|]; [|lia].
          pose proof (random2_below (total prefix + w) (draws g) Hsum).
          fold r in H. lia. }
        destruct (Hpos Hp) as [Hrange Hnth]. split; [lia|].
        rewrite app_nth1 by lia. exact Hnth.
    + rewrite Htotal. intro Hsum.
      assert (w = 0 /\ total prefix = 0) as [-> Hp] by lia.
      pose proof (random2_nonneg (total prefix + 0) (draws g)). fold r in H.
      destruct (Z.ltb_spec r 0); [lia|]. now apply Hzero.
    + rewrite Htotal, Hlen in Hrun.
      exists result', g'. split; [exact Hrun|].
      rewrite draws_set_draws in Hdraws. cbn [List.length].
      split; [lia|]. rewrite Happ. auto.
Qed.

(** X14.  [choose_random_weighted] over weights that are not negative
    returns an index of the sequence, for one draw per weight.  When some
    weight is positive, the weight at the index is positive: an entry of
    weight 0 is never chosen.  When all weights are 0, the index is 0.  An
    empty sequence stops the program. *)
Theorem choose_random_weighted_positive : forall (weights : list Z)
    (g : game),
  weights <> [] ->
  Forall (fun w => 0 <= w) weights ->
  choose_random_weighted random2 [] g = None
  /\ exists i g',
       choose_random_weighted random2 weights g = Some (i, g')
       /\ draws g' = (draws g + List.length weights)%nat
       /\ 0 <= i < Z.of_nat (List.length weights)
       /\ (if existsb (fun w => 0 <? w) weights
           then 0 < nth (Z.to_nat i) weights 0
           else i = 0).
Proof.
  intros weights g Hne Hweights. split; [reflexivity|].
  destruct (choose_random_weighted_loop_spec weights [] 0 g
              (Forall_nil _) Hweights)
    as (i & g' & Hrun & Hdraws & Hpos & Hzero);
    [cbn; lia|reflexivity|].
  cbn [app total List.length] in *.
  exists i, g'. unfold choose_random_weighted, bind, ASSERT.
  destruct weights as [|w rest]; [contradiction|].
  cbn [List.length Nat.eqb negb ret]. change (Z.of_nat 0) with 0 in Hrun.
  split; [exact Hrun|]. split; [exact Hdraws|].
  pose proof (total_nonneg _ Hweights) as Hnn. fold (total (w :: rest)) in *.
  destruct (existsb (fun w => 0 <? w) (w :: rest)) eqn:Ex.
  - assert (0 < total (w :: rest)) as Hsum.
    { apply existsb_exists in Ex as (x & Hin & Hx).
      apply Z.ltb_lt in Hx. clear - Hweights Hin Hx.
      induction Hweights as [|y l Hy Hl IH]; [destruct Hin|].
      pose proof (total_nonneg _ Hl). cbn in *.
      destruct Hin as [->|Hin]; [lia|]. specialize (IH Hin). lia. }
    destruct (Hpos Hsum). auto.
  - assert (total (w :: rest) = 0) as Hsum.
    { clear - Hweights Ex.
      induction Hweights as [|y l Hy Hl IH]; [reflexivity|].
      cbn in Ex. apply orb_false_elim in Ex as [Ey El].
      apply Z.ltb_ge in Ey. cbn. rewrite (IH El). lia. }
    rewrite (Hzero Hsum). cbn [List.length]. split; [lia|reflexivity].
Qed.

(** ** [random_choose_weighted] *)

Lemma random_choose_weighted_loop_spec : forall (T : Type)
    (args : list (Z * T)) chosen cweight nargs g,
  Forall (fun a => 0 < fst a) args ->
  0 <= cweight ->
  0 <= nargs ->
  exists chosen' g',
    random_choose_weighted_loop random2 args chosen cweight nargs g
    = Some ((chosen',
             if Z.of_nat (List.length args) <? nargs
             then nargs - Z.of_nat (List.length args) - 1
             else -1), g')
    /\ (chosen' = chosen \/ In chosen' (map snd args))
    /\ (cweight = 0 -> args <> [] -> 0 < nargs ->
        In chosen' (map snd args)).
Proof.
  intros T args. induction args as [|[nweight choice] rest IH];
    intros chosen cweight nargs g Hargs Hcweight Hnargs.
  - exists chosen, g. cbn [random_choose_weighted_loop List.length Z.of_nat].
    destruct (Z.gtb_spec nargs 0); destruct (Z.ltb_spec 0 nargs); try lia.
    + replace (nargs - 0 - 1) with (nargs - 1) by lia.
      split; [reflexivity|]. split; [now left|]. congruence.
    + replace (nargs - 1) with (-1) by lia.
      split; [reflexivity|]. split; [now left|]. congruence.
  - inversion Hargs as [|? ? Hw Hrest]; subst. cbn [fst] in Hw.
    cbn [random_choose_weighted_loop].
    destruct (Z.gtb_spec nargs 0) as [Hpos|Hzero].
    + destruct (Z.eqb_spec nweight 0) as [|_]; [lia|].
      unfold bind at 1. rewrite draw_spec.
      set (r := random2 (cweight + nweight) (draws g)).
      destruct (IH (if r <? nweight then choice else chosen)
                  (cweight + nweight) (nargs - 1)
                  (set_draws (S (draws g)) g) Hrest)
        as (chosen' & g' & Hrun & Hchosen & _); try lia.
      exists chosen', g'. rewrite Hrun. cbn [List.length map snd].
      split.
      * do 3 f_equal. rewrite Nat2Z.inj_succ.
        destruct (Z.ltb_spec (Z.of_nat (List.length rest)) (nargs - 1));
          destruct (Z.ltb_spec (Z.succ (Z.of_nat (List.length rest))) nargs);
          lia.
      * assert ((r <? nweight) = true -> In chosen' (choice :: map snd rest))
          as Hpicked.
        { intro E. rewrite E in Hchosen.
          destruct Hchosen as [->|Hin]; [now left|now right]. }
        split.
        -- destruct Hchosen as [->|Hin]; [|right; now right].
           destruct (r <? nweight); [right; now left|now left].
        -- intros -> _ _. apply Hpicked. apply Z.ltb_lt.
           apply random2_below. lia.
    + assert (nargs = 0) as -> by lia.
      exists chosen, g. cbn [List.length].
      destruct (Z.ltb_spec (Z.of_nat (S (List.length rest))) 0); [lia|].
      split; [reflexivity|]. split; [now left|]. lia.
Qed.

(** X15.  [random_choose_weighted] with a first weight that is not
    negative and further weights that are positive returns one of the
    choices it is given; when the first weight is 0 and there are further
    choices, it does not return the first.  It can take up to 98 further
    choices: with 99 or more the final assertion stops the program. *)
Theorem random_choose_weighted_chosen : forall (T : Type) (weight : Z)
    (first : T) (args : list (Z * T)) (g : game),
  0 <= weight ->
  Forall (fun a => 0 < fst a) args ->
  if Nat.ltb (List.length args) 99
  then exists x g',
         random_choose_weighted random2 weight first args g = Some (x, g')
         /\ In x (first :: map snd args)
         /\ (weight = 0 -> args <> [] -> In x (map snd args))
  else random_choose_weighted random2 weight first args g = None.
Proof.
  intros T weight first args g Hweight Hargs.
  destruct (random_choose_weighted_loop_spec T args first weight 100 g
              Hargs Hweight) as (chosen & g' & Hrun & Hchosen & Hfirst);
    [lia|].
  unfold random_choose_weighted, bind. rewrite Hrun. cbn [fst snd].
  destruct (Nat.ltb_spec (List.length args) 99) as [Hfew|Hmany].
  - destruct (Z.ltb_spec (Z.of_nat (List.length args)) 100); [|lia].
    unfold ASSERT.
    destruct (Z.gtb_spec (100 - Z.of_nat (List.length args) - 1) 0); [|lia].
    exists chosen, g'. split; [reflexivity|]. split.
    + destruct Hchosen as [->|Hin]; [now left|now right].
    + intros Hw Hne. apply Hfirst; [assumption..|lia].
  - unfold ASSERT.
    destruct (Z.ltb_spec (Z.of_nat (List.length args)) 100).
    + destruct (Z.gtb_spec (100 - Z.of_nat (List.length args) - 1) 0);
        [lia|reflexivity].
    + reflexivity.
Qed.

End RandomFacts.

(** * A random source for the samples *)

(** A source that keeps what the templates rely on. *)
Definition sample_random2 (max : Z) (n : nat) : Z :=
  if max <=? 1 then 0 else Z.of_nat n mod max.

Definition sample_one_chance_in (a_million : Z) (n : nat) : bool :=
  sample_random2 a_million n =? 0.

Lemma sample_random2_nonneg : forall max n, 0 <= sample_random2 max n.
Proof.
  intros max n. unfold sample_random2.
  destruct (Z.leb_spec max 1); [lia|]. apply Z.mod_pos_bound. lia.
Qed.

Lemma sample_random2_below : forall max n,
  0 < max -> sample_random2 max n < max.
Proof.
  intros max n H. unfold sample_random2.
  destruct (Z.leb_spec max 1); [lia|]. apply Z.mod_pos_bound. lia.
Qed.

Lemma sample_one_chance_in_one : forall n, sample_one_chance_in 1 n = true.
Proof. reflexivity. Qed.

Lemma random_choose_member_witness :
  (exists x g',
     random_choose sample_random2 7 [8; 9] zin_game = Some (x, g')
     /\ In x [7; 8; 9]
     /\ draws g' = S (draws zin_game))
  /\ (exists x g',
        random_element sample_random2 sample_one_chance_in input_iterator_tag
          [7; 8; 9] zin_game
        = Some (x, g')
        /\ In x [7; 8; 9]
        /\ draws g' = (draws zin_game + 3)%nat)
  /\ random_element sample_random2 sample_one_chance_in input_iterator_tag
       (@nil Z) zin_game
     = None.
Proof.
  exact (random_choose_member sample_random2 sample_one_chance_in
           sample_random2_nonneg sample_random2_below
           sample_one_chance_in_one Z 7 [8; 9] input_iterator_tag zin_game).
Defined.

Lemma random_if_finds_witness :
  exists pos g',
    random_if sample_one_chance_in (Z.eqb 8) [7; 8; 9; 8] zin_game
    = Some (pos, g')
    /\ random_if_castable sample_one_chance_in (Z.eqb 8) [7; 8; 9; 8] zin_game
       = Some (pos, g')
    /\ draws g' = (draws zin_game + 2)%nat
    /\ exists x, nth_error [7; 8; 9; 8] pos = Some x /\ (8 =? x) = true.
Proof.
  exact (random_if_finds sample_one_chance_in sample_one_chance_in_one Z
           (Z.eqb 8) [7; 8; 9; 8] zin_game).
Defined.

Lemma choose_random_weighted_positive_witness :
  choose_random_weighted sample_random2 [] zin_game = None
  /\ exists i g',
       choose_random_weighted sample_random2 [0; 3; 0; 5] zin_game
       = Some (i, g')
       /\ draws g' = (draws zin_game + 4)%nat
       /\ 0 <= i < 4
       /\ 0 < nth (Z.to_nat i) [0; 3; 0; 5] 0.
Proof.
  apply (choose_random_weighted_positive sample_random2 sample_random2_nonneg
           sample_random2_below [0; 3; 0; 5] zin_game).
  - discriminate.
  - repeat constructor; lia.
Defined.

Lemma random_choose_weighted_chosen_witness :
  exists x g',
    random_choose_weighted sample_random2 0 "a"%char
      [ (2, "b"%char); (1, "c"%char) ] zin_game
    = Some (x, g')
    /\ In x [ "a"%char; "b"%char; "c"%char ]
    /\ (0 = 0 -> [ (2, "b"%char); (1, "c"%char) ] <> [] ->
        In x [ "b"%char; "c"%char ]).
Proof.
  apply (random_choose_weighted_chosen sample_random2 sample_random2_below
           ascii 0 "a"%char [ (2, "b"%char); (1, "c"%char) ] zin_game).
  - lia.
  - repeat constructor; cbn; lia.
Defined.

Import SplUtil.
Open Scope spl_scope.

(** * Spell utilities *)

(** ** Schools and skills *)

(** X16.  The twelve schools with a skill and the twelve magic skills
    correspond one to one: [skill2spell_type] undoes [spell_type2skill]
    wherever that gives a skill, and the other way round; every other
    school (Divination, Random, none) has no skill, and every other skill
    has no school. *)
Theorem spell_type2skill_round_trip : forall (school : spschool_flag_type)
    (sk : skill_type),
  (spell_type2skill school = SK_NONE
   \/ skill2spell_type (spell_type2skill school) = school)
  /\ (skill2spell_type sk = SPTYP_NONE
      \/ spell_type2skill (skill2spell_type sk) = sk)
  /\ spell_type2skill SPTYP_DIVINATION = SK_NONE
  /\ spell_type2skill SPTYP_RANDOM = SK_NONE
  /\ skill2spell_type SK_NONE = SPTYP_NONE
  /\ skill2spell_type SK_SPELLCASTING = SPTYP_NONE.
Proof.
  intros school sk. repeat split.
  - destruct school; cbn; auto.
  - destruct sk; cbn; auto.
Qed.

(** ** Counting bits *)

(** The number of bits set among the [n] bits of [bits] from the bit [k]
    on. *)
Fixpoint bits_set (n : nat) (k : Z) (bits : Z) : Z :=
  match n with
  | O => 0
  | S n' => Z.b2z (Z.testbit bits k) + bits_set n' (k + 1) bits
  end.

Lemma land_pow2_testbit : forall k bits,
  0 <= k -> (Z.land (2 ^ k) bits =? 0) = negb (Z.testbit bits k).
Proof.
  intros k bits Hk. destruct (Z.testbit bits k) eqn:E; cbn [negb].
  - apply Z.eqb_neq. intro H.
    assert (Z.testbit (Z.land (2 ^ k) bits) k = true) as Hb.
    { rewrite Z.land_spec, E, Z.pow2_bits_true by lia. reflexivity. }
    rewrite H, Z.bits_0 in Hb. discriminate.
  - apply Z.eqb_eq. apply Z.bits_inj'. intros n Hn.
    rewrite Z.land_spec, Z.bits_0, Z.pow2_bits_eqb by lia.
    destruct (Z.eqb_spec k n) as [->|]; [now rewrite E|reflexivity].
Qed.

Lemma count_bits_loop_spec : forall m rounds k bits c,
  k = 64 - Z.of_nat m -> 0 <= k -> (m < rounds)%nat ->
  count_bits_loop rounds (2 ^ k mod 2 ^ 64) bits c = c + bits_set m k bits.
Proof.
  induction m as [|m IH]; intros rounds k bits c Hk Hk0 Hr.
  - destruct rounds as [|rounds]; [lia|].
    replace k with 64 by lia. cbn [count_bits_loop bits_set].
    rewrite Z.mod_same by lia. cbn. lia.
  - destruct rounds as [|rounds]; [lia|].
    cbn [count_bits_loop bits_set].
    assert (0 < 2 ^ k < 2 ^ 64) as Hpow.
    { split; [apply Z.pow_pos_nonneg; lia|].
      apply Z.pow_lt_mono_r; lia. }
    rewrite (Z.mod_small (2 ^ k)) by lia.
    destruct (Z.eqb_spec (2 ^ k) 0) as [|_]; [lia|].
    rewrite Z.shiftl_mul_pow2 by lia.
    replace (2 ^ k * 2 ^ 1) with (2 ^ (k + 1))
      by (rewrite Z.pow_add_r by lia; reflexivity).
    rewrite IH by lia.
    rewrite land_pow2_testbit by lia. rewrite negb_involutive.
    destruct (Z.testbit bits k); cbn [Z.b2z]; lia.
Qed.

Lemma count_bits_spec : forall bits, count_bits bits = bits_set 64 0 bits.
Proof.
  intro bits. unfold count_bits.
  change 1 with (2 ^ 0 mod 2 ^ 64).
  rewrite (count_bits_loop_spec 64 65 0 bits 0); [reflexivity|lia..].
Qed.

Lemma bits_set_bounds : forall n k bits,
  0 <= bits_set n k bits <= Z.of_nat n.
Proof.
  induction n as [|n IH]; intros k bits; cbn [bits_set]; [lia|].
  specialize (IH (k + 1) bits).
  destruct (Z.testbit bits k); cbn [Z.b2z]; lia.
Qed.

Lemma bits_set_lor_land : forall n k a b,
  0 <= k ->
  bits_set n k (Z.lor a b) + bits_set n k (Z.land a b)
  = bits_set n k a + bits_set n k b.
Proof.
  induction n as [|n IH]; intros k a b Hk; cbn [bits_set]; [reflexivity|].
  specialize (IH (k + 1) a b ltac:(lia)).
  rewrite Z.lor_spec, Z.land_spec.
  destruct (Z.testbit a k), (Z.testbit b k); cbn [Z.b2z orb andb]; lia.
Qed.

(** X17.  [count_bits] counts the bits that are set among the low 64 bits
    of its argument: the result is the number of positions from 0 to 63 at
    which the bit is set, it lies between 0 and 64, and the counts of a
    union and of an intersection add up to the counts of the two sets. *)
Theorem count_bits_counts : forall bits a b : Z,
  count_bits bits
  = Z.of_nat (List.length (filter (Z.testbit bits) (map Z.of_nat (seq 0 64))))
  /\ 0 <= count_bits bits <= 64
  /\ count_bits (Z.lor a b) + count_bits (Z.land a b)
     = count_bits a + count_bits b.
Proof.
  intros bits a b. rewrite !count_bits_spec. split; [|split].
  - assert (forall n k,
              bits_set n (Z.of_nat k) bits
              = Z.of_nat (List.length (filter (Z.testbit bits)
                                         (map Z.of_nat (seq k n))))) as H.
    { induction n as [|n IH]; intro k; cbn [bits_set seq map filter];
        [reflexivity|].
      replace (Z.of_nat k + 1) with (Z.of_nat (S k)) by lia. rewrite IH.
      destruct (Z.testbit bits (Z.of_nat k)); cbn [Z.b2z List.length]; lia. }
    exact (H 64%nat 0%nat).
  - apply (bits_set_bounds 64).
  - apply bits_set_lor_land. lia.
Qed.

(** ** Schools that are locked out *)

(** The schools in the order of their exponents, as the entries of
    [arcana_sacrifice_map] name them. *)
Definition schools_in_order : list spschool_flag_type :=
  [ SPTYP_CONJURATION; SPTYP_HEXES; SPTYP_CHARMS; SPTYP_FIRE; SPTYP_ICE;
    SPTYP_TRANSMUTATION; SPTYP_NECROMANCY; SPTYP_SUMMONING; SPTYP_DIVINATION;
    SPTYP_TRANSLOCATION; SPTYP_POISON; SPTYP_EARTH; SPTYP_AIR ].

(** The set of one school. *)
Definition one_school (school : spschool_flag_type) : spschools_type :=
  fun s => if spschool_eq_dec s school then true else false.

(** The skill that goes with a sacrifice of a school of magic. *)
Definition sacrificed_skill (mutation : mutation_type) : skill_type :=
  match mutation with
  | MUT_NO_CONJURATION_MAGIC => SK_CONJURATIONS
  | MUT_NO_HEXES_MAGIC => SK_HEXES
  | MUT_NO_CHARM_MAGIC => SK_CHARMS
  | MUT_NO_FIRE_MAGIC => SK_FIRE_MAGIC
  | MUT_NO_ICE_MAGIC => SK_ICE_MAGIC
  | MUT_NO_TRANSMUTATION_MAGIC => SK_TRANSMUTATIONS
  | MUT_NO_NECROMANCY_MAGIC => SK_NECROMANCY
  | MUT_NO_SUMMONING_MAGIC => SK_SUMMONINGS
  | MUT_NO_TRANSLOCATION_MAGIC => SK_TRANSLOCATIONS
  | MUT_NO_POISON_MAGIC => SK_POISON_MAGIC
  | MUT_NO_EARTH_MAGIC => SK_EARTH_MAGIC
  | MUT_NO_AIR_MAGIC => SK_AIR_MAGIC
  | _ => SK_NONE
  end.

(** The headers with the schools numbered by [f]. *)
Definition with_exponent (f : Z -> spschool_flag_type) (h : headers)
  : headers :=
  mk_headers (spell_id h) (spell_of_int h) (spelldata h) (MAX_KNOWN_SPELLS h)
    (SPFLAG_TARGETING_MASK h) (SPFLAG_MONSTER h) (SPFLAG_HELPFUL h)
    (SPFLAG_NEUTRAL h) (SPFLAG_AREA h) f.

Lemma arcane_mutation_to_skill_loop_ext : forall h h' n exp mutation,
  (forall i, exp <= i < exp + Z.of_nat n -> exponent h i = exponent h' i) ->
  arcane_mutation_to_skill_loop h n exp mutation
  = arcane_mutation_to_skill_loop h' n exp mutation.
Proof.
  intros h h'. induction n as [|n IH]; intros exp mutation H;
    cbn [arcane_mutation_to_skill_loop]; [reflexivity|].
  rewrite (H exp) by lia. rewrite IH; [reflexivity|].
  intros i Hi. apply H. lia.
Qed.

Lemma cannot_use_schools_loop_ext : forall h h' y n i schools,
  (forall k, i <= k < i + Z.of_nat n -> exponent h k = exponent h' k) ->
  cannot_use_schools_loop h y n i schools
  = cannot_use_schools_loop h' y n i schools.
Proof.
  intros h h' y. induction n as [|n IH]; intros i schools H;
    cbn [cannot_use_schools_loop]; [reflexivity|].
  rewrite (H i) by lia. rewrite IH; [reflexivity|].
  intros k Hk. apply H. lia.
Qed.

(** X18.  With the schools numbered in the order of
    [arcana_sacrifice_map], [arcane_mutation_to_skill] gives each of the
    twelve sacrifices of a school the skill of that school, and SK_NONE to
    every other mutation, NUM_MUTATIONS included (it stands in the map for
    Divination, which has no skill).  The two functions agree: a player
    cannot use the school of that skill exactly when the player has the
    mutation. *)
Theorem arcane_mutation_to_skill_schools : forall (h : headers) (y : player)
    (mutation : mutation_type),
  (forall i, 0 <= i <= SPTYP_LAST_EXPONENT ->
     exponent h i = nth (Z.to_nat i) schools_in_order SPTYP_NONE) ->
  arcane_mutation_to_skill h mutation = Some (sacrificed_skill mutation)
  /\ (sacrificed_skill mutation <> SK_NONE ->
      cannot_use_schools h y
        (one_school (skill2spell_type (sacrificed_skill mutation)))
      = Some (nonzero (player_mutation_level y mutation)))
  /\ cannot_use_schools h y (one_school SPTYP_DIVINATION) = Some false.
Proof.
  intros h y mutation Hexp. unfold SPTYP_LAST_EXPONENT in Hexp.
  set (f := fun i => nth (Z.to_nat i) schools_in_order SPTYP_NONE).
  assert (forall k, 0 <= k < 0 + Z.of_nat (Z.to_nat (SPTYP_LAST_EXPONENT + 1)) ->
            exponent h k = exponent (with_exponent f h) k) as Hext.
  { intros k Hk. cbn [exponent with_exponent]. apply Hexp.
    unfold SPTYP_LAST_EXPONENT in Hk. lia. }
  unfold arcane_mutation_to_skill, cannot_use_schools.
  rewrite (arcane_mutation_to_skill_loop_ext h (with_exponent f h) _ _ _ Hext).
  rewrite !(cannot_use_schools_loop_ext h (with_exponent f h) y _ _ _ Hext).
  split; [|split].
  - destruct mutation; vm_compute; reflexivity.
  - intro Hskill.
    destruct y.
    destruct mutation; try (exfalso; apply Hskill; reflexivity);
      vm_compute;
      match goal with
      | |- context [match ?x with 0 => _ | _ => _ end] => destruct x
      end; reflexivity.
  - vm_compute. reflexivity.
Qed.

(** ** Arrays *)

Lemma array_get_range : forall (A : Type) (a : list A) i x,
  array_get a i = Some x -> 0 <= i < Z.of_nat (List.length a).
Proof.
  intros A a i x H. unfold array_get in H.
  destruct (Z.ltb_spec i 0); [discriminate|].
  assert (nth_error a (Z.to_nat i) <> None) as Hn by congruence.
  apply nth_error_Some in Hn. lia.
Qed.

Lemma array_get_in_range : forall (A : Type) (a : list A) i,
  0 <= i < Z.of_nat (List.length a) -> exists x, array_get a i = Some x.
Proof.
  intros A a i H. unfold array_get.
  destruct (Z.ltb_spec i 0); [lia|].
  destruct (nth_error a (Z.to_nat i)) as [x|] eqn:E; [eauto|].
  apply nth_error_None in E. lia.
Qed.

Lemma array_get_In : forall (A : Type) (a : list A) i x,
  array_get a i = Some x -> In x a.
Proof.
  intros A a i x H. unfold array_get in H.
  destruct (i <? 0); [discriminate|]. eapply nth_error_In. eassumption.
Qed.

Lemma array_set_spec : forall (A : Type) (a : list A) i x l,
  array_set a i x = Some l ->
  0 <= i < Z.of_nat (List.length a) /\ l = list_set a (Z.to_nat i) x.
Proof.
  intros A a i x l H. unfold array_set in H.
  destruct (Z.leb_spec 0 i); destruct (Z.ltb_spec i (Z.of_nat (List.length a)));
    cbn in H; try discriminate.
  injection H as <-. split; [lia|reflexivity].
Qed.

Lemma array_set_in_range : forall (A : Type) (a : list A) i x,
  0 <= i < Z.of_nat (List.length a) ->
  array_set a i x = Some (list_set a (Z.to_nat i) x).
Proof.
  intros A a i x H. unfold array_set.
  destruct (Z.leb_spec 0 i); destruct (Z.ltb_spec i (Z.of_nat (List.length a)));
    try lia. reflexivity.
Qed.

Lemma list_set_length' : forall (A : Type) (l : list A) n a,
  List.length (list_set l n a) = List.length l.
Proof.
  intros A l. induction l as [|x rest IH]; intros [|n] a; cbn; auto.
Qed.

Lemma nth_error_list_set' : forall (A : Type) (l : list A) n m a,
  nth_error (list_set l n a) m
  = if Nat.eqb m n then (if Nat.ltb n (List.length l) then Some a else None)
    else nth_error l m.
Proof.
  intros A l. induction l as [|x rest IH]; intros n m a.
  - cbn. destruct (Nat.eqb m n); destruct m; reflexivity.
  - destruct n as [|n], m as [|m]; try reflexivity.
    cbn [list_set nth_error Nat.eqb List.length]. rewrite IH.
    change (Nat.ltb (S n) (S (List.length rest)))
      with (Nat.ltb n (List.length rest)).
    reflexivity.
Qed.

Lemma array_get_list_set : forall (A : Type) (a : list A) i k x,
  0 <= i < Z.of_nat (List.length a) -> 0 <= k ->
  array_get (list_set a (Z.to_nat i) x) k
  = if k =? i then Some x else array_get a k.
Proof.
  intros A a i k x Hi Hk. unfold array_get.
  destruct (Z.ltb_spec k 0); [lia|].
  rewrite nth_error_list_set'.
  destruct (Z.eqb_spec k i) as [->|Hne].
  - rewrite Nat.eqb_refl.
    destruct (Nat.ltb_spec (Z.to_nat i) (List.length a)); [reflexivity|lia].
  - destruct (Nat.eqb_spec (Z.to_nat k) (Z.to_nat i)); [lia|reflexivity].
Qed.

(** ** Computations that read only *)

Lemma bind_Some' : forall {A B : Type} (m : M A) (k : A -> M B) g b g'',
  bind m k g = Some (b, g'') ->
  exists a g', m g = Some (a, g') /\ k a g' = Some (b, g'').
Proof.
  intros A B m k g b g'' H; unfold bind in H.
  destruct (m g) as [[a g']|] eqn:E; [|discriminate].
  exists a, g'; auto.
Qed.

Lemma ASSERT_Some : forall b g u g',
  ASSERT b g = Some (u, g') -> b = true /\ g' = g.
Proof.
  intros b g u g' H. destruct b; [|discriminate].
  injection H as _ <-. auto.
Qed.

Lemma lift_Some : forall (A : Type) (o : option A) g a g',
  lift o g = Some (a, g') -> o = Some a /\ g' = g.
Proof.
  intros A o g a g' H. destruct o; [|discriminate].
  injection H as <- <-. auto.
Qed.

(** Whenever the computation returns, the game is as it was. *)
Definition readonly {A : Type} (m : M A) : Prop :=
  forall g a g', m g = Some (a, g') -> g' = g.

Lemma readonly_ret : forall (A : Type) (a : A), readonly (ret a).
Proof. intros A a g a' g' H. now injection H as _ <-. Qed.

Lemma readonly_get : readonly get.
Proof. intros g a g' H. now injection H as _ <-. Qed.

Lemma readonly_lift : forall (A : Type) (o : option A), readonly (lift o).
Proof. intros A o g a g' H. now apply lift_Some in H. Qed.

Lemma readonly_ASSERT : forall b, readonly (ASSERT b).
Proof. intros b g a g' H. now apply ASSERT_Some in H. Qed.

Lemma readonly_bind : forall (A B : Type) (m : M A) (k : A -> M B),
  readonly m -> (forall a, readonly (k a)) -> readonly (bind m k).
Proof.
  intros A B m k Hm Hk g b g' H.
  apply bind_Some' in H as (a & g1 & H1 & H2).
  apply Hm in H1. subst g1. now apply Hk in H2.
Qed.

Ltac readonly_step :=
  first
    [ apply readonly_ret
    | apply readonly_get
    | apply readonly_lift
    | apply readonly_ASSERT
    | apply readonly_bind; [|intro]
    | match goal with
      | |- readonly (if ?c then _ else _) => destruct c
      | |- readonly (match ?x with _ => _ end) => destruct x
      end ].

Lemma readonly_seekspell : forall h spell, readonly (_seekspell h spell).
Proof. intros h spell. unfold _seekspell. repeat readonly_step. Qed.

Lemma readonly_is_valid_spell : forall h spell,
  readonly (is_valid_spell h spell).
Proof. intros h spell. unfold is_valid_spell. repeat readonly_step. Qed.

Lemma readonly_spell_title : forall h spell, readonly (spell_title h spell).
Proof.
  intros h spell. unfold spell_title.
  repeat first [apply readonly_seekspell | readonly_step].
Qed.

Lemma readonly_spell_difficulty : forall h spell,
  readonly (spell_difficulty h spell).
Proof.
  intros h spell. unfold spell_difficulty.
  repeat first [apply readonly_seekspell | readonly_step].
Qed.

(** ** The spell table *)

(** What [init_spell_descs] asserts of an entry of the table. *)
Definition entry_ok (h : headers) (data : spell_desc) : Prop :=
  spell_id h SPELL_NO_SPELL <= spell_id h (id data) < spell_id h NUM_SPELLS
  /\ (exists c s, title data = Some (String c s))
  /\ 1 <= level data <= 9
  /\ min_range data <= max_range data.

(** The spell list [l] after the entries [done] were read: what an index
    holds is -1 or the number of an entry for that index, and the index
    of every entry holds the number of an entry. *)
Definition lists_entries (h : headers) (done : list spell_desc) (l : list Z)
  : Prop :=
  (forall k index,
     array_get l k = Some index ->
     index = -1
     \/ exists data,
          array_get done index = Some data
          /\ spell_id h (id data) = k
          /\ entry_ok h data)
  /\ (forall data,
        In data done ->
        exists index,
          array_get l (spell_id h (id data)) = Some index /\ index <> -1).

Lemma array_get_app_l : forall (A : Type) (a b : list A) i x,
  array_get a i = Some x -> array_get (a ++ b) i = Some x.
Proof.
  intros A a b i x H. pose proof (array_get_range _ _ _ _ H) as Hr.
  unfold array_get in *. destruct (i <? 0); [discriminate|].
  rewrite nth_error_app1 by lia. exact H.
Qed.

Lemma array_get_app_last : forall (A : Type) (a : list A) x,
  array_get (a ++ [x]) (Z.of_nat (List.length a)) = Some x.
Proof.
  intros A a x. unfold array_get.
  destruct (Z.ltb_spec (Z.of_nat (List.length a)) 0); [lia|].
  rewrite Nat2Z.id, nth_error_app2 by lia. now rewrite Nat.sub_diag.
Qed.

Lemma init_spell_descs_loop_spec : forall h todo done g g',
  init_spell_descs_loop h todo (Z.of_nat (List.length done)) g
  = Some (tt, g') ->
  lists_entries h done (spell_list g) ->
  lists_entries h (done ++ todo) (spell_list g')
  /\ g' = set_spell_list (spell_list g') g.
Proof.
  intros h todo. induction todo as [|data rest IH]; intros done g g' H Hinv.
  - injection H as <-. rewrite app_nil_r. split; [exact Hinv|].
    destruct g; reflexivity.
  - cbn [init_spell_descs_loop] in H.
    apply bind_Some' in H as ([] & g0 & H1 & H).
    apply ASSERT_Some in H1 as [C1 ->].
    apply bind_Some' in H as ([] & g0 & H2 & H).
    apply ASSERT_Some in H2 as [C2 ->].
    apply bind_Some' in H as ([] & g0 & H3 & H).
    apply ASSERT_Some in H3 as [C3 ->].
    apply bind_Some' in H as ([] & g0 & H4 & H).
    apply ASSERT_Some in H4 as [C4 ->].
    apply bind_Some' in H as ([] & g0 & H5 & H).
    apply ASSERT_Some in H5 as [_ ->].
    apply bind_Some' in H as (g0 & g1 & Hget & H). injection Hget as <- <-.
    apply bind_Some' in H as ([] & g0 & H6 & H).
    apply ASSERT_Some in H6 as [_ ->].
    apply bind_Some' in H as (l & g0 & Hset & H).
    apply lift_Some in Hset as [Hset ->].
    apply array_set_spec in Hset as [Hrange ->].
    apply bind_Some' in H as ([] & g1 & Hmod & H).
    injection Hmod as <-.
    assert (entry_ok h data) as Hok.
    { unfold entry_ok. repeat split; try lia.
      destruct (title data) as [[|c s]|]; try discriminate. eauto. }
    replace (Z.of_nat (List.length done) + 1)
      with (Z.of_nat (List.length (done ++ [data]))) in H
      by (rewrite length_app; cbn; lia).
    apply IH in H.
    + destruct H as [Hinv' Hg]. rewrite <- app_assoc in Hinv'.
      split; [exact Hinv'|]. rewrite Hg at 1. destruct g; reflexivity.
    + cbn [spell_list set_spell_list].
      destruct Hinv as [Hfrom Hto]. split.
      * intros k index Hk.
        assert (0 <= k) as Hk0.
        { apply array_get_range in Hk. lia. }
        rewrite array_get_list_set in Hk by assumption.
        destruct (Z.eqb_spec k (spell_id h (id data))) as [->|Hne].
        -- injection Hk as <-. right. exists data.
           split; [apply array_get_app_last|]. auto.
        -- destruct (Hfrom k index Hk) as [->|(d & Hd & Hid & Hd')];
             [now left|].
           right. exists d. split; [now apply array_get_app_l|]. auto.
      * intros d Hd. apply in_app_or in Hd as [Hd|[<-|[]]].
        -- destruct (Hto d Hd) as (index & Hindex & Hne).
           assert (0 <= spell_id h (id d)) as Hk0.
           { apply array_get_range in Hindex. lia. }
           rewrite array_get_list_set by assumption.
           destruct (Z.eqb_spec (spell_id h (id d)) (spell_id h (id data))).
           ++ exists (Z.of_nat (List.length done)). split; [reflexivity|lia].
           ++ eauto.
        -- rewrite array_get_list_set by lia. rewrite Z.eqb_refl.
           exists (Z.of_nat (List.length done)). split; [reflexivity|lia].
Qed.

(** X19.  After [init_spell_descs] every spell that [is_valid_spell]
    accepts can be looked up: [_seekspell] returns an entry of the spell
    table that carries the number of the spell, and the entry has passed
    the checks (a title, a level from 1 to 9, a minimal range that is not
    above the maximal one).  Every entry of the table whose spell comes
    after SPELL_NO_SPELL is a valid spell. *)
Theorem init_spell_descs_registers : forall (h : headers) (g g' : game),
  init_spell_descs h g = Some (tt, g') ->
  g' = set_spell_list (spell_list g') g
  /\ (forall spell,
        is_valid_spell h spell g' = Some (true, g') ->
        exists data,
          _seekspell h spell g' = Some (data, g')
          /\ In data (spelldata h)
          /\ spell_id h (id data) = spell_id h spell
          /\ entry_ok h data)
  /\ (forall data,
        In data (spelldata h) ->
        spell_id h SPELL_NO_SPELL < spell_id h (id data) ->
        is_valid_spell h (id data) g' = Some (true, g')).
Proof.
  intros h g g' H. unfold init_spell_descs in H.
  apply bind_Some' in H as ([] & g0 & Hmod & H). injection Hmod as <-.
  apply (init_spell_descs_loop_spec h (spelldata h) []) in H.
  - destruct H as [[Hfrom Hto] Hg]. cbn [app] in *.
    split; [rewrite Hg at 1; destruct g; reflexivity|].
    split.
    + intros spell Hvalid. unfold is_valid_spell in Hvalid.
      destruct (Z.gtb_spec (spell_id h spell) (spell_id h SPELL_NO_SPELL));
        [|discriminate].
      destruct (Z.ltb_spec (spell_id h spell) (spell_id h NUM_SPELLS));
        [|discriminate].
      cbn [andb] in Hvalid.
      apply bind_Some' in Hvalid as (g1 & g2 & Hget & Hvalid).
      injection Hget as <- <-.
      apply bind_Some' in Hvalid as (index & g1 & Hindex & Hvalid).
      apply lift_Some in Hindex as [Hindex _].
      injection Hvalid as Hne _.
      apply negb_true_iff, Z.eqb_neq in Hne.
      destruct (Hfrom _ _ Hindex) as [|(data & Hdata & Hid & Hok)];
        [contradiction|].
      exists data. split.
      * unfold _seekspell, bind, ASSERT, get.
        pose proof (array_get_range _ _ _ _ Hindex) as Hr.
        destruct (Z.leb_spec 0 (spell_id h spell)); [|lia].
        destruct (Z.ltb_spec (spell_id h spell) (spell_id h NUM_SPELLS));
          [|lia].
        cbn [andb ret]. rewrite Hindex. cbn [lift ret].
        destruct (Z.eqb_spec index (-1)); [contradiction|].
        cbn [negb]. rewrite Hdata. reflexivity.
      * split; [eapply array_get_In; eassumption|]. auto.
    + intros data Hin Hafter.
      destruct (Hto data Hin) as (index & Hindex & Hne).
      destruct (Hfrom _ _ Hindex) as [|(data' & Hdata' & Hid & Hok)];
        [contradiction|].
      destruct Hok as ([_ Hlt] & _). rewrite Hid in Hlt.
      unfold is_valid_spell, bind, get.
      destruct (Z.gtb_spec (spell_id h (id data)) (spell_id h SPELL_NO_SPELL));
        [|lia].
      destruct (Z.ltb_spec (spell_id h (id data)) (spell_id h NUM_SPELLS));
        [|lia].
      cbn [andb]. rewrite Hindex. cbn [lift ret].
      destruct (Z.eqb_spec index (-1)); [contradiction|reflexivity].
  - cbn [spell_list set_spell_list]. split.
    + intros k index Hk. left.
      apply array_get_In in Hk. now apply repeat_spec in Hk.
    + intros data [].
Qed.

(** ** The spell memory *)

Lemma find_spell_spec : forall l spell i,
  (find_spell l spell i = -1 /\ ~ In spell l) \/
  (exists n,
     find_spell l spell i = i + Z.of_nat n
     /\ nth_error l n = Some spell
     /\ forall m, (m < n)%nat -> nth_error l m <> Some spell) \/
  i < 0.
Proof.
  intros l spell. induction l as [|s rest IH]; intro i.
  - left. split; [reflexivity|intros []].
  - destruct (Z.ltb_spec i 0) as [Hneg|Hpos]; [now right; right|].
    cbn [find_spell]. unfold spell_eqb.
    destruct (spell_eq_dec s spell) as [->|Hne].
    + right; left. exists 0%nat. split; [cbn; lia|]. split; [reflexivity|].
      intros m Hm. lia.
    + destruct (IH (i + 1)) as [[Hfind Hnot]|[(n & Hfind & Hn & Hfirst)|Hneg]].
      * left. split; [exact Hfind|]. intros [Heq|Hin]; contradiction.
      * right; left. exists (S n). split; [rewrite Hfind; lia|].
        split; [exact Hn|]. intros [|m] Hm; cbn.
        -- congruence.
        -- apply Hfirst. lia.
      * lia.
Qed.

Lemma readonly_free_spell_slot : forall n i, readonly (free_spell_slot n i).
Proof.
  intro n. induction n as [|n IH]; intro i; cbn [free_spell_slot].
  - apply readonly_ret.
  - repeat first [apply IH | readonly_step].
Qed.

Lemma readonly_free_spell_letter : forall n j,
  readonly (free_spell_letter n j).
Proof.
  intro n. induction n as [|n IH]; intro j; cbn [free_spell_letter].
  - apply readonly_ret.
  - repeat first [apply IH | readonly_step].
Qed.

Lemma readonly_auto_spell_letter_chars : forall h matches chars overwrite,
  readonly (auto_spell_letter_chars h matches chars overwrite).
Proof.
  intros h matches chars.
  induction chars as [|ch rest IH]; intro overwrite;
    cbn [auto_spell_letter_chars].
  - apply readonly_ret.
  - repeat first [apply IH | apply readonly_spell_title | readonly_step].
Qed.

Lemma readonly_auto_spell_letter_entries : forall h entries sname overwrite,
  readonly (auto_spell_letter_entries h entries sname overwrite).
Proof.
  intros h entries sname.
  induction entries as [|entry rest IH]; intro overwrite;
    cbn [auto_spell_letter_entries].
  - apply readonly_ret.
  - repeat first [apply IH | apply readonly_auto_spell_letter_chars
                  | readonly_step].
Qed.

(** The slot that the first loop of [add_spell_to_memory] stops at: the
    first of the [n] slots from [i] on that is empty, or the one after
    them. *)
Lemma free_spell_slot_spec : forall n i g r g',
  free_spell_slot n i g = Some (r, g') ->
  i <= r <= i + Z.of_nat n
  /\ (forall k, i <= k < r ->
        exists s, array_get (spells g) k = Some s /\ s <> SPELL_NO_SPELL)
  /\ (r < i + Z.of_nat n -> array_get (spells g) r = Some SPELL_NO_SPELL).
Proof.
  intro n. induction n as [|n IH]; intros i g r g' H.
  - injection H as <- <-. split; [lia|]. split; intros; lia.
  - cbn [free_spell_slot] in H.
    apply bind_Some' in H as (g0 & g1 & Hget & H). injection Hget as <- <-.
    apply bind_Some' in H as (s & g1 & Hs & H).
    apply lift_Some in Hs as [Hs ->].
    unfold spell_eqb in H.
    destruct (spell_eq_dec s SPELL_NO_SPELL) as [->|Hne].
    + injection H as <- <-. split; [lia|]. split; [intros; lia|auto].
    + apply IH in H as (Hr & Hbefore & Hat).
      split; [lia|]. split.
      * intros k Hk. destruct (Z.eq_dec k i) as [->|]; [eauto|].
        apply Hbefore. lia.
      * intro Hlt. apply Hat. lia.
Qed.

Lemma free_spell_letter_spec : forall n j g r g',
  free_spell_letter n j g = Some (r, g') ->
  j <= r <= j + Z.of_nat n
  /\ (forall k, j <= k < r ->
        exists s, array_get (spell_letter_table g) k = Some s /\ s <> -1)
  /\ (r < j + Z.of_nat n -> array_get (spell_letter_table g) r = Some (-1)).
Proof.
  intro n. induction n as [|n IH]; intros j g r g' H.
  - injection H as <- <-. split; [lia|]. split; intros; lia.
  - cbn [free_spell_letter] in H.
    apply bind_Some' in H as (g0 & g1 & Hget & H). injection Hget as <- <-.
    apply bind_Some' in H as (s & g1 & Hs & H).
    apply lift_Some in Hs as [Hs ->].
    destruct (Z.eqb_spec s (-1)) as [->|Hne].
    + injection H as <- <-. split; [lia|]. split; [intros; lia|auto].
    + apply IH in H as (Hr & Hbefore & Hat).
      split; [lia|]. split.
      * intros k Hk. destruct (Z.eq_dec k j) as [->|]; [eauto|].
        apply Hbefore. lia.
      * intro Hlt. apply Hat. lia.
Qed.

(** What [add_spell_to_memory] has done when it returns: the spell is in
    the slot [i] of the memory and the letter [j] is bound to [i] in a
    table [t] that differs from the old one in at most one letter, which
    was free before. *)
Lemma add_spell_to_memory_spec : forall h spell g r g',
  add_spell_to_memory h spell g = Some (r, g') ->
  exists i j t name,
    r = true
    /\ spell_title h spell g = Some (Some name, g)
    /\ free_spell_slot (Z.to_nat (MAX_KNOWN_SPELLS h)) 0 g = Some (i, g)
    /\ 0 <= i < Z.of_nat (List.length (spells g))
    /\ 0 <= j < Z.of_nat (List.length (spell_letter_table g))
    /\ List.length t = List.length (spell_letter_table g)
    /\ (forall k x, array_get (spell_letter_table g) k = Some x ->
          x <> -1 -> array_get t k = Some x)
    /\ g' = mk_game (you g) (list_set (spells g) (Z.to_nat i) spell)
              (list_set t (Z.to_nat j) i) (spell_no g + 1)
              (last_cast_spell g) (spell_list g) (log g')
    /\ exists said, log g' = log g ++ said.
Proof.
  intros h spell g r g' H. unfold add_spell_to_memory in H.
  apply bind_Some' in H as (sname & g0 & Htitle & H).
  pose proof (readonly_spell_title _ _ _ _ _ Htitle) as ->.
  apply bind_Some' in H as (name & g0 & Hname & H).
  apply lift_Some in Hname as [-> ->].
  apply bind_Some' in H as (g0 & g1 & Hget & H). injection Hget as <- <-.
  apply bind_Some' in H as (i & g0 & Hslot & H).
  pose proof (readonly_free_spell_slot _ _ _ _ _ Hslot) as ->.
  apply bind_Some' in H as (l & g0 & Hset & H).
  apply lift_Some in Hset as [Hset ->].
  apply array_set_spec in Hset as [Hi ->].
  apply bind_Some' in H as ([] & g0 & Hmod & H). injection Hmod as <-.
  apply bind_Some' in H as (j0 & g0 & Hauto & H).
  pose proof (readonly_auto_spell_letter_entries _ _ _ _ _ _ _ Hauto) as ->.
  apply bind_Some' in H as (j & g0 & Hj & H).
  assert (g0 = set_spells (list_set (spells g) (Z.to_nat i) spell) g) as ->.
  { destruct (j0 =? -1).
    - now apply readonly_free_spell_letter in Hj.
    - now apply readonly_ret in Hj. }
  apply bind_Some' in H as ([] & g1 & Hsay & H).
  assert (exists said1,
            g1 = set_log (log g ++ said1)
                   (set_spells (list_set (spells g) (Z.to_nat i) spell) g))
    as [said1 ->].
  { cbn [you set_spells] in Hsay. destruct (nonzero (num_turns (you g))).
    - apply bind_Some' in Hsay as (letter & g2 & Hletter & Hsay).
      apply lift_Some in Hletter as [_ ->].
      injection Hsay as <-. eexists. reflexivity.
    - injection Hsay as <-. exists []. rewrite app_nil_r.
      destruct g; reflexivity. }
  apply bind_Some' in H as (g0 & g1 & Hget & H). injection Hget as <- <-.
  apply bind_Some' in H as (existing & g0 & Hexisting & H).
  apply lift_Some in Hexisting as [Hexisting ->].
  cbn [spell_letter_table set_log set_spells] in Hexisting.
  apply bind_Some' in H as ([] & g1 & Hswap & H).
  assert (exists t,
            g1 = set_spell_letter_table t
                   (set_log (log g ++ said1)
                      (set_spells (list_set (spells g) (Z.to_nat i) spell) g))
            /\ List.length t = List.length (spell_letter_table g)
            /\ (forall k x, array_get (spell_letter_table g) k = Some x ->
                  x <> -1 -> array_get t k = Some x))
    as (t & -> & Hlen & Hkeep).
  { destruct (existing =? -1); cbn [negb] in Hswap.
    - injection Hswap as <-. exists (spell_letter_table g).
      split; [destruct g; reflexivity|]. auto.
    - apply bind_Some' in Hswap as (free & g2 & Hfree & Hswap).
      pose proof (readonly_free_spell_letter _ _ _ _ _ Hfree) as ->.
      apply free_spell_letter_spec in Hfree as (Hrange & _ & Hat).
      cbn [spell_letter_table set_log set_spells] in Hat.
      destruct (Z.ltb_spec free 52).
      + apply bind_Some' in Hswap as (l & g2 & Hset & Hswap).
        apply lift_Some in Hset as [Hset ->].
        cbn [spell_letter_table set_log set_spells] in Hset.
        apply array_set_spec in Hset as [Hfree ->].
        injection Hswap as <-. eexists. split; [reflexivity|].
        split; [apply list_set_length'|].
        intros k x Hk Hx.
        pose proof (array_get_range _ _ _ _ Hk) as Hk0.
        rewrite array_get_list_set by lia.
        destruct (Z.eqb_spec k free) as [->|]; [|exact Hk].
        rewrite Hat in Hk by lia. congruence.
      + injection Hswap as <-. exists (spell_letter_table g).
        split; [destruct g; reflexivity|]. auto. }
  apply bind_Some' in H as (g0 & g1 & Hget & H). injection Hget as <- <-.
  apply bind_Some' in H as (l & g0 & Hset & H).
  apply lift_Some in Hset as [Hset ->].
  cbn [spell_letter_table set_spell_letter_table] in Hset.
  apply array_set_spec in Hset as [Hj' ->].
  cbv [bind modify say ret] in H. injection H as <- <-.
  exists i, j, t, name.
  split; [reflexivity|]. split; [exact Htitle|]. split; [exact Hslot|].
  split; [exact Hi|]. split; [lia|]. split; [exact Hlen|].
  split; [exact Hkeep|]. split; [reflexivity|].
  cbn. rewrite <- !app_assoc. eexists. reflexivity.
Qed.

(** X20.  [you.spells] has MAX_KNOWN_SPELLS slots.  When
    [add_spell_to_memory] returns, it returns true; the spell is in the
    first empty slot of [you.spells], which holds what it held in every
    other slot; a letter of [you.spell_letter_table] is bound to that
    slot; the letters that were bound before are bound as before, the one
    that got the new slot apart; and [you.spell_no] is one more. *)
Theorem add_spell_to_memory_remembers :
  forall (h : headers) (spell : spell_type) (g g' : game) (r : bool),
  Z.of_nat (List.length (spells g)) = MAX_KNOWN_SPELLS h ->
  add_spell_to_memory h spell g = Some (r, g') ->
  r = true
  /\ spell_no g' = spell_no g + 1
  /\ exists i j,
       array_get (spells g) i = Some SPELL_NO_SPELL
       /\ (forall k s, 0 <= k < i -> array_get (spells g) k = Some s ->
             s <> SPELL_NO_SPELL)
       /\ array_get (spells g') i = Some spell
       /\ (forall k, k <> i ->
             array_get (spells g') k = array_get (spells g) k)
       /\ array_get (spell_letter_table g') j = Some i
       /\ (forall k x, k <> j ->
             array_get (spell_letter_table g) k = Some x -> x <> -1 ->
             array_get (spell_letter_table g') k = Some x).
Proof.
  intros h spell g g' r Hsize H.
  apply add_spell_to_memory_spec in H
    as (i & j & t & name & -> & _ & Hslot & Hi & Hj & Hlen & Hkeep & -> & _).
  cbn [spell_no spells spell_letter_table].
  split; [reflexivity|]. split; [reflexivity|].
  exists i, j.
  apply free_spell_slot_spec in Hslot as (Hrange & Hbefore & Hat).
  assert (i < 0 + Z.of_nat (Z.to_nat (MAX_KNOWN_SPELLS h)) \/
          i = 0 + Z.of_nat (Z.to_nat (MAX_KNOWN_SPELLS h))) as [Hlt|Heq]
    by lia.
  - split; [auto|]. split.
    { intros k s Hk Hs. destruct (Hbefore k Hk) as (s' & Hs' & Hne).
      congruence. }
    split.
    { rewrite array_get_list_set by lia. now rewrite Z.eqb_refl. }
    split.
    { intros k Hk. unfold array_get at 1 2.
      destruct (Z.ltb_spec k 0); [reflexivity|].
      rewrite nth_error_list_set'.
      destruct (Nat.eqb_spec (Z.to_nat k) (Z.to_nat i)); [lia|reflexivity]. }
    split.
    { rewrite array_get_list_set by lia. now rewrite Z.eqb_refl. }
    intros k x Hk Hx Hne.
    pose proof (array_get_range _ _ _ _ Hx) as Hk0.
    rewrite array_get_list_set by lia.
    destruct (Z.eqb_spec k j); [contradiction|]. now apply Hkeep.
  - lia.
Qed.

(** X21.  When no slot of [you.spells] is empty, [add_spell_to_memory]
    does not return: it writes behind the last slot and the program
    stops. *)
Theorem add_spell_to_memory_full :
  forall (h : headers) (spell : spell_type) (g : game),
  Z.of_nat (List.length (spells g)) = MAX_KNOWN_SPELLS h ->
  ~ In SPELL_NO_SPELL (spells g) ->
  add_spell_to_memory h spell g = None.
Proof.
  intros h spell g Hsize Hfull.
  destruct (add_spell_to_memory h spell g) as [[r g']|] eqn:H;
    [|reflexivity].
  exfalso.
  apply add_spell_to_memory_spec in H
    as (i & j & t & name & _ & _ & Hslot & Hi & _).
  apply free_spell_slot_spec in Hslot as (Hrange & _ & Hat).
  apply Hfull. apply (array_get_In _ _ i), Hat. lia.
Qed.

(** The entry that [_seekspell] finds, as a function of the spell list. *)
Definition seek (h : headers) (l : list Z) (spell : spell_type)
  : option spell_desc :=
  if (0 <=? spell_id h spell) && (spell_id h spell <? spell_id h NUM_SPELLS)
  then
    match array_get l (spell_id h spell) with
    | Some index =>
        if negb (index =? -1) then array_get (spelldata h) index else None
    | None => None
    end
  else None.

Lemma seekspell_seek : forall h spell g,
  _seekspell h spell g
  = match seek h (spell_list g) spell with
    | Some data => Some (data, g)
    | None => None
    end.
Proof.
  intros h spell g. unfold _seekspell, seek, bind, get, ASSERT.
  destruct ((0 <=? spell_id h spell)
            && (spell_id h spell <? spell_id h NUM_SPELLS)); [|reflexivity].
  cbn [ret]. destruct (array_get (spell_list g) (spell_id h spell)) as [index|];
    [|reflexivity].
  cbn [lift ret]. destruct (negb (index =? -1)); [|reflexivity].
  cbn [ret]. destruct (array_get (spelldata h) index); reflexivity.
Qed.

Lemma spell_title_seek : forall h spell g,
  spell_title h spell g
  = match seek h (spell_list g) spell with
    | Some data => Some (title data, g)
    | None => None
    end.
Proof.
  intros h spell g. unfold spell_title, bind. rewrite seekspell_seek.
  destruct (seek h (spell_list g) spell); reflexivity.
Qed.

Lemma spell_difficulty_seek : forall h spell g,
  spell_difficulty h spell g
  = match seek h (spell_list g) spell with
    | Some data => Some (level data, g)
    | None => None
    end.
Proof.
  intros h spell g. unfold spell_difficulty, bind. rewrite seekspell_seek.
  destruct (seek h (spell_list g) spell); reflexivity.
Qed.

Lemma seek_In : forall h l spell data,
  seek h l spell = Some data -> In data (spelldata h).
Proof.
  intros h l spell data H. unfold seek in H.
  destruct ((0 <=? spell_id h spell)
            && (spell_id h spell <? spell_id h NUM_SPELLS)); [|discriminate].
  destruct (array_get l (spell_id h spell)) as [index|]; [|discriminate].
  destruct (negb (index =? -1)); [|discriminate].
  eapply array_get_In; eassumption.
Qed.

Lemma list_set_nth_error : forall (A : Type) (l : list A) n a,
  nth_error l n = Some a -> list_set l n a = l.
Proof.
  intros A l. induction l as [|x rest IH]; intros [|n] a H; cbn in *;
    try discriminate.
  - now injection H as ->.
  - now rewrite IH.
Qed.

(** The loop of [del_spell_from_memory_by_slot] frees the letters of the
    slot and no other. *)
Lemma forget_letters_spec : forall n j slot g g',
  forget_letters n j slot g = Some (tt, g') ->
  0 <= j ->
  exists t,
    g' = set_spell_letter_table t g
    /\ List.length t = List.length (spell_letter_table g)
    /\ forall k x,
         array_get (spell_letter_table g) k = Some x ->
         array_get t k
         = Some (if (j <=? k) && (k <? j + Z.of_nat n) && (x =? slot)
                 then -1 else x).
Proof.
  intro n. induction n as [|n IH]; intros j slot g g' H Hj.
  - injection H as <-. exists (spell_letter_table g).
    split; [destruct g; reflexivity|]. split; [reflexivity|].
    intros k x Hk. rewrite Hk.
    destruct (Z.leb_spec j k); destruct (Z.ltb_spec k (j + Z.of_nat 0));
      try reflexivity. lia.
  - cbn [forget_letters] in H.
    apply bind_Some' in H as (g0 & g1 & Hget & H). injection Hget as <- <-.
    apply bind_Some' in H as (s & g0 & Hs & H).
    apply lift_Some in Hs as [Hs ->].
    apply bind_Some' in H as ([] & g1 & Hclear & H).
    assert (g1 = set_spell_letter_table
                   (list_set (spell_letter_table g) (Z.to_nat j)
                      (if s =? slot then -1 else s)) g) as ->.
    { destruct (s =? slot).
      - apply bind_Some' in Hclear as (l & g2 & Hset & Hclear).
        apply lift_Some in Hset as [Hset ->].
        apply array_set_spec in Hset as [_ ->]. now injection Hclear as <-.
      - injection Hclear as <-.
        unfold array_get in Hs. destruct (j <? 0); [discriminate|].
        rewrite list_set_nth_error by exact Hs. destruct g; reflexivity. }
    apply IH in H as (t & -> & Hlen & Hspec); [|lia].
    cbn [spell_letter_table set_spell_letter_table] in *.
    exists t. split; [destruct g; reflexivity|].
    split; [now rewrite Hlen, list_set_length'|].
    intros k x Hk.
    pose proof (array_get_range _ _ _ _ Hk) as Hk0.
    pose proof (array_get_range _ _ _ _ Hs) as Hj0.
    specialize (Hspec k). rewrite array_get_list_set in Hspec by lia.
    destruct (Z.eqb_spec k j) as [Heq|Hne].
    + subst k. rewrite Hs in Hk. injection Hk as ->.
      rewrite (Hspec _ eq_refl).
      destruct (Z.leb_spec (j + 1) j); [lia|].
      destruct (Z.leb_spec j j); [|lia].
      destruct (Z.ltb_spec j (j + Z.of_nat (S n))); [|lia].
      reflexivity.
    + rewrite (Hspec _ Hk).
      destruct (Z.leb_spec (j + 1) k); destruct (Z.leb_spec j k);
        destruct (Z.ltb_spec k (j + 1 + Z.of_nat n));
        destruct (Z.ltb_spec k (j + Z.of_nat (S n)));
        try reflexivity; lia.
Qed.

Lemma forget_letters_total : forall n j slot g,
  0 <= j ->
  j + Z.of_nat n <= Z.of_nat (List.length (spell_letter_table g)) ->
  exists g', forget_letters n j slot g = Some (tt, g').
Proof.
  intro n. induction n as [|n IH]; intros j slot g Hj Hlen.
  - eexists. reflexivity.
  - cbn [forget_letters]. unfold bind at 1. cbn [get].
    destruct (array_get_in_range _ (spell_letter_table g) j) as [s Hs];
      [lia|].
    unfold bind at 1. rewrite Hs. cbn [lift ret].
    unfold bind at 1.
    destruct (s =? slot).
    + unfold bind at 1. rewrite array_set_in_range by lia. cbn [lift ret modify].
      apply IH; [lia|].
      cbn [spell_letter_table set_spell_letter_table].
      rewrite list_set_length'. lia.
    + cbn [ret]. apply IH; lia.
Qed.

(** What [del_spell_from_memory_by_slot] has done when it returns. *)
Lemma del_spell_from_memory_by_slot_spec : forall h slot g r g',
  del_spell_from_memory_by_slot h slot g = Some (r, g') ->
  exists s data name t,
    r = true
    /\ 0 <= slot < MAX_KNOWN_SPELLS h
    /\ array_get (spells g) slot = Some s
    /\ seek h (spell_list g) s = Some data
    /\ title data = Some name
    /\ List.length t = List.length (spell_letter_table g)
    /\ (forall k x,
          array_get (spell_letter_table g) k = Some x ->
          array_get t k
          = Some (if (k <? 52) && (x =? slot) then -1 else x))
    /\ g' = mk_game (you g)
              (list_set (spells g) (Z.to_nat slot) SPELL_NO_SPELL)
              t (spell_no g - 1)
              (if spell_eqb (last_cast_spell g) s then SPELL_NO_SPELL
               else last_cast_spell g)
              (spell_list g)
              (log g ++ [spell_skills_stop_train s;
                         mprf ("Your memory of " ++ name ++ " unravels.")]).
Proof.
  intros h slot g r g' H. unfold del_spell_from_memory_by_slot in H.
  apply bind_Some' in H as ([] & g0 & Hrange & H).
  apply ASSERT_Some in Hrange as [Hrange ->].
  apply bind_Some' in H as (g0 & g1 & Hget & H). injection Hget as <- <-.
  apply bind_Some' in H as (s & g0 & Hs & H).
  apply lift_Some in Hs as [Hs ->].
  apply bind_Some' in H as ([] & g1 & Hlast & H).
  assert (g1 = set_last_cast_spell
                 (if spell_eqb (last_cast_spell g) s then SPELL_NO_SPELL
                  else last_cast_spell g) g) as ->.
  { destruct (spell_eqb (last_cast_spell g) s).
    - now injection Hlast as <-.
    - injection Hlast as <-. destruct g; reflexivity. }
  apply bind_Some' in H as ([] & g1 & Hsay & H). injection Hsay as <-.
  apply bind_Some' in H as (stitle & g1 & Htitle & H).
  rewrite spell_title_seek in Htitle.
  cbn [spell_list set_log set_last_cast_spell] in Htitle.
  destruct (seek h (spell_list g) s) as [data|] eqn:Hseek; [|discriminate].
  injection Htitle as <- <-.
  apply bind_Some' in H as (name & g1 & Hname & H).
  apply lift_Some in Hname as [Hname ->].
  apply bind_Some' in H as ([] & g1 & Hsay & H). injection Hsay as <-.
  apply bind_Some' in H as (l & g1 & Hset & H).
  apply lift_Some in Hset as [Hset ->].
  apply array_set_spec in Hset as [Hslot ->].
  apply bind_Some' in H as ([] & g1 & Hmod & H). injection Hmod as <-.
  apply bind_Some' in H as ([] & g1 & Hforget & H).
  apply forget_letters_spec in Hforget as (t & -> & Hlen & Hspec); [|lia].
  cbv [bind modify ret] in H. injection H as <- <-.
  cbn in Hlen, Hspec.
  exists s, data, name, t.
  apply andb_true_iff in Hrange as [Hlo Hhi].
  apply Z.leb_le in Hlo. apply Z.ltb_lt in Hhi.
  split; [reflexivity|]. split; [lia|]. split; [exact Hs|].
  split; [exact Hseek|]. split; [exact Hname|]. split; [exact Hlen|].
  split.
  - intros k x Hk. rewrite (Hspec _ _ Hk).
    pose proof (array_get_range _ _ _ _ Hk).
    destruct (Z.leb_spec 0 k); [|lia]. reflexivity.
  - cbn. rewrite <- !app_assoc. reflexivity.
Qed.

Lemma del_spell_from_memory_by_slot_total : forall h slot g s data name,
  0 <= slot < MAX_KNOWN_SPELLS h ->
  array_get (spells g) slot = Some s ->
  seek h (spell_list g) s = Some data ->
  title data = Some name ->
  (52 <= List.length (spell_letter_table g))%nat ->
  exists g', del_spell_from_memory_by_slot h slot g = Some (true, g').
Proof.
  intros h slot g s data name Hslot Hs Hseek Hname Htable.
  unfold del_spell_from_memory_by_slot.
  unfold bind at 1.
  destruct (Z.leb_spec 0 slot); [|lia].
  destruct (Z.ltb_spec slot (MAX_KNOWN_SPELLS h)); [|lia].
  cbn [andb ASSERT ret].
  unfold bind at 1. cbn [get].
  unfold bind at 1. rewrite Hs. cbn [lift ret].
  unfold bind at 1.
  set (g1 := set_last_cast_spell
               (if spell_eqb (last_cast_spell g) s then SPELL_NO_SPELL
                else last_cast_spell g) g).
  assert ((if spell_eqb (last_cast_spell g) s
           then modify (set_last_cast_spell SPELL_NO_SPELL)
           else ret tt) g = Some (tt, g1)) as ->.
  { unfold g1. destruct (spell_eqb (last_cast_spell g) s); [reflexivity|].
    destruct g; reflexivity. }
  unfold bind at 1. cbn [say modify].
  unfold bind at 1. rewrite spell_title_seek.
  cbn [spell_list set_log]. unfold g1 at 1. cbn [spell_list set_last_cast_spell].
  rewrite Hseek, Hname.
  unfold bind at 1. cbn [lift ret].
  unfold bind at 1. cbn [say modify].
  unfold bind at 1.
  pose proof (array_get_range _ _ _ _ Hs) as Hr.
  rewrite array_set_in_range by lia. cbn [lift ret].
  unfold bind at 1. cbn [modify].
  unfold bind at 1.
  match goal with
  | |- context [forget_letters 52 0 slot ?g2] =>
      destruct (forget_letters_total 52 0 slot g2) as [g3 ->];
        [lia|cbn; lia|]
  end.
  eexists. reflexivity.
Qed.

(** X22.  [del_spell_from_memory] returns false, and changes nothing,
    exactly when the spell is in no slot of [you.spells].  When it returns
    true, the first slot that held the spell is empty and the others hold
    what they held, no letter among the 52 of [you.spell_letter_table] is
    bound to that slot and the other letters are bound as before,
    [you.spell_no] is one less, and [you.last_cast_spell] is
    SPELL_NO_SPELL if it was the spell. *)
Theorem del_spell_from_memory_forgets :
  forall (h : headers) (spell : spell_type) (g g' : game) (r : bool),
  del_spell_from_memory h spell g = Some (r, g') ->
  (r = false <-> ~ In spell (spells g))
  /\ (r = false -> g' = g)
  /\ (r = true ->
        exists slot,
          array_get (spells g) slot = Some spell
          /\ (forall k, 0 <= k < slot -> array_get (spells g) k <> Some spell)
          /\ array_get (spells g') slot = Some SPELL_NO_SPELL
          /\ (forall k, k <> slot ->
                array_get (spells g') k = array_get (spells g) k)
          /\ (forall k x,
                array_get (spell_letter_table g) k = Some x ->
                array_get (spell_letter_table g') k
                = Some (if (k <? 52) && (x =? slot) then -1 else x))
          /\ spell_no g' = spell_no g - 1
          /\ last_cast_spell g'
             = (if spell_eqb (last_cast_spell g) spell then SPELL_NO_SPELL
                else last_cast_spell g)).
Proof.
  intros h spell g g' r H. unfold del_spell_from_memory in H.
  apply bind_Some' in H as (i & g0 & Hslot & H).
  injection Hslot as <- <-.
  destruct (find_spell_spec (spells g) spell 0)
    as [[Hfind Hnot]|[(n & Hfind & Hn & Hfirst)|Hneg]]; [| |lia].
  - rewrite Hfind in H. injection H as <- <-.
    split; [tauto|]. split; [reflexivity|discriminate].
  - rewrite Hfind in H. cbn [Z.add] in H.
    destruct (Z.eqb_spec (Z.of_nat n) (-1)); [lia|].
    apply del_spell_from_memory_by_slot_spec in H
      as (s & data & name & t & -> & Hrange & Hs & _ & _ & Hlen & Hspec & ->).
    assert (array_get (spells g) (Z.of_nat n) = Some spell) as Hspell.
    { unfold array_get. destruct (Z.ltb_spec (Z.of_nat n) 0); [lia|].
      now rewrite Nat2Z.id. }
    assert (s = spell) as -> by congruence.
    split.
    { split; [discriminate|]. intro Hnot. exfalso.
      apply Hnot. eapply nth_error_In. eassumption. }
    split; [discriminate|]. intros _.
    exists (Z.of_nat n). cbn [spells spell_letter_table spell_no last_cast_spell].
    pose proof (array_get_range _ _ _ _ Hs) as Hr.
    split; [exact Hspell|]. split.
    { intros k Hk Hat. apply (Hfirst (Z.to_nat k)); [lia|].
      unfold array_get in Hat. now destruct (k <? 0). }
    split.
    { rewrite array_get_list_set by lia. now rewrite Z.eqb_refl. }
    split.
    { intros k Hk. unfold array_get at 1 2.
      destruct (Z.ltb_spec k 0); [reflexivity|].
      rewrite nth_error_list_set'.
      destruct (Nat.eqb_spec (Z.to_nat k) (Z.to_nat (Z.of_nat n)));
        [lia|reflexivity]. }
    split; [exact Hspec|]. split; reflexivity.
Qed.

Lemma find_spell_list_set : forall l spell n i,
  ~ In spell l -> (n < List.length l)%nat ->
  find_spell (list_set l n spell) spell i = i + Z.of_nat n.
Proof.
  intros l spell. induction l as [|s rest IH]; intros n i Hnot Hn.
  - cbn in Hn. lia.
  - destruct n as [|n]; cbn [list_set find_spell]; unfold spell_eqb.
    + destruct (spell_eq_dec spell spell); [cbn; lia|contradiction].
    + destruct (spell_eq_dec s spell) as [->|_].
      * exfalso. apply Hnot. now left.
      * rewrite IH; [lia| |cbn in Hn; lia].
        intro Hin. apply Hnot. now right.
Qed.

Lemma list_set_list_set : forall (A : Type) (l : list A) n a b,
  list_set (list_set l n a) n b = list_set l n b.
Proof.
  intros A l. induction l as [|x rest IH]; intros [|n] a b; cbn;
    try reflexivity.
  now rewrite IH.
Qed.

(** X23.  Learning a spell that is not in the memory and forgetting it
    again: [del_spell_from_memory] returns true after
    [add_spell_to_memory], and [you.spells] and [you.spell_no] are what
    they were; the letter that was bound to the spell is free. *)
Theorem add_then_del_spell_from_memory :
  forall (h : headers) (spell : spell_type) (g g1 : game) (r : bool),
  Z.of_nat (List.length (spells g)) = MAX_KNOWN_SPELLS h ->
  List.length (spell_letter_table g) = 52%nat ->
  ~ In spell (spells g) ->
  add_spell_to_memory h spell g = Some (r, g1) ->
  exists g2,
    del_spell_from_memory h spell g1 = Some (true, g2)
    /\ spells g2 = spells g
    /\ spell_no g2 = spell_no g
    /\ (forall k x,
          array_get (spell_letter_table g1) k = Some x ->
          array_get (spells g1) x = Some spell ->
          array_get (spell_letter_table g2) k = Some (-1)).
Proof.
  intros h spell g g1 r Hsize Htable Hnot H.
  apply add_spell_to_memory_spec in H
    as (i & j & t & name & -> & Htitle & Hslot & Hi & Hj & Hlen & Hkeep
        & Hg1 & _).
  rewrite spell_title_seek in Htitle.
  destruct (seek h (spell_list g) spell) as [data|] eqn:Hseek;
    [|discriminate].
  injection Htitle as Htitle.
  apply free_spell_slot_spec in Hslot as (_ & _ & Hat).
  specialize (Hat ltac:(lia)).
  assert (find_spell (spells g1) spell 0 = i) as Hfind.
  { rewrite Hg1. cbn [spells]. rewrite find_spell_list_set by (auto; lia).
    lia. }
  assert (array_get (spells g1) i = Some spell) as Hspell.
  { rewrite Hg1. cbn [spells]. rewrite array_get_list_set by lia.
    now rewrite Z.eqb_refl. }
  destruct (del_spell_from_memory_by_slot_total h i g1 spell data name)
    as [g2 Hdel]; [lia|exact Hspell| |exact Htitle| |].
  { rewrite Hg1. exact Hseek. }
  { rewrite Hg1. cbn [spell_letter_table]. rewrite list_set_length'. lia. }
  exists g2. split.
  { unfold del_spell_from_memory, _get_spell_slot, bind, get, ret.
    rewrite Hfind. destruct (Z.eqb_spec i (-1)); [lia|exact Hdel]. }
  apply del_spell_from_memory_by_slot_spec in Hdel
    as (s & data' & name' & t' & _ & _ & Hs & _ & _ & Hlen' & Hspec & ->).
  cbn [spells spell_no spell_letter_table].
  split.
  { rewrite Hg1. cbn [spells]. rewrite list_set_list_set.
    apply list_set_nth_error. unfold array_get in Hat.
    now destruct (i <? 0). }
  split; [rewrite Hg1; cbn [spell_no]; lia|].
  intros k x Hk Hx. rewrite (Hspec _ _ Hk).
  pose proof (array_get_range _ _ _ _ Hk) as Hkr.
  rewrite Hg1 in Hkr at 1. cbn [spell_letter_table] in Hkr.
  rewrite list_set_length', Hlen, Htable in Hkr.
  destruct (Z.ltb_spec k 52); [|lia].
  assert (x = i) as ->.
  { rewrite Hg1 in Hx. cbn [spells] in Hx.
    pose proof (array_get_range _ _ _ _ Hx) as Hxr.
    rewrite list_set_length' in Hxr.
    rewrite array_get_list_set in Hx by lia.
    destruct (Z.eqb_spec x i); [assumption|].
    exfalso. apply Hnot. eapply array_get_In. eassumption. }
  now rewrite Z.eqb_refl.
Qed.

(** ** Costs and ranges *)

Lemma basehunger_bounds : forall level,
  1 <= level <= 9 ->
  let hunger :=
    if (level <? 10) && (level >? 0)
    then nth (Z.to_nat (level - 1))
           [ 50; 100; 150; 250; 400; 550; 700; 850; 1000 ] 0
    else Z.quot (nth 0 [ 50; 100; 150; 250; 400; 550; 700; 850; 1000 ] 0
                 * level * level) 4 in
  50 <= hunger <= 1000 /\ 5 * level <= hunger.
Proof.
  intros level Hlevel.
  assert (level = 1 \/ level = 2 \/ level = 3 \/ level = 4 \/ level = 5
          \/ level = 6 \/ level = 7 \/ level = 8 \/ level = 9)
    as [E|[E|[E|[E|[E|[E|[E|[E|E]]]]]]]] by lia;
    subst level; cbv zeta; (split; [split|]); apply Z.leb_le; reflexivity.
Qed.

(** X24.  [init_spell_descs] accepts levels from 1 to 9 only.  With such
    a spell table and skills that are not negative, the hunger that
    [spell_hunger] returns is between 0 and 1000; it is 0 for a player
    who casts from energy, and for a rod it is at least five times the
    level of the spell otherwise. *)
Theorem spell_hunger_bounds :
  forall (h : headers) (which_spell : spell_type) (rod : bool)
         (g g' : game) (hunger : Z),
  (forall data, In data (spelldata h) -> 1 <= level data <= 9) ->
  (forall sk scale, 0 <= skill (you g) sk scale) ->
  spell_hunger h which_spell rod g = Some (hunger, g') ->
  g' = g
  /\ 0 <= hunger <= 1000
  /\ (player_energy (you g) = true -> hunger = 0)
  /\ (player_energy (you g) = false -> rod = true ->
      exists data,
        seek h (spell_list g) which_spell = Some data
        /\ 5 * level data <= hunger).
Proof.
  intros h which_spell rod g g' hunger Hlevels Hskill H.
  unfold spell_hunger in H.
  apply bind_Some' in H as (g0 & g1 & Hget & H). injection Hget as <- <-.
  destruct (player_energy (you g)) eqn:Henergy.
  - injection H as <- <-. split; [reflexivity|]. split; [lia|].
    split; [reflexivity|discriminate].
  - apply bind_Some' in H as (lvl & g1 & Hlvl & H).
    rewrite spell_difficulty_seek in Hlvl.
    destruct (seek h (spell_list g) which_spell) as [data|] eqn:Hseek;
      [|discriminate].
    injection Hlvl as <- <-.
    pose proof (Hlevels data (seek_In _ _ _ _ Hseek)) as Hlevel.
    pose proof (Hskill SK_EVOCATIONS 10) as Hevo.
    pose proof (Hskill SK_SPELLCASTING (intel (you g))) as Hcast.
    pose proof (basehunger_bounds (level data) Hlevel) as Hbase.
    cbv zeta in Hbase.
    match type of Hbase with
    | _ <= ?e <= _ /\ _ => set (base := e) in H, Hbase
    end.
    clearbody base.
    assert (forall x, (if x <? 0 then 0 else x) = Z.max 0 x) as Hclamp.
    { intro x. destruct (Z.ltb_spec x 0); lia. }
    rewrite Hclamp in H.
    injection H as <- <-. split; [reflexivity|].
    split; [|split; [discriminate|]].
    + destruct rod; lia.
    + intros _ ->. exists data. split; [reflexivity|]. lia.
Qed.

(** X25.  Fireball and Delayed Fireball share their levels: whichever of
    the two is learnt first, [spell_levels_required] asks for the levels
    of Delayed Fireball for both together, and Fireball is free for a
    player who knows Delayed Fireball. *)
Theorem spell_levels_required_fireballs :
  forall (h : headers) (g0 gF gD : game) (a b c d : Z),
  spell_list gF = spell_list g0 ->
  spell_list gD = spell_list g0 ->
  has_spell (you g0) SPELL_FIREBALL = false ->
  has_spell (you g0) SPELL_DELAYED_FIREBALL = false ->
  has_spell (you gF) SPELL_FIREBALL = true ->
  has_spell (you gD) SPELL_DELAYED_FIREBALL = true ->
  spell_levels_required h SPELL_FIREBALL g0 = Some (a, g0) ->
  spell_levels_required h SPELL_DELAYED_FIREBALL gF = Some (b, gF) ->
  spell_levels_required h SPELL_DELAYED_FIREBALL g0 = Some (c, g0) ->
  spell_levels_required h SPELL_FIREBALL gD = Some (d, gD) ->
  a + b = c /\ c + d = c.
Proof.
  intros h g0 gF gD a b c d HlF HlD H0F H0D HF HD Ha Hb Hc Hd.
  unfold spell_levels_required, bind, get, ret in Ha, Hb, Hc, Hd.
  rewrite !spell_difficulty_seek in Ha, Hb, Hc, Hd.
  rewrite ?HlF, ?HlD in *.
  change (spell_eqb SPELL_FIREBALL SPELL_DELAYED_FIREBALL) with false in *.
  change (spell_eqb SPELL_FIREBALL SPELL_FIREBALL) with true in *.
  change (spell_eqb SPELL_DELAYED_FIREBALL SPELL_DELAYED_FIREBALL)
    with true in *.
  change (spell_eqb SPELL_DELAYED_FIREBALL SPELL_FIREBALL) with false in *.
  cbn [andb] in *.
  rewrite ?H0F, ?H0D, ?HF, ?HD in *.
  destruct (seek h (spell_list g0) SPELL_FIREBALL) as [fb|] eqn:Efb;
    [|discriminate].
  destruct (seek h (spell_list g0) SPELL_DELAYED_FIREBALL) as [dfb|];
    [|discriminate].
  rewrite ?spell_difficulty_seek, ?HlF, ?Efb in Hb.
  injection Ha as <-. injection Hb as <-. injection Hc as <-.
  injection Hd as <-. lia.
Qed.

Lemma readonly_spell_range_varies : forall h spell,
  readonly (_spell_range_varies h spell).
Proof.
  intros h spell. unfold _spell_range_varies.
  repeat first [apply readonly_seekspell | readonly_step].
Qed.

Lemma readonly_spell_power_cap : forall h spell,
  readonly (spell_power_cap h spell).
Proof.
  intros h spell. unfold spell_power_cap.
  repeat first [apply readonly_seekspell | apply readonly_spell_range_varies
                | readonly_step].
Qed.

(** The rounded share of the range that the power buys. *)
Lemma range_share_bounds : forall pow powercap width,
  0 <= pow < powercap -> 0 <= width ->
  0 <= Z.quot (pow * width + Z.quot powercap 2) powercap <= width.
Proof.
  intros pow powercap width Hpow Hwidth.
  assert (0 <= Z.quot powercap 2 < powercap) as Hhalf.
  { rewrite Z.quot_div_nonneg by lia.
    split; [apply Z.div_pos; lia|apply Z.div_lt; lia]. }
  rewrite Z.quot_div_nonneg by nia.
  split.
  - apply Z.div_pos; nia.
  - apply Z.lt_succ_r, Z.div_lt_upper_bound; nia.
Qed.

(** X26.  For a power that is not negative, [spell_range] returns the
    maximal range of a spell without range (a negative one); otherwise
    the range it returns is not beyond the vision of the player, not
    below the minimal range of the spell unless the vision is, and at
    most two above its maximal range. *)
Theorem spell_range_bounds :
  forall (h : headers) (spell : spell_type) (pow : Z) (player_spell : bool)
         (g g' : game) (range : Z),
  0 <= pow ->
  spell_range h spell pow player_spell g = Some (range, g') ->
  g' = g
  /\ exists data,
       seek h (spell_list g) spell = Some data
       /\ (max_range data < 0 -> range = max_range data)
       /\ (0 <= max_range data ->
           Z.min (min_range data) (current_vision (you g)) <= range
           /\ range <= current_vision (you g)
           /\ range <= max_range data + 2).
Proof.
  intros h spell pow player_spell g g' range Hpow H.
  unfold spell_range in H.
  apply bind_Some' in H as (data & g0 & Hdata & H).
  rewrite seekspell_seek in Hdata.
  destruct (seek h (spell_list g) spell) as [data0|] eqn:Hseek;
    [|discriminate].
  injection Hdata as <- <-.
  apply bind_Some' in H as (data' & g0 & Hdata' & H).
  rewrite seekspell_seek, Hseek in Hdata'. injection Hdata' as <- <-.
  apply bind_Some' in H as ([] & g0 & Horder & H).
  apply ASSERT_Some in Horder as [Horder ->].
  apply Z.geb_le in Horder.
  destruct (Z.ltb_spec (max_range data0) 0) as [Hneg|Hpos].
  { injection H as <- <-. split; [reflexivity|]. exists data0.
    split; [reflexivity|]. split; [reflexivity|lia]. }
  apply bind_Some' in H as (g0 & g1 & Hget & H). injection Hget as <- <-.
  cbv zeta in H.
  set (rocks := spell_eqb spell SPELL_SANDBLAST && wielding_rocks (you g))
    in H.
  set (maxrange1 := if rocks then max_range data0 + 1 else max_range data0)
    in H.
  set (minrange1 := if rocks then min_range data0 + 1 else min_range data0)
    in H.
  set (vehumet := player_spell && vehumet_supports_spell (you g) spell
                  && vehumet_in_good_standing (you g) && (maxrange1 >? 1)
                  && negb (spell_eqb spell SPELL_GLACIATE)) in H.
  set (maxrange2 := if vehumet then maxrange1 + 1 else maxrange1) in H.
  set (minrange2 := if vehumet then minrange1 + 1 else minrange1) in H.
  assert (min_range data0 <= minrange2 <= maxrange2
          /\ maxrange2 <= max_range data0 + 2) as Hadjusted.
  { unfold minrange2, maxrange2, minrange1, maxrange1.
    destruct rocks; destruct vehumet; lia. }
  clearbody minrange2 maxrange2.
  assert (g' = g
          /\ Z.min (min_range data0) (current_vision (you g)) <= range
          /\ range <= current_vision (you g)
          /\ range <= max_range data0 + 2) as (-> & Hrange).
  { destruct (Z.eqb_spec minrange2 maxrange2) as [Heq|Hne].
    - injection H as <- <-. split; [reflexivity|]. lia.
    - apply bind_Some' in H as (powercap & g0 & Hcap & H).
      apply readonly_spell_power_cap in Hcap. subst g0.
      destruct (Z.leb_spec powercap pow).
      + injection H as <- <-. split; [reflexivity|]. lia.
      + apply bind_Some' in H as ([] & g0 & Hzero & H).
        apply ASSERT_Some in Hzero as [_ ->].
        injection H as <- <-. split; [reflexivity|].
        pose proof (range_share_bounds pow powercap (maxrange2 - minrange2))
          as Hshare.
        specialize (Hshare ltac:(lia) ltac:(lia)). lia. }
  split; [reflexivity|]. exists data0. split; [reflexivity|].
  split; [lia|]. intros _. exact Hrange.
Qed.

(** ** Function applicators *)

Section ApplicatorFacts.

Variable W : Type.
Variable coord_def : Type.
Variable monster : Type.
Variable monster_eq_dec : forall a b : monster, {a = b} + {a <> b}.
Variable monster_at : coord_def -> W -> option monster.

Lemma apply_monsters_loop_spec :
  forall mf squares rv affected w rv' affected' w',
  apply_monsters_loop W coord_def monster monster_eq_dec monster_at
    mf squares rv affected w = (rv', affected', w') ->
  NoDup affected ->
  NoDup affected'
  /\ (exists fresh, affected' = fresh ++ affected
        /\ (List.length fresh <= List.length squares)%nat)
  /\ ((forall mon w0, fst (mf mon w0) = 1) ->
      rv' - rv
      = Z.of_nat (List.length affected') - Z.of_nat (List.length affected)).
Proof.
  intros mf squares.
  induction squares as [|ri rest IH];
    intros rv affected w rv' affected' w' H Hnodup.
  - injection H as <- <- <-. split; [exact Hnodup|].
    split; [exists []; split; [reflexivity|cbn; lia]|]. intros _. lia.
  - cbn [apply_monsters_loop] in H.
    destruct (monster_at ri w) as [mon|].
    + destruct (in_dec monster_eq_dec mon affected) as [Hin|Hnot].
      * apply IH in H as (Hnodup' & (fresh & -> & Hlen) & Hcount);
          [|exact Hnodup].
        split; [exact Hnodup'|]. split; [|exact Hcount].
        exists fresh. split; [reflexivity|cbn; lia].
      * apply IH in H as (Hnodup' & (fresh & -> & Hlen) & Hcount);
          [|now constructor].
        split; [exact Hnodup'|]. split.
        -- exists (fresh ++ [mon]). rewrite <- app_assoc.
           split; [reflexivity|]. rewrite length_app. cbn. lia.
        -- intros Hone. specialize (Hcount Hone). rewrite Hone in Hcount.
           cbn [List.length] in Hcount. lia.
    + apply IH in H as (Hnodup' & (fresh & -> & Hlen) & Hcount);
        [|exact Hnodup].
      split; [exact Hnodup'|]. split; [|exact Hcount].
      exists fresh. split; [reflexivity|cbn; lia].
Qed.

End ApplicatorFacts.

(** X27.  [apply_monsters_around_square] applies the function to no
    monster twice, also when a monster shows up on several squares while
    the loop runs: the monsters affected are pairwise different and not
    more than the squares; when the function returns 1 for every monster,
    the result is the number of monsters affected. *)
Theorem apply_monsters_around_square_once :
  forall (W coord_def monster : Type)
         (monster_eq_dec : forall a b : monster, {a = b} + {a <> b})
         (monster_at : coord_def -> W -> option monster)
         (mf : monster -> W -> Z * W) (squares : list coord_def) (w w' : W)
         (rv : Z) (affected : list monster),
  apply_monsters_around_square W coord_def monster monster_eq_dec monster_at
    mf squares w = (rv, affected, w') ->
  NoDup affected
  /\ (List.length affected <= List.length squares)%nat
  /\ ((forall mon w0, fst (mf mon w0) = 1) ->
      rv = Z.of_nat (List.length affected)).
Proof.
  intros W coord_def monster monster_eq_dec monster_at mf squares w w' rv
         affected H.
  unfold apply_monsters_around_square in H.
  apply apply_monsters_loop_spec in H
    as (Hnodup & (fresh & -> & Hlen) & Hcount); [|constructor].
  split; [exact Hnodup|]. split; [rewrite app_nil_r; exact Hlen|].
  intros Hone. specialize (Hcount Hone). cbn [List.length] in Hcount. lia.
Qed.

(** * Samples

    A numbering of the schools and of the spells, a spell table of five
    entries, and a caster whose memory is empty. *)

Definition sample_exponent (i : Z) : spschool_flag_type :=
  nth (Z.to_nat i) schools_in_order SPTYP_NONE.

Definition sample_spells : list spell_type :=
  [ SPELL_NO_SPELL; SPELL_FIRE_STORM; SPELL_HELLFIRE_BURST;
    SPELL_DELAYED_FIREBALL; SPELL_FIREBALL; SPELL_SANDBLAST; SPELL_GLACIATE;
    SPELL_MEPHITIC_CLOUD; SPELL_VIOLENT_UNRAVELLING; SPELL_LRD;
    SPELL_CONJURE_BALL_LIGHTNING; SPELL_BEASTLY_APPENDAGE; SPELL_BLADE_HANDS;
    SPELL_DRAGON_FORM; SPELL_HYDRA_FORM; SPELL_ICE_FORM; SPELL_SPIDER_FORM;
    SPELL_STATUE_FORM; SPELL_NECROMUTATION; SPELL_OZOCUBUS_ARMOUR;
    SPELL_LEDAS_LIQUEFACTION; SPELL_STONESKIN; SPELL_CONDENSATION_SHIELD;
    SPELL_BLINK; SPELL_CONTROLLED_BLINK; SPELL_SWIFTNESS; SPELL_INVISIBILITY;
    SPELL_DARKNESS; SPELL_REPEL_MISSILES; SPELL_REGENERATION;
    SPELL_PORTAL_PROJECTILE; SPELL_WARP_BRAND; SPELL_EXCRUCIATING_WOUNDS;
    SPELL_SPECTRAL_WEAPON; SPELL_BORGNJORS_REVIVIFICATION; SPELL_DEATHS_DOOR;
    SPELL_CURE_POISON; SPELL_SUBLIMATION_OF_BLOOD; SPELL_TORNADO;
    SPELL_MALIGN_GATEWAY; SPELL_SUMMON_FOREST; SPELL_ANIMATE_DEAD;
    SPELL_ANIMATE_SKELETON; SPELL_TWISTED_RESURRECTION; SPELL_CONTROL_UNDEAD;
    SPELL_DEATH_CHANNEL; SPELL_SIMULACRUM; SPELL_SUMMON_SMALL_MAMMAL;
    SPELL_SUMMON_HORRIBLE_THINGS; SPELL_HAUNT; SPELL_SUMMON_ICE_BEAST;
    SPELL_CALL_IMP; SPELL_SUMMON_GREATER_DEMON; SPELL_SHADOW_CREATURES;
    SPELL_CALL_CANINE_FAMILIAR; SPELL_SUMMON_DRAGON;
    SPELL_SUMMON_BUTTERFLIES; SPELL_MONSTROUS_MENAGERIE; SPELL_SUMMON_HYDRA;
    SPELL_SUMMON_MINOR_DEMON; SPELL_SUMMON_LIGHTNING_SPIRE;
    SPELL_SUMMON_GUARDIAN_GOLEM; SPELL_DRAGON_CALL; SPELL_SUMMON_MANA_VIPER;
    SPELL_APPORTATION; SPELL_CONJURE_FLAME; SPELL_PASSWALL;
    SPELL_GOLUBRIAS_PASSAGE; SPELL_FULMINANT_PRISM; SPELL_CHAIN_LIGHTNING;
    SPELL_OZOCUBUS_REFRIGERATION; SPELL_OLGREBS_TOXIC_RADIANCE;
    SPELL_FREEZING_CLOUD; SPELL_POISONOUS_CLOUD; SPELL_HOLY_BREATH;
    SPELL_RANDOM_BOLT; NUM_SPELLS ].

Definition sample_spell_id (spell : spell_type) : Z :=
  match spell with
  | SPELL_OTHER raw => raw
  | _ => find_spell sample_spells spell 0
  end.

Definition sample_spell_of_int (i : Z) : spell_type :=
  if i <? 0 then SPELL_OTHER i
  else nth (Z.to_nat i) sample_spells (SPELL_OTHER i).

Definition two_schools (a b : spschool_flag_type) : spschools_type :=
  fun s => one_school a s || one_school b s.

Definition sample_spelldata : list spell_desc :=
  [ mk_spell_desc SPELL_NO_SPELL (Some "nonexistent spell"%string)
      (fun _ => false) 0 1 0 (-1) (-1) 0 0 None;
    mk_spell_desc SPELL_FIREBALL (Some "Fireball"%string)
      (two_schools SPTYP_CONJURATION SPTYP_FIRE) 1 5 200 5 5 5 0 None;
    mk_spell_desc SPELL_DELAYED_FIREBALL (Some "Delayed Fireball"%string)
      (two_schools SPTYP_FIRE SPTYP_CONJURATION) 0 7 0 (-1) (-1) 7 0 None;
    mk_spell_desc SPELL_SANDBLAST (Some "Sandblast"%string)
      (one_school SPTYP_EARTH) 1 1 50 2 4 1 0 None;
    mk_spell_desc SPELL_BLINK (Some "Blink"%string)
      (one_school SPTYP_TRANSLOCATION) 0 2 0 (-1) (-1) 2 0 None ].

Definition sample_headers : headers :=
  {| spell_id := sample_spell_id;
     spell_of_int := sample_spell_of_int;
     spelldata := sample_spelldata;
     MAX_KNOWN_SPELLS := 21;
     SPFLAG_TARGETING_MASK := 15;
     SPFLAG_MONSTER := 4096;
     SPFLAG_HELPFUL := 8192;
     SPFLAG_NEUTRAL := 16384;
     SPFLAG_AREA := 64;
     exponent := sample_exponent |}.

(** A caster with rocks in hand who has sacrificed fire magic. *)
Definition sample_caster : player :=
  {| num_turns := 1;
     auto_spell_letters := [];
     isaalpha := sample_isaalpha;
     letter_to_index := sample_letter_to_index;
     index_to_letter := sample_index_to_letter;
     lowercase_string := fun s => s;
     is_player_spell := fun _ => true;
     player_energy := false;
     skill := fun _ _ => 30;
     intel := 10;
     has_spell := fun _ => false;
     current_vision := 7;
     wielding_rocks := true;
     vehumet_supports_spell := fun _ => false;
     vehumet_in_good_standing := false;
     spell_zap_power_cap := fun _ => 0;
     explosion_noise := fun size => 10 * size;
     player_mutation_level :=
       fun m => if mutation_eqb m MUT_NO_FIRE_MAGIC then 1 else 0 |}.

(** The same caster who knows the spells for which [known] holds. *)
Definition sample_caster_knowing (known : spell_type -> bool) : player :=
  {| num_turns := 1;
     auto_spell_letters := [];
     isaalpha := sample_isaalpha;
     letter_to_index := sample_letter_to_index;
     index_to_letter := sample_index_to_letter;
     lowercase_string := fun s => s;
     is_player_spell := fun _ => true;
     player_energy := false;
     skill := fun _ _ => 30;
     intel := 10;
     has_spell := known;
     current_vision := 7;
     wielding_rocks := true;
     vehumet_supports_spell := fun _ => false;
     vehumet_in_good_standing := false;
     spell_zap_power_cap := fun _ => 0;
     explosion_noise := fun size => 10 * size;
     player_mutation_level :=
       fun m => if mutation_eqb m MUT_NO_FIRE_MAGIC then 1 else 0 |}.

(** Before [init_spell_descs]. *)
Definition sample_start : game :=
  {| you := sample_caster;
     spells := repeat SPELL_NO_SPELL 21;
     spell_letter_table := repeat (-1) 52;
     spell_no := 0;
     last_cast_spell := SPELL_NO_SPELL;
     spell_list := [];
     log := [] |}.

(** The result of a computation on a game; the game itself if the
    computation stops the program. *)
Definition after {A : Type} (m : M A) (g : game) : game :=
  match m g with
  | Some (_, g') => g'
  | None => g
  end.

(** After [init_spell_descs]. *)
Definition sample_memory : game :=
  after (init_spell_descs sample_headers) sample_start.

(** After Fireball was learnt, and after it was forgotten again. *)
Definition sample_memory_fireball : game :=
  after (add_spell_to_memory sample_headers SPELL_FIREBALL) sample_memory.

Definition sample_memory_forgotten : game :=
  after (del_spell_from_memory sample_headers SPELL_FIREBALL)
    sample_memory_fireball.

(** A memory without an empty slot. *)
Definition sample_memory_full : game :=
  set_spells (repeat SPELL_BLINK 21) sample_memory.

(** The caster who knows Fireball and the one who knows Delayed
    Fireball. *)
Definition sample_knows_fireball : game :=
  mk_game (sample_caster_knowing (spell_eqb SPELL_FIREBALL))
    (spells sample_memory_fireball)
    (spell_letter_table sample_memory_fireball) 1 SPELL_NO_SPELL
    (spell_list sample_memory) [].

Definition sample_knows_delayed_fireball : game :=
  mk_game (sample_caster_knowing (spell_eqb SPELL_DELAYED_FIREBALL))
    (list_set (spells sample_memory) 0 SPELL_DELAYED_FIREBALL)
    (list_set (spell_letter_table sample_memory) 0 0) 1 SPELL_NO_SPELL
    (spell_list sample_memory) [].

Lemma sample_levels : forall data,
  In data (spelldata sample_headers) -> 1 <= level data <= 9.
Proof.
  intros data [<-|[<-|[<-|[<-|[<-|[]]]]]]; cbn; lia.
Qed.

Lemma arcane_mutation_to_skill_schools_witness :
  arcane_mutation_to_skill sample_headers MUT_NO_FIRE_MAGIC
  = Some SK_FIRE_MAGIC
  /\ cannot_use_schools sample_headers sample_caster (one_school SPTYP_FIRE)
     = Some true
  /\ cannot_use_schools sample_headers sample_caster
       (one_school SPTYP_DIVINATION)
     = Some false.
Proof.
  destruct (arcane_mutation_to_skill_schools sample_headers sample_caster
              MUT_NO_FIRE_MAGIC) as (Hskill & Hschool & Hdivination).
  - intros i _. reflexivity.
  - split; [exact Hskill|]. split; [|exact Hdivination].
    apply Hschool. discriminate.
Defined.

Lemma init_spell_descs_registers_witness :
  init_spell_descs sample_headers sample_start = Some (tt, sample_memory)
  /\ is_valid_spell sample_headers SPELL_SANDBLAST sample_memory
     = Some (true, sample_memory)
  /\ exists data,
       _seekspell sample_headers SPELL_SANDBLAST sample_memory
       = Some (data, sample_memory)
       /\ In data (spelldata sample_headers)
       /\ spell_id sample_headers (id data)
          = spell_id sample_headers SPELL_SANDBLAST
       /\ entry_ok sample_headers data.
Proof.
  assert (init_spell_descs sample_headers sample_start
          = Some (tt, sample_memory)) as H by (vm_compute; reflexivity).
  destruct (init_spell_descs_registers sample_headers sample_start
              sample_memory H) as (_ & Hseek & Hvalid).
  assert (is_valid_spell sample_headers SPELL_SANDBLAST sample_memory
          = Some (true, sample_memory)) as Hsandblast.
  { apply (Hvalid (mk_spell_desc SPELL_SANDBLAST (Some "Sandblast"%string)
                     (one_school SPTYP_EARTH) 1 1 50 2 4 1 0 None)).
    - cbn. tauto.
    - vm_compute. reflexivity. }
  split; [exact H|]. split; [exact Hsandblast|].
  apply Hseek. exact Hsandblast.
Defined.

Lemma add_spell_to_memory_remembers_witness :
  add_spell_to_memory sample_headers SPELL_FIREBALL sample_memory
  = Some (true, sample_memory_fireball)
  /\ spell_no sample_memory_fireball = spell_no sample_memory + 1.
Proof.
  assert (add_spell_to_memory sample_headers SPELL_FIREBALL sample_memory
          = Some (true, sample_memory_fireball)) as H
    by (vm_compute; reflexivity).
  split; [exact H|].
  apply (add_spell_to_memory_remembers sample_headers SPELL_FIREBALL
           sample_memory sample_memory_fireball true).
  - reflexivity.
  - exact H.
Defined.

Lemma add_spell_to_memory_full_witness :
  add_spell_to_memory sample_headers SPELL_FIREBALL sample_memory_full = None.
Proof.
  apply (add_spell_to_memory_full sample_headers SPELL_FIREBALL
           sample_memory_full).
  - reflexivity.
  - intro H. apply repeat_spec in H. discriminate.
Defined.

Lemma del_spell_from_memory_forgets_witness :
  del_spell_from_memory sample_headers SPELL_FIREBALL sample_memory_fireball
  = Some (true, sample_memory_forgotten)
  /\ del_spell_from_memory sample_headers SPELL_BLINK sample_memory_fireball
     = Some (false, sample_memory_fireball)
  /\ (false = false <-> ~ In SPELL_BLINK (spells sample_memory_fireball)).
Proof.
  assert (del_spell_from_memory sample_headers SPELL_BLINK
            sample_memory_fireball
          = Some (false, sample_memory_fireball)) as H
    by (vm_compute; reflexivity).
  split; [vm_compute; reflexivity|]. split; [exact H|].
  apply (del_spell_from_memory_forgets sample_headers SPELL_BLINK
           sample_memory_fireball sample_memory_fireball false H).
Defined.

Lemma add_then_del_spell_from_memory_witness :
  exists g2,
    del_spell_from_memory sample_headers SPELL_FIREBALL sample_memory_fireball
    = Some (true, g2)
    /\ spells g2 = spells sample_memory
    /\ spell_no g2 = spell_no sample_memory
    /\ (forall k x,
          array_get (spell_letter_table sample_memory_fireball) k = Some x ->
          array_get (spells sample_memory_fireball) x = Some SPELL_FIREBALL ->
          array_get (spell_letter_table g2) k = Some (-1)).
Proof.
  apply (add_then_del_spell_from_memory sample_headers SPELL_FIREBALL
           sample_memory sample_memory_fireball true).
  - reflexivity.
  - reflexivity.
  - intro H. apply repeat_spec in H. discriminate.
  - vm_compute. reflexivity.
Defined.

Lemma spell_hunger_bounds_witness :
  spell_hunger sample_headers SPELL_FIREBALL false sample_memory
  = Some (370, sample_memory)
  /\ 0 <= 370 <= 1000.
Proof.
  assert (spell_hunger sample_headers SPELL_FIREBALL false sample_memory
          = Some (370, sample_memory)) as H by (vm_compute; reflexivity).
  split; [exact H|].
  apply (spell_hunger_bounds sample_headers SPELL_FIREBALL false sample_memory
           sample_memory 370 sample_levels).
  - intros sk scale. vm_compute. discriminate.
  - exact H.
Defined.

Lemma spell_levels_required_fireballs_witness :
  spell_levels_required sample_headers SPELL_DELAYED_FIREBALL
    sample_knows_fireball
  = Some (2, sample_knows_fireball)
  /\ spell_levels_required sample_headers SPELL_FIREBALL
       sample_knows_delayed_fireball
     = Some (0, sample_knows_delayed_fireball)
  /\ 5 + 2 = 7 /\ 7 + 0 = 7.
Proof.
  split; [vm_compute; reflexivity|]. split; [vm_compute; reflexivity|].
  apply (spell_levels_required_fireballs sample_headers sample_memory
           sample_knows_fireball sample_knows_delayed_fireball 5 2 7 0);
    vm_compute; reflexivity.
Defined.

Lemma spell_range_bounds_witness :
  spell_range sample_headers SPELL_SANDBLAST 10 true sample_memory
  = Some (3, sample_memory)
  /\ exists data,
       seek sample_headers (spell_list sample_memory) SPELL_SANDBLAST
       = Some data
       /\ (max_range data < 0 -> 3 = max_range data)
       /\ (0 <= max_range data ->
           Z.min (min_range data) (current_vision (you sample_memory)) <= 3
           /\ 3 <= current_vision (you sample_memory)
           /\ 3 <= max_range data + 2).
Proof.
  assert (spell_range sample_headers SPELL_SANDBLAST 10 true sample_memory
          = Some (3, sample_memory)) as H by (vm_compute; reflexivity).
  split; [exact H|].
  apply (spell_range_bounds sample_headers SPELL_SANDBLAST 10 true
           sample_memory sample_memory 3).
  - lia.
  - exact H.
Defined.

(** Squares numbered by integers: the monsters 0 and 1 take turns on the
    squares from 0 on, the squares before are empty; every monster
    counts 1. *)
Lemma apply_monsters_around_square_once_witness :
  apply_monsters_around_square unit Z Z Z.eq_dec
    (fun square _ => if square <? 0 then None else Some (square mod 2))
    (fun _ w => (1, w)) [0; 1; 2; 3; -1] tt
  = (2, [1; 0], tt)
  /\ NoDup [1; 0]
  /\ (List.length [1; 0]%Z <= List.length [0; 1; 2; 3; -1]%Z)%nat.
Proof.
  assert (apply_monsters_around_square unit Z Z Z.eq_dec
            (fun square _ => if square <? 0 then None else Some (square mod 2))
            (fun _ w => (1, w)) [0; 1; 2; 3; -1] tt
          = (2, [1; 0], tt)) as H by (vm_compute; reflexivity).
  split; [exact H|].
  destruct (apply_monsters_around_square_once unit Z Z Z.eq_dec _ _ _ _ _ _ _
              H) as (Hnodup & Hlen & _).
  split; assumption.
Defined.
